(** * A shallow embedding of the reactivity core and of the job scheduler

    Three source files are modelled, one module each:

    - [Effect]: packages/reactivity/src/effect.ts together with dep.ts
      (dependency sets with their bit markers, the effect life cycle,
      track and trigger);
    - [Scheduler]: packages/runtime-core/src/scheduler.ts (the job queue,
      its binary-search insertion and the drain);
    - [DeferredComputed]: packages/reactivity/src/deferredComputed.ts.

    JavaScript objects live in stores indexed by a natural number (their
    identity); user functions (an effect's [fn], its [scheduler], a job's
    body) are scripts of calls into the modelled API, run by an interpreter
    that takes fuel because user code may loop for ever. *)

From Stdlib Require Import String.
From Stdlib Require Import List ZArith Lia Bool Arith PeanoNat.
From Stdlib Require Import Sorting.Sorted Sorting.Permutation.
Import ListNotations.

(** ** JavaScript 32-bit integer arithmetic

    The bitwise operators of JavaScript convert their operands to signed
    32-bit integers and wrap the result; a shift count is taken modulo 32. *)

Definition toInt32 (z : Z) : Z :=
  let u := (z mod 2 ^ 32)%Z in
  if (u <? 2 ^ 31)%Z then u else (u - 2 ^ 32)%Z.

Definition js_shl (a count : Z) : Z :=
  toInt32 (Z.shiftl (toInt32 a) (count mod 32)).

Definition js_or (a b : Z) : Z := toInt32 (Z.lor (toInt32 a) (toInt32 b)).

Definition js_and (a b : Z) : Z := toInt32 (Z.land (toInt32 a) (toInt32 b)).

Definition js_not (a : Z) : Z := toInt32 (Z.lnot (toInt32 a)).

(** A store of objects addressed by identity, and its update. *)
Definition upd {A : Type} (f : nat -> A) (k : nat) (v : A) : nat -> A :=
  fun x => if Nat.eqb x k then v else f x.

(** [new Set(xs)] keeps the first occurrence of every element, in order. *)
Fixpoint dedupInto (seen xs : list nat) : list nat :=
  match xs with
  | [] => seen
  | x :: rest =>
      if existsb (Nat.eqb x) seen then dedupInto seen rest
      else dedupInto (seen ++ [x]) rest
  end.

Definition dedup (xs : list nat) : list nat := dedupInto [] xs.

(** A JavaScript [Map] as an association list in insertion order. *)
Fixpoint alist_get {K V : Type} (eqb : K -> K -> bool) (k : K)
    (m : list (K * V)) : option V :=
  match m with
  | [] => None
  | (k', v) :: rest => if eqb k' k then Some v else alist_get eqb k rest
  end.

Fixpoint alist_set {K V : Type} (eqb : K -> K -> bool) (k : K) (v : V)
    (m : list (K * V)) : list (K * V) :=
  match m with
  | [] => [(k, v)]
  | (k', v') :: rest =>
      if eqb k' k then (k', v) :: rest else (k', v') :: alist_set eqb k v rest
  end.

Module Effect.

(** ** Data model *)

Definition EffectId := nat.
Definition DepId := nat.

Inductive TargetKind := PlainObject | ArrayTarget | MapTarget | SetTarget.

(** A reactive target: its identity and what [isArray] / [isMap] see. *)
Record Target := mkTarget { tid : nat; tkind : TargetKind }.

Definition isArray (t : Target) : bool :=
  match tkind t with ArrayTarget => true | _ => false end.

Definition isMap (t : Target) : bool :=
  match tkind t with MapTarget => true | _ => false end.

Definition TargetKind_eqb (a b : TargetKind) : bool :=
  match a, b with
  | PlainObject, PlainObject | ArrayTarget, ArrayTarget
  | MapTarget, MapTarget | SetTarget, SetTarget => true
  | _, _ => false
  end.

Definition Target_eqb (a b : Target) : bool :=
  Nat.eqb (tid a) (tid b) && TargetKind_eqb (tkind a) (tkind b).

(** Property keys.  A string key is kept by what the comparison
    [key >= newLength] makes of it: ["length"], the canonical decimal
    string of an index [i] (a number), or any other name (not a number, so
    every comparison with it is false).  Symbols are the fourth kind; the
    two sentinels of effect.ts are symbols. *)
Inductive Key :=
| KLength
| KIndex (i : N)
| KProp (name : string)
| KSymbol (id : nat).

Definition ITERATE_KEY : Key := KSymbol 0.
Definition MAP_KEY_ITERATE_KEY : Key := KSymbol 1.

Definition Key_eqb (a b : Key) : bool :=
  match a, b with
  | KLength, KLength => true
  | KIndex i, KIndex j => N.eqb i j
  | KProp x, KProp y => String.eqb x y
  | KSymbol x, KSymbol y => Nat.eqb x y
  | _, _ => false
  end.

(** [isIntegerKey] of @vue/shared: a string that is the decimal writing of
    a non-negative integer. *)
Definition isIntegerKey (k : option Key) : bool :=
  match k with Some (KIndex _) => true | _ => false end.

Inductive TrackOpTypes := GET | HAS | ITERATE.
Inductive TriggerOpTypes := SET | ADD | DELETE | CLEAR.

(** What a user function may do: the calls into the API of effect.ts. *)
Inductive Op :=
| OTrack (target : Target) (type : TrackOpTypes) (key : Key)
| OTrigger (target : Target) (type : TriggerOpTypes) (key : option Key)
           (newValue : option Z)
| ORun (e : EffectId)
| OStop (e : EffectId)
| OPauseTracking
| OEnableTracking
| OResetTracking
| OThrow.

(** dep.ts: [Dep = Set<ReactiveEffect> & TrackedMarkers].  The set is kept
    in insertion order, as a JavaScript Set iterates. *)
Record Dep := mkDep { members : list EffectId; w : Z; n : Z }.

Record ReactiveEffect := mkEffect {
  active : bool;
  deps : list DepId;
  parent : option EffectId;
  computed : bool;
  allowRecurse : bool;
  deferStop : bool;
  onStop : bool;
  fn : list Op;
  scheduler : option (list Op)
}.

(** What the trace records: a call of an effect's [fn], of its
    [scheduler], of its [onStop] hook, and [triggerEffect] letting an effect
    through its guard. *)
Inductive Event :=
| EvFn (e : EffectId)
| EvScheduler (e : EffectId)
| EvOnStop (e : EffectId)
| EvFire (e : EffectId).

(** The module-level variables of effect.ts, the two object stores and the
    trace. *)
Record State := mkState {
  effects : EffectId -> ReactiveEffect;
  depStore : DepId -> Dep;
  nextDep : DepId;
  targetMap : list (Target * list (Key * DepId));
  effectTrackDepth : Z;
  trackOpBit : Z;
  activeEffect : option EffectId;
  shouldTrack : bool;
  trackStack : list bool;
  log : list Event
}.

Inductive Outcome := Normal | Thrown.

Definition maxMarkerBits : Z := 30.

(** *** Field updates *)

Definition setEffects (s : State) (v : EffectId -> ReactiveEffect) : State :=
  mkState v (depStore s) (nextDep s) (targetMap s) (effectTrackDepth s)
          (trackOpBit s) (activeEffect s) (shouldTrack s) (trackStack s) (log s).

Definition setDepStore (s : State) (v : DepId -> Dep) : State :=
  mkState (effects s) v (nextDep s) (targetMap s) (effectTrackDepth s)
          (trackOpBit s) (activeEffect s) (shouldTrack s) (trackStack s) (log s).

Definition setNextDep (s : State) (v : DepId) : State :=
  mkState (effects s) (depStore s) v (targetMap s) (effectTrackDepth s)
          (trackOpBit s) (activeEffect s) (shouldTrack s) (trackStack s) (log s).

Definition setTargetMap (s : State) (v : list (Target * list (Key * DepId))) : State :=
  mkState (effects s) (depStore s) (nextDep s) v (effectTrackDepth s)
          (trackOpBit s) (activeEffect s) (shouldTrack s) (trackStack s) (log s).

Definition setEffectTrackDepth (s : State) (v : Z) : State :=
  mkState (effects s) (depStore s) (nextDep s) (targetMap s) v
          (trackOpBit s) (activeEffect s) (shouldTrack s) (trackStack s) (log s).

Definition setTrackOpBit (s : State) (v : Z) : State :=
  mkState (effects s) (depStore s) (nextDep s) (targetMap s) (effectTrackDepth s)
          v (activeEffect s) (shouldTrack s) (trackStack s) (log s).

Definition setActiveEffect (s : State) (v : option EffectId) : State :=
  mkState (effects s) (depStore s) (nextDep s) (targetMap s) (effectTrackDepth s)
          (trackOpBit s) v (shouldTrack s) (trackStack s) (log s).

Definition setShouldTrack (s : State) (v : bool) : State :=
  mkState (effects s) (depStore s) (nextDep s) (targetMap s) (effectTrackDepth s)
          (trackOpBit s) (activeEffect s) v (trackStack s) (log s).

Definition setTrackStack (s : State) (v : list bool) : State :=
  mkState (effects s) (depStore s) (nextDep s) (targetMap s) (effectTrackDepth s)
          (trackOpBit s) (activeEffect s) (shouldTrack s) v (log s).

Definition emit (ev : Event) (s : State) : State :=
  mkState (effects s) (depStore s) (nextDep s) (targetMap s) (effectTrackDepth s)
          (trackOpBit s) (activeEffect s) (shouldTrack s) (trackStack s)
          (log s ++ [ev]).

Definition withActive (r : ReactiveEffect) (v : bool) : ReactiveEffect :=
  mkEffect v (deps r) (parent r) (computed r) (allowRecurse r) (deferStop r)
           (onStop r) (fn r) (scheduler r).

Definition withDeps (r : ReactiveEffect) (v : list DepId) : ReactiveEffect :=
  mkEffect (active r) v (parent r) (computed r) (allowRecurse r) (deferStop r)
           (onStop r) (fn r) (scheduler r).

Definition withParent (r : ReactiveEffect) (v : option EffectId) : ReactiveEffect :=
  mkEffect (active r) (deps r) v (computed r) (allowRecurse r) (deferStop r)
           (onStop r) (fn r) (scheduler r).

Definition withDeferStop (r : ReactiveEffect) (v : bool) : ReactiveEffect :=
  mkEffect (active r) (deps r) (parent r) (computed r) (allowRecurse r) v
           (onStop r) (fn r) (scheduler r).

Definition updEffect (s : State) (e : EffectId)
    (f : ReactiveEffect -> ReactiveEffect) : State :=
  setEffects s (upd (effects s) e (f (effects s e))).

(** ** dep.ts *)

Definition dep_has (e : EffectId) (d : Dep) : bool :=
  existsb (Nat.eqb e) (members d).

Definition dep_add (e : EffectId) (d : Dep) : Dep :=
  if dep_has e d then d else mkDep (members d ++ [e]) (w d) (n d).

Definition dep_delete (e : EffectId) (d : Dep) : Dep :=
  mkDep (filter (fun x => negb (Nat.eqb x e)) (members d)) (w d) (n d).

Definition createDep (effs : list EffectId) : Dep := mkDep (dedup effs) 0 0.

Definition wasTracked (bit : Z) (d : Dep) : bool := (js_and (w d) bit >? 0)%Z.

Definition newTracked (bit : Z) (d : Dep) : bool := (js_and (n d) bit >? 0)%Z.

(** [deps[i].w |= trackOpBit] for every dep of the effect. *)
Fixpoint initLoop (bit : Z) (ds : list DepId) (store : DepId -> Dep)
  : DepId -> Dep :=
  match ds with
  | [] => store
  | d :: rest =>
      let dep := store d in
      initLoop bit rest (upd store d (mkDep (members dep) (js_or (w dep) bit) (n dep)))
  end.

Definition initDepMarkers (e : EffectId) (s : State) : State :=
  match deps (effects s e) with
  | [] => s
  | ds => setDepStore s (initLoop (trackOpBit s) ds (depStore s))
  end.

(** The sweep of [finalizeDepMarkers]: [kept] is [deps[0..ptr)], the part
    of the array already compacted. *)
Fixpoint finalizeLoop (e : EffectId) (bit : Z) (ds : list DepId)
    (store : DepId -> Dep) (kept : list DepId) : (DepId -> Dep) * list DepId :=
  match ds with
  | [] => (store, kept)
  | d :: rest =>
      let dep := store d in
      let drop := wasTracked bit dep && negb (newTracked bit dep) in
      let dep1 := if drop then dep_delete e dep else dep in
      let kept1 := if drop then kept else kept ++ [d] in
      let dep2 := mkDep (members dep1) (js_and (w dep1) (js_not bit))
                        (js_and (n dep1) (js_not bit)) in
      finalizeLoop e bit rest (upd store d dep2) kept1
  end.

Definition finalizeDepMarkers (e : EffectId) (s : State) : State :=
  match deps (effects s e) with
  | [] => s
  | ds =>
      let '(store, kept) := finalizeLoop e (trackOpBit s) ds (depStore s) [] in
      updEffect (setDepStore s store) e (fun r => withDeps r kept)
  end.

(** ** effect.ts: cleanup, stop, the tracking switch *)

Fixpoint cleanupLoop (e : EffectId) (ds : list DepId) (store : DepId -> Dep)
  : DepId -> Dep :=
  match ds with
  | [] => store
  | d :: rest => cleanupLoop e rest (upd store d (dep_delete e (store d)))
  end.

Definition cleanupEffect (e : EffectId) (s : State) : State :=
  match deps (effects s e) with
  | [] => s
  | ds =>
      updEffect (setDepStore s (cleanupLoop e ds (depStore s))) e
                (fun r => withDeps r [])
  end.

Definition isActiveEffect (s : State) (e : EffectId) : bool :=
  match activeEffect s with
  | Some a => Nat.eqb a e
  | None => false
  end.

(** [ReactiveEffect.stop].  The [onStop] hook is a notification: the
    trace records it. *)
Definition stop (e : EffectId) (s : State) : State :=
  if isActiveEffect s e then updEffect s e (fun r => withDeferStop r true)
  else if active (effects s e) then
    let s1 := cleanupEffect e s in
    let s2 := if onStop (effects s1 e) then emit (EvOnStop e) s1 else s1 in
    updEffect s2 e (fun r => withActive r false)
  else s.

(** [Array.prototype.pop]: the last element, or [None] for [undefined]. *)
Definition array_pop {A : Type} (l : list A) : option A * list A :=
  match rev l with
  | [] => (None, [])
  | x :: r => (Some x, rev r)
  end.

Definition pauseTracking (s : State) : State :=
  setShouldTrack (setTrackStack s (trackStack s ++ [shouldTrack s])) false.

Definition enableTracking (s : State) : State :=
  setShouldTrack (setTrackStack s (trackStack s ++ [shouldTrack s])) true.

Definition resetTracking (s : State) : State :=
  let '(last, rest) := array_pop (trackStack s) in
  setShouldTrack (setTrackStack s rest)
                 (match last with None => true | Some b => b end).


(** ** effect.ts: track *)

(** [dep.add(activeEffect); activeEffect.deps.push(dep)]. *)
Definition subscribe (a : EffectId) (d : DepId) (s : State) : State :=
  updEffect (setDepStore s (upd (depStore s) d (dep_add a (depStore s d)))) a
            (fun r => withDeps r (deps r ++ [d])).

(** [trackEffects]; [track] calls it only while an effect is active. *)
Definition trackEffects (d : DepId) (s : State) : State :=
  match activeEffect s with
  | None => s
  | Some a =>
      if (effectTrackDepth s <=? maxMarkerBits)%Z then
        if negb (newTracked (trackOpBit s) (depStore s d)) then
          let dep := depStore s d in
          let dep' := mkDep (members dep) (w dep) (js_or (n dep) (trackOpBit s)) in
          let s1 := setDepStore s (upd (depStore s) d dep') in
          if negb (wasTracked (trackOpBit s) dep') then subscribe a d s1 else s1
        else s
      else if negb (dep_has a (depStore s d)) then subscribe a d s
      else s
  end.

Definition track (target : Target) (type : TrackOpTypes) (key : Key)
    (s : State) : State :=
  if shouldTrack s && (match activeEffect s with Some _ => true | None => false end)
  then
    let '(depsMap, s1) :=
      match alist_get Target_eqb target (targetMap s) with
      | Some m => (m, s)
      | None => ([], setTargetMap s (alist_set Target_eqb target [] (targetMap s)))
      end in
    match alist_get Key_eqb key depsMap with
    | Some d => trackEffects d s1
    | None =>
        let d := nextDep s1 in
        let s2 := setTargetMap s1
                    (alist_set Target_eqb target
                       (alist_set Key_eqb key d depsMap) (targetMap s1)) in
        let s3 := setNextDep (setDepStore s2 (upd (depStore s2) d (createDep []))) (S d) in
        trackEffects d s3
    end
  else s.

(** ** effect.ts: trigger *)

(** [key >= newLength] for a key of the depsMap.  [newLength] is
    [Number(newValue)], [None] standing for NaN.  Converting a symbol to a
    number raises a TypeError: the result is then [None]. *)
Definition key_ge (k : Key) (newLength : option Z) : option bool :=
  match k with
  | KSymbol _ => None
  | KIndex i =>
      Some (match newLength with
            | Some l => (l <=? Z.of_N i)%Z
            | None => false
            end)
  | KLength | KProp _ => Some false
  end.

(** The [depsMap.forEach] of the ["length"] branch; [None] when the
    callback throws. *)
Fixpoint lengthDeps (newLength : option Z) (depsMap : list (Key * DepId))
  : option (list (option DepId)) :=
  match depsMap with
  | [] => Some []
  | (k, d) :: rest =>
      match (if Key_eqb k KLength then Some true else key_ge k newLength) with
      | None => None
      | Some b =>
          match lengthDeps newLength rest with
          | None => None
          | Some ds => Some (if b then Some d :: ds else ds)
          end
      end
  end.

(** The candidate list [deps] that [trigger] assembles; an entry is [None]
    where [depsMap.get] found nothing. *)
Definition collectDeps (target : Target) (type : TriggerOpTypes)
    (key : option Key) (newValue : option Z) (depsMap : list (Key * DepId))
  : option (list (option DepId)) :=
  match type with
  | CLEAR => Some (map (fun kv => Some (snd kv)) depsMap)
  | _ =>
      if (match key with Some KLength => true | _ => false end) && isArray target
      then lengthDeps newValue depsMap
      else
        let get := fun k => alist_get Key_eqb k depsMap in
        let own := match key with Some k => [get k] | None => [] end in
        let iter :=
          match type with
          | ADD =>
              if negb (isArray target) then
                get ITERATE_KEY ::
                  (if isMap target then [get MAP_KEY_ITERATE_KEY] else [])
              else if isIntegerKey key then [get KLength] else []
          | DELETE =>
              if negb (isArray target) then
                get ITERATE_KEY ::
                  (if isMap target then [get MAP_KEY_ITERATE_KEY] else [])
              else []
          | SET => if isMap target then [get ITERATE_KEY] else []
          | CLEAR => []
          end in
        Some (own ++ iter)
  end.

Definition depEffects (s : State) (od : option DepId) : list EffectId :=
  match od with
  | Some d => members (depStore s d)
  | None => []
  end.

(** The effects handed to [triggerEffects]: the one dep when there is
    exactly one candidate, the merged [createDep(effects)] otherwise. *)
Definition triggerList (s : State) (ds : list (option DepId)) : list EffectId :=
  match ds with
  | [od] => depEffects s od
  | _ => members (createDep (flat_map (depEffects s) ds))
  end.

(** ** effect.ts: run, and the interpreter of user functions *)

(** The [while (parent)] loop of [run]: is [this] on the chain that starts
    at [p]?  [None] when [k] links were followed without reaching the end. *)
Fixpoint parentChainHas (k : nat) (effs : EffectId -> ReactiveEffect)
    (p : option EffectId) (this : EffectId) : option bool :=
  match p with
  | None => Some false
  | Some q =>
      if Nat.eqb q this then Some true
      else match k with
           | 0 => None
           | S k' => parentChainHas k' effs (parent (effs q)) this
           end
  end.

(** The [try] block of [run] up to the call of [fn]. *)
Definition enter (e : EffectId) (s : State) : State :=
  let s1 := updEffect s e (fun r => withParent r (activeEffect s)) in
  let s2 := setShouldTrack (setActiveEffect s1 (Some e)) true in
  let depth := (effectTrackDepth s2 + 1)%Z in
  let s3 := setTrackOpBit (setEffectTrackDepth s2 depth) (js_shl 1 depth) in
  if (effectTrackDepth s3 <=? maxMarkerBits)%Z then initDepMarkers e s3
  else cleanupEffect e s3.

(** The [finally] block of [run]. *)
Definition leave (e : EffectId) (lastShouldTrack : bool) (s : State) : State :=
  let s1 := if (effectTrackDepth s <=? maxMarkerBits)%Z
            then finalizeDepMarkers e s else s in
  let depth := (effectTrackDepth s1 - 1)%Z in
  let s2 := setTrackOpBit (setEffectTrackDepth s1 depth) (js_shl 1 depth) in
  let s3 := setShouldTrack (setActiveEffect s2 (parent (effects s2 e)))
                           lastShouldTrack in
  let s4 := updEffect s3 e (fun r => withParent r None) in
  if deferStop (effects s4 e) then stop e s4 else s4.

Section Interpreter.

(** [fuel] bounds the walk up the parent chain; [exec] runs the body of
    a user function. *)
Variable fuel : nat.
Variable exec : State -> list Op -> option (Outcome * State).

Definition callFn (e : EffectId) (s : State) : option (Outcome * State) :=
  exec (emit (EvFn e) s) (fn (effects s e)).

Definition run (e : EffectId) (s : State) : option (Outcome * State) :=
  if negb (active (effects s e)) then callFn e s
  else
    match parentChainHas fuel (effects s) (activeEffect s) e with
    | None => None
    | Some true => Some (Normal, s)
    | Some false =>
        let lastShouldTrack := shouldTrack s in
        match callFn e (enter e s) with
        | None => None
        | Some (o, s') => Some (o, leave e lastShouldTrack s')
        end
    end.

Definition triggerEffect (e : EffectId) (s : State) : option (Outcome * State) :=
  if negb (isActiveEffect s e) || allowRecurse (effects s e) then
    let s1 := emit (EvFire e) s in
    match scheduler (effects s1 e) with
    | Some body => exec (emit (EvScheduler e) s1) body
    | None => run e s1
    end
  else Some (Normal, s).

(** One [for (const effect of effects)] loop of [triggerEffects]. *)
Fixpoint triggerPass (wantComputed : bool) (effs : list EffectId)
    (s : State) : option (Outcome * State) :=
  match effs with
  | [] => Some (Normal, s)
  | e :: rest =>
      if Bool.eqb (computed (effects s e)) wantComputed then
        match triggerEffect e s with
        | Some (Normal, s') => triggerPass wantComputed rest s'
        | r => r
        end
      else triggerPass wantComputed rest s
  end.

Definition triggerEffects (effs : list EffectId) (s : State)
  : option (Outcome * State) :=
  match triggerPass true effs s with
  | Some (Normal, s') => triggerPass false effs s'
  | r => r
  end.

Definition trigger (target : Target) (type : TriggerOpTypes)
    (key : option Key) (newValue : option Z) (s : State)
  : option (Outcome * State) :=
  match alist_get Target_eqb target (targetMap s) with
  | None => Some (Normal, s)
  | Some depsMap =>
      match collectDeps target type key newValue depsMap with
      | None => Some (Thrown, s)
      | Some ds => triggerEffects (triggerList s ds) s
      end
  end.

Definition step (op : Op) (s : State) : option (Outcome * State) :=
  match op with
  | OTrack target type key => Some (Normal, track target type key s)
  | OTrigger target type key newValue => trigger target type key newValue s
  | ORun e => run e s
  | OStop e => Some (Normal, stop e s)
  | OPauseTracking => Some (Normal, pauseTracking s)
  | OEnableTracking => Some (Normal, enableTracking s)
  | OResetTracking => Some (Normal, resetTracking s)
  | OThrow => Some (Thrown, s)
  end.

End Interpreter.

(** Runs a sequence of calls; an exception ends it.  [None]: out of fuel. *)
Fixpoint exec (fuel : nat) (s : State) (ops : list Op)
: option (Outcome * State) :=
match fuel with
| 0 => None
| S f =>
    match ops with
    | [] => Some (Normal, s)
    | op :: rest =>
        match step f (exec f) op s with
        | Some (Normal, s') => exec f s' rest
        | r => r
        end
    end
end.

(** What [new ReactiveEffect(fn, scheduler)] and the options attached to
  it fix. *)
Record EffectDecl := mkDecl {
d_fn : list Op;
d_scheduler : option (list Op);
d_computed : bool;
d_allowRecurse : bool;
d_onStop : bool
}.

Definition newEffect (d : EffectDecl) : ReactiveEffect :=
mkEffect true [] None (d_computed d) (d_allowRecurse d) false (d_onStop d)
         (d_fn d) (d_scheduler d).

(** The state of the module after loading, with the effects of a program
  created and none of them run yet ([lazy]). *)
Definition initialState (decls : EffectId -> EffectDecl) : State :=
mkState (fun e => newEffect (decls e)) (fun _ => createDep []) 0 [] 0 1
        None true [] [].

(** ** The invariant of the dependency graph

    [L] is the stack of running effects, the active one first; it is what
    the [parent] pointers spell out from [activeEffect]. *)

Inductive Chain (effs : EffectId -> ReactiveEffect)
  : option EffectId -> list EffectId -> Prop :=
| Chain_nil : Chain effs None []
| Chain_cons : forall e l,
    Chain effs (parent (effs e)) l -> Chain effs (Some e) (e :: l).

(** While an effect runs in marker mode at depth [k], each of its deps
    carries the bit of that depth in [w] or in [n]. *)
Definition markedAt (k : Z) (store : DepId -> Dep) (ds : list DepId) : Prop :=
  (k <= maxMarkerBits)%Z ->
  forall d, In d ds ->
    Z.testbit (w (store d)) k || Z.testbit (n (store d)) k = true.

Fixpoint Marked (effs : EffectId -> ReactiveEffect) (store : DepId -> Dep)
    (L : list EffectId) : Prop :=
  match L with
  | [] => True
  | x :: L' =>
      markedAt (Z.of_nat (length L)) store (deps (effs x))
      /\ Marked effs store L'
  end.

(** I1 of the specification: [D] is in [E.deps] exactly when [E] is a
    member of [D]. *)
Definition Bidirectional (s : State) : Prop :=
  forall e d, In d (deps (effects s e)) <-> In e (members (depStore s d)).

Record Inv (L : list EffectId) (s : State) : Prop := mkInv {
  inv_chain : Chain (effects s) (activeEffect s) L;
  inv_nodup : NoDup L;
  inv_off : forall e, ~ In e L -> parent (effects s e) = None;
  inv_depth : effectTrackDepth s = Z.of_nat (length L);
  inv_bit : trackOpBit s = js_shl 1 (effectTrackDepth s);
  inv_I1 : Bidirectional s;
  inv_ND : forall e, NoDup (deps (effects s e));
  inv_alloc : forall e d, In d (deps (effects s e)) -> d < nextDep s;
  inv_tm : forall t m k d,
      In (t, m) (targetMap s) -> In (k, d) m -> d < nextDep s;
  inv_marked : Marked (effects s) (depStore s) L
}.

(** An effect that has been stopped for good: inactive, subscribed to
    nothing, and neither running nor the parent of a running effect. *)
Record Stopped (e : EffectId) (s : State) : Prop := mkStopped {
  st_inactive : active (effects s e) = false;
  st_nodeps : deps (effects s e) = [];
  st_nowhere : forall d, ~ In e (members (depStore s d));
  st_notactive : activeEffect s <> Some e;
  st_notparent : forall x, parent (effects s x) <> Some e
}.

(** ** What the theorems are stated with *)

(** The sweep, for a list of deps without repetition: a dep is dropped by
    what its markers said before the sweep. *)
Definition swept (bit : Z) (store : DepId -> Dep) (d : DepId) : bool :=
  wasTracked bit (store d) && negb (newTracked bit (store d)).

Definition bitsAt (store : DepId -> Dep) (d : DepId) (k : Z) : bool :=
  Z.testbit (w (store d)) k || Z.testbit (n (store d)) k.

Record Evolves (s s' : State) : Prop := mkEvolves {
  ev_log : exists new, log s' = log s ++ new;
  ev_computed : forall e, computed (effects s' e) = computed (effects s e);
  ev_allowRecurse : forall e, allowRecurse (effects s' e) = allowRecurse (effects s e);
  ev_onStop : forall e, onStop (effects s' e) = onStop (effects s e);
  ev_fn : forall e, fn (effects s' e) = fn (effects s e);
  ev_scheduler : forall e, scheduler (effects s' e) = scheduler (effects s e)
}.

(** The events by which a trigger reaches effect [e]: [triggerEffect]
    letting it through, and the call of its scheduler. *)
Definition byTrigger (e : EffectId) (ev : Event) : bool :=
  match ev with
  | EvFire x | EvScheduler x => Nat.eqb x e
  | _ => false
  end.

(** From [s] to [s'] the trace only grew, and by no event that reaches [e]
    from a trigger. *)
Definition Quiet (e : EffectId) (s s' : State) : Prop :=
  exists new, log s' = log s ++ new
              /\ Forall (fun ev => byTrigger e ev = false) new.

(** Firing a list of effects in order, one [triggerEffect] each. *)
Fixpoint fireAll (fuel : nat)
    (execF : State -> list Op -> option (Outcome * State))
    (effs : list EffectId) (s : State) : option (Outcome * State) :=
  match effs with
  | [] => Some (Normal, s)
  | e :: rest =>
      match triggerEffect fuel execF e s with
      | Some (Normal, s') => fireAll fuel execF rest s'
      | r => r
      end
  end.

Definition isSymbol (key : Key) : bool :=
  match key with KSymbol _ => true | _ => false end.

(** The keys that a change of length to [k] reaches: ["length"] and the
    indices from [k] on. *)
Definition lengthHit (k : Z) (key : Key) : bool :=
  match key with
  | KLength => true
  | KIndex i => (k <=? Z.of_N i)%Z
  | _ => false
  end.

(** A program in which no effect does anything. *)
Definition idleProgram (e : EffectId) : EffectDecl :=
  mkDecl [] None false false false.

(** An array read by four effects: effect 0 reads index 0 and the length,
    effect 1 reads index 2, effect 2 reads the length, effect 3 reads
    index 0. *)
Definition demoArray : Target := mkTarget 0 ArrayTarget.

Definition demoProgram (e : EffectId) : EffectDecl :=
  match e with
  | 0 => mkDecl [OTrack demoArray GET (KIndex 0); OTrack demoArray GET KLength]
                None false false false
  | 1 => mkDecl [OTrack demoArray GET (KIndex 2)] None false false false
  | 2 => mkDecl [OTrack demoArray GET KLength] None false false false
  | 3 => mkDecl [OTrack demoArray GET (KIndex 0)] None false false false
  | _ => mkDecl [] None false false false
  end.

Definition demoRuns : list Op := [ORun 0; ORun 1; ORun 2; ORun 3].



(** Effect 0 reads the length of the array, effect 1 reads a property
    whose key is a symbol. *)
Definition symbolKeyProgram (e : EffectId) : EffectDecl :=
  match e with
  | 0 => mkDecl [OTrack demoArray GET KLength] None false false false
  | 1 => mkDecl [OTrack demoArray GET (KSymbol 7)] None false false false
  | _ => mkDecl [] None false false false
  end.

(** [getDepFromReactive(object, key)]: [targetMap.get(object)?.get(key)],
    [None] for [undefined]. *)
Definition getDepFromReactive (object : Target) (key : Key) (s : State)
  : option DepId :=
  match alist_get Target_eqb object (targetMap s) with
  | Some depsMap => alist_get Key_eqb key depsMap
  | None => None
  end.

(** A call of [track]: what a function that only reads is made of. *)
Definition isTrack (op : Op) : bool :=
  match op with OTrack _ _ _ => true | _ => false end.


(** No dep carries the marker bit of depth [k], neither in [w] nor in [n]. *)
Definition levelClear (k : Z) (s : State) : Prop :=
  forall d, bitsAt (depStore s) d k = false.

(** The switches [pauseTracking] ([false]) and [enableTracking] ([true])
    applied in order. *)
Definition switchTracking (bs : list bool) (s : State) : State :=
  fold_left (fun acc (b : bool) =>
               if b then enableTracking acc else pauseTracking acc)
            bs s.

(** [resetTracking] called [k] times. *)
Definition resetTimes (k : nat) (s : State) : State :=
  Nat.iter k resetTracking s.

(** A dep is a set: no effect is in it twice. *)
Definition storeNoDup (store : DepId -> Dep) : Prop :=
  forall d, NoDup (members (store d)).

Definition MembersNoDup (s : State) : Prop := storeNoDup (depStore s).

(** The [finally] block of [run] up to its last statement, the deferred
    [stop]. *)
Definition unwind (e : EffectId) (lastShouldTrack : bool) (s : State) : State :=
  let s1 := if (effectTrackDepth s <=? maxMarkerBits)%Z
            then finalizeDepMarkers e s else s in
  let depth := (effectTrackDepth s1 - 1)%Z in
  let s2 := setTrackOpBit (setEffectTrackDepth s1 depth) (js_shl 1 depth) in
  let s3 := setShouldTrack (setActiveEffect s2 (parent (effects s2 e)))
                           lastShouldTrack in
  updEffect s3 e (fun r => withParent r None).

(** Effect [e], entered from state [s] at marker depth [k] above the
    stack [L], has so far made the reads [done] and is now in state
    [cur]: bit [k] of [w] tells the deps it had on entry, bit [k] of [n]
    those it has read. *)
Record Collecting (L : list EffectId) (e : EffectId) (k : Z) (s : State)
    (done : list Op) (cur : State) : Prop := mkCollecting {
  c_inv : Inv (e :: L) cur;
  c_track : shouldTrack cur = true;
  c_w : forall d, Z.testbit (w (depStore cur d)) k
                  = existsb (Nat.eqb d) (deps (effects s e));
  c_seen : forall t ty key, In (OTrack t ty key) done ->
      exists d, getDepFromReactive t key cur = Some d
                /\ Z.testbit (n (depStore cur d)) k = true;
  c_n : forall d, Z.testbit (n (depStore cur d)) k = true ->
      exists t ty key, In (OTrack t ty key) done
                       /\ getDepFromReactive t key cur = Some d;
  c_deps : forall d, In d (deps (effects cur e))
                     <-> In d (deps (effects s e))
                         \/ Z.testbit (n (depStore cur d)) k = true;
  c_others : forall x d, x <> e ->
      (In x (members (depStore cur d)) <-> In x (members (depStore s d)));
  c_next : nextDep s <= nextDep cur;
  c_defer : deferStop (effects cur e) = deferStop (effects s e);
  c_log : log cur = log s ++ [EvFn e]
}.

(** ** Arithmetic of the marker bits *)

Lemma toInt32_mod (z : Z) : (toInt32 z mod 2 ^ 32 = z mod 2 ^ 32)%Z.
Proof.
  unfold toInt32. cbv zeta.
  destruct (z mod 2 ^ 32 <? 2 ^ 31)%Z.
  - apply Z.mod_mod. lia.
  - replace (z mod 2 ^ 32 - 2 ^ 32)%Z with (z mod 2 ^ 32 + (-1) * 2 ^ 32)%Z by lia.
    rewrite Z.mod_add by lia. apply Z.mod_mod. lia.
Qed.

Lemma testbit_toInt32 (z i : Z) :
  (0 <= i < 32)%Z -> Z.testbit (toInt32 z) i = Z.testbit z i.
Proof.
  intros Hi.
  rewrite <- (Z.mod_pow2_bits_low (toInt32 z) 32 i) by lia.
  rewrite toInt32_mod. apply Z.mod_pow2_bits_low. lia.
Qed.

Lemma toInt32_small (z : Z) :
  (- 2 ^ 31 <= z < 2 ^ 31)%Z -> toInt32 z = z.
Proof.
  intros Hz. unfold toInt32. cbv zeta.
  destruct (Z.leb_spec 0 z).
  - rewrite Z.mod_small by lia.
    destruct (Z.ltb_spec z (2 ^ 31)); lia.
  - replace (z mod 2 ^ 32)%Z with (z + 2 ^ 32)%Z.
    + destruct (Z.ltb_spec (z + 2 ^ 32) (2 ^ 31)); lia.
    + symmetry. replace (z + 2 ^ 32)%Z with (z + 1 * 2 ^ 32)%Z by lia.
      rewrite <- (Z.mod_add z 1 (2 ^ 32)) by lia.
      rewrite Z.mod_small; lia.
Qed.

Lemma pow2_bound (k : Z) : (0 <= k <= 30)%Z -> (1 <= 2 ^ k < 2 ^ 31)%Z.
Proof.
  intros Hk. split.
  - assert (0 < 2 ^ k)%Z by (apply Z.pow_pos_nonneg; lia). lia.
  - apply Z.pow_lt_mono_r; lia.
Qed.

Lemma js_shl_one (k : Z) : (0 <= k <= 30)%Z -> js_shl 1 k = (2 ^ k)%Z.
Proof.
  intros Hk. unfold js_shl.
  rewrite (toInt32_small 1) by lia.
  rewrite Z.mod_small by lia.
  rewrite Z.shiftl_1_l. apply toInt32_small.
  pose proof (pow2_bound k Hk). lia.
Qed.

Lemma land_pow2 (x k : Z) :
  (0 <= k)%Z -> Z.land x (2 ^ k) = if Z.testbit x k then (2 ^ k)%Z else 0%Z.
Proof.
  intros Hk. apply Z.bits_inj'. intros i Hi.
  rewrite Z.land_spec, Z.pow2_bits_eqb by lia.
  destruct (Z.eqb_spec k i) as [->|Hne].
  - destruct (Z.testbit x i); simpl.
    + rewrite Z.pow2_bits_eqb by lia. symmetry. apply Z.eqb_refl.
    + symmetry. apply Z.bits_0.
  - rewrite andb_false_r.
    destruct (Z.testbit x k).
    + rewrite Z.pow2_bits_eqb by lia. symmetry. apply Z.eqb_neq. exact Hne.
    + symmetry. apply Z.bits_0.
Qed.

(** Reading a marker: [(x & bit) > 0] tests the bit of the depth. *)
Lemma marker_test (x k : Z) :
  (0 <= k <= 30)%Z -> (js_and x (2 ^ k) >? 0)%Z = Z.testbit x k.
Proof.
  intros Hk. unfold js_and.
  pose proof (pow2_bound k Hk) as Hb.
  rewrite (toInt32_small (2 ^ k)) by lia.
  rewrite land_pow2 by lia.
  rewrite testbit_toInt32 by lia.
  destruct (Z.testbit x k).
  - rewrite toInt32_small by lia. apply Z.gtb_lt. lia.
  - reflexivity.
Qed.

Lemma js_or_testbit (x b i : Z) :
  (0 <= i < 32)%Z ->
  Z.testbit (js_or x b) i = Z.testbit x i || Z.testbit b i.
Proof.
  intros Hi. unfold js_or.
  rewrite testbit_toInt32, Z.lor_spec by lia.
  rewrite !testbit_toInt32 by lia. reflexivity.
Qed.

Lemma js_and_not_testbit (x b i : Z) :
  (0 <= i < 32)%Z ->
  Z.testbit (js_and x (js_not b)) i = Z.testbit x i && negb (Z.testbit b i).
Proof.
  intros Hi. unfold js_and, js_not.
  rewrite testbit_toInt32, Z.land_spec by lia.
  rewrite !testbit_toInt32 by lia.
  rewrite Z.lnot_spec by lia.
  rewrite testbit_toInt32 by lia. reflexivity.
Qed.

Lemma pow2_testbit (k i : Z) :
  (0 <= k)%Z -> Z.testbit (2 ^ k) i = (k =? i)%Z.
Proof. intros Hk. apply Z.pow2_bits_eqb. exact Hk. Qed.

(** ** Stores, sets and the loops over an effect's deps *)

Lemma upd_same {A : Type} (f : nat -> A) (k : nat) (v : A) : upd f k v k = v.
Proof. unfold upd. now rewrite Nat.eqb_refl. Qed.

Lemma upd_other {A : Type} (f : nat -> A) (k x : nat) (v : A) :
  x <> k -> upd f k v x = f x.
Proof. intros H. unfold upd. now apply Nat.eqb_neq in H as ->. Qed.

Lemma mem_In (x : nat) (l : list nat) :
  existsb (Nat.eqb x) l = true <-> In x l.
Proof.
  rewrite existsb_exists. split.
  - intros [y [Hy Heq]]. apply Nat.eqb_eq in Heq. now subst.
  - intros H. exists x. split; [exact H | apply Nat.eqb_refl].
Qed.

Lemma mem_not_In (x : nat) (l : list nat) :
  existsb (Nat.eqb x) l = false <-> ~ In x l.
Proof.
  rewrite <- mem_In. destruct (existsb (Nat.eqb x) l); split; congruence.
Qed.

Lemma remove_In (e x : nat) (l : list nat) :
  In x (filter (fun y => negb (Nat.eqb y e)) l) <-> In x l /\ x <> e.
Proof.
  rewrite filter_In. rewrite negb_true_iff, Nat.eqb_neq. reflexivity.
Qed.

Lemma dep_add_In (a x : EffectId) (d : Dep) :
  In x (members (dep_add a d)) <-> x = a \/ In x (members d).
Proof.
  unfold dep_add, dep_has.
  destruct (existsb (Nat.eqb a) (members d)) eqn:E.
  - apply mem_In in E. split; [now right | intros [->|H]; assumption].
  - simpl. rewrite in_app_iff. simpl. intuition.
Qed.

Lemma dep_add_w (a : EffectId) (d : Dep) : w (dep_add a d) = w d.
Proof. unfold dep_add. now destruct (dep_has a d). Qed.

Lemma dep_add_n (a : EffectId) (d : Dep) : n (dep_add a d) = n d.
Proof. unfold dep_add. now destruct (dep_has a d). Qed.

Lemma dep_delete_In (e x : EffectId) (d : Dep) :
  In x (members (dep_delete e d)) <-> In x (members d) /\ x <> e.
Proof. unfold dep_delete. simpl. apply remove_In. Qed.

Lemma initLoop_members bit ds : forall store d,
  members (initLoop bit ds store d) = members (store d).
Proof.
  induction ds as [|d0 rest IH]; intros store d; simpl; [reflexivity|].
  rewrite IH. unfold upd. destruct (Nat.eqb_spec d d0); subst; reflexivity.
Qed.

Lemma initLoop_n bit ds : forall store d,
  n (initLoop bit ds store d) = n (store d).
Proof.
  induction ds as [|d0 rest IH]; intros store d; simpl; [reflexivity|].
  rewrite IH. unfold upd. destruct (Nat.eqb_spec d d0); subst; reflexivity.
Qed.

Lemma initLoop_w bit ds : forall store d i,
  (0 <= i < 32)%Z ->
  Z.testbit (w (initLoop bit ds store d)) i
  = Z.testbit (w (store d)) i || (existsb (Nat.eqb d) ds && Z.testbit bit i).
Proof.
  induction ds as [|d0 rest IH]; intros store d i Hi; simpl.
  - now rewrite orb_false_r.
  - rewrite IH by exact Hi. unfold upd.
    destruct (Nat.eqb_spec d d0) as [->|Hne]; simpl.
    + rewrite js_or_testbit by exact Hi.
      destruct (Z.testbit (w (store d0)) i), (Z.testbit bit i),
        (existsb (Nat.eqb d0) rest); reflexivity.
    + reflexivity.
Qed.

Lemma cleanupLoop_w e ds : forall store d,
  w (cleanupLoop e ds store d) = w (store d).
Proof.
  induction ds as [|d0 rest IH]; intros store d; simpl; [reflexivity|].
  rewrite IH. unfold upd. destruct (Nat.eqb_spec d d0); subst; reflexivity.
Qed.

Lemma cleanupLoop_n e ds : forall store d,
  n (cleanupLoop e ds store d) = n (store d).
Proof.
  induction ds as [|d0 rest IH]; intros store d; simpl; [reflexivity|].
  rewrite IH. unfold upd. destruct (Nat.eqb_spec d d0); subst; reflexivity.
Qed.

Lemma cleanupLoop_In e ds : forall store d x,
  In x (members (cleanupLoop e ds store d))
  <-> In x (members (store d)) /\ (In d ds -> x <> e).
Proof.
  induction ds as [|d0 rest IH]; intros store d x; simpl.
  - tauto.
  - rewrite IH. unfold upd.
    destruct (Nat.eqb_spec d d0) as [->|Hne].
    + rewrite dep_delete_In. tauto.
    + split.
      * intros [H1 H2]. split; [exact H1|]. intros [Heq|Hin]; [congruence | auto].
      * intros [H1 H2]. split; [exact H1|]. intros Hin. apply H2. now right.
Qed.

Lemma swept_upd_other bit store d0 v d :
  d <> d0 -> swept bit (upd store d0 v) d = swept bit store d.
Proof. intros H. unfold swept. now rewrite upd_other. Qed.

Lemma finalizeLoop_kept e bit ds : forall store kept,
  NoDup ds ->
  snd (finalizeLoop e bit ds store kept)
  = kept ++ filter (fun d => negb (swept bit store d)) ds.
Proof.
  induction ds as [|d0 rest IH]; intros store kept Hnd; simpl.
  - now rewrite app_nil_r.
  - inversion Hnd as [|? ? Hnotin Hnd']; subst.
    rewrite IH by exact Hnd'.
    assert (Hsame : filter (fun d => negb (swept bit
              (upd store d0
                 (mkDep
                    (members (if swept bit store d0
                              then dep_delete e (store d0) else store d0))
                    (js_and (w (if swept bit store d0
                                then dep_delete e (store d0) else store d0))
                            (js_not bit))
                    (js_and (n (if swept bit store d0
                                then dep_delete e (store d0) else store d0))
                            (js_not bit)))) d)) rest
            = filter (fun d => negb (swept bit store d)) rest).
    { apply filter_ext_in. intros d Hd. unfold swept.
      rewrite upd_other; [reflexivity|]. intros ->. contradiction. }
    unfold swept in *. rewrite Hsame.
    destruct (wasTracked bit (store d0) && negb (newTracked bit (store d0)));
      simpl; [reflexivity|].
    now rewrite <- app_assoc.
Qed.

Lemma finalizeLoop_In e bit ds : forall store kept d x,
  NoDup ds ->
  In x (members (fst (finalizeLoop e bit ds store kept) d))
  <-> In x (members (store d))
      /\ (In d ds -> swept bit store d = true -> x <> e).
Proof.
  induction ds as [|d0 rest IH]; intros store kept d x Hnd; simpl.
  - tauto.
  - inversion Hnd as [|? ? Hnotin Hnd']; subst.
    rewrite IH by exact Hnd'. fold (swept bit store d0).
    destruct (Nat.eqb_spec d d0) as [->|Hne].
    + rewrite upd_same. simpl.
      destruct (swept bit store d0) eqn:Esw.
      * rewrite dep_delete_In. split.
        -- intros [[H1 H2] _]. split; [exact H1 | auto].
        -- intros [H1 H2]. split; [split; [exact H1 | auto]|].
           intros Hin. contradiction.
      * split.
        -- intros [H1 _]. split; [exact H1 | intros _ Hf; discriminate Hf].
        -- intros [H1 _]. split; [exact H1|]. intros Hin. contradiction.
    + rewrite upd_other by exact Hne.
      rewrite swept_upd_other by exact Hne. split.
      * intros [H1 H2]. split; [exact H1|].
        intros [Heq|Hin]; [congruence | auto].
      * intros [H1 H2]. split; [exact H1|]. intros Hin. apply H2. now right.
Qed.

Lemma finalizeLoop_w e bit ds : forall store kept d i,
  (0 <= i < 32)%Z ->
  Z.testbit (w (fst (finalizeLoop e bit ds store kept) d)) i
  = Z.testbit (w (store d)) i
    && negb (existsb (Nat.eqb d) ds && Z.testbit bit i).
Proof.
  induction ds as [|d0 rest IH]; intros store kept d i Hi; simpl.
  - now rewrite andb_true_r.
  - rewrite IH by exact Hi. unfold upd.
    destruct (Nat.eqb_spec d d0) as [->|Hne]; simpl.
    + rewrite js_and_not_testbit by exact Hi.
      assert (Hw : w (if wasTracked bit (store d0) && negb (newTracked bit (store d0))
                      then dep_delete e (store d0) else store d0) = w (store d0))
        by (destruct (wasTracked bit (store d0) && negb (newTracked bit (store d0)));
            reflexivity).
      rewrite Hw.
      destruct (Z.testbit (w (store d0)) i), (Z.testbit bit i),
        (existsb (Nat.eqb d0) rest); reflexivity.
    + reflexivity.
Qed.

Lemma finalizeLoop_n e bit ds : forall store kept d i,
  (0 <= i < 32)%Z ->
  Z.testbit (n (fst (finalizeLoop e bit ds store kept) d)) i
  = Z.testbit (n (store d)) i
    && negb (existsb (Nat.eqb d) ds && Z.testbit bit i).
Proof.
  induction ds as [|d0 rest IH]; intros store kept d i Hi; simpl.
  - now rewrite andb_true_r.
  - rewrite IH by exact Hi. unfold upd.
    destruct (Nat.eqb_spec d d0) as [->|Hne]; simpl.
    + rewrite js_and_not_testbit by exact Hi.
      assert (Hn : n (if wasTracked bit (store d0) && negb (newTracked bit (store d0))
                      then dep_delete e (store d0) else store d0) = n (store d0))
        by (destruct (wasTracked bit (store d0) && negb (newTracked bit (store d0)));
            reflexivity).
      rewrite Hn.
      destruct (Z.testbit (n (store d0)) i), (Z.testbit bit i),
        (existsb (Nat.eqb d0) rest); reflexivity.
    + reflexivity.
Qed.

(** ** What the three loops do to a state *)

Lemma cleanupEffect_frame e s :
  nextDep (cleanupEffect e s) = nextDep s
  /\ targetMap (cleanupEffect e s) = targetMap s
  /\ effectTrackDepth (cleanupEffect e s) = effectTrackDepth s
  /\ trackOpBit (cleanupEffect e s) = trackOpBit s
  /\ activeEffect (cleanupEffect e s) = activeEffect s
  /\ shouldTrack (cleanupEffect e s) = shouldTrack s
  /\ trackStack (cleanupEffect e s) = trackStack s
  /\ log (cleanupEffect e s) = log s.
Proof. unfold cleanupEffect. destruct (deps (effects s e)); simpl; repeat split. Qed.

Lemma cleanupEffect_deps e s x :
  deps (effects (cleanupEffect e s) x)
  = if Nat.eqb x e then [] else deps (effects s x).
Proof.
  unfold cleanupEffect. destruct (deps (effects s e)) eqn:E; simpl.
  - destruct (Nat.eqb_spec x e); subst; auto.
  - unfold upd. destruct (Nat.eqb_spec x e); reflexivity.
Qed.

Lemma cleanupEffect_fields e s x :
  parent (effects (cleanupEffect e s) x) = parent (effects s x)
  /\ active (effects (cleanupEffect e s) x) = active (effects s x)
  /\ computed (effects (cleanupEffect e s) x) = computed (effects s x)
  /\ allowRecurse (effects (cleanupEffect e s) x) = allowRecurse (effects s x)
  /\ deferStop (effects (cleanupEffect e s) x) = deferStop (effects s x)
  /\ onStop (effects (cleanupEffect e s) x) = onStop (effects s x)
  /\ fn (effects (cleanupEffect e s) x) = fn (effects s x)
  /\ scheduler (effects (cleanupEffect e s) x) = scheduler (effects s x).
Proof.
  unfold cleanupEffect. destruct (deps (effects s e)); simpl.
  - repeat split.
  - unfold upd. destruct (Nat.eqb_spec x e); subst; repeat split.
Qed.

Lemma cleanupEffect_In e s d x :
  In x (members (depStore (cleanupEffect e s) d))
  <-> In x (members (depStore s d)) /\ (In d (deps (effects s e)) -> x <> e).
Proof.
  unfold cleanupEffect. destruct (deps (effects s e)) eqn:E.
  - simpl. tauto.
  - cbn [depStore updEffect setEffects setDepStore]. apply cleanupLoop_In.
Qed.

Lemma cleanupEffect_bits e s d :
  w (depStore (cleanupEffect e s) d) = w (depStore s d)
  /\ n (depStore (cleanupEffect e s) d) = n (depStore s d).
Proof.
  unfold cleanupEffect. destruct (deps (effects s e)) eqn:E.
  - split; reflexivity.
  - cbn [depStore updEffect setEffects setDepStore].
    split; [apply cleanupLoop_w | apply cleanupLoop_n].
Qed.

Lemma initDepMarkers_frame e s :
  effects (initDepMarkers e s) = effects s
  /\ nextDep (initDepMarkers e s) = nextDep s
  /\ targetMap (initDepMarkers e s) = targetMap s
  /\ effectTrackDepth (initDepMarkers e s) = effectTrackDepth s
  /\ trackOpBit (initDepMarkers e s) = trackOpBit s
  /\ activeEffect (initDepMarkers e s) = activeEffect s
  /\ shouldTrack (initDepMarkers e s) = shouldTrack s
  /\ trackStack (initDepMarkers e s) = trackStack s
  /\ log (initDepMarkers e s) = log s.
Proof. unfold initDepMarkers. destruct (deps (effects s e)); simpl; repeat split. Qed.

Lemma initDepMarkers_members e s d :
  members (depStore (initDepMarkers e s) d) = members (depStore s d).
Proof.
  unfold initDepMarkers. destruct (deps (effects s e)); [reflexivity|].
  cbn [depStore setDepStore]. apply initLoop_members.
Qed.

Lemma initDepMarkers_n e s d :
  n (depStore (initDepMarkers e s) d) = n (depStore s d).
Proof.
  unfold initDepMarkers. destruct (deps (effects s e)); [reflexivity|].
  cbn [depStore setDepStore]. apply initLoop_n.
Qed.

Lemma initDepMarkers_w e s d i :
  (0 <= i < 32)%Z ->
  Z.testbit (w (depStore (initDepMarkers e s) d)) i
  = Z.testbit (w (depStore s d)) i
    || (existsb (Nat.eqb d) (deps (effects s e)) && Z.testbit (trackOpBit s) i).
Proof.
  intros Hi. unfold initDepMarkers. destruct (deps (effects s e)) eqn:E.
  - simpl. now rewrite orb_false_r.
  - cbn [depStore setDepStore]. now apply initLoop_w.
Qed.

Lemma finalizeDepMarkers_frame e s :
  nextDep (finalizeDepMarkers e s) = nextDep s
  /\ targetMap (finalizeDepMarkers e s) = targetMap s
  /\ effectTrackDepth (finalizeDepMarkers e s) = effectTrackDepth s
  /\ trackOpBit (finalizeDepMarkers e s) = trackOpBit s
  /\ activeEffect (finalizeDepMarkers e s) = activeEffect s
  /\ shouldTrack (finalizeDepMarkers e s) = shouldTrack s
  /\ trackStack (finalizeDepMarkers e s) = trackStack s
  /\ log (finalizeDepMarkers e s) = log s.
Proof.
  unfold finalizeDepMarkers. destruct (deps (effects s e)); [repeat split|].
  destruct (finalizeLoop e (trackOpBit s) (d :: l) (depStore s) []).
  simpl. repeat split.
Qed.

Lemma finalizeDepMarkers_deps e s x :
  NoDup (deps (effects s e)) ->
  deps (effects (finalizeDepMarkers e s) x)
  = if Nat.eqb x e
    then filter (fun d => negb (swept (trackOpBit s) (depStore s) d))
                (deps (effects s e))
    else deps (effects s x).
Proof.
  intros Hnd. unfold finalizeDepMarkers.
  destruct (deps (effects s e)) as [|d0 rest] eqn:E.
  - simpl. destruct (Nat.eqb_spec x e); subst; auto.
  - pose proof (finalizeLoop_kept e (trackOpBit s) (d0 :: rest) (depStore s) [] Hnd) as Hk.
    destruct (finalizeLoop e (trackOpBit s) (d0 :: rest) (depStore s) []) as [store kept].
    simpl in Hk. subst kept.
    cbn [effects updEffect setEffects setDepStore]. unfold upd.
    destruct (Nat.eqb_spec x e); reflexivity.
Qed.

Lemma finalizeDepMarkers_fields e s x :
  parent (effects (finalizeDepMarkers e s) x) = parent (effects s x)
  /\ active (effects (finalizeDepMarkers e s) x) = active (effects s x)
  /\ computed (effects (finalizeDepMarkers e s) x) = computed (effects s x)
  /\ allowRecurse (effects (finalizeDepMarkers e s) x) = allowRecurse (effects s x)
  /\ deferStop (effects (finalizeDepMarkers e s) x) = deferStop (effects s x)
  /\ onStop (effects (finalizeDepMarkers e s) x) = onStop (effects s x)
  /\ fn (effects (finalizeDepMarkers e s) x) = fn (effects s x)
  /\ scheduler (effects (finalizeDepMarkers e s) x) = scheduler (effects s x).
Proof.
  unfold finalizeDepMarkers. destruct (deps (effects s e)); [repeat split|].
  destruct (finalizeLoop e (trackOpBit s) (d :: l) (depStore s) []).
  simpl. unfold upd. destruct (Nat.eqb_spec x e); subst; repeat split.
Qed.

Lemma finalizeDepMarkers_In e s d x :
  NoDup (deps (effects s e)) ->
  In x (members (depStore (finalizeDepMarkers e s) d))
  <-> In x (members (depStore s d))
      /\ (In d (deps (effects s e)) ->
          swept (trackOpBit s) (depStore s) d = true -> x <> e).
Proof.
  intros Hnd. unfold finalizeDepMarkers.
  destruct (deps (effects s e)) as [|d0 rest] eqn:E.
  - simpl. tauto.
  - pose proof (finalizeLoop_In e (trackOpBit s) (d0 :: rest) (depStore s) [] d x Hnd) as Hk.
    destruct (finalizeLoop e (trackOpBit s) (d0 :: rest) (depStore s) []) as [store kept].
    exact Hk.
Qed.

Lemma finalizeDepMarkers_bits e s d i :
  (0 <= i < 32)%Z ->
  Z.testbit (w (depStore (finalizeDepMarkers e s) d)) i
  = Z.testbit (w (depStore s d)) i
    && negb (existsb (Nat.eqb d) (deps (effects s e)) && Z.testbit (trackOpBit s) i)
  /\ Z.testbit (n (depStore (finalizeDepMarkers e s) d)) i
     = Z.testbit (n (depStore s d)) i
       && negb (existsb (Nat.eqb d) (deps (effects s e)) && Z.testbit (trackOpBit s) i).
Proof.
  intros Hi. unfold finalizeDepMarkers.
  destruct (deps (effects s e)) as [|d0 rest] eqn:E.
  - simpl. now rewrite !andb_true_r.
  - pose proof (finalizeLoop_w e (trackOpBit s) (d0 :: rest) (depStore s) [] d i Hi) as Hw.
    pose proof (finalizeLoop_n e (trackOpBit s) (d0 :: rest) (depStore s) [] d i Hi) as Hn.
    destruct (finalizeLoop e (trackOpBit s) (d0 :: rest) (depStore s) []) as [store kept].
    split; assumption.
Qed.

(** ** The parent chain *)

Lemma Chain_ext effs effs' p L :
  (forall x, In x L -> parent (effs' x) = parent (effs x)) ->
  Chain effs p L -> Chain effs' p L.
Proof.
  intros Hext Hc. induction Hc as [|e l Hc IH].
  - constructor.
  - constructor. rewrite Hext by (now left). apply IH.
    intros x Hx. apply Hext. now right.
Qed.

Lemma Chain_parent effs p L :
  Chain effs p L ->
  forall x y, In x L -> parent (effs x) = Some y -> In y L.
Proof.
  intros Hc. induction Hc as [|e l Hc IH]; intros x y Hx Hp.
  - destruct Hx.
  - destruct Hx as [->|Hx].
    + rewrite Hp in Hc. inversion Hc; subst. right. now left.
    + right. eapply IH; eassumption.
Qed.

Lemma Chain_active effs p L e :
  Chain effs p L -> p = Some e -> In e L.
Proof. intros Hc Hp. destruct Hc; [discriminate|]. injection Hp as ->. now left. Qed.

Lemma parentChainHas_spec effs p L :
  Chain effs p L ->
  forall k this b, parentChainHas k effs p this = Some b ->
                   (b = true <-> In this L).
Proof.
  intros Hc. induction Hc as [|e l Hc IH]; intros k this b Hk.
  - assert (b = false) by (destruct k; simpl in Hk; congruence). subst b.
    split; [discriminate | intros []].
  - assert (Hstep : (if Nat.eqb e this then Some true
                     else match k with
                          | 0 => None
                          | S k' => parentChainHas k' effs (parent (effs e)) this
                          end) = Some b) by (destruct k; exact Hk).
    destruct (Nat.eqb_spec e this) as [->|Hne].
    + injection Hstep as <-. split; [intros _; now left | reflexivity].
    + destruct k as [|k']; [discriminate|].
      apply IH in Hstep. rewrite Hstep. simpl. intuition.
Qed.

(** With fuel for every link, the walk up the chain gives its answer. *)
Lemma parentChainHas_total effs p L :
  Chain effs p L ->
  forall k this, length L <= k ->
                 exists b, parentChainHas k effs p this = Some b.
Proof.
  intros Hc. induction Hc as [|e l Hc IH]; intros k this Hk.
  - exists false. destruct k; reflexivity.
  - simpl in Hk. destruct k as [|k']; [lia|]. simpl.
    destruct (Nat.eqb e this); [now exists true|].
    apply IH. lia.
Qed.

Lemma Marked_preserved effs store effs' store' L :
  (forall x d k, In x L -> In d (deps (effs' x)) ->
                 (1 <= k <= Z.of_nat (length L))%Z -> (k <= maxMarkerBits)%Z ->
                 In d (deps (effs x))
                 /\ (bitsAt store d k = true -> bitsAt store' d k = true)) ->
  Marked effs store L -> Marked effs' store' L.
Proof.
  induction L as [|x L' IH]; intros Hext HM; simpl in *; [exact I|].
  destruct HM as [Hhead Htail]. split.
  - intros Hk d Hd.
    destruct (Hext x d (Z.of_nat (S (length L')))) as [Hin Hbits];
      auto; try lia.
    apply Hbits. apply Hhead; assumption.
  - apply IH; [|exact Htail].
    intros y d k Hy Hd Hk1 Hk2. apply Hext; auto. lia.
Qed.

(** ** Every operation keeps the invariant *)

Lemma Inv_congr L s s' :
  (forall x, deps (effects s' x) = deps (effects s x)) ->
  (forall x, parent (effects s' x) = parent (effects s x)) ->
  depStore s' = depStore s -> nextDep s' = nextDep s ->
  targetMap s' = targetMap s -> effectTrackDepth s' = effectTrackDepth s ->
  trackOpBit s' = trackOpBit s -> activeEffect s' = activeEffect s ->
  Inv L s -> Inv L s'.
Proof.
  intros Hd Hp Hs Hn Ht Hdep Hb Ha HI. destruct HI as [Hchain Hnodup Hoff Hdepth Hbit HI1 HND Halloc Htm Hmarked]. constructor.
  - rewrite Ha. eapply Chain_ext; [|eassumption]. intros x _. apply Hp.
  - assumption.
  - intros e He. rewrite Hp. auto.
  - congruence.
  - congruence.
  - intros e d. rewrite Hd, Hs. apply HI1.
  - intros e. rewrite Hd. auto.
  - intros e d. rewrite Hd, Hn. eauto.
  - rewrite Ht, Hn. assumption.
  - eapply Marked_preserved; [|eassumption].
    intros x d k _ Hin _ _. rewrite Hd in Hin. split; [assumption|].
    rewrite Hs. auto.
Qed.

Lemma emit_Inv L ev s : Inv L s -> Inv L (emit ev s).
Proof. apply Inv_congr; reflexivity. Qed.

Lemma pauseTracking_Inv L s : Inv L s -> Inv L (pauseTracking s).
Proof. apply Inv_congr; reflexivity. Qed.

Lemma enableTracking_Inv L s : Inv L s -> Inv L (enableTracking s).
Proof. apply Inv_congr; reflexivity. Qed.

Lemma resetTracking_Inv L s : Inv L s -> Inv L (resetTracking s).
Proof.
  unfold resetTracking. destruct (array_pop (trackStack s)).
  apply Inv_congr; reflexivity.
Qed.

Lemma cleanupEffect_Inv L e s : Inv L s -> Inv L (cleanupEffect e s).
Proof.
  intros HI.
  destruct (cleanupEffect_frame e s) as (Hn & Ht & Hd & Hb & Ha & _).
  destruct HI as [Hchain Hnodup Hoff Hdepth Hbit HI1 HND Halloc Htm Hmarked]. constructor.
  - rewrite Ha. eapply Chain_ext; [|eassumption].
    intros x _. apply cleanupEffect_fields.
  - assumption.
  - intros x Hx. destruct (cleanupEffect_fields e s x) as [-> _]. auto.
  - congruence.
  - congruence.
  - intros x d. rewrite cleanupEffect_deps, cleanupEffect_In.
    destruct (Nat.eqb_spec x e) as [->|Hne].
    + split; [intros []|]. intros [Hin Hq]. apply Hq; [|reflexivity].
      now apply HI1.
    + pose proof (HI1 x d). tauto.
  - intros x. rewrite cleanupEffect_deps.
    destruct (Nat.eqb x e); [constructor | auto].
  - intros x d. rewrite cleanupEffect_deps, Hn.
    destruct (Nat.eqb x e); [intros [] | eauto].
  - rewrite Ht, Hn. assumption.
  - eapply Marked_preserved; [|eassumption].
    intros x d k _ Hin _ _. rewrite cleanupEffect_deps in Hin. split.
    + destruct (Nat.eqb x e); [destruct Hin | assumption].
    + unfold bitsAt. destruct (cleanupEffect_bits e s d) as [-> ->]. auto.
Qed.

Lemma stop_Inv L e s : Inv L s -> Inv L (stop e s).
Proof.
  intros HI. unfold stop. destruct (isActiveEffect s e).
  - eapply Inv_congr; [..|exact HI]; try reflexivity;
      intros x; simpl; unfold upd; destruct (Nat.eqb_spec x e); subst; reflexivity.
  - destruct (active (effects s e)); [|exact HI].
    apply cleanupEffect_Inv with (e := e) in HI.
    eapply Inv_congr; [..|exact HI];
      destruct (onStop (effects (cleanupEffect e s) e)); try reflexivity;
      intros x; simpl; unfold upd; destruct (Nat.eqb_spec x e); subst; reflexivity.
Qed.

Lemma Inv_store_grow L s store' :
  (forall d, members (store' d) = members (depStore s d)) ->
  (forall d k, (1 <= k <= maxMarkerBits)%Z ->
               bitsAt (depStore s) d k = true -> bitsAt store' d k = true) ->
  Inv L s -> Inv L (setDepStore s store').
Proof.
  intros Hm Hb HI. destruct HI as [Hchain Hnodup Hoff Hdepth Hbit HI1 HND Halloc Htm Hmarked]. constructor; simpl; try assumption.
  - intros e d. rewrite Hm. apply (HI1 e d).
  - eapply Marked_preserved; [|eassumption].
    intros x d k _ Hin Hk1 Hk2. split; [assumption | apply Hb; lia].
Qed.

Lemma NoDup_snoc (l : list nat) (x : nat) :
  NoDup l -> ~ In x l -> NoDup (l ++ [x]).
Proof.
  induction l as [|y l IH]; intros Hnd Hx; simpl.
  - constructor; [intros [] | constructor].
  - inversion Hnd; subst. constructor.
    + rewrite in_app_iff. simpl. intros [H|[H|[]]]; [contradiction|].
      subst. apply Hx. now left.
    + apply IH; [assumption|]. intros H. apply Hx. now right.
Qed.

Lemma subscribe_Inv a d L' s :
  Inv (a :: L') s ->
  ~ In d (deps (effects s a)) ->
  d < nextDep s ->
  ((effectTrackDepth s <= maxMarkerBits)%Z ->
   bitsAt (depStore s) d (effectTrackDepth s) = true) ->
  Inv (a :: L') (subscribe a d s).
Proof.
  intros HI Hnew Hlt Hset. destruct HI as [Hchain Hnodup Hoff Hdepth Hbit HI1 HND Halloc Htm Hmarked].
  assert (Hdeps : forall x, deps (effects (subscribe a d s) x)
                  = if Nat.eqb x a then deps (effects s a) ++ [d]
                    else deps (effects s x)).
  { intros x. simpl. unfold upd. destruct (Nat.eqb_spec x a); subst; reflexivity. }
  assert (Hpar : forall x, parent (effects (subscribe a d s) x)
                           = parent (effects s x)).
  { intros x. simpl. unfold upd. destruct (Nat.eqb_spec x a); subst; reflexivity. }
  assert (Hmem : forall d' x, In x (members (depStore (subscribe a d s) d'))
                 <-> In x (members (depStore s d')) \/ (d' = d /\ x = a)).
  { intros d' x. simpl. unfold upd. destruct (Nat.eqb_spec d' d) as [->|Hne].
    - rewrite dep_add_In. tauto.
    - split; [tauto|]. intros [H|[H _]]; [exact H | contradiction]. }
  assert (Hbits : forall d' k, bitsAt (depStore (subscribe a d s)) d' k
                               = bitsAt (depStore s) d' k).
  { intros d' k. unfold bitsAt. simpl. unfold upd.
    destruct (Nat.eqb_spec d' d) as [->|Hne]; [|reflexivity].
    now rewrite dep_add_w, dep_add_n. }
  constructor.
  - eapply Chain_ext; [|exact Hchain]. intros x _. apply Hpar.
  - assumption.
  - intros x Hx. rewrite Hpar. auto.
  - exact Hdepth.
  - exact Hbit.
  - intros x d'. rewrite Hdeps, Hmem.
    destruct (Nat.eqb_spec x a) as [->|Hne].
    + rewrite in_app_iff. simpl. pose proof (HI1 a d') as Hq.
      split; [intros [H|[H|[]]]; [left; tauto | right; auto]
             | intros [H|[H _]]; [left; tauto | right; left; auto]].
    + pose proof (HI1 x d') as Hq.
      split; [tauto|]. intros [H|[_ H]]; [tauto | contradiction].
  - intros x. rewrite Hdeps. destruct (Nat.eqb_spec x a) as [->|Hne]; [|auto].
    apply NoDup_snoc; auto.
  - intros x d'. rewrite Hdeps. change (nextDep (subscribe a d s)) with (nextDep s).
    destruct (Nat.eqb_spec x a) as [->|Hne]; [|eauto].
    rewrite in_app_iff. simpl. intros [H|[<-|[]]]; eauto.
  - exact Htm.
  - simpl in Hmarked. destruct Hmarked as [Hhead Htail].
    cbn [Marked]. split.
    + intros Hk d' Hd'. rewrite Hdeps, Nat.eqb_refl in Hd'.
      change (bitsAt (depStore (subscribe a d s)) d' (Z.of_nat (length (a :: L'))) = true).
      rewrite Hbits. apply in_app_iff in Hd'. destruct Hd' as [Hd'|[<-|[]]].
      * apply Hhead; assumption.
      * rewrite <- Hdepth. apply Hset. rewrite Hdepth. exact Hk.
    + eapply Marked_preserved; [|exact Htail].
      intros x d' k Hx Hin _ _. rewrite Hdeps in Hin.
      destruct (Nat.eqb_spec x a) as [->|Hne].
      * inversion Hnodup; contradiction.
      * split; [exact Hin|]. now rewrite Hbits.
Qed.

Lemma Inv_active L s a :
  Inv L s -> activeEffect s = Some a -> exists L', L = a :: L'.
Proof.
  intros HI Ha. pose proof (inv_chain _ _ HI) as Hc. rewrite Ha in Hc.
  inversion Hc; subst. eauto.
Qed.

(** In marker mode the bit in use is the one of the current depth. *)
Lemma Inv_marker_bit a L' s :
  Inv (a :: L') s -> (effectTrackDepth s <= maxMarkerBits)%Z ->
  (1 <= effectTrackDepth s <= 30)%Z
  /\ trackOpBit s = (2 ^ effectTrackDepth s)%Z.
Proof.
  intros HI Hle. pose proof (inv_depth _ _ HI) as Hd.
  pose proof (inv_bit _ _ HI) as Hb. unfold maxMarkerBits in Hle.
  simpl length in Hd. split; [lia|].
  rewrite Hb. apply js_shl_one. lia.
Qed.

Lemma trackEffects_Inv L d s :
  Inv L s -> d < nextDep s -> Inv L (trackEffects d s).
Proof.
  intros HI Hlt. unfold trackEffects.
  destruct (activeEffect s) as [a|] eqn:Ea; [|exact HI].
  destruct (Inv_active _ _ _ HI Ea) as [L' ->].
  destruct (Z.leb_spec (effectTrackDepth s) maxMarkerBits) as [Hle|Hgt].
  - destruct (Inv_marker_bit _ _ _ HI Hle) as [Hk Hbit].
    unfold newTracked, wasTracked. cbn [w n]. rewrite Hbit.
    rewrite !marker_test by lia.
    destruct (Z.testbit (n (depStore s d)) (effectTrackDepth s)) eqn:En;
      [exact HI|]. cbn [negb].
    set (store' := upd (depStore s) d
                     (mkDep (members (depStore s d)) (w (depStore s d))
                            (js_or (n (depStore s d)) (2 ^ effectTrackDepth s)))).
    assert (Hbits : forall d' k, (0 <= k < 32)%Z ->
              bitsAt store' d' k
              = bitsAt (depStore s) d' k
                || (Nat.eqb d' d && (effectTrackDepth s =? k)%Z)).
    { intros d' k Hk'. unfold bitsAt, store', upd.
      destruct (Nat.eqb_spec d' d) as [->|Hne]; simpl.
      - rewrite js_or_testbit, pow2_testbit by lia.
        now rewrite orb_assoc.
      - now rewrite orb_false_r. }
    assert (HI' : Inv (a :: L') (setDepStore s store')).
    { apply Inv_store_grow; [| |exact HI].
      - intros d'. unfold store', upd.
        destruct (Nat.eqb_spec d' d) as [->|Hne]; reflexivity.
      - intros d' k Hk' Hb. unfold maxMarkerBits in Hk'.
        rewrite Hbits by lia. now rewrite Hb. }
    destruct (Z.testbit (w (depStore s d)) (effectTrackDepth s)) eqn:Ew;
      [exact HI'|]. cbn [negb].
    apply subscribe_Inv; [exact HI' | | exact Hlt |].
    + intros Hin. cbn [effects setDepStore] in Hin.
      pose proof (inv_marked _ _ HI) as [Hhead _].
      rewrite <- (inv_depth _ _ HI) in Hhead.
      specialize (Hhead Hle d Hin). rewrite Ew, En in Hhead. discriminate.
    + intros _. cbn [depStore effectTrackDepth setDepStore].
      rewrite Hbits by lia. now rewrite Nat.eqb_refl, Z.eqb_refl, orb_true_r.
  - destruct (dep_has a (depStore s d)) eqn:Eh; [exact HI|]. cbn [negb].
    apply subscribe_Inv; [exact HI | | exact Hlt | lia].
    intros Hin. apply (inv_I1 _ _ HI) in Hin.
    apply mem_In in Hin. unfold dep_has in Eh. congruence.
Qed.

Lemma alist_get_In {K V : Type} (eqb : K -> K -> bool) (k : K)
    (m : list (K * V)) (v : V) :
  alist_get eqb k m = Some v -> exists k', In (k', v) m.
Proof.
  induction m as [|[k' v'] m IH]; simpl; [discriminate|].
  destruct (eqb k' k).
  - intros [= ->]. exists k'. now left.
  - intros H. destruct (IH H) as [k'' Hk]. exists k''. now right.
Qed.

Lemma alist_set_In {K V : Type} (eqb : K -> K -> bool) (k k' : K)
    (v v' : V) (m : list (K * V)) :
  In (k', v') (alist_set eqb k v m) -> v' = v \/ In (k', v') m.
Proof.
  induction m as [|[k0 v0] m IH]; simpl.
  - intros [[= <- <-]|[]]. now left.
  - destruct (eqb k0 k); simpl.
    + intros [[= <- <-]|H]; [now left | right; now right].
    + intros [H|H]; [right; now left|].
      destruct (IH H); [now left | right; now right].
Qed.

(** [createDep()] stored under a fresh identity. *)
Lemma alloc_Inv L s s' :
  Inv L s ->
  effects s' = effects s ->
  depStore s' = upd (depStore s) (nextDep s) (createDep []) ->
  nextDep s' = S (nextDep s) ->
  (forall t m k d, In (t, m) (targetMap s') -> In (k, d) m -> d < S (nextDep s)) ->
  effectTrackDepth s' = effectTrackDepth s ->
  trackOpBit s' = trackOpBit s ->
  activeEffect s' = activeEffect s ->
  Inv L s'.
Proof.
  intros HI He Hs Hn Ht Hd Hb Ha.
  destruct HI as [Hchain Hnodup Hoff Hdepth Hbit HI1 HND Halloc Htm Hmarked].
  constructor.
  - now rewrite He, Ha.
  - assumption.
  - now rewrite He.
  - congruence.
  - congruence.
  - intros e d. rewrite He, Hs. unfold upd.
    destruct (Nat.eqb_spec d (nextDep s)) as [->|Hne]; [|apply HI1].
    simpl. split; [|intros []]. intros Hin. apply Halloc in Hin. lia.
  - now rewrite He.
  - intros e d. rewrite He, Hn. intros Hin. apply Halloc in Hin. lia.
  - rewrite Hn. exact Ht.
  - rewrite He. eapply Marked_preserved; [|exact Hmarked].
    intros x d k _ Hin _ _. split; [exact Hin|].
    unfold bitsAt. rewrite Hs. unfold upd.
    destruct (Nat.eqb_spec d (nextDep s)) as [->|Hne]; [|auto].
    apply Halloc in Hin. lia.
Qed.

Lemma track_Inv L target type key s :
  Inv L s -> Inv L (track target type key s).
Proof.
  intros HI. unfold track.
  destruct (shouldTrack s && match activeEffect s with Some _ => true | None => false end);
    [|exact HI].
  destruct (alist_get Target_eqb target (targetMap s)) as [m|] eqn:Et.
  - destruct (alist_get Key_eqb key m) as [d|] eqn:Ek.
    + apply trackEffects_Inv; [exact HI|].
      destruct (alist_get_In _ _ _ _ Et) as [t' Ht'].
      destruct (alist_get_In _ _ _ _ Ek) as [k' Hk'].
      eapply (inv_tm _ _ HI); eassumption.
    + apply trackEffects_Inv; [|simpl; lia].
      eapply alloc_Inv; [exact HI | reflexivity..| | reflexivity | reflexivity | reflexivity].
      intros t m' k d Hin Hkd. cbn [targetMap setNextDep setDepStore setTargetMap] in Hin.
      apply alist_set_In in Hin. destruct Hin as [->|Hin].
      * apply alist_set_In in Hkd. destruct Hkd as [->|Hkd]; [lia|].
        destruct (alist_get_In _ _ _ _ Et) as [t' Ht'].
        pose proof (inv_tm _ _ HI _ _ _ _ Ht' Hkd). lia.
      * pose proof (inv_tm _ _ HI _ _ _ _ Hin Hkd). lia.
  - cbn [alist_get].
    apply trackEffects_Inv; [|simpl; lia].
    eapply alloc_Inv; [exact HI | reflexivity..| | reflexivity | reflexivity | reflexivity].
    intros t m' k d Hin Hkd. cbn [targetMap setNextDep setDepStore setTargetMap] in Hin.
    apply alist_set_In in Hin. destruct Hin as [->|Hin].
    + cbn [alist_set] in Hkd. destruct Hkd as [[= _ <-]|[]]. simpl. lia.
    + apply alist_set_In in Hin. destruct Hin as [->|Hin]; [destruct Hkd|].
      pose proof (inv_tm _ _ HI _ _ _ _ Hin Hkd). simpl. lia.
Qed.

(** Entering [run]: the effect is pushed on the stack. *)
Lemma Inv_push L e s s' :
  Inv L s -> ~ In e L ->
  (forall x, parent (effects s' x)
             = if Nat.eqb x e then activeEffect s else parent (effects s x)) ->
  activeEffect s' = Some e ->
  effectTrackDepth s' = (effectTrackDepth s + 1)%Z ->
  trackOpBit s' = js_shl 1 (effectTrackDepth s + 1) ->
  nextDep s' = nextDep s ->
  targetMap s' = targetMap s ->
  Bidirectional s' ->
  (forall x, NoDup (deps (effects s' x))) ->
  (forall x, incl (deps (effects s' x)) (deps (effects s x))) ->
  (forall d k, (1 <= k <= maxMarkerBits)%Z ->
               bitsAt (depStore s) d k = true -> bitsAt (depStore s') d k = true) ->
  markedAt (Z.of_nat (S (length L))) (depStore s') (deps (effects s' e)) ->
  Inv (e :: L) s'.
Proof.
  intros HI Hnot Hpar Hact Hdep Hb Hn Ht HI1' HND' Hincl Hbits Hhead.
  destruct HI as [Hchain Hnodup Hoff Hdepth Hbit HI1 HND Halloc Htm Hmarked].
  constructor.
  - rewrite Hact. constructor. rewrite Hpar, Nat.eqb_refl.
    eapply Chain_ext; [|exact Hchain]. intros x Hx. rewrite Hpar.
    destruct (Nat.eqb_spec x e); [subst; contradiction | reflexivity].
  - constructor; assumption.
  - intros x Hx. rewrite Hpar. destruct (Nat.eqb_spec x e) as [->|Hne].
    + exfalso. apply Hx. now left.
    + apply Hoff. intros Hin. apply Hx. now right.
  - rewrite Hdep, Hdepth. simpl length. lia.
  - now rewrite Hdep.
  - exact HI1'.
  - exact HND'.
  - intros x d Hin. rewrite Hn. eapply Halloc. apply Hincl. exact Hin.
  - now rewrite Ht, Hn.
  - cbn [Marked]. split; [exact Hhead|].
    eapply Marked_preserved; [|exact Hmarked].
    intros x d k _ Hin Hk1 Hk2. split; [apply Hincl; exact Hin|].
    apply Hbits. lia.
Qed.

Lemma enter_Inv L e s : Inv L s -> ~ In e L -> Inv (e :: L) (enter e s).
Proof.
  intros HI Hnot. unfold enter. cbv zeta.
  match goal with
  | |- Inv _ (if _ then initDepMarkers e ?x else _) => set (s3 := x)
  end.
  assert (Hdeps3 : forall x, deps (effects s3 x) = deps (effects s x)).
  { intros x. simpl. unfold upd. destruct (Nat.eqb_spec x e); subst; reflexivity. }
  assert (Hpar3 : forall x, parent (effects s3 x)
                  = if Nat.eqb x e then activeEffect s else parent (effects s x)).
  { intros x. simpl. unfold upd. destruct (Nat.eqb_spec x e); subst; reflexivity. }
  change (effectTrackDepth s3) with (effectTrackDepth s + 1)%Z.
  pose proof (inv_depth _ _ HI) as Hdepth.
  destruct (Z.leb_spec (effectTrackDepth s + 1) maxMarkerBits) as [Hle|Hgt].
  - destruct (initDepMarkers_frame e s3) as (He & Hn & Ht & Hd & Hb & Ha & _).
    assert (Hk : (0 <= effectTrackDepth s + 1 <= 30)%Z)
      by (unfold maxMarkerBits in Hle; lia).
    eapply Inv_push; [exact HI | exact Hnot | | | | | | | | | | |].
    + intros x. rewrite He. apply Hpar3.
    + rewrite Ha. reflexivity.
    + rewrite Hd. reflexivity.
    + rewrite Hb. reflexivity.
    + rewrite Hn. reflexivity.
    + rewrite Ht. reflexivity.
    + intros x d. rewrite He, Hdeps3, initDepMarkers_members.
      apply (inv_I1 _ _ HI).
    + intros x. rewrite He, Hdeps3. apply (inv_ND _ _ HI).
    + intros x. rewrite He, Hdeps3. apply incl_refl.
    + intros d k Hk' Hset. unfold maxMarkerBits in Hk'. unfold bitsAt in *.
      rewrite initDepMarkers_w, initDepMarkers_n by lia.
      change (depStore s3) with (depStore s).
      apply orb_true_iff in Hset. destruct Hset as [-> | ->];
        [reflexivity | apply orb_true_r].
    + intros _ d Hin. rewrite He in Hin.
      rewrite initDepMarkers_w by (rewrite Hdepth in Hk; simpl length; lia).
      apply mem_In in Hin. rewrite Hin.
      change (trackOpBit s3) with (js_shl 1 (effectTrackDepth s + 1)).
      rewrite js_shl_one, pow2_testbit by lia.
      replace (Z.of_nat (S (length L))) with (effectTrackDepth s + 1)%Z
        by (rewrite Hdepth; lia).
      rewrite Z.eqb_refl. cbn. now rewrite orb_true_r.
  - destruct (cleanupEffect_frame e s3) as (Hn & Ht & Hd & Hb & Ha & _).
    eapply Inv_push; [exact HI | exact Hnot | | | | | | | | | | |].
    + intros x. destruct (cleanupEffect_fields e s3 x) as [-> _]. apply Hpar3.
    + rewrite Ha. reflexivity.
    + rewrite Hd. reflexivity.
    + rewrite Hb. reflexivity.
    + rewrite Hn. reflexivity.
    + rewrite Ht. reflexivity.
    + intros x d. rewrite cleanupEffect_deps, cleanupEffect_In, !Hdeps3.
      change (depStore s3) with (depStore s).
      pose proof (inv_I1 _ _ HI x d) as Hxd.
      pose proof (inv_I1 _ _ HI e d) as Hed.
      destruct (Nat.eqb_spec x e) as [->|Hne].
      * split; [intros []|]. intros [Hin Hq]. apply Hq; [tauto | reflexivity].
      * tauto.
    + intros x. rewrite cleanupEffect_deps, Hdeps3.
      destruct (Nat.eqb x e); [constructor | apply (inv_ND _ _ HI)].
    + intros x. rewrite cleanupEffect_deps, Hdeps3.
      destruct (Nat.eqb x e); [intros d [] | apply incl_refl].
    + intros d k _ Hset. unfold bitsAt in *.
      destruct (cleanupEffect_bits e s3 d) as [-> ->]. exact Hset.
    + intros Hk. unfold maxMarkerBits in *. rewrite Hdepth in Hgt. lia.
Qed.

(** Leaving [run]: the effect is popped off the stack. *)
Lemma Inv_pop L e s s' :
  Inv (e :: L) s ->
  (forall x, parent (effects s' x)
             = if Nat.eqb x e then None else parent (effects s x)) ->
  activeEffect s' = parent (effects s e) ->
  effectTrackDepth s' = (effectTrackDepth s - 1)%Z ->
  trackOpBit s' = js_shl 1 (effectTrackDepth s - 1) ->
  nextDep s' = nextDep s ->
  targetMap s' = targetMap s ->
  Bidirectional s' ->
  (forall x, NoDup (deps (effects s' x))) ->
  (forall x, incl (deps (effects s' x)) (deps (effects s x))) ->
  (forall d k, (1 <= k <= Z.of_nat (length L))%Z -> (k <= maxMarkerBits)%Z ->
               bitsAt (depStore s) d k = true -> bitsAt (depStore s') d k = true) ->
  Inv L s'.
Proof.
  intros HI Hpar Hact Hdep Hb Hn Ht HI1' HND' Hincl Hbits.
  destruct HI as [Hchain Hnodup Hoff Hdepth Hbit HI1 HND Halloc Htm Hmarked].
  inversion Hchain as [|? ? Hc]; subst.
  inversion Hnodup as [|? ? Hnot Hnd]; subst.
  constructor.
  - rewrite Hact. eapply Chain_ext; [|exact Hc]. intros x Hx. rewrite Hpar.
    destruct (Nat.eqb_spec x e); [subst; contradiction | reflexivity].
  - exact Hnd.
  - intros x Hx. rewrite Hpar. destruct (Nat.eqb_spec x e) as [->|Hne];
      [reflexivity|].
    apply Hoff. intros [Heq|Hin]; [congruence | contradiction].
  - rewrite Hdep, Hdepth. simpl length. lia.
  - now rewrite Hdep.
  - exact HI1'.
  - exact HND'.
  - intros x d Hin. rewrite Hn. eapply Halloc. apply Hincl. exact Hin.
  - now rewrite Ht, Hn.
  - destruct Hmarked as [_ Htail].
    eapply Marked_preserved; [|exact Htail].
    intros x d k _ Hin Hk1 Hk2. split; [apply Hincl; exact Hin|].
    apply Hbits; assumption.
Qed.

Lemma sweep_facts L e s :
  Inv (e :: L) s ->
  let s1 := if (effectTrackDepth s <=? maxMarkerBits)%Z
            then finalizeDepMarkers e s else s in
  (forall x, parent (effects s1 x) = parent (effects s x))
  /\ nextDep s1 = nextDep s
  /\ targetMap s1 = targetMap s
  /\ effectTrackDepth s1 = effectTrackDepth s
  /\ Bidirectional s1
  /\ (forall x, NoDup (deps (effects s1 x)))
  /\ (forall x, incl (deps (effects s1 x)) (deps (effects s x)))
  /\ (forall d k, (1 <= k <= Z.of_nat (length L))%Z -> (k <= maxMarkerBits)%Z ->
                  bitsAt (depStore s) d k = true -> bitsAt (depStore s1) d k = true).
Proof.
  intros HI. cbv zeta.
  pose proof (inv_depth _ _ HI) as Hdepth. simpl length in Hdepth.
  pose proof (inv_ND _ _ HI e) as HNDe.
  destruct (Z.leb_spec (effectTrackDepth s) maxMarkerBits) as [Hle|Hgt].
  - destruct (finalizeDepMarkers_frame e s) as (Hn & Ht & Hd & Hb & Ha & _).
    destruct (Inv_marker_bit _ _ _ HI Hle) as [Hk Hbit].
    repeat split; try assumption.
    + intros x. apply finalizeDepMarkers_fields.
    + rewrite finalizeDepMarkers_deps by exact HNDe. intros Hin.
      apply finalizeDepMarkers_In; [exact HNDe|].
      pose proof (inv_I1 _ _ HI e0 d) as Hxd.
      destruct (Nat.eqb_spec e0 e) as [->|Hne].
      * apply filter_In in Hin. destruct Hin as [Hin Hsw].
        apply negb_true_iff in Hsw. split; [tauto|].
        intros _ Hf. congruence.
      * split; [tauto|]. intros _ _. exact Hne.
    + rewrite finalizeDepMarkers_deps by exact HNDe. intros Hin.
      apply finalizeDepMarkers_In in Hin; [|exact HNDe].
      pose proof (inv_I1 _ _ HI e0 d) as Hxd.
      destruct (Nat.eqb_spec e0 e) as [->|Hne]; [|tauto].
      apply filter_In. destruct Hin as [Hin Hq]. split; [tauto|].
      apply negb_true_iff.
      destruct (swept (trackOpBit s) (depStore s) d); [|reflexivity].
      exfalso. apply Hq; tauto.
    + intros x. rewrite finalizeDepMarkers_deps by exact HNDe.
      destruct (Nat.eqb x e); [apply NoDup_filter; exact HNDe
                              | apply (inv_ND _ _ HI)].
    + intros x. rewrite finalizeDepMarkers_deps by exact HNDe.
      destruct (Nat.eqb_spec x e) as [->|Hne]; [|apply incl_refl].
      intros d Hd'. apply filter_In in Hd'. tauto.
    + intros d k Hk1 Hk2 Hset. unfold bitsAt in *.
      destruct (finalizeDepMarkers_bits e s d k) as [-> ->]; [lia|].
      rewrite Hbit, pow2_testbit by lia.
      assert (Hneq : (effectTrackDepth s =? k)%Z = false)
        by (apply Z.eqb_neq; lia).
      rewrite Hneq, andb_false_r. cbn [negb]. now rewrite !andb_true_r.
  - repeat split; auto;
      try apply (inv_I1 _ _ HI); try apply (inv_ND _ _ HI).
    intros x. apply incl_refl.
Qed.

Lemma leave_Inv L e last s : Inv (e :: L) s -> Inv L (leave e last s).
Proof.
  intros HI. unfold leave. cbv zeta.
  pose proof (sweep_facts _ _ _ HI) as Hs1. cbv zeta in Hs1.
  set (s1 := if (effectTrackDepth s <=? maxMarkerBits)%Z
             then finalizeDepMarkers e s else s) in *.
  destruct Hs1 as (Hpar & Hn & Ht & Hd & HI1 & HND & Hincl & Hbits).
  match goal with
  | |- Inv _ (if deferStop (effects ?x e) then _ else _) => set (s4 := x)
  end.
  assert (H4 : Inv L s4); [|destruct (deferStop (effects s4 e));
                             [apply stop_Inv|]; exact H4].
  assert (Hdeps4 : forall x, deps (effects s4 x) = deps (effects s1 x)).
  { intros x. subst s4. simpl. unfold upd.
    destruct (Nat.eqb_spec x e); subst; reflexivity. }
  eapply Inv_pop; [exact HI | | | | | | | | | |].
  - intros x. subst s4. simpl. unfold upd.
    destruct (Nat.eqb_spec x e); [reflexivity | apply Hpar].
  - subst s4. simpl. apply Hpar.
  - subst s4. simpl. now rewrite Hd.
  - subst s4. simpl. now rewrite Hd.
  - subst s4. simpl. exact Hn.
  - subst s4. simpl. exact Ht.
  - intros x d. rewrite Hdeps4. apply (HI1 x d).
  - intros x. rewrite Hdeps4. apply HND.
  - intros x. rewrite Hdeps4. apply Hincl.
  - intros d k Hk1 Hk2 Hset. subst s4. simpl. apply Hbits; assumption.
Qed.

(** ** The interpreter keeps the invariant *)

Section InterpreterInv.

Variable fuel : nat.
Variable execF : State -> list Op -> option (Outcome * State).
Hypothesis execF_Inv : forall L s ops o s',
    Inv L s -> execF s ops = Some (o, s') -> Inv L s'.

Lemma run_Inv L e s o s' :
  Inv L s -> run fuel execF e s = Some (o, s') -> Inv L s'.
Proof.
  intros HI. unfold run, callFn.
  destruct (active (effects s e)); cbn [negb].
  - destruct (parentChainHas fuel (effects s) (activeEffect s) e)
      as [[|]|] eqn:Ech; [| |discriminate].
    + intros [= <- <-]. exact HI.
    + assert (Hnot : ~ In e L).
      { intros Hin.
        apply (parentChainHas_spec _ _ _ (inv_chain _ _ HI) _ _ _ Ech) in Hin.
        discriminate. }
      destruct (execF (emit (EvFn e) (enter e s)) (fn (effects (enter e s) e)))
        as [[o1 s1]|] eqn:Ex; [|discriminate].
      intros [= <- <-]. apply leave_Inv.
      eapply execF_Inv; [|exact Ex]. apply emit_Inv. now apply enter_Inv.
  - intros Hx. eapply execF_Inv; [|exact Hx]. now apply emit_Inv.
Qed.

Lemma triggerEffect_Inv L e s o s' :
  Inv L s -> triggerEffect fuel execF e s = Some (o, s') -> Inv L s'.
Proof.
  intros HI. unfold triggerEffect.
  destruct (negb (isActiveEffect s e) || allowRecurse (effects s e)).
  - destruct (scheduler (effects (emit (EvFire e) s) e)) as [body|].
    + intros Hx. eapply execF_Inv; [|exact Hx]. now do 2 apply emit_Inv.
    + intros Hx. eapply run_Inv; [|exact Hx]. now apply emit_Inv.
  - intros [= <- <-]. exact HI.
Qed.

Lemma triggerPass_Inv L flag effs : forall s o s',
  Inv L s -> triggerPass fuel execF flag effs s = Some (o, s') -> Inv L s'.
Proof.
  induction effs as [|e rest IH]; intros s o s' HI; simpl.
  - intros [= <- <-]. exact HI.
  - destruct (Bool.eqb (computed (effects s e)) flag); [|now apply IH].
    destruct (triggerEffect fuel execF e s) as [[[|] s1]|] eqn:Et;
      [| |discriminate].
    + apply IH. eapply triggerEffect_Inv; eassumption.
    + intros [= <- <-]. eapply triggerEffect_Inv; eassumption.
Qed.

Lemma triggerEffects_Inv L effs s o s' :
  Inv L s -> triggerEffects fuel execF effs s = Some (o, s') -> Inv L s'.
Proof.
  intros HI. unfold triggerEffects.
  destruct (triggerPass fuel execF true effs s) as [[[|] s1]|] eqn:Et;
    [| |discriminate].
  - apply triggerPass_Inv. eapply triggerPass_Inv; eassumption.
  - intros [= <- <-]. eapply triggerPass_Inv; eassumption.
Qed.

Lemma trigger_Inv L target type key newValue s o s' :
  Inv L s ->
  trigger fuel execF target type key newValue s = Some (o, s') -> Inv L s'.
Proof.
  intros HI. unfold trigger.
  destruct (alist_get Target_eqb target (targetMap s)) as [depsMap|].
  - destruct (collectDeps target type key newValue depsMap) as [ds|].
    + now apply triggerEffects_Inv.
    + intros [= <- <-]. exact HI.
  - intros [= <- <-]. exact HI.
Qed.

Lemma step_Inv L op s o s' :
  Inv L s -> step fuel execF op s = Some (o, s') -> Inv L s'.
Proof.
  intros HI. destruct op; simpl.
  - intros [= <- <-]. now apply track_Inv.
  - now apply trigger_Inv.
  - now apply run_Inv.
  - intros [= <- <-]. now apply stop_Inv.
  - intros [= <- <-]. now apply pauseTracking_Inv.
  - intros [= <- <-]. now apply enableTracking_Inv.
  - intros [= <- <-]. now apply resetTracking_Inv.
  - intros [= <- <-]. exact HI.
Qed.

End InterpreterInv.

Lemma exec_Inv : forall fuel L s ops o s',
Inv L s -> exec fuel s ops = Some (o, s') -> Inv L s'.
Proof.
induction fuel as [|f IH]; intros L s ops o s' HI; simpl; [discriminate|].
destruct ops as [|op rest].
- intros [= <- <-]. exact HI.
- destruct (step f (exec f) op s) as [[[|] s1]|] eqn:Es; [| |discriminate].
  + apply IH. eapply step_Inv; [exact IH | exact HI | exact Es].
  + intros [= <- <-]. eapply step_Inv; [exact IH | exact HI | exact Es].
Qed.

Lemma initialState_Inv decls : Inv [] (initialState decls).
Proof.
constructor; simpl; try (intros; contradiction); auto.
- constructor.
- constructor.
- intros e d. simpl. tauto.
- intros e. constructor.
Qed.

(** ** What no operation changes: the trace already written and the
    program of every effect *)

Lemma Evolves_refl s : Evolves s s.
Proof. constructor; try reflexivity. exists []. now rewrite app_nil_r. Qed.

Lemma Evolves_trans s1 s2 s3 : Evolves s1 s2 -> Evolves s2 s3 -> Evolves s1 s3.
Proof.
  intros [[n1 H1] Ha Hb Hc Hd He] [[n2 H2] Ha' Hb' Hc' Hd' He'].
  constructor; try (intros e; congruence).
  exists (n1 ++ n2). rewrite H2, H1. now rewrite app_assoc.
Qed.

Lemma Evolves_emit ev s : Evolves s (emit ev s).
Proof. constructor; try reflexivity. now exists [ev]. Qed.

(** A step that touches neither the trace nor the program. *)
Lemma Evolves_silent s s' :
  log s' = log s ->
  (forall e, computed (effects s' e) = computed (effects s e)
             /\ allowRecurse (effects s' e) = allowRecurse (effects s e)
             /\ onStop (effects s' e) = onStop (effects s e)
             /\ fn (effects s' e) = fn (effects s e)
             /\ scheduler (effects s' e) = scheduler (effects s e)) ->
  Evolves s s'.
Proof.
  intros Hl Hf. constructor; try (intros e; apply Hf).
  exists []. now rewrite app_nil_r.
Qed.

Ltac same_fields :=
  intros; simpl; unfold upd;
  match goal with
  | |- context [Nat.eqb ?x ?y] => destruct (Nat.eqb_spec x y); subst
  | _ => idtac
  end; repeat split; reflexivity.

Lemma Evolves_cleanupEffect e s : Evolves s (cleanupEffect e s).
Proof.
  apply Evolves_silent.
  - apply cleanupEffect_frame.
  - intros x. pose proof (cleanupEffect_fields e s x). tauto.
Qed.

Lemma Evolves_initDepMarkers e s : Evolves s (initDepMarkers e s).
Proof.
  destruct (initDepMarkers_frame e s) as (He & _ & _ & _ & _ & _ & _ & _ & Hl).
  apply Evolves_silent; [exact Hl|]. intros x. rewrite He. repeat split.
Qed.

Lemma Evolves_finalizeDepMarkers e s : Evolves s (finalizeDepMarkers e s).
Proof.
  apply Evolves_silent.
  - apply finalizeDepMarkers_frame.
  - intros x. pose proof (finalizeDepMarkers_fields e s x). tauto.
Qed.

Lemma Evolves_stop e s : Evolves s (stop e s).
Proof.
  unfold stop. destruct (isActiveEffect s e).
  - apply Evolves_silent; [reflexivity | same_fields].
  - destruct (active (effects s e)); [|apply Evolves_refl].
    eapply Evolves_trans; [apply (Evolves_cleanupEffect e)|].
    destruct (onStop (effects (cleanupEffect e s) e)).
    + eapply Evolves_trans; [apply (Evolves_emit (EvOnStop e))|].
      apply Evolves_silent; [reflexivity | same_fields].
    + apply Evolves_silent; [reflexivity | same_fields].
Qed.

Lemma Evolves_subscribe a d s : Evolves s (subscribe a d s).
Proof. apply Evolves_silent; [reflexivity | same_fields]. Qed.

Lemma Evolves_trackEffects d s : Evolves s (trackEffects d s).
Proof.
  unfold trackEffects. destruct (activeEffect s) as [a|]; [|apply Evolves_refl].
  destruct (effectTrackDepth s <=? maxMarkerBits)%Z.
  - destruct (negb (newTracked (trackOpBit s) (depStore s d)));
      [|apply Evolves_refl].
    match goal with
    | |- Evolves _ (if ?c then _ else _) => destruct c
    end.
    + eapply Evolves_trans; [|apply Evolves_subscribe].
      apply Evolves_silent; [reflexivity | same_fields].
    + apply Evolves_silent; [reflexivity | same_fields].
  - destruct (negb (dep_has a (depStore s d)));
      [apply Evolves_subscribe | apply Evolves_refl].
Qed.

Lemma Evolves_track target type key s : Evolves s (track target type key s).
Proof.
  unfold track.
  destruct (shouldTrack s && match activeEffect s with Some _ => true | None => false end);
    [|apply Evolves_refl].
  destruct (alist_get Target_eqb target (targetMap s)) as [m|].
  - destruct (alist_get Key_eqb key m) as [d|].
    + apply Evolves_trackEffects.
    + eapply Evolves_trans; [|apply Evolves_trackEffects].
      apply Evolves_silent; [reflexivity | same_fields].
  - cbn [alist_get].
    eapply Evolves_trans; [|apply Evolves_trackEffects].
    apply Evolves_silent; [reflexivity | same_fields].
Qed.

Lemma Evolves_enter e s : Evolves s (enter e s).
Proof.
  unfold enter. cbv zeta.
  match goal with
  | |- Evolves _ (if _ then initDepMarkers e ?x else _) => set (s3 := x)
  end.
  assert (H3 : Evolves s s3)
    by (apply Evolves_silent; [reflexivity | subst s3; same_fields]).
  destruct (effectTrackDepth s3 <=? maxMarkerBits)%Z;
    (eapply Evolves_trans; [exact H3|]);
    [apply Evolves_initDepMarkers | apply Evolves_cleanupEffect].
Qed.

Lemma Evolves_leave e last s : Evolves s (leave e last s).
Proof.
  unfold leave. cbv zeta.
  set (s1 := if (effectTrackDepth s <=? maxMarkerBits)%Z
             then finalizeDepMarkers e s else s).
  assert (H1 : Evolves s s1).
  { subst s1. destruct (effectTrackDepth s <=? maxMarkerBits)%Z;
      [apply Evolves_finalizeDepMarkers | apply Evolves_refl]. }
  match goal with
  | |- Evolves _ (if deferStop (effects ?x e) then _ else _) => set (s4 := x)
  end.
  assert (H4 : Evolves s1 s4)
    by (apply Evolves_silent; [reflexivity | subst s4; same_fields]).
  destruct (deferStop (effects s4 e)).
  - eapply Evolves_trans; [exact H1|].
    eapply Evolves_trans; [exact H4 | apply Evolves_stop].
  - eapply Evolves_trans; eassumption.
Qed.

Lemma Evolves_resetTracking s : Evolves s (resetTracking s).
Proof.
  unfold resetTracking. destruct (array_pop (trackStack s)).
  apply Evolves_silent; [reflexivity | same_fields].
Qed.

Section InterpreterEvolves.

Variable fuel : nat.
Variable execF : State -> list Op -> option (Outcome * State).
Hypothesis execF_Evolves : forall s ops o s',
    execF s ops = Some (o, s') -> Evolves s s'.

Lemma run_Evolves e s o s' :
  run fuel execF e s = Some (o, s') -> Evolves s s'.
Proof.
  unfold run, callFn.
  destruct (active (effects s e)); cbn [negb].
  - destruct (parentChainHas fuel (effects s) (activeEffect s) e)
      as [[|]|]; [| |discriminate].
    + intros [= <- <-]. apply Evolves_refl.
    + destruct (execF (emit (EvFn e) (enter e s)) (fn (effects (enter e s) e)))
        as [[o1 s1]|] eqn:Ex; [|discriminate].
      intros [= <- <-].
      eapply Evolves_trans; [apply (Evolves_enter e)|].
      eapply Evolves_trans; [apply (Evolves_emit (EvFn e))|].
      eapply Evolves_trans; [eapply execF_Evolves; exact Ex|].
      apply Evolves_leave.
  - intros Hx. eapply Evolves_trans; [apply (Evolves_emit (EvFn e))|].
    eapply execF_Evolves; exact Hx.
Qed.

Lemma triggerEffect_Evolves e s o s' :
  triggerEffect fuel execF e s = Some (o, s') -> Evolves s s'.
Proof.
  unfold triggerEffect.
  destruct (negb (isActiveEffect s e) || allowRecurse (effects s e)).
  - destruct (scheduler (effects (emit (EvFire e) s) e)) as [body|].
    + intros Hx. eapply Evolves_trans; [apply (Evolves_emit (EvFire e))|].
      eapply Evolves_trans; [apply (Evolves_emit (EvScheduler e))|].
      eapply execF_Evolves; exact Hx.
    + intros Hx. eapply Evolves_trans; [apply (Evolves_emit (EvFire e))|].
      eapply run_Evolves; exact Hx.
  - intros [= <- <-]. apply Evolves_refl.
Qed.

Lemma triggerPass_Evolves flag effs : forall s o s',
  triggerPass fuel execF flag effs s = Some (o, s') -> Evolves s s'.
Proof.
  induction effs as [|e rest IH]; intros s o s'; simpl.
  - intros [= <- <-]. apply Evolves_refl.
  - destruct (Bool.eqb (computed (effects s e)) flag); [|apply IH].
    destruct (triggerEffect fuel execF e s) as [[[|] s1]|] eqn:Et;
      [| |discriminate].
    + intros Hx. eapply Evolves_trans; [eapply triggerEffect_Evolves; exact Et|].
      eapply IH; exact Hx.
    + intros [= <- <-]. eapply triggerEffect_Evolves; exact Et.
Qed.

Lemma triggerEffects_Evolves effs s o s' :
  triggerEffects fuel execF effs s = Some (o, s') -> Evolves s s'.
Proof.
  unfold triggerEffects.
  destruct (triggerPass fuel execF true effs s) as [[[|] s1]|] eqn:Et;
    [| |discriminate].
  - intros Hx. eapply Evolves_trans; eapply triggerPass_Evolves; eassumption.
  - intros [= <- <-]. eapply triggerPass_Evolves; exact Et.
Qed.

Lemma step_Evolves op s o s' :
  step fuel execF op s = Some (o, s') -> Evolves s s'.
Proof.
  destruct op; simpl.
  - intros [= <- <-]. apply Evolves_track.
  - unfold trigger.
    destruct (alist_get Target_eqb target (targetMap s)) as [depsMap|].
    + destruct (collectDeps target type key newValue depsMap) as [ds|].
      * apply triggerEffects_Evolves.
      * intros [= <- <-]. apply Evolves_refl.
    + intros [= <- <-]. apply Evolves_refl.
  - apply run_Evolves.
  - intros [= <- <-]. apply Evolves_stop.
  - intros [= <- <-]. apply Evolves_silent; [reflexivity | same_fields].
  - intros [= <- <-]. apply Evolves_silent; [reflexivity | same_fields].
  - intros [= <- <-]. apply Evolves_resetTracking.
  - intros [= <- <-]. apply Evolves_refl.
Qed.

End InterpreterEvolves.

Lemma exec_Evolves : forall fuel s ops o s',
exec fuel s ops = Some (o, s') -> Evolves s s'.
Proof.
induction fuel as [|f IH]; intros s ops o s'; simpl; [discriminate|].
destruct ops as [|op rest].
- intros [= <- <-]. apply Evolves_refl.
- destruct (step f (exec f) op s) as [[[|] s1]|] eqn:Es; [| |discriminate].
  + intros Hx. eapply Evolves_trans; [eapply step_Evolves; [exact IH | exact Es]|].
    eapply IH; exact Hx.
  + intros [= <- <-]. eapply step_Evolves; [exact IH | exact Es].
Qed.

(** ** A stopped effect stays out of every dep *)

Lemma Quiet_refl e s : Quiet e s s.
Proof. exists []. split; [now rewrite app_nil_r | constructor]. Qed.

Lemma Quiet_same e s s' : log s' = log s -> Quiet e s s'.
Proof. intros H. exists []. split; [now rewrite app_nil_r | constructor]. Qed.

Lemma Quiet_trans e s1 s2 s3 : Quiet e s1 s2 -> Quiet e s2 s3 -> Quiet e s1 s3.
Proof.
  intros [n1 [H1 F1]] [n2 [H2 F2]]. exists (n1 ++ n2). split.
  - rewrite H2, H1. now rewrite app_assoc.
  - apply Forall_app. now split.
Qed.

Lemma Quiet_emit e ev s : byTrigger e ev = false -> Quiet e s (emit ev s).
Proof. intros H. exists [ev]. split; [reflexivity | now constructor]. Qed.

Lemma finalizeLoop_subset e bit ds : forall store kept d x,
  In x (members (fst (finalizeLoop e bit ds store kept) d)) ->
  In x (members (store d)).
Proof.
  induction ds as [|d0 rest IH]; intros store kept d x; simpl; [auto|].
  intros H. apply IH in H. unfold upd in H.
  destruct (Nat.eqb_spec d d0) as [->|Hne]; [|exact H].
  simpl in H.
  destruct (wasTracked bit (store d0) && negb (newTracked bit (store d0)));
    [apply dep_delete_In in H; tauto | exact H].
Qed.

Lemma finalizeDepMarkers_subset e s d x :
  In x (members (depStore (finalizeDepMarkers e s) d)) ->
  In x (members (depStore s d)).
Proof.
  unfold finalizeDepMarkers. destruct (deps (effects s e)) as [|d0 rest]; [auto|].
  pose proof (finalizeLoop_subset e (trackOpBit s) (d0 :: rest) (depStore s) [] d x) as H.
  destruct (finalizeLoop e (trackOpBit s) (d0 :: rest) (depStore s) []).
  exact H.
Qed.

Lemma finalizeDepMarkers_deps_other e s x :
  x <> e ->
  deps (effects (finalizeDepMarkers e s) x) = deps (effects s x).
Proof.
  intros Hne. unfold finalizeDepMarkers.
  destruct (deps (effects s e)) as [|d0 rest]; [reflexivity|].
  destruct (finalizeLoop e (trackOpBit s) (d0 :: rest) (depStore s) []).
  simpl. now rewrite upd_other.
Qed.

Lemma log_stop e0 e s : Quiet e0 s (stop e s).
Proof.
  unfold stop. destruct (isActiveEffect s e); [now apply Quiet_same|].
  destruct (active (effects s e)); [|apply Quiet_refl].
  assert (Hl : log (cleanupEffect e s) = log s) by apply cleanupEffect_frame.
  destruct (onStop (effects (cleanupEffect e s) e)).
  - exists [EvOnStop e]. split; [simpl; now rewrite Hl | now constructor].
  - apply Quiet_same. exact Hl.
Qed.

Lemma log_trackEffects d s : log (trackEffects d s) = log s.
Proof.
  unfold trackEffects. destruct (activeEffect s) as [a|]; [|reflexivity].
  destruct (effectTrackDepth s <=? maxMarkerBits)%Z.
  - destruct (negb (newTracked (trackOpBit s) (depStore s d))); [|reflexivity].
    match goal with |- log (if ?c then _ else _) = _ => destruct c end;
      reflexivity.
  - destruct (negb (dep_has a (depStore s d))); reflexivity.
Qed.

Lemma log_track target type key s : log (track target type key s) = log s.
Proof.
  unfold track.
  destruct (shouldTrack s && match activeEffect s with Some _ => true | None => false end);
    [|reflexivity].
  destruct (alist_get Target_eqb target (targetMap s)) as [m|].
  - destruct (alist_get Key_eqb key m); now rewrite log_trackEffects.
  - cbn [alist_get]. now rewrite log_trackEffects.
Qed.

Lemma log_enter e s : log (enter e s) = log s.
Proof.
  unfold enter. cbv zeta.
  match goal with |- log (if ?c then _ else _) = _ => destruct c end.
  - match goal with |- log (initDepMarkers e ?x) = _ =>
      transitivity (log x); [apply initDepMarkers_frame | reflexivity] end.
  - match goal with |- log (cleanupEffect e ?x) = _ =>
      transitivity (log x); [apply cleanupEffect_frame | reflexivity] end.
Qed.

Lemma log_leave e0 e last s : Quiet e0 s (leave e last s).
Proof.
  unfold leave. cbv zeta.
  match goal with
  | |- Quiet _ _ (if deferStop (effects ?x e) then _ else _) => set (s4 := x)
  end.
  assert (H4 : log s4 = log s).
  { subst s4. simpl. destruct (effectTrackDepth s <=? maxMarkerBits)%Z;
      [apply finalizeDepMarkers_frame | reflexivity]. }
  destruct (deferStop (effects s4 e)).
  - eapply Quiet_trans; [apply Quiet_same; exact H4 | apply log_stop].
  - apply Quiet_same. exact H4.
Qed.

Lemma Stopped_cleanupEffect e0 e s :
  Stopped e0 s -> Stopped e0 (cleanupEffect e s).
Proof.
  intros [Hi Hd Hn Ha Hp].
  destruct (cleanupEffect_frame e s) as (_ & _ & _ & _ & Hact & _).
  constructor.
  - destruct (cleanupEffect_fields e s e0) as (_ & -> & _). exact Hi.
  - rewrite cleanupEffect_deps. now destruct (Nat.eqb e0 e).
  - intros d Hin. apply cleanupEffect_In in Hin. apply (Hn d). tauto.
  - now rewrite Hact.
  - intros x. destruct (cleanupEffect_fields e s x) as (-> & _). apply Hp.
Qed.

Lemma Stopped_stop e0 e s : Stopped e0 s -> Stopped e0 (stop e s).
Proof.
  intros HS. unfold stop. destruct (isActiveEffect s e).
  - destruct HS as [Hi Hd Hn Ha Hp]. constructor; simpl; auto;
      try (unfold upd; destruct (Nat.eqb_spec e0 e); subst; simpl; assumption).
    intros x. unfold upd. destruct (Nat.eqb_spec x e); subst; simpl; apply Hp.
  - destruct (active (effects s e)); [|exact HS].
    apply (Stopped_cleanupEffect e0 e) in HS.
    destruct HS as [Hi Hd Hn Ha Hp].
    destruct (onStop (effects (cleanupEffect e s) e)); constructor; simpl; auto;
      try (unfold upd; destruct (Nat.eqb_spec e0 e); subst; simpl; auto);
      intros x; unfold upd; destruct (Nat.eqb_spec x e); subst; simpl; apply Hp.
Qed.

Lemma Stopped_subscribe e0 a d s :
  a <> e0 -> Stopped e0 s -> Stopped e0 (subscribe a d s).
Proof.
  intros Hne [Hi Hd Hn Ha Hp]. constructor; simpl.
  - rewrite upd_other by congruence. exact Hi.
  - rewrite upd_other by congruence. exact Hd.
  - intros d'. unfold upd. destruct (Nat.eqb_spec d' d) as [->|Hd']; [|apply Hn].
    rewrite dep_add_In. intros [H|H]; [congruence | now apply (Hn d)].
  - exact Ha.
  - intros x. unfold upd. destruct (Nat.eqb_spec x a); subst; simpl; apply Hp.
Qed.

Lemma Stopped_store e0 s store' :
  (forall d, members (store' d) = members (depStore s d)) ->
  Stopped e0 s -> Stopped e0 (setDepStore s store').
Proof.
  intros Hm [Hi Hd Hn Ha Hp]. constructor; simpl; auto.
  intros d. rewrite Hm. apply Hn.
Qed.

Lemma Stopped_trackEffects e0 d s :
  Stopped e0 s -> Stopped e0 (trackEffects d s).
Proof.
  intros HS. unfold trackEffects.
  destruct (activeEffect s) as [a|] eqn:Ea; [|exact HS].
  assert (Hne : a <> e0).
  { intros ->. now apply (st_notactive _ _ HS). }
  destruct (effectTrackDepth s <=? maxMarkerBits)%Z.
  - destruct (negb (newTracked (trackOpBit s) (depStore s d))); [|exact HS].
    match goal with
    | |- Stopped _ (if _ then subscribe a d ?x else _) =>
        assert (H1 : Stopped e0 x)
    end.
    { apply Stopped_store; [|exact HS]. intros d'. unfold upd.
      destruct (Nat.eqb_spec d' d); subst; reflexivity. }
    match goal with |- Stopped _ (if ?c then _ else _) => destruct c end;
      [now apply Stopped_subscribe | exact H1].
  - destruct (negb (dep_has a (depStore s d)));
      [now apply Stopped_subscribe | exact HS].
Qed.

Lemma Stopped_alloc e0 s tm :
  Stopped e0 s ->
  Stopped e0 (setNextDep
                (setDepStore (setTargetMap s tm)
                   (upd (depStore s) (nextDep s) (createDep []))) (S (nextDep s))).
Proof.
  intros [Hi Hd Hn Ha Hp]. constructor; simpl; auto.
  intros d. unfold upd. destruct (Nat.eqb d (nextDep s)); [intros [] | apply Hn].
Qed.

Lemma Stopped_track e0 target type key s :
  Stopped e0 s -> Stopped e0 (track target type key s).
Proof.
  intros HS. unfold track.
  destruct (shouldTrack s && match activeEffect s with Some _ => true | None => false end);
    [|exact HS].
  destruct (alist_get Target_eqb target (targetMap s)) as [m|].
  - destruct (alist_get Key_eqb key m) as [d|].
    + now apply Stopped_trackEffects.
    + apply Stopped_trackEffects. exact (Stopped_alloc e0 s _ HS).
  - cbn [alist_get]. apply Stopped_trackEffects.
    exact (Stopped_alloc e0 s _ HS).
Qed.

Lemma Stopped_enter e0 e s :
  active (effects s e) = true -> Stopped e0 s -> Stopped e0 (enter e s).
Proof.
  intros Hact HS.
  assert (Hne : e <> e0).
  { intros ->. rewrite (st_inactive _ _ HS) in Hact. discriminate. }
  unfold enter. cbv zeta.
  match goal with
  | |- Stopped _ (if _ then initDepMarkers e ?x else _) => set (s3 := x)
  end.
  assert (H3 : Stopped e0 s3).
  { destruct HS as [Hi Hd Hn Ha Hp]. subst s3. constructor; simpl.
    - rewrite upd_other by congruence. exact Hi.
    - rewrite upd_other by congruence. exact Hd.
    - exact Hn.
    - congruence.
    - intros x. unfold upd. destruct (Nat.eqb_spec x e); subst; simpl;
        [exact Ha | apply Hp]. }
  destruct (effectTrackDepth s3 <=? maxMarkerBits)%Z.
  - destruct H3 as [Hi Hd Hn Ha Hp].
    destruct (initDepMarkers_frame e s3) as (He & _ & _ & _ & _ & Hact' & _).
    constructor; rewrite ?He; auto.
    + intros d. rewrite initDepMarkers_members. apply Hn.
    + now rewrite Hact'.
  - now apply Stopped_cleanupEffect.
Qed.

Lemma Stopped_leave e0 e last s :
  e <> e0 -> Stopped e0 s -> Stopped e0 (leave e last s).
Proof.
  intros Hne HS. unfold leave. cbv zeta.
  set (s1 := if (effectTrackDepth s <=? maxMarkerBits)%Z
             then finalizeDepMarkers e s else s).
  assert (H1 : Stopped e0 s1).
  { subst s1. destruct (effectTrackDepth s <=? maxMarkerBits)%Z; [|exact HS].
    destruct HS as [Hi Hd Hn Ha Hp].
    destruct (finalizeDepMarkers_frame e s) as (_ & _ & _ & _ & Hact & _).
    constructor.
    - destruct (finalizeDepMarkers_fields e s e0) as (_ & -> & _). exact Hi.
    - rewrite finalizeDepMarkers_deps_other by congruence. exact Hd.
    - intros d Hin. apply finalizeDepMarkers_subset in Hin. now apply (Hn d).
    - now rewrite Hact.
    - intros x. destruct (finalizeDepMarkers_fields e s x) as (-> & _). apply Hp. }
  match goal with
  | |- Stopped _ (if deferStop (effects ?x e) then _ else _) => set (s4 := x)
  end.
  assert (H4 : Stopped e0 s4).
  { destruct H1 as [Hi Hd Hn Ha Hp]. subst s4. constructor; simpl.
    - rewrite upd_other by congruence. exact Hi.
    - rewrite upd_other by congruence. exact Hd.
    - exact Hn.
    - apply Hp.
    - intros x. unfold upd. destruct (Nat.eqb_spec x e); subst; simpl;
        [discriminate | apply Hp]. }
  destruct (deferStop (effects s4 e)); [now apply Stopped_stop | exact H4].
Qed.

Lemma dedupInto_In xs : forall seen x,
  In x (dedupInto seen xs) <-> In x seen \/ In x xs.
Proof.
  induction xs as [|y rest IH]; intros seen x; simpl; [tauto|].
  destruct (existsb (Nat.eqb y) seen) eqn:E.
  - apply mem_In in E. rewrite IH. split; [tauto|].
    intros [H|[<-|H]]; tauto.
  - rewrite IH, in_app_iff. simpl. tauto.
Qed.

Lemma dedup_In xs x : In x (dedup xs) <-> In x xs.
Proof. unfold dedup. rewrite dedupInto_In. simpl. tauto. Qed.

Lemma dedupInto_NoDup xs : forall seen, NoDup seen -> NoDup (dedupInto seen xs).
Proof.
  induction xs as [|y rest IH]; intros seen Hnd; simpl; [exact Hnd|].
  destruct (existsb (Nat.eqb y) seen) eqn:E; [now apply IH|].
  apply IH. apply NoDup_snoc; [exact Hnd|]. now apply mem_not_In.
Qed.

(** The effects a trigger fires are the members of its candidate deps. *)
Lemma triggerList_In s ds x :
  In x (triggerList s ds)
  <-> exists d, In (Some d) ds /\ In x (members (depStore s d)).
Proof.
  assert (Hflat : In x (flat_map (depEffects s) ds)
                  <-> exists d, In (Some d) ds /\ In x (members (depStore s d))).
  { rewrite in_flat_map. split.
    - intros [[d|] [Hin Hx]]; [eauto | destruct Hx].
    - intros [d [Hin Hx]]. exists (Some d). now split. }
  unfold triggerList. destruct ds as [|od [|od' rest]].
  - simpl. split; [intros [] | intros [d [[] _]]].
  - rewrite <- Hflat. simpl. now rewrite app_nil_r.
  - rewrite <- Hflat. unfold createDep. cbn [members]. apply dedup_In.
Qed.

Section InterpreterStopped.

Variable e0 : EffectId.
Variable fuel : nat.
Variable execF : State -> list Op -> option (Outcome * State).
Hypothesis execF_Stopped : forall s ops o s',
    Stopped e0 s -> execF s ops = Some (o, s') ->
    Stopped e0 s' /\ Quiet e0 s s'.

Lemma Stopped_emit ev s : Stopped e0 s -> Stopped e0 (emit ev s).
Proof. intros [Hi Hd Hn Ha Hp]. now constructor. Qed.

Lemma run_Stopped e s o s' :
  Stopped e0 s -> run fuel execF e s = Some (o, s') ->
  Stopped e0 s' /\ Quiet e0 s s'.
Proof.
  intros HS. unfold run, callFn.
  destruct (active (effects s e)) eqn:Eact; cbn [negb].
  - destruct (parentChainHas fuel (effects s) (activeEffect s) e)
      as [[|]|]; [| |discriminate].
    + intros [= <- <-]. split; [exact HS | apply Quiet_refl].
    + destruct (execF (emit (EvFn e) (enter e s)) (fn (effects (enter e s) e)))
        as [[o1 s1]|] eqn:Ex; [|discriminate].
      intros [= <- <-].
      assert (Hne : e <> e0).
      { intros ->. rewrite (st_inactive _ _ HS) in Eact. discriminate. }
      apply execF_Stopped in Ex;
        [|apply Stopped_emit; now apply Stopped_enter].
      destruct Ex as [HS1 HQ1]. split; [now apply Stopped_leave|].
      eapply Quiet_trans; [apply Quiet_same; apply (log_enter e)|].
      eapply Quiet_trans; [apply (Quiet_emit e0 (EvFn e)); reflexivity|].
      eapply Quiet_trans; [exact HQ1 | apply log_leave].
  - intros Hx. apply execF_Stopped in Hx; [|now apply Stopped_emit].
    destruct Hx as [HS1 HQ1]. split; [exact HS1|].
    eapply Quiet_trans; [apply (Quiet_emit e0 (EvFn e)); reflexivity | exact HQ1].
Qed.

Lemma triggerEffect_Stopped e s o s' :
  e <> e0 -> Stopped e0 s -> triggerEffect fuel execF e s = Some (o, s') ->
  Stopped e0 s' /\ Quiet e0 s s'.
Proof.
  intros Hne HS. unfold triggerEffect.
  assert (Hq : forall x, x <> e0 -> Nat.eqb x e0 = false)
    by (intros x Hx; now apply Nat.eqb_neq).
  destruct (negb (isActiveEffect s e) || allowRecurse (effects s e)).
  - destruct (scheduler (effects (emit (EvFire e) s) e)) as [body|].
    + intros Hx. apply execF_Stopped in Hx; [|now do 2 apply Stopped_emit].
      destruct Hx as [HS1 HQ1]. split; [exact HS1|].
      eapply Quiet_trans; [apply (Quiet_emit e0 (EvFire e)); simpl; auto|].
      eapply Quiet_trans; [apply (Quiet_emit e0 (EvScheduler e)); simpl; auto|].
      exact HQ1.
    + intros Hx. apply run_Stopped in Hx; [|now apply Stopped_emit].
      destruct Hx as [HS1 HQ1]. split; [exact HS1|].
      eapply Quiet_trans; [apply (Quiet_emit e0 (EvFire e)); simpl; auto|].
      exact HQ1.
  - intros [= <- <-]. split; [exact HS | apply Quiet_refl].
Qed.

Lemma triggerPass_Stopped flag effs : forall s o s',
  ~ In e0 effs -> Stopped e0 s ->
  triggerPass fuel execF flag effs s = Some (o, s') ->
  Stopped e0 s' /\ Quiet e0 s s'.
Proof.
  induction effs as [|e rest IH]; intros s o s' Hnot HS; simpl.
  - intros [= <- <-]. split; [exact HS | apply Quiet_refl].
  - assert (Hne : e <> e0) by (intros ->; apply Hnot; now left).
    assert (Hrest : ~ In e0 rest) by (intros H; apply Hnot; now right).
    destruct (Bool.eqb (computed (effects s e)) flag); [|now apply IH].
    destruct (triggerEffect fuel execF e s) as [[[|] s1]|] eqn:Et;
      [| |discriminate].
    + apply triggerEffect_Stopped in Et; [|assumption..].
      destruct Et as [HS1 HQ1]. intros Hx.
      apply IH in Hx; [|assumption..]. destruct Hx as [HS2 HQ2].
      split; [exact HS2 | eapply Quiet_trans; eassumption].
    + intros [= <- <-]. now apply triggerEffect_Stopped in Et.
Qed.

Lemma triggerEffects_Stopped effs s o s' :
  ~ In e0 effs -> Stopped e0 s ->
  triggerEffects fuel execF effs s = Some (o, s') ->
  Stopped e0 s' /\ Quiet e0 s s'.
Proof.
  intros Hnot HS. unfold triggerEffects.
  destruct (triggerPass fuel execF true effs s) as [[[|] s1]|] eqn:Et;
    [| |discriminate].
  - apply triggerPass_Stopped in Et; [|assumption..].
    destruct Et as [HS1 HQ1]. intros Hx.
    apply triggerPass_Stopped in Hx; [|assumption..].
    destruct Hx as [HS2 HQ2].
    split; [exact HS2 | eapply Quiet_trans; eassumption].
  - intros [= <- <-]. now apply triggerPass_Stopped in Et.
Qed.

Lemma step_Stopped op s o s' :
  Stopped e0 s -> step fuel execF op s = Some (o, s') ->
  Stopped e0 s' /\ Quiet e0 s s'.
Proof.
  intros HS. destruct op; simpl.
  - intros [= <- <-]. split; [now apply Stopped_track|].
    apply Quiet_same. apply log_track.
  - unfold trigger.
    destruct (alist_get Target_eqb target (targetMap s)) as [depsMap|].
    + destruct (collectDeps target type key newValue depsMap) as [ds|].
      * apply triggerEffects_Stopped; [|exact HS].
        intros Hin. apply triggerList_In in Hin.
        destruct Hin as [d [_ Hin]]. now apply (st_nowhere _ _ HS d).
      * intros [= <- <-]. split; [exact HS | apply Quiet_refl].
    + intros [= <- <-]. split; [exact HS | apply Quiet_refl].
  - now apply run_Stopped.
  - intros [= <- <-]. split; [now apply Stopped_stop | apply log_stop].
  - intros [= <- <-]. split; [|now apply Quiet_same].
    destruct HS as [Hi Hd Hn Ha Hp]. now constructor.
  - intros [= <- <-]. split; [|now apply Quiet_same].
    destruct HS as [Hi Hd Hn Ha Hp]. now constructor.
  - intros [= <- <-]. unfold resetTracking.
    destruct (array_pop (trackStack s)). split; [|now apply Quiet_same].
    destruct HS as [Hi Hd Hn Ha Hp]. now constructor.
  - intros [= <- <-]. split; [exact HS | apply Quiet_refl].
Qed.

End InterpreterStopped.

Lemma exec_Stopped e0 : forall fuel s ops o s',
Stopped e0 s -> exec fuel s ops = Some (o, s') ->
Stopped e0 s' /\ Quiet e0 s s'.
Proof.
induction fuel as [|f IH]; intros s ops o s' HS; simpl; [discriminate|].
destruct ops as [|op rest].
- intros [= <- <-]. split; [exact HS | apply Quiet_refl].
- destruct (step f (exec f) op s) as [[[|] s1]|] eqn:Es; [| |discriminate].
  + apply (step_Stopped e0 f (exec f) IH) in Es; [|exact HS].
    destruct Es as [HS1 HQ1]. intros Hx.
    apply IH in Hx; [|exact HS1]. destruct Hx as [HS2 HQ2].
    split; [exact HS2 | eapply Quiet_trans; eassumption].
  + intros [= <- <-]. now apply (step_Stopped e0 f (exec f) IH) in Es.
Qed.

(** Stopping an active effect that is not on the stack of running effects
  leaves it stopped for good. *)
Lemma stop_Stopped L e s :
Inv L s -> active (effects s e) = true -> ~ In e L -> Stopped e (stop e s).
Proof.
intros HI Hact Hnot.
assert (Hna : activeEffect s <> Some e).
{ intros Ha. apply Hnot. eapply Chain_active; [apply (inv_chain _ _ HI) | exact Ha]. }
assert (Hnp : forall x, parent (effects s x) <> Some e).
{ intros x Hp. destruct (in_dec Nat.eq_dec x L) as [Hin|Hout].
  - apply Hnot. eapply Chain_parent; [apply (inv_chain _ _ HI) | exact Hin | exact Hp].
  - rewrite (inv_off _ _ HI x Hout) in Hp. discriminate. }
unfold stop.
assert (Hia : isActiveEffect s e = false).
{ unfold isActiveEffect. destruct (activeEffect s) as [a|]; [|reflexivity].
  apply Nat.eqb_neq. intros ->. now apply Hna. }
rewrite Hia, Hact.
destruct (cleanupEffect_frame e s) as (_ & _ & _ & _ & Ha & _).
assert (Hd : deps (effects (cleanupEffect e s) e) = [])
  by (rewrite cleanupEffect_deps; now rewrite Nat.eqb_refl).
assert (Hn : forall d, ~ In e (members (depStore (cleanupEffect e s) d))).
{ intros d Hin. apply cleanupEffect_In in Hin. destruct Hin as [Hin Hq].
  apply Hq; [|reflexivity]. now apply (inv_I1 _ _ HI). }
assert (Hp : forall x, parent (effects (cleanupEffect e s) x) <> Some e).
{ intros x. destruct (cleanupEffect_fields e s x) as (-> & _). apply Hnp. }
destruct (onStop (effects (cleanupEffect e s) e)); constructor; simpl;
  rewrite ?upd_same; simpl; auto; try congruence;
  intros x; unfold upd; destruct (Nat.eqb_spec x e); subst; simpl; apply Hp.
Qed.

(** ** The tracking switch *)

Lemma array_pop_push {A : Type} (l : list A) (x : A) :
  array_pop (l ++ [x]) = (Some x, l).
Proof. unfold array_pop. rewrite rev_app_distr. simpl. now rewrite rev_involutive. Qed.

(** C3, as the code has it: [pauseTracking(); enableTracking();
    resetTracking()] pops only what [enableTracking] pushed.  It leaves
    [shouldTrack] false, the value [pauseTracking] set, with the prior
    value still on top of [trackStack]; a second [resetTracking()] restores
    the prior value and the stack. *)
Theorem pause_enable_reset (s : State) :
  let s' := resetTracking (enableTracking (pauseTracking s)) in
  shouldTrack s' = false
  /\ trackStack s' = trackStack s ++ [shouldTrack s]
  /\ shouldTrack (resetTracking s') = shouldTrack s
  /\ trackStack (resetTracking s') = trackStack s.
Proof.
  cbv zeta.
  assert (H : resetTracking (enableTracking (pauseTracking s))
              = setShouldTrack
                  (setTrackStack (enableTracking (pauseTracking s))
                                 (trackStack s ++ [shouldTrack s])) false).
  { unfold resetTracking. simpl trackStack. now rewrite array_pop_push. }
  rewrite H. split; [reflexivity|]. split; [reflexivity|].
  unfold resetTracking. simpl trackStack. rewrite array_pop_push.
  split; reflexivity.
Qed.

(** C3 as stated fails: from the initial state, where [shouldTrack] is
    true, the sequence ends with [shouldTrack] false. *)
Lemma pause_enable_reset_counterexample :
  shouldTrack (initialState idleProgram) = true
  /\ shouldTrack (resetTracking (enableTracking (pauseTracking
                    (initialState idleProgram)))) = false.
Proof. split; reflexivity. Qed.

(** C10: [resetTracking()] on an empty [trackStack] sets [shouldTrack] to
    true, whatever it was, and leaves the stack empty. *)
Theorem resetTracking_empty_stack (s : State) :
  trackStack s = [] ->
  shouldTrack (resetTracking s) = true /\ trackStack (resetTracking s) = [].
Proof. intros H. unfold resetTracking. rewrite H. simpl. split; reflexivity. Qed.

Lemma resetTracking_empty_stack_witness :
  trackStack (setShouldTrack (initialState idleProgram) false) = []
  /\ shouldTrack (resetTracking (setShouldTrack (initialState idleProgram) false)) = true
  /\ trackStack (resetTracking (setShouldTrack (initialState idleProgram) false)) = [].
Proof.
  split; [reflexivity|].
  apply (resetTracking_empty_stack (setShouldTrack (initialState idleProgram) false)).
  reflexivity.
Defined.

(** ** The graph invariant for every reachable state *)

(** The three places that change membership keep it two-sided, in any
    state (also in the middle of a run). *)
Lemma subscribe_Bidirectional a d s :
  Bidirectional s -> Bidirectional (subscribe a d s).
Proof.
  intros HI1 x d'. simpl. unfold upd.
  pose proof (HI1 x d') as Hq.
  destruct (Nat.eqb_spec x a) as [->|Hxa], (Nat.eqb_spec d' d) as [->|Hd];
    cbn [deps withDeps]; rewrite ?in_app_iff, ?dep_add_In; simpl.
  - tauto.
  - split; [intros [H|[H|[]]]; [tauto | congruence] | tauto].
  - split; [tauto | intros [H|H]; [congruence | tauto]].
  - exact Hq.
Qed.

Lemma cleanupEffect_Bidirectional e s :
  Bidirectional s -> Bidirectional (cleanupEffect e s).
Proof.
  intros HI1 x d. rewrite cleanupEffect_deps, cleanupEffect_In.
  destruct (Nat.eqb_spec x e) as [->|Hne].
  - split; [intros []|]. intros [Hin Hq]. apply Hq; [|reflexivity].
    now apply HI1.
  - pose proof (HI1 x d). tauto.
Qed.

Lemma finalizeDepMarkers_Bidirectional e s :
  Bidirectional s -> NoDup (deps (effects s e)) ->
  Bidirectional (finalizeDepMarkers e s).
Proof.
  intros HI1 Hnd x d.
  rewrite (finalizeDepMarkers_deps e s x Hnd), (finalizeDepMarkers_In e s d x Hnd).
  pose proof (HI1 x d) as Hq.
  destruct (Nat.eqb_spec x e) as [->|Hne].
  - rewrite filter_In, negb_true_iff.
    destruct (swept (trackOpBit s) (depStore s) d); split.
    + intros [_ H]; discriminate H.
    + intros [H1 H2]. exfalso. apply H2; tauto.
    + intros [H _]. split; [tauto | intros _ H'; discriminate H'].
    + tauto.
  - tauto.
Qed.

(** C1: in every state reached from the initial one by calls of [run],
    [track], [stop], [trigger] and the tracking switches, for every effect
    [e] and dep [d]: [d] is in [e.deps] exactly when [e] is a member of
    [d]; and the subscription made by [trackEffects], the sweep of
    [finalizeDepMarkers] and [cleanupEffect] each change both sides
    together. *)
Theorem membership_is_bidirectional decls fuel ops o s :
  exec fuel (initialState decls) ops = Some (o, s) ->
  (forall e d, In d (deps (effects s e)) <-> In e (members (depStore s d)))
  /\ (forall a d0 e d,
        In d (deps (effects (subscribe a d0 s) e))
        <-> In e (members (depStore (subscribe a d0 s) d)))
  /\ (forall e0 e d,
        In d (deps (effects (finalizeDepMarkers e0 s) e))
        <-> In e (members (depStore (finalizeDepMarkers e0 s) d)))
  /\ (forall e0 e d,
        In d (deps (effects (cleanupEffect e0 s) e))
        <-> In e (members (depStore (cleanupEffect e0 s) d))).
Proof.
  intros Hx.
  assert (HI : Inv [] s)
    by (eapply exec_Inv; [apply initialState_Inv | exact Hx]).
  pose proof (inv_I1 _ _ HI) as HI1.
  split; [exact HI1|].
  split; [intros a d0; apply subscribe_Bidirectional, HI1|].
  split; [intros e0; apply finalizeDepMarkers_Bidirectional;
          [exact HI1 | apply (inv_ND _ _ HI)]|].
  intros e0. apply cleanupEffect_Bidirectional, HI1.
Qed.

Lemma membership_is_bidirectional_witness :
  exists o s,
    exec 20 (initialState demoProgram)
         (demoRuns ++ [OTrigger demoArray SET (Some KLength) (Some 2%Z); OStop 1])
    = Some (o, s)
    /\ forall e d, In d (deps (effects s e)) <-> In e (members (depStore s d)).
Proof.
  destruct (exec 20 (initialState demoProgram)
              (demoRuns ++ [OTrigger demoArray SET (Some KLength) (Some 2%Z); OStop 1]))
    as [[o s]|] eqn:E.
  - exists o, s. split; [reflexivity|].
    exact (proj1 (membership_is_bidirectional _ _ _ _ _ E)).
  - vm_compute in E. discriminate E.
Defined.

(** ** stop *)




(** ** triggerEffects and triggerEffect *)

Section FiringOrder.

Variable fuel : nat.
Variable execF : State -> list Op -> option (Outcome * State).
Hypothesis execF_Evolves : forall s ops o s',
    execF s ops = Some (o, s') -> Evolves s s'.

Lemma filter_computed_stable flag effs s s' :
  Evolves s s' ->
  filter (fun e => Bool.eqb (computed (effects s' e)) flag) effs
  = filter (fun e => Bool.eqb (computed (effects s e)) flag) effs.
Proof.
  intros HE. apply filter_ext. intros e. now rewrite (ev_computed _ _ HE).
Qed.

Lemma triggerPass_fireAll flag effs : forall s,
  triggerPass fuel execF flag effs s
  = fireAll fuel execF
      (filter (fun e => Bool.eqb (computed (effects s e)) flag) effs) s.
Proof.
  induction effs as [|e rest IH]; intros s; simpl; [reflexivity|].
  destruct (Bool.eqb (computed (effects s e)) flag); [|apply IH].
  simpl. destruct (triggerEffect fuel execF e s) as [[[|] s1]|] eqn:Et;
    try reflexivity.
  rewrite IH. f_equal. apply filter_computed_stable.
  eapply triggerEffect_Evolves; eassumption.
Qed.

Lemma fireAll_app l1 l2 s :
  fireAll fuel execF (l1 ++ l2) s
  = match fireAll fuel execF l1 s with
    | Some (Normal, s') => fireAll fuel execF l2 s'
    | r => r
    end.
Proof.
  revert s. induction l1 as [|e rest IH]; intros s; simpl; [reflexivity|].
  destruct (triggerEffect fuel execF e s) as [[[|] s1]|]; auto.
Qed.

Lemma fireAll_Evolves effs : forall s o s',
  fireAll fuel execF effs s = Some (o, s') -> Evolves s s'.
Proof.
  induction effs as [|e rest IH]; intros s o s'; simpl.
  - intros [= <- <-]. apply Evolves_refl.
  - destruct (triggerEffect fuel execF e s) as [[[|] s1]|] eqn:Et;
      [| |discriminate].
    + intros Hx. eapply Evolves_trans; [|eapply IH; exact Hx].
      eapply triggerEffect_Evolves; eassumption.
    + intros [= <- <-]. eapply triggerEffect_Evolves; eassumption.
Qed.

Lemma triggerEffects_fireAll effs s :
  triggerEffects fuel execF effs s
  = fireAll fuel execF
      (filter (fun e => computed (effects s e)) effs
       ++ filter (fun e => negb (computed (effects s e))) effs) s.
Proof.
  unfold triggerEffects. rewrite fireAll_app, triggerPass_fireAll.
  assert (Ht : filter (fun e => Bool.eqb (computed (effects s e)) true) effs
               = filter (fun e => computed (effects s e)) effs).
  { apply filter_ext. intros e. now destruct (computed (effects s e)). }
  rewrite Ht.
  destruct (fireAll fuel execF (filter (fun e => computed (effects s e)) effs) s)
    as [[[|] s1]|] eqn:Ef; try reflexivity.
  rewrite triggerPass_fireAll. f_equal.
  rewrite (filter_computed_stable false effs s s1)
    by (eapply fireAll_Evolves; exact Ef).
  apply filter_ext. intros e. now destruct (computed (effects s e)).
Qed.

End FiringOrder.

(** C5: one [triggerEffects] call on the effects of a dep is the firing,
  in order, of its computed-backed effects (all N of them) followed by
  its other effects (the M of them): every [triggerEffect] on an effect
  with a [computed] back-reference comes before any on one without. *)
Theorem triggerEffects_computed_first fuel effs s :
triggerEffects fuel (exec fuel) effs s
= fireAll fuel (exec fuel)
    (filter (fun e => computed (effects s e)) effs
     ++ filter (fun e => negb (computed (effects s e))) effs) s.
Proof. apply triggerEffects_fireAll. apply exec_Evolves. Qed.

(** C6: [triggerEffect] calls neither [run] nor the scheduler exactly
  when the effect is the active effect and [allowRecurse] is falsy (the
  state, trace included, is then untouched); otherwise it calls the
  scheduler if there is one and [run] if not, and the trace shows it. *)
Theorem triggerEffect_guard fuel e s :
triggerEffect fuel (exec fuel) e s
= (if isActiveEffect s e && negb (allowRecurse (effects s e))
   then Some (Normal, s)
   else match scheduler (effects s e) with
        | Some body => exec fuel (emit (EvScheduler e) (emit (EvFire e) s)) body
        | None => run fuel (exec fuel) e (emit (EvFire e) s)
        end)
/\ (isActiveEffect s e && negb (allowRecurse (effects s e)) = false ->
    forall o s', triggerEffect fuel (exec fuel) e s = Some (o, s') ->
      exists rest,
        log s' = log s ++ EvFire e ::
                   (match scheduler (effects s e) with
                    | Some _ => [EvScheduler e]
                    | None => []
                    end) ++ rest).
Proof.
unfold triggerEffect. split.
- destruct (isActiveEffect s e), (allowRecurse (effects s e)); reflexivity.
- intros Hg o s'.
  assert (Hgo : negb (isActiveEffect s e) || allowRecurse (effects s e) = true)
    by (destruct (isActiveEffect s e), (allowRecurse (effects s e));
        simpl in *; congruence).
  rewrite Hgo. cbn [effects emit].
  destruct (scheduler (effects s e)) as [body|].
  + intros Hx. apply exec_Evolves in Hx. destruct (ev_log _ _ Hx) as [new Hl].
    exists new. rewrite Hl. simpl. rewrite <- !app_assoc. reflexivity.
  + intros Hx. apply (run_Evolves fuel (exec fuel) (exec_Evolves fuel)) in Hx.
    destruct (ev_log _ _ Hx) as [new Hl].
    exists new. rewrite Hl. simpl. rewrite <- !app_assoc. reflexivity.
Qed.

(** ** trigger on the length of an array *)

Lemma lengthDeps_strings k depsMap :
(forall key d, In (key, d) depsMap -> isSymbol key = false) ->
lengthDeps (Some k) depsMap
= Some (map (fun kv => Some (snd kv))
            (filter (fun kv => lengthHit k (fst kv)) depsMap)).
Proof.
induction depsMap as [|[key d] rest IH]; intros Hs; simpl; [reflexivity|].
rewrite IH by (intros key' d' Hin; eapply Hs; right; exact Hin).
specialize (Hs key d (or_introl eq_refl)).
destruct key; simpl in *; try reflexivity; try discriminate.
destruct (k <=? Z.of_N i)%Z; reflexivity.
Qed.

(** A symbol among the tracked keys of the array: the comparison
  [key >= newLength] raises a TypeError and nothing is collected. *)
Lemma lengthDeps_symbol newLength depsMap id d :
In (KSymbol id, d) depsMap -> lengthDeps newLength depsMap = None.
Proof.
induction depsMap as [|[key d'] rest IH]; intros Hin; simpl; [destruct Hin|].
destruct Hin as [[= -> ->]|Hin]; [reflexivity|].
rewrite (IH Hin).
destruct (if Key_eqb key KLength then Some true else key_ge key newLength)
  as [b|]; reflexivity.
Qed.

(** For an array whose tracked keys are strings, a trigger with key
  ["length"] and new value [k] collects exactly the deps whose key is
  ["length"] or an index [>= k], in the order of the depsMap; deps for
  indices [< k] are not collected, and the effects handed to
  [triggerEffects] are exactly the members of the collected deps. *)
Lemma trigger_length_collects fuel target depsMap k s :
isArray target = true ->
alist_get Target_eqb target (targetMap s) = Some depsMap ->
(forall key d, In (key, d) depsMap -> isSymbol key = false) ->
collectDeps target SET (Some KLength) (Some k) depsMap
= Some (map (fun kv => Some (snd kv))
            (filter (fun kv => lengthHit k (fst kv)) depsMap))
/\ (forall key d,
      In (key, d) (filter (fun kv => lengthHit k (fst kv)) depsMap)
      <-> In (key, d) depsMap
          /\ (key = KLength \/ exists i, key = KIndex i /\ (k <= Z.of_N i)%Z))
/\ exists effs,
     trigger fuel (exec fuel) target SET (Some KLength) (Some k) s
     = triggerEffects fuel (exec fuel) effs s
     /\ forall x, In x effs
                  <-> exists key d,
                        In (key, d) depsMap /\ lengthHit k key = true
                        /\ In x (members (depStore s d)).
Proof.
intros Harr Hget Hstr.
assert (Hc : collectDeps target SET (Some KLength) (Some k) depsMap
             = Some (map (fun kv => Some (snd kv))
                         (filter (fun kv => lengthHit k (fst kv)) depsMap))).
{ unfold collectDeps. rewrite Harr. simpl. now apply lengthDeps_strings. }
split; [exact Hc|]. split.
- intros key d. rewrite filter_In. simpl. split.
  + intros [Hin Hh]. split; [exact Hin|].
    destruct key; simpl in Hh; try discriminate; [now left|].
    right. exists i. split; [reflexivity | now apply Z.leb_le].
  + intros [Hin [->|[i [-> Hi]]]]; (split; [exact Hin|]); simpl;
      [reflexivity | now apply Z.leb_le].
- eexists. split.
  + unfold trigger. rewrite Hget, Hc. reflexivity.
  + intros x. rewrite triggerList_In. split.
    * intros [d [Hin Hx]]. apply in_map_iff in Hin.
      destruct Hin as [[key d'] [[= ->] Hin]]. apply filter_In in Hin.
      exists key, d. simpl in Hin. tauto.
    * intros [key [d [Hin [Hh Hx]]]]. exists d. split; [|exact Hx].
      apply in_map_iff. exists (key, d). split; [reflexivity|].
      apply filter_In. now split.
Qed.

Lemma trigger_length_collects_example :
exists s depsMap,
  exec 20 (initialState demoProgram) demoRuns = Some (Normal, s)
  /\ alist_get Target_eqb demoArray (targetMap s) = Some depsMap
  /\ depsMap = [(KIndex 0, 0); (KLength, 1); (KIndex 2, 2)]
  /\ collectDeps demoArray SET (Some KLength) (Some 2%Z) depsMap
     = Some [Some 1; Some 2]
  /\ exists effs,
       trigger 20 (exec 20) demoArray SET (Some KLength) (Some 2%Z) s
       = triggerEffects 20 (exec 20) effs s
       /\ forall x, In x effs
                    <-> exists key d,
                          In (key, d) depsMap /\ lengthHit 2 key = true
                          /\ In x (members (depStore s d)).
Proof.
eexists. eexists.
split; [vm_compute; reflexivity|].
split; [reflexivity|].
split; [reflexivity|].
split; [reflexivity|].
refine (proj2 (proj2 (trigger_length_collects 20 demoArray _ 2 _ _ _ _))).
- reflexivity.
- reflexivity.
- intros key d [[= <- <-]|[[= <- <-]|[[= <- <-]|[]]]]; reflexivity.
Qed.

(** An effect is fired through any collected dep it belongs to: effect 0
  is a member of the dep of index 0, which is below the new length 1 and
  is not collected, and of the dep of ["length"], through which the
  trigger fires it. *)
Lemma trigger_length_shared_effect :
exists s s',
  exec 20 (initialState demoProgram) demoRuns = Some (Normal, s)
  /\ alist_get Target_eqb demoArray (targetMap s)
     = Some [(KIndex 0, 0); (KLength, 1); (KIndex 2, 2)]
  /\ members (depStore s 0) = [0; 3]
  /\ collectDeps demoArray SET (Some KLength) (Some 1%Z)
                 [(KIndex 0, 0); (KLength, 1); (KIndex 2, 2)]
     = Some [Some 1; Some 2]
  /\ exec 20 s [OTrigger demoArray SET (Some KLength) (Some 1%Z)]
     = Some (Normal, s')
  /\ log s' = log s ++ [EvFire 0; EvFn 0; EvFire 2; EvFn 2; EvFire 1; EvFn 1].
Proof.
eexists. eexists.
split; [vm_compute; reflexivity|].
split; [reflexivity|].
split; [reflexivity|].
split; [reflexivity|].
split; [vm_compute; reflexivity|].
reflexivity.
Qed.

(** With a symbol among the tracked keys of the array, the same trigger
  throws before any effect is fired. *)
Lemma trigger_length_symbol_key fuel target depsMap k id d s :
isArray target = true ->
alist_get Target_eqb target (targetMap s) = Some depsMap ->
In (KSymbol id, d) depsMap ->
trigger fuel (exec fuel) target SET (Some KLength) k s = Some (Thrown, s).
Proof.
intros Harr Hget Hin. unfold trigger. rewrite Hget.
unfold collectDeps. rewrite Harr. simpl.
now rewrite (lengthDeps_symbol k depsMap id d Hin).
Qed.

(** C7 at an array with a tracked symbol key: setting the length to 0
  should collect the dep of ["length"] and fire effect 0; the code
  throws in [key >= newLength] instead, collects nothing and fires
  nothing (the trace is unchanged). *)
Theorem trigger_length_with_symbol_key_throws :
exists s,
  exec 20 (initialState symbolKeyProgram) [ORun 0; ORun 1] = Some (Normal, s)
  /\ alist_get Target_eqb demoArray (targetMap s)
     = Some [(KLength, 0); (KSymbol 7, 1)]
  /\ members (depStore s 0) = [0]
  /\ collectDeps demoArray SET (Some KLength) (Some 0%Z)
                 [(KLength, 0); (KSymbol 7, 1)] = None
  /\ exec 20 s [OTrigger demoArray SET (Some KLength) (Some 0%Z)]
     = Some (Thrown, s).
Proof.
eexists.
split; [vm_compute; reflexivity|].
split; [reflexivity|].
split; [reflexivity|].
split; [reflexivity|].
vm_compute. reflexivity.
Qed.

(** ** run: what it restores, and re-entrance *)

Lemma Chain_head effs p L : Chain effs p L -> p = hd_error L.
Proof. intros H. destruct H; reflexivity. Qed.

Lemma shouldTrack_stop e s : shouldTrack (stop e s) = shouldTrack s.
Proof.
  unfold stop. destruct (isActiveEffect s e); [reflexivity|].
  destruct (active (effects s e)); [|reflexivity].
  destruct (cleanupEffect_frame e s) as (_ & _ & _ & _ & _ & Hs & _).
  destruct (onStop (effects (cleanupEffect e s) e)); simpl; exact Hs.
Qed.

Lemma shouldTrack_leave e last s : shouldTrack (leave e last s) = last.
Proof.
  unfold leave. cbv zeta.
  match goal with
  | |- shouldTrack (if ?c then stop e ?x else _) = _ => destruct c
  end.
  - rewrite shouldTrack_stop. reflexivity.
  - reflexivity.
Qed.

(** X1: whatever the function of an effect does (nested runs, triggers,
    an exception), [run] gives back [activeEffect], [effectTrackDepth]
    and [trackOpBit] as it found them; when the effect is active it gives
    back [shouldTrack] too, even if the function paused tracking and
    never reset it. *)
Theorem run_restores_context fuel L e s o s' :
  Inv L s ->
  run fuel (exec fuel) e s = Some (o, s') ->
  activeEffect s' = activeEffect s
  /\ effectTrackDepth s' = effectTrackDepth s
  /\ trackOpBit s' = trackOpBit s
  /\ (active (effects s e) = true -> shouldTrack s' = shouldTrack s).
Proof.
  intros HI Hrun.
  pose proof (run_Inv fuel (exec fuel) (exec_Inv fuel) L e s o s' HI Hrun) as HI'.
  split; [|split; [|split]].
  - rewrite (Chain_head _ _ _ (inv_chain _ _ HI)).
    now rewrite (Chain_head _ _ _ (inv_chain _ _ HI')).
  - now rewrite (inv_depth _ _ HI), (inv_depth _ _ HI').
  - rewrite (inv_bit _ _ HI), (inv_bit _ _ HI').
    now rewrite (inv_depth _ _ HI), (inv_depth _ _ HI').
  - intros Hact. unfold run in Hrun. rewrite Hact in Hrun. cbn [negb] in Hrun.
    destruct (parentChainHas fuel (effects s) (activeEffect s) e)
      as [[|]|]; [| |discriminate].
    + now injection Hrun as _ <-.
    + destruct (callFn (exec fuel) e (enter e s)) as [[o1 s1]|];
        [|discriminate].
      injection Hrun as _ <-. apply shouldTrack_leave.
Qed.

Lemma run_restores_context_witness :
  exists o s',
    run 5 (exec 5) 0
        (initialState (fun _ => mkDecl [OPauseTracking; OThrow] None false false false))
    = Some (o, s')
    /\ o = Thrown
    /\ activeEffect s' = None
    /\ effectTrackDepth s' = 0%Z
    /\ trackOpBit s' = 1%Z
    /\ shouldTrack s' = true
    /\ trackStack s' = [true].
Proof.
  destruct (run 5 (exec 5) 0
              (initialState (fun _ => mkDecl [OPauseTracking; OThrow] None false false false)))
    as [[o s']|] eqn:E; [|vm_compute in E; discriminate E].
  exists o, s'. split; [reflexivity|].
  destruct (run_restores_context 5 [] 0 _ o s' (initialState_Inv _) E)
    as (Ha & Hd & Hb & Hs).
  split; [vm_compute in E; now injection E as <- _|].
  split; [exact Ha|]. split; [exact Hd|]. split; [exact Hb|].
  split; [apply Hs; reflexivity|].
  vm_compute in E. now injection E as _ <-.
Defined.

(** X2: an effect that is running (on the stack of running effects) is
    not entered again: [run] on it returns at once, without calling its
    function and without touching the state.  This is what ends a cycle
    of effects that trigger one another. *)
Theorem run_of_running_effect fuel execF L e s :
  Inv L s -> In e L -> active (effects s e) = true -> length L <= fuel ->
  run fuel execF e s = Some (Normal, s).
Proof.
  intros HI Hin Hact Hfuel. unfold run. rewrite Hact. cbn [negb].
  destruct (parentChainHas_total _ _ _ (inv_chain _ _ HI) fuel e Hfuel)
    as [b Hb].
  rewrite Hb.
  assert (b = true)
    by (apply (parentChainHas_spec _ _ _ (inv_chain _ _ HI) _ _ _ Hb); exact Hin).
  subst b. reflexivity.
Qed.

Lemma run_of_running_effect_witness :
  Inv [0] (enter 0 (initialState demoProgram))
  /\ run 1 (exec 1) 0 (enter 0 (initialState demoProgram))
     = Some (Normal, enter 0 (initialState demoProgram)).
Proof.
  assert (HI : Inv [0] (enter 0 (initialState demoProgram)))
    by (apply enter_Inv; [apply initialState_Inv | intros []]).
  split; [exact HI|].
  apply (run_of_running_effect 1 (exec 1) [0] 0 _ HI).
  - now left.
  - reflexivity.
  - simpl. lia.
Defined.

(** ** The tracking switch as a stack *)

Lemma resetTracking_pauseTracking s : resetTracking (pauseTracking s) = s.
Proof.
  unfold resetTracking. simpl trackStack. rewrite array_pop_push.
  destruct s; reflexivity.
Qed.

Lemma resetTracking_enableTracking s : resetTracking (enableTracking s) = s.
Proof.
  unfold resetTracking. simpl trackStack. rewrite array_pop_push.
  destruct s; reflexivity.
Qed.

(** X3: the switches nest.  After any sequence of [pauseTracking] and
    [enableTracking] calls, as many [resetTracking] calls give back the
    state from before the sequence, [shouldTrack] and [trackStack]
    included. *)
Theorem switches_then_resets_restore (bs : list bool) : forall s,
  resetTimes (length bs) (switchTracking bs s) = s.
Proof.
  induction bs as [|b rest IH]; intros s; [reflexivity|].
  change (resetTracking
            (resetTimes (length rest)
               (switchTracking rest
                  (if b then enableTracking s else pauseTracking s))) = s).
  rewrite IH. destruct b;
    [apply resetTracking_enableTracking | apply resetTracking_pauseTracking].
Qed.

Lemma exec_paused_reads reads : forall fuel s rest,
  shouldTrack s = false ->
  Forall (fun op => isTrack op = true) reads ->
  exec (length reads + fuel) s (reads ++ rest) = exec fuel s rest.
Proof.
  induction reads as [|op reads IH]; intros fuel s rest Hs Hall;
    [reflexivity|].
  inversion Hall as [|? ? Hop Hall']; subst.
  destruct op; try discriminate Hop.
  cbn [length Nat.add app exec step].
  unfold track. rewrite Hs. cbn [andb]. now apply IH.
Qed.

(** X4: reads made between [pauseTracking()] and [resetTracking()]
    collect nothing: the whole bracket leaves the state exactly as it was
    (no dep is created or joined, and [shouldTrack] and [trackStack] are
    back). *)
Theorem paused_reads_leave_no_trace fuel reads s :
  Forall (fun op => isTrack op = true) reads ->
  length reads + 2 < fuel ->
  exec fuel s (OPauseTracking :: reads ++ [OResetTracking]) = Some (Normal, s).
Proof.
  intros Hall Hfuel.
  replace fuel with (S (length reads + S (S (fuel - length reads - 3)))) by lia.
  cbn [exec step].
  rewrite exec_paused_reads by (auto; reflexivity).
  cbn [exec step]. now rewrite resetTracking_pauseTracking.
Qed.

Lemma paused_reads_leave_no_trace_witness :
  exec 5 (enter 0 (initialState demoProgram))
       (OPauseTracking :: [OTrack demoArray GET KLength] ++ [OResetTracking])
  = Some (Normal, enter 0 (initialState demoProgram)).
Proof.
  apply (paused_reads_leave_no_trace 5 [OTrack demoArray GET KLength]).
  - repeat constructor.
  - simpl. lia.
Defined.

(** ** The marker bits as numbers *)

Lemma toInt32_range z : (- 2 ^ 31 <= toInt32 z < 2 ^ 31)%Z.
Proof.
  unfold toInt32. cbv zeta.
  pose proof (Z.mod_pos_bound z (2 ^ 32) ltac:(lia)) as Hm.
  destruct (Z.ltb_spec (z mod 2 ^ 32) (2 ^ 31)); lia.
Qed.

Lemma js_shl_31 : js_shl 1 31 = (- 2 ^ 31)%Z.
Proof. reflexivity. Qed.

Lemma sign_bit_test x : (js_and x (- 2 ^ 31) >? 0)%Z = false.
Proof.
  unfold js_and.
  rewrite (toInt32_small (- 2 ^ 31)) by lia.
  pose proof (toInt32_range x) as Hx.
  replace (- 2 ^ 31)%Z with (Z.lnot (Z.ones 31)) by reflexivity.
  change (Z.land (toInt32 x) (Z.lnot (Z.ones 31)))
    with (Z.ldiff (toInt32 x) (Z.ones 31)).
  rewrite Z.ldiff_ones_r by lia.
  rewrite Z.shiftr_div_pow2, Z.shiftl_mul_pow2 by lia.
  destruct (Z.leb_spec 0 (toInt32 x)) as [Hpos|Hneg].
  - rewrite Z.div_small by lia. reflexivity.
  - assert (Hq : (toInt32 x / 2 ^ 31 = -1)%Z).
    { symmetry. apply (Z.div_unique _ _ (-1) (toInt32 x + 2 ^ 31)); lia. }
    rewrite Hq. reflexivity.
Qed.

(** X5: for the depths 1 to 30 of marker mode, [trackOpBit] is
    [2 ^ depth] and [wasTracked] / [newTracked] read exactly the bit of
    that depth in [w] / [n].  At depth 31 the bit [1 << 31] is negative
    and both tests are false whatever the markers hold, and at depth 32
    the shift wraps round to the bit of depth 0: the markers cannot serve
    beyond [maxMarkerBits]. *)
Theorem marker_bit_of_depth (d : Dep) :
  (forall k, (1 <= k <= maxMarkerBits)%Z ->
     js_shl 1 k = (2 ^ k)%Z
     /\ wasTracked (js_shl 1 k) d = Z.testbit (w d) k
     /\ newTracked (js_shl 1 k) d = Z.testbit (n d) k)
  /\ wasTracked (js_shl 1 31) d = false
  /\ newTracked (js_shl 1 31) d = false
  /\ js_shl 1 32 = js_shl 1 0.
Proof.
  split; [|split; [|split]].
  - intros k Hk. unfold maxMarkerBits in Hk.
    rewrite js_shl_one by lia. unfold wasTracked, newTracked.
    rewrite !marker_test by lia. auto.
  - unfold wasTracked. rewrite js_shl_31. apply sign_bit_test.
  - unfold newTracked. rewrite js_shl_31. apply sign_bit_test.
  - reflexivity.
Qed.

(** ** finalizeDepMarkers *)



(** ** A property kept by the primitive steps is kept by every run *)

Section Preserved.

Variable P : State -> Prop.
Hypothesis P_emit : forall ev s, P s -> P (emit ev s).
Hypothesis P_track : forall t ty k s, P s -> P (track t ty k s).
Hypothesis P_stop : forall e s, P s -> P (stop e s).
Hypothesis P_pause : forall s, P s -> P (pauseTracking s).
Hypothesis P_enable : forall s, P s -> P (enableTracking s).
Hypothesis P_reset : forall s, P s -> P (resetTracking s).
Hypothesis P_enter : forall e s, P s -> P (enter e s).
Hypothesis P_leave : forall e last s, P s -> P (leave e last s).

Section OpenRecursion.

Variable fuel : nat.
Variable execF : State -> list Op -> option (Outcome * State).
Hypothesis execF_P : forall s ops o s',
    P s -> execF s ops = Some (o, s') -> P s'.

Lemma run_preserves e s o s' :
  P s -> run fuel execF e s = Some (o, s') -> P s'.
Proof.
  intros HP. unfold run, callFn.
  destruct (active (effects s e)); cbn [negb].
  - destruct (parentChainHas fuel (effects s) (activeEffect s) e)
      as [[|]|]; [| |discriminate].
    + now intros [= <- <-].
    + destruct (execF (emit (EvFn e) (enter e s)) (fn (effects (enter e s) e)))
        as [[o1 s1]|] eqn:Ex; [|discriminate].
      intros [= <- <-]. apply P_leave.
      eapply execF_P; [|exact Ex]. auto.
  - intros Hx. eapply execF_P; [|exact Hx]. auto.
Qed.

Lemma triggerEffect_preserves e s o s' :
  P s -> triggerEffect fuel execF e s = Some (o, s') -> P s'.
Proof.
  intros HP. unfold triggerEffect.
  destruct (negb (isActiveEffect s e) || allowRecurse (effects s e)).
  - destruct (scheduler (effects (emit (EvFire e) s) e)) as [body|].
    + intros Hx. eapply execF_P; [|exact Hx]. auto.
    + intros Hx. eapply run_preserves; [|exact Hx]. auto.
  - now intros [= <- <-].
Qed.

Lemma triggerPass_preserves flag effs : forall s o s',
  P s -> triggerPass fuel execF flag effs s = Some (o, s') -> P s'.
Proof.
  induction effs as [|e rest IH]; intros s o s' HP; simpl.
  - now intros [= <- <-].
  - destruct (Bool.eqb (computed (effects s e)) flag); [|now apply IH].
    destruct (triggerEffect fuel execF e s) as [[[|] s1]|] eqn:Et;
      [| |discriminate].
    + apply IH. eapply triggerEffect_preserves; eassumption.
    + intros [= <- <-]. eapply triggerEffect_preserves; eassumption.
Qed.

Lemma triggerEffects_preserves effs s o s' :
  P s -> triggerEffects fuel execF effs s = Some (o, s') -> P s'.
Proof.
  intros HP. unfold triggerEffects.
  destruct (triggerPass fuel execF true effs s) as [[[|] s1]|] eqn:Et;
    [| |discriminate].
  - apply triggerPass_preserves. eapply triggerPass_preserves; eassumption.
  - intros [= <- <-]. eapply triggerPass_preserves; eassumption.
Qed.

Lemma step_preserves op s o s' :
  P s -> step fuel execF op s = Some (o, s') -> P s'.
Proof.
  intros HP. destruct op; simpl.
  - intros [= <- <-]. auto.
  - unfold trigger.
    destruct (alist_get Target_eqb target (targetMap s)) as [depsMap|];
      [|now intros [= <- <-]].
    destruct (collectDeps target type key newValue depsMap) as [ds|];
      [|now intros [= <- <-]].
    now apply triggerEffects_preserves.
  - now apply run_preserves.
  - intros [= <- <-]. auto.
  - intros [= <- <-]. auto.
  - intros [= <- <-]. auto.
  - intros [= <- <-]. auto.
  - now intros [= <- <-].
Qed.

End OpenRecursion.

Lemma exec_preserves : forall fuel s ops o s',
  P s -> exec fuel s ops = Some (o, s') -> P s'.
Proof.
  induction fuel as [|f IH]; intros s ops o s' HP; simpl; [discriminate|].
  destruct ops as [|op rest]; [now intros [= <- <-]|].
  destruct (step f (exec f) op s) as [[[|] s1]|] eqn:Es; [| |discriminate].
  - apply IH. eapply step_preserves; [exact IH | exact HP | exact Es].
  - intros [= <- <-]. eapply step_preserves; [exact IH | exact HP | exact Es].
Qed.

End Preserved.

(** ** The target map: lookup after insertion *)

Lemma Key_eqb_eq a b : Key_eqb a b = true <-> a = b.
Proof.
  destruct a, b; simpl;
    rewrite ?N.eqb_eq, ?String.eqb_eq, ?Nat.eqb_eq; split; congruence.
Qed.

Lemma Target_eqb_eq a b : Target_eqb a b = true <-> a = b.
Proof.
  destruct a as [i k], b as [j k']. unfold Target_eqb. simpl.
  rewrite andb_true_iff, Nat.eqb_eq. split.
  - intros [-> Hk]. destruct k, k'; simpl in Hk; congruence.
  - intros [= -> ->]. split; [reflexivity | destruct k'; reflexivity].
Qed.

Section AssocList.

Context {K V : Type}.
Variable eqb : K -> K -> bool.
Hypothesis eqb_eq : forall a b, eqb a b = true <-> a = b.

Lemma eqb_same k : eqb k k = true.
Proof. now apply eqb_eq. Qed.

Lemma eqb_differ a b : a <> b -> eqb a b = false.
Proof.
  intros H. destruct (eqb a b) eqn:E; [|reflexivity].
  apply eqb_eq in E. contradiction.
Qed.

Lemma alist_get_set_same k (v : V) m :
  alist_get eqb k (alist_set eqb k v m) = Some v.
Proof.
  induction m as [|[k0 v0] m IH]; simpl.
  - now rewrite eqb_same.
  - destruct (eqb k0 k) eqn:E; simpl; rewrite E; [reflexivity | exact IH].
Qed.

Lemma alist_get_set_other k k' (v : V) m :
  k' <> k -> alist_get eqb k' (alist_set eqb k v m) = alist_get eqb k' m.
Proof.
  intros Hne. induction m as [|[k0 v0] m IH]; simpl.
  - rewrite eqb_differ; [reflexivity | congruence].
  - destruct (eqb k0 k) eqn:E; simpl.
    + apply eqb_eq in E. subst k0.
      rewrite eqb_differ; [reflexivity | congruence].
    + now rewrite IH.
Qed.

End AssocList.

Lemma targetMap_trackEffects d s : targetMap (trackEffects d s) = targetMap s.
Proof.
  unfold trackEffects. destruct (activeEffect s) as [a|]; [|reflexivity].
  destruct (effectTrackDepth s <=? maxMarkerBits)%Z.
  - destruct (negb (newTracked (trackOpBit s) (depStore s d))); [|reflexivity].
    match goal with |- targetMap (if ?c then _ else _) = _ => destruct c end;
      reflexivity.
  - destruct (negb (dep_has a (depStore s d))); reflexivity.
Qed.

Lemma nextDep_trackEffects d s : nextDep (trackEffects d s) = nextDep s.
Proof.
  unfold trackEffects. destruct (activeEffect s) as [a|]; [|reflexivity].
  destruct (effectTrackDepth s <=? maxMarkerBits)%Z.
  - destruct (negb (newTracked (trackOpBit s) (depStore s d))); [|reflexivity].
    match goal with |- nextDep (if ?c then _ else _) = _ => destruct c end;
      reflexivity.
  - destruct (negb (dep_has a (depStore s d))); reflexivity.
Qed.

(** What [track] does when it is under way: it looks the dep up, creates
    it when there is none, and hands it to [trackEffects]. *)
Lemma track_unfold target type key s :
  shouldTrack s && (match activeEffect s with Some _ => true | None => false end)
  = true ->
  match getDepFromReactive target key s with
  | Some d => track target type key s = trackEffects d s
  | None =>
      exists s3,
        track target type key s = trackEffects (nextDep s) s3
        /\ effects s3 = effects s
        /\ depStore s3 = upd (depStore s) (nextDep s) (createDep [])
        /\ nextDep s3 = S (nextDep s)
        /\ effectTrackDepth s3 = effectTrackDepth s
        /\ trackOpBit s3 = trackOpBit s
        /\ activeEffect s3 = activeEffect s
        /\ shouldTrack s3 = shouldTrack s
        /\ trackStack s3 = trackStack s
        /\ log s3 = log s
        /\ getDepFromReactive target key s3 = Some (nextDep s)
        /\ (forall t' k', (t', k') <> (target, key) ->
              getDepFromReactive t' k' s3 = getDepFromReactive t' k' s)
  end.
Proof.
  intros Hg. unfold track, getDepFromReactive. rewrite Hg.
  destruct (alist_get Target_eqb target (targetMap s)) as [m|] eqn:Et.
  - destruct (alist_get Key_eqb key m) as [d|] eqn:Ek; [reflexivity|].
    eexists. split; [reflexivity|].
    cbn [effects depStore nextDep effectTrackDepth trackOpBit activeEffect
         shouldTrack trackStack log targetMap
         setNextDep setDepStore setTargetMap].
    repeat (split; [reflexivity|]). split.
    + rewrite (alist_get_set_same _ Target_eqb_eq).
      apply (alist_get_set_same _ Key_eqb_eq).
    + intros t' k' Hne.
      destruct (Target_eqb t' target) eqn:E.
      * apply Target_eqb_eq in E. subst t'.
        rewrite (alist_get_set_same _ Target_eqb_eq), Et.
        apply (alist_get_set_other _ Key_eqb_eq). congruence.
      * rewrite (alist_get_set_other _ Target_eqb_eq); [reflexivity|].
        intros ->. now rewrite (proj2 (Target_eqb_eq target target)) in E.
  - cbn [alist_get].
    eexists. split; [reflexivity|].
    cbn [effects depStore nextDep effectTrackDepth trackOpBit activeEffect
         shouldTrack trackStack log targetMap
         setNextDep setDepStore setTargetMap].
    repeat (split; [reflexivity|]). split.
    + rewrite (alist_get_set_same _ Target_eqb_eq). simpl.
      now rewrite (proj2 (Key_eqb_eq key key)).
    + intros t' k' Hne.
      destruct (Target_eqb t' target) eqn:E.
      * apply Target_eqb_eq in E. subst t'.
        rewrite (alist_get_set_same _ Target_eqb_eq), Et. simpl.
        destruct (Key_eqb key k') eqn:Ek; [|reflexivity].
        apply Key_eqb_eq in Ek. congruence.
      * assert (Hne' : t' <> target).
        { intros ->. now rewrite (proj2 (Target_eqb_eq target target)) in E. }
        now rewrite !(alist_get_set_other _ Target_eqb_eq) by exact Hne'.
Qed.

Lemma getDep_trackEffects t k d s :
  getDepFromReactive t k (trackEffects d s) = getDepFromReactive t k s.
Proof. unfold getDepFromReactive. now rewrite targetMap_trackEffects. Qed.

(** An entry of the target map outlives every [track]. *)
Lemma getDep_track_stable t k d target type key s :
  getDepFromReactive t k s = Some d ->
  getDepFromReactive t k (track target type key s) = Some d.
Proof.
  intros H.
  destruct (shouldTrack s
            && match activeEffect s with Some _ => true | None => false end)
    eqn:Hg.
  - pose proof (track_unfold target type key s Hg) as Hu.
    destruct (getDepFromReactive target key s) as [d0|] eqn:E.
    + now rewrite Hu, getDep_trackEffects.
    + destruct Hu as (s3 & -> & _ & _ & _ & _ & _ & _ & _ & _ & _ & _ & Hother).
      rewrite getDep_trackEffects, Hother; [exact H|].
      intros [= -> ->]. congruence.
  - unfold track. now rewrite Hg.
Qed.

Lemma targetMap_stop e s : targetMap (stop e s) = targetMap s.
Proof.
  unfold stop. destruct (isActiveEffect s e); [reflexivity|].
  destruct (active (effects s e)); [|reflexivity].
  destruct (cleanupEffect_frame e s) as (_ & Ht & _).
  destruct (onStop (effects (cleanupEffect e s) e)); simpl; exact Ht.
Qed.

Lemma targetMap_enter e s : targetMap (enter e s) = targetMap s.
Proof.
  unfold enter. cbv zeta.
  match goal with |- targetMap (if ?c then _ else _) = _ => destruct c end.
  - destruct (initDepMarkers_frame e
      (setTrackOpBit
         (setEffectTrackDepth
            (setShouldTrack
               (setActiveEffect
                  (updEffect s e (fun r => withParent r (activeEffect s)))
                  (Some e)) true)
            (effectTrackDepth
               (setShouldTrack
                  (setActiveEffect
                     (updEffect s e (fun r => withParent r (activeEffect s)))
                     (Some e)) true) + 1))
         (js_shl 1
            (effectTrackDepth
               (setShouldTrack
                  (setActiveEffect
                     (updEffect s e (fun r => withParent r (activeEffect s)))
                     (Some e)) true) + 1)))) as (_ & _ & Ht & _).
    exact Ht.
  - match goal with
    | |- targetMap (cleanupEffect e ?x) = _ =>
        destruct (cleanupEffect_frame e x) as (_ & Ht & _); exact Ht
    end.
Qed.

Lemma targetMap_leave e last s : targetMap (leave e last s) = targetMap s.
Proof.
  unfold leave. cbv zeta.
  match goal with
  | |- targetMap (if ?c then stop e ?x else _) = _ =>
      assert (Hx : targetMap x = targetMap s);
      [|destruct c; [rewrite targetMap_stop|]; exact Hx]
  end.
  cbn [targetMap updEffect setEffects setShouldTrack setActiveEffect
       setTrackOpBit setEffectTrackDepth].
  destruct (effectTrackDepth s <=? maxMarkerBits)%Z; [|reflexivity].
  apply finalizeDepMarkers_frame.
Qed.

(** X7: [track] under a running effect with tracking on makes
    [getDepFromReactive] defined for the target and key, and whatever
    runs afterwards (other tracks, triggers, runs, [stop], cleanups) that
    lookup keeps returning the same dep: an entry of [targetMap] is never
    removed or replaced. *)
Theorem tracked_dep_is_permanent target type key a s :
  shouldTrack s = true -> activeEffect s = Some a ->
  exists d,
    getDepFromReactive target key (track target type key s) = Some d
    /\ forall fuel ops o s',
         exec fuel (track target type key s) ops = Some (o, s') ->
         getDepFromReactive target key s' = Some d.
Proof.
  intros Hs Ha.
  assert (Hg : shouldTrack s
               && match activeEffect s with Some _ => true | None => false end
               = true) by now rewrite Hs, Ha.
  assert (Hd : exists d,
             getDepFromReactive target key (track target type key s) = Some d).
  { pose proof (track_unfold target type key s Hg) as Hu.
    destruct (getDepFromReactive target key s) as [d0|] eqn:E.
    - exists d0. now rewrite Hu, getDep_trackEffects.
    - destruct Hu as (s3 & -> & _ & _ & _ & _ & _ & _ & _ & _ & _ & Hnew & _).
      exists (nextDep s). now rewrite getDep_trackEffects. }
  destruct Hd as [d Hd]. exists d. split; [exact Hd|].
  intros fuel ops o s'.
  apply (exec_preserves
           (fun x => getDepFromReactive target key x = Some d)); try exact Hd.
  - intros ev x Hx. exact Hx.
  - intros t ty k x Hx. now apply getDep_track_stable.
  - intros e x Hx. unfold getDepFromReactive in *. now rewrite targetMap_stop.
  - intros x Hx. exact Hx.
  - intros x Hx. exact Hx.
  - intros x Hx. unfold getDepFromReactive, resetTracking in *.
    destruct (array_pop (trackStack x)). exact Hx.
  - intros e x Hx. unfold getDepFromReactive in *. now rewrite targetMap_enter.
  - intros e last x Hx. unfold getDepFromReactive in *.
    now rewrite targetMap_leave.
Qed.

Lemma tracked_dep_is_permanent_witness :
  exists d,
    getDepFromReactive demoArray KLength
      (track demoArray GET KLength (enter 0 (initialState demoProgram)))
    = Some d
    /\ forall fuel ops o s',
         exec fuel
              (track demoArray GET KLength (enter 0 (initialState demoProgram)))
              ops = Some (o, s') ->
         getDepFromReactive demoArray KLength s' = Some d.
Proof.
  apply (tracked_dep_is_permanent demoArray GET KLength 0
           (enter 0 (initialState demoProgram))); reflexivity.
Defined.

(** ** Deps are sets *)

Lemma NoDup_dep_add a d : NoDup (members d) -> NoDup (members (dep_add a d)).
Proof.
  intros H. unfold dep_add, dep_has.
  destruct (existsb (Nat.eqb a) (members d)) eqn:E; [exact H|].
  simpl. apply NoDup_snoc; [exact H | now apply mem_not_In].
Qed.

Lemma NoDup_dep_delete e d : NoDup (members d) -> NoDup (members (dep_delete e d)).
Proof. intros H. unfold dep_delete. simpl. now apply NoDup_filter. Qed.

Lemma storeNoDup_upd store d v :
  storeNoDup store -> NoDup (members v) -> storeNoDup (upd store d v).
Proof.
  intros Hs Hv d'. unfold upd. destruct (Nat.eqb d' d); [exact Hv | apply Hs].
Qed.

Lemma storeNoDup_cleanupLoop e ds : forall store,
  storeNoDup store -> storeNoDup (cleanupLoop e ds store).
Proof.
  induction ds as [|d rest IH]; intros store Hs; simpl; [exact Hs|].
  apply IH. apply storeNoDup_upd; [exact Hs|]. apply NoDup_dep_delete, Hs.
Qed.

Lemma storeNoDup_initLoop bit ds store :
  storeNoDup store -> storeNoDup (initLoop bit ds store).
Proof. intros Hs d. rewrite initLoop_members. apply Hs. Qed.

Lemma storeNoDup_finalizeLoop e bit ds : forall store kept,
  storeNoDup store -> storeNoDup (fst (finalizeLoop e bit ds store kept)).
Proof.
  induction ds as [|d rest IH]; intros store kept Hs; simpl; [exact Hs|].
  apply IH. apply storeNoDup_upd; [exact Hs|]. simpl.
  destruct (wasTracked bit (store d) && negb (newTracked bit (store d)));
    [apply NoDup_dep_delete|]; apply Hs.
Qed.

Lemma MembersNoDup_cleanupEffect e s :
  MembersNoDup s -> MembersNoDup (cleanupEffect e s).
Proof.
  intros H. unfold cleanupEffect, MembersNoDup.
  destruct (deps (effects s e)) as [|d rest]; [exact H|].
  cbn [depStore updEffect setEffects setDepStore].
  now apply storeNoDup_cleanupLoop.
Qed.

Lemma MembersNoDup_stop e s : MembersNoDup s -> MembersNoDup (stop e s).
Proof.
  intros H. unfold stop. destruct (isActiveEffect s e); [exact H|].
  destruct (active (effects s e)); [|exact H].
  pose proof (MembersNoDup_cleanupEffect e s H) as Hc.
  destruct (onStop (effects (cleanupEffect e s) e)); exact Hc.
Qed.

Lemma MembersNoDup_subscribe a d s :
  MembersNoDup s -> MembersNoDup (subscribe a d s).
Proof.
  intros H. unfold subscribe, MembersNoDup.
  cbn [depStore updEffect setEffects setDepStore].
  apply storeNoDup_upd; [exact H | apply NoDup_dep_add, H].
Qed.

Lemma MembersNoDup_trackEffects d s :
  MembersNoDup s -> MembersNoDup (trackEffects d s).
Proof.
  intros H. unfold trackEffects.
  destruct (activeEffect s) as [a|]; [|exact H].
  destruct (effectTrackDepth s <=? maxMarkerBits)%Z.
  - destruct (negb (newTracked (trackOpBit s) (depStore s d))); [|exact H].
    match goal with
    | |- MembersNoDup (if _ then subscribe a d ?x else _) =>
        assert (H1 : MembersNoDup x)
    end.
    { unfold MembersNoDup. cbn [depStore setDepStore].
      apply storeNoDup_upd; [exact H | apply H]. }
    match goal with |- MembersNoDup (if ?c then _ else _) => destruct c end;
      [now apply MembersNoDup_subscribe | exact H1].
  - destruct (negb (dep_has a (depStore s d)));
      [now apply MembersNoDup_subscribe | exact H].
Qed.

Lemma MembersNoDup_track target type key s :
  MembersNoDup s -> MembersNoDup (track target type key s).
Proof.
  intros H.
  assert (Halloc : forall tm,
    MembersNoDup (setNextDep
                    (setDepStore (setTargetMap s tm)
                       (upd (depStore s) (nextDep s) (createDep [])))
                    (S (nextDep s)))).
  { intros tm. unfold MembersNoDup. cbn [depStore setNextDep setDepStore].
    apply storeNoDup_upd; [exact H | constructor]. }
  unfold track.
  destruct (shouldTrack s && match activeEffect s with Some _ => true | None => false end);
    [|exact H].
  destruct (alist_get Target_eqb target (targetMap s)) as [m|].
  - destruct (alist_get Key_eqb key m) as [d|].
    + now apply MembersNoDup_trackEffects.
    + apply MembersNoDup_trackEffects. apply Halloc.
  - cbn [alist_get]. apply MembersNoDup_trackEffects. apply Halloc.
Qed.

Lemma MembersNoDup_enter e s : MembersNoDup s -> MembersNoDup (enter e s).
Proof.
  intros H. unfold enter. cbv zeta.
  match goal with |- MembersNoDup (if ?c then _ else _) => destruct c end.
  - unfold initDepMarkers.
    match goal with |- MembersNoDup (match ?l with _ => _ end) => destruct l end;
      [exact H|].
    unfold MembersNoDup. cbn [depStore setDepStore].
    apply storeNoDup_initLoop. exact H.
  - apply MembersNoDup_cleanupEffect. exact H.
Qed.

Lemma MembersNoDup_finalizeDepMarkers e s :
  MembersNoDup s -> MembersNoDup (finalizeDepMarkers e s).
Proof.
  intros H. unfold finalizeDepMarkers.
  destruct (deps (effects s e)) as [|d rest]; [exact H|].
  pose proof (storeNoDup_finalizeLoop e (trackOpBit s) (d :: rest)
                (depStore s) [] H) as Hf.
  destruct (finalizeLoop e (trackOpBit s) (d :: rest) (depStore s) [])
    as [store kept].
  exact Hf.
Qed.

Lemma MembersNoDup_leave e last s : MembersNoDup s -> MembersNoDup (leave e last s).
Proof.
  intros H. unfold leave. cbv zeta.
  match goal with
  | |- MembersNoDup (if ?c then stop e ?x else _) =>
      assert (Hx : MembersNoDup x);
      [|destruct c; [apply MembersNoDup_stop|]; exact Hx]
  end.
  unfold MembersNoDup.
  cbn [depStore updEffect setEffects setShouldTrack setActiveEffect
       setTrackOpBit setEffectTrackDepth].
  destruct (effectTrackDepth s <=? maxMarkerBits)%Z; [|exact H].
  now apply MembersNoDup_finalizeDepMarkers.
Qed.

Lemma exec_MembersNoDup fuel s ops o s' :
  MembersNoDup s -> exec fuel s ops = Some (o, s') -> MembersNoDup s'.
Proof.
  apply (exec_preserves MembersNoDup).
  - intros ev x Hx. exact Hx.
  - intros t ty k x. apply MembersNoDup_track.
  - intros e x. apply MembersNoDup_stop.
  - intros x Hx. exact Hx.
  - intros x Hx. exact Hx.
  - intros x Hx. unfold MembersNoDup, resetTracking in *.
    destruct (array_pop (trackStack x)). exact Hx.
  - intros e x. apply MembersNoDup_enter.
  - intros e last x. apply MembersNoDup_leave.
Qed.

(** ** trigger reaches every subscriber *)

Lemma triggerEffect_fires fuel e s o s' :
  activeEffect s = None ->
  triggerEffect fuel (exec fuel) e s = Some (o, s') ->
  exists rest, log s' = log s ++ EvFire e :: rest.
Proof.
  intros Ha. unfold triggerEffect, isActiveEffect. rewrite Ha. cbn [negb orb].
  cbn [effects emit].
  destruct (scheduler (effects s e)) as [body|].
  - intros Hx. apply exec_Evolves in Hx. destruct (ev_log _ _ Hx) as [new Hl].
    exists (EvScheduler e :: new). rewrite Hl. simpl.
    now rewrite <- !app_assoc.
  - intros Hx. apply (run_Evolves fuel (exec fuel) (exec_Evolves fuel)) in Hx.
    destruct (ev_log _ _ Hx) as [new Hl].
    exists new. rewrite Hl. simpl. now rewrite <- app_assoc.
Qed.

Lemma fireAll_fires fuel effs : forall s s',
  Inv [] s ->
  fireAll fuel (exec fuel) effs s = Some (Normal, s') ->
  forall e, In e effs ->
    exists before after, log s' = log s ++ before ++ EvFire e :: after.
Proof.
  induction effs as [|e0 rest IH]; intros s s' HI Hf e Hin; [destruct Hin|].
  simpl in Hf.
  destruct (triggerEffect fuel (exec fuel) e0 s) as [[[|] s1]|] eqn:Et;
    try discriminate.
  assert (Ha : activeEffect s = None)
    by (now rewrite (Chain_head _ _ _ (inv_chain _ _ HI))).
  destruct (triggerEffect_fires _ _ _ _ _ Ha Et) as [r1 Hl1].
  pose proof (triggerEffect_Inv fuel (exec fuel) (exec_Inv fuel) _ _ _ _ _ HI Et)
    as HI1.
  destruct Hin as [<-|Hin].
  - pose proof (fireAll_Evolves fuel (exec fuel) (exec_Evolves fuel) _ _ _ _ Hf)
      as HE.
    destruct (ev_log _ _ HE) as [new Hl].
    exists [], (r1 ++ new). rewrite Hl, Hl1. simpl.
    now rewrite <- app_assoc.
  - destruct (IH _ _ HI1 Hf e Hin) as (b & a & Hl).
    exists (EvFire e0 :: r1 ++ b), a. rewrite Hl, Hl1.
    rewrite <- app_assoc. simpl. now rewrite <- app_assoc.
Qed.

(** X8: a trigger issued outside of any running effect, in a state the
    program has reached, hands [triggerEffects] a list without
    repetition, and when it completes without an exception every effect
    that was a member of one of the collected deps has been let through
    [triggerEffect] (its scheduler or its [run] was called): no
    subscriber is skipped, whatever the effects fired before it did. *)
Theorem trigger_reaches_every_subscriber
    decls fuel0 ops0 o0 s fuel target type key newValue depsMap ds s' :
  exec fuel0 (initialState decls) ops0 = Some (o0, s) ->
  alist_get Target_eqb target (targetMap s) = Some depsMap ->
  collectDeps target type key newValue depsMap = Some ds ->
  trigger fuel (exec fuel) target type key newValue s = Some (Normal, s') ->
  NoDup (triggerList s ds)
  /\ forall d e, In (Some d) ds -> In e (members (depStore s d)) ->
       exists before after, log s' = log s ++ before ++ EvFire e :: after.
Proof.
  intros Hreach Hmap Hcol Htrig.
  assert (HI : Inv [] s)
    by (eapply exec_Inv; [apply initialState_Inv | exact Hreach]).
  assert (HM : MembersNoDup s).
  { eapply exec_MembersNoDup; [|exact Hreach]. intros d. constructor. }
  split.
  - unfold triggerList. destruct ds as [|od [|od' rest]].
    + constructor.
    + destruct od as [d|]; [apply HM | constructor].
    + unfold createDep, dedup. cbn [members].
      apply dedupInto_NoDup. constructor.
  - intros d e Hd He.
    unfold trigger in Htrig. rewrite Hmap, Hcol in Htrig.
    rewrite (triggerEffects_fireAll fuel (exec fuel) (exec_Evolves fuel)) in Htrig.
    apply (fireAll_fires _ _ _ _ HI Htrig).
    assert (Hin : In e (triggerList s ds))
      by (apply triggerList_In; eauto).
    apply in_app_iff. rewrite !filter_In.
    destruct (computed (effects s e)); [left | right]; auto.
Qed.

Lemma trigger_reaches_every_subscriber_witness :
  exists s s',
    exec 20 (initialState demoProgram) demoRuns = Some (Normal, s)
    /\ trigger 20 (exec 20) demoArray SET (Some KLength) (Some 0%Z) s
       = Some (Normal, s')
    /\ forall e, In e [0; 1; 2; 3] ->
         exists before after, log s' = log s ++ before ++ EvFire e :: after.
Proof.
  destruct (exec 20 (initialState demoProgram) demoRuns) as [[o s]|] eqn:E;
    [|vm_compute in E; discriminate E].
  assert (Ho : o = Normal) by (vm_compute in E; now injection E as <- _).
  subst o.
  destruct (trigger 20 (exec 20) demoArray SET (Some KLength) (Some 0%Z) s)
    as [[o' s']|] eqn:Et;
    [|vm_compute in E; injection E as <-; vm_compute in Et; discriminate Et].
  assert (Ho : o' = Normal).
  { vm_compute in E. injection E as <-. vm_compute in Et.
    now injection Et as <- _. }
  subst o'.
  exists s, s'. split; [reflexivity|]. split; [exact Et|].
  assert (Hm : alist_get Target_eqb demoArray (targetMap s)
               = Some [(KIndex 0, 0); (KLength, 1); (KIndex 2, 2)])
    by (vm_compute in E; injection E as <-; reflexivity).
  destruct (trigger_reaches_every_subscriber demoProgram 20 demoRuns Normal s
              20 demoArray SET (Some KLength) (Some 0%Z) _
              [Some 0; Some 1; Some 2] s' E Hm eq_refl Et) as [_ Hall].
  assert (Hmem : members (depStore s 0) = [0; 3]
                 /\ members (depStore s 1) = [0; 2]
                 /\ members (depStore s 2) = [1])
    by (vm_compute in E; injection E as <-; repeat split; reflexivity).
  destruct Hmem as (H0 & H1 & H2).
  intros e [<-|[<-|[<-|[<-|[]]]]].
  - apply (Hall 0); [now left | rewrite H0; now left].
  - apply (Hall 2); [simpl; tauto | rewrite H2; now left].
  - apply (Hall 1); [simpl; tauto | rewrite H1; simpl; tauto].
  - apply (Hall 0); [now left | rewrite H0; simpl; tauto].
Defined.

(** ** Reading the same property twice *)

Lemma trackEffects_frame d s :
  nextDep (trackEffects d s) = nextDep s
  /\ targetMap (trackEffects d s) = targetMap s
  /\ effectTrackDepth (trackEffects d s) = effectTrackDepth s
  /\ trackOpBit (trackEffects d s) = trackOpBit s
  /\ activeEffect (trackEffects d s) = activeEffect s
  /\ shouldTrack (trackEffects d s) = shouldTrack s
  /\ trackStack (trackEffects d s) = trackStack s
  /\ log (trackEffects d s) = log s.
Proof.
  unfold trackEffects. destruct (activeEffect s) as [a|] eqn:Ea;
    [|rewrite Ea; repeat split].
  destruct (effectTrackDepth s <=? maxMarkerBits)%Z.
  - destruct (negb (newTracked (trackOpBit s) (depStore s d)));
      [|rewrite Ea; repeat split].
    match goal with |- context [if ?c then _ else _] => destruct c end;
      simpl; rewrite Ea; repeat split.
  - destruct (negb (dep_has a (depStore s d))); simpl; rewrite Ea; repeat split.
Qed.

(** [trackEffects] on a dep already marked as tracked in this run (or,
    beyond the marker depths, already holding the effect) does nothing. *)
Lemma trackEffects_noop a d s :
  activeEffect s = Some a ->
  ((effectTrackDepth s <=? maxMarkerBits)%Z = true ->
   newTracked (trackOpBit s) (depStore s d) = true) ->
  ((effectTrackDepth s <=? maxMarkerBits)%Z = false ->
   dep_has a (depStore s d) = true) ->
  trackEffects d s = s.
Proof.
  intros Ha Hm Hf. unfold trackEffects. rewrite Ha.
  destruct (effectTrackDepth s <=? maxMarkerBits)%Z.
  - now rewrite Hm.
  - now rewrite Hf.
Qed.

Lemma dep_has_add a d : dep_has a (dep_add a d) = true.
Proof. apply mem_In. apply dep_add_In. now left. Qed.

Lemma trackEffects_idem d s :
  ((effectTrackDepth s <=? maxMarkerBits)%Z = true ->
   exists k, (0 <= k <= 30)%Z /\ trackOpBit s = (2 ^ k)%Z) ->
  trackEffects d (trackEffects d s) = trackEffects d s.
Proof.
  intros Hbit.
  destruct (activeEffect s) as [a|] eqn:Ea.
  2:{ assert (H0 : trackEffects d s = s)
        by (unfold trackEffects; now rewrite Ea).
      now rewrite !H0. }
  destruct (trackEffects_frame d s) as (_ & _ & Hd & Hb & Hact & _).
  apply (trackEffects_noop a); [now rewrite Hact | |]; rewrite Hd, ?Hb.
  - intros Hle. destruct (Hbit Hle) as (k & Hk & Hbk).
    unfold trackEffects. rewrite Ea, Hle.
    destruct (newTracked (trackOpBit s) (depStore s d)) eqn:En; [exact En|].
    cbn [negb].
    assert (Hset : forall dep0 : Dep,
              n dep0 = js_or (n (depStore s d)) (trackOpBit s) ->
              newTracked (trackOpBit s) dep0 = true).
    { intros dep0 Hn0. unfold newTracked. rewrite Hn0, Hbk.
      rewrite marker_test by lia. rewrite js_or_testbit by lia.
      rewrite pow2_testbit by lia. rewrite Z.eqb_refl. apply orb_true_r. }
    match goal with |- context [if ?c then _ else _] => destruct c end.
    + apply Hset. cbn [depStore subscribe updEffect setEffects setDepStore].
      rewrite !upd_same. now rewrite dep_add_n.
    + apply Hset. cbn [depStore setDepStore]. now rewrite upd_same.
  - intros Hgt. unfold trackEffects. rewrite Ea, Hgt.
    destruct (dep_has a (depStore s d)) eqn:Eh; [exact Eh|]. cbn [negb].
    cbn [depStore subscribe updEffect setEffects setDepStore].
    rewrite upd_same. apply dep_has_add.
Qed.

(** X9: reading the same property twice in a row is the same as reading
    it once: the second [track] finds the dep already marked (or, beyond
    the marker depths, already holding the effect) and changes nothing. *)
Theorem track_twice_is_track_once L target type key s :
  Inv L s ->
  track target type key (track target type key s) = track target type key s.
Proof.
  intros HI.
  assert (Hbit : (effectTrackDepth s <=? maxMarkerBits)%Z = true ->
                 exists k, (0 <= k <= 30)%Z /\ trackOpBit s = (2 ^ k)%Z).
  { intros Hle. apply Z.leb_le in Hle. unfold maxMarkerBits in Hle.
    exists (effectTrackDepth s).
    pose proof (inv_depth _ _ HI). split; [lia|].
    rewrite (inv_bit _ _ HI). apply js_shl_one. lia. }
  destruct (shouldTrack s
            && match activeEffect s with Some _ => true | None => false end)
    eqn:Hg; [|unfold track; now rewrite !Hg].
  pose proof (track_unfold target type key s Hg) as Hu.
  destruct (getDepFromReactive target key s) as [d|] eqn:E.
  - rewrite Hu.
    destruct (trackEffects_frame d s) as (_ & _ & _ & _ & Hact & Hst & _).
    assert (Hg' : shouldTrack (trackEffects d s)
                  && match activeEffect (trackEffects d s) with
                     | Some _ => true | None => false end = true)
      by now rewrite Hact, Hst.
    pose proof (track_unfold target type key _ Hg') as Hu'.
    rewrite getDep_trackEffects, E in Hu'. rewrite Hu'.
    now apply trackEffects_idem.
  - destruct Hu as (s3 & -> & _ & _ & _ & Hd3 & Hb3 & Ha3 & Hs3 & _ & _ & Hnew & _).
    destruct (trackEffects_frame (nextDep s) s3) as (_ & _ & _ & _ & Hact & Hst & _).
    assert (Hg' : shouldTrack (trackEffects (nextDep s) s3)
                  && match activeEffect (trackEffects (nextDep s) s3) with
                     | Some _ => true | None => false end = true)
      by now rewrite Hact, Hst, Ha3, Hs3.
    pose proof (track_unfold target type key _ Hg') as Hu'.
    rewrite getDep_trackEffects, Hnew in Hu'. rewrite Hu'.
    apply trackEffects_idem. now rewrite Hd3, Hb3.
Qed.

Lemma track_twice_is_track_once_witness :
  track demoArray GET KLength
        (track demoArray GET KLength (enter 0 (initialState demoProgram)))
  = track demoArray GET KLength (enter 0 (initialState demoProgram)).
Proof.
  apply (track_twice_is_track_once [0]).
  apply enter_Inv; [apply initialState_Inv | intros []].
Defined.

(** ** Running a stopped effect by hand *)

(** X10: [run] on an effect that has been stopped still calls its
    function, as a plain call: the effect does not become the active
    effect, what the function reads subscribes the effect to nothing, and
    it stays inactive and out of every dep. *)
Theorem run_of_stopped_effect fuel e s o s' :
  Stopped e s ->
  run fuel (exec fuel) e s = Some (o, s') ->
  (exists rest, log s' = log s ++ EvFn e :: rest)
  /\ active (effects s' e) = false
  /\ deps (effects s' e) = []
  /\ forall d, ~ In e (members (depStore s' d)).
Proof.
  intros HS Hrun. unfold run, callFn in Hrun.
  rewrite (st_inactive _ _ HS) in Hrun. cbn [negb] in Hrun.
  assert (HS1 : Stopped e (emit (EvFn e) s))
    by (destruct HS; constructor; assumption).
  destruct (exec_Stopped e _ _ _ _ _ HS1 Hrun) as [HS' _].
  split; [|split; [|split]].
  - apply exec_Evolves in Hrun. destruct (ev_log _ _ Hrun) as [new Hl].
    exists new. rewrite Hl. simpl. now rewrite <- app_assoc.
  - apply (st_inactive _ _ HS').
  - apply (st_nodeps _ _ HS').
  - apply (st_nowhere _ _ HS').
Qed.

Lemma run_of_stopped_effect_witness :
  exists o s',
    Stopped 0 (stop 0 (initialState demoProgram))
    /\ run 5 (exec 5) 0 (stop 0 (initialState demoProgram)) = Some (o, s')
    /\ (exists rest,
          log s' = log (stop 0 (initialState demoProgram)) ++ EvFn 0 :: rest)
    /\ active (effects s' 0) = false
    /\ deps (effects s' 0) = []
    /\ forall d, ~ In 0 (members (depStore s' d)).
Proof.
  assert (HS : Stopped 0 (stop 0 (initialState demoProgram))).
  { apply (stop_Stopped []);
      [apply initialState_Inv | reflexivity | intros []]. }
  destruct (run 5 (exec 5) 0 (stop 0 (initialState demoProgram)))
    as [[o s']|] eqn:E; [|vm_compute in E; discriminate E].
  exists o, s'. split; [exact HS|]. split; [reflexivity|].
  exact (run_of_stopped_effect 5 0 _ o s' HS E).
Defined.

(** ** What a run collects *)

Ltac conjs := repeat match goal with |- _ /\ _ => split end.

Lemma leave_unwind e last s :
  leave e last s
  = if deferStop (effects (unwind e last s) e)
    then stop e (unwind e last s) else unwind e last s.
Proof. reflexivity. Qed.


(** [trackEffects] in marker mode, by the two bits of the current depth. *)
Lemma trackEffects_marker_eq a d k s :
  activeEffect s = Some a ->
  (effectTrackDepth s <=? maxMarkerBits)%Z = true ->
  (0 <= k <= 30)%Z -> trackOpBit s = (2 ^ k)%Z ->
  trackEffects d s
  = if Z.testbit (n (depStore s d)) k then s
    else
      let s1 := setDepStore s
                  (upd (depStore s) d
                     (mkDep (members (depStore s d)) (w (depStore s d))
                            (js_or (n (depStore s d)) (2 ^ k)))) in
      if Z.testbit (w (depStore s d)) k then s1 else subscribe a d s1.
Proof.
  intros Ha Hle Hk Hbit. unfold trackEffects. rewrite Ha, Hle, Hbit.
  unfold newTracked, wasTracked. cbn [w n]. rewrite !marker_test by lia.
  destruct (Z.testbit (n (depStore s d)) k); [reflexivity|].
  destruct (Z.testbit (w (depStore s d)) k); reflexivity.
Qed.

Lemma enter_marker L e s :
  Inv L s -> (effectTrackDepth s + 1 <= maxMarkerBits)%Z ->
  activeEffect (enter e s) = Some e
  /\ shouldTrack (enter e s) = true
  /\ nextDep (enter e s) = nextDep s
  /\ targetMap (enter e s) = targetMap s
  /\ log (enter e s) = log s
  /\ (forall x, deps (effects (enter e s) x) = deps (effects s x))
  /\ (forall x, deferStop (effects (enter e s) x) = deferStop (effects s x))
  /\ (forall d, members (depStore (enter e s) d) = members (depStore s d))
  /\ (forall d, n (depStore (enter e s) d) = n (depStore s d))
  /\ (forall d, Z.testbit (w (depStore (enter e s) d)) (effectTrackDepth s + 1)
                = Z.testbit (w (depStore s d)) (effectTrackDepth s + 1)
                  || existsb (Nat.eqb d) (deps (effects s e))).
Proof.
  intros HI Hle. unfold enter. cbv zeta.
  match goal with
  | |- context [if _ then initDepMarkers e ?x else _] => set (s3 := x)
  end.
  change (effectTrackDepth s3) with (effectTrackDepth s + 1)%Z.
  apply Z.leb_le in Hle. rewrite Hle. apply Z.leb_le in Hle.
  pose proof (inv_depth _ _ HI) as Hdepth. unfold maxMarkerBits in Hle.
  destruct (initDepMarkers_frame e s3) as (He & Hn & Ht & Hd & Hb & Ha & Hst & _ & Hl).
  assert (Hdeps3 : forall x, deps (effects s3 x) = deps (effects s x)).
  { intros x. simpl. unfold upd. destruct (Nat.eqb_spec x e); subst; reflexivity. }
  repeat split.
  - now rewrite Ha.
  - now rewrite Hst.
  - now rewrite Hn.
  - now rewrite Ht.
  - now rewrite Hl.
  - intros x. rewrite He. apply Hdeps3.
  - intros x. rewrite He. simpl. unfold upd.
    destruct (Nat.eqb_spec x e); subst; reflexivity.
  - intros d. rewrite initDepMarkers_members. reflexivity.
  - intros d. rewrite initDepMarkers_n. reflexivity.
  - intros d. rewrite initDepMarkers_w by lia.
    change (depStore s3) with (depStore s). rewrite Hdeps3.
    change (trackOpBit s3) with (js_shl 1 (effectTrackDepth s + 1)).
    rewrite js_shl_one, pow2_testbit by lia.
    now rewrite Z.eqb_refl, andb_true_r.
Qed.

Lemma Collecting_start L e s :
  Inv L s -> ~ In e L ->
  (effectTrackDepth s + 1 <= maxMarkerBits)%Z ->
  levelClear (effectTrackDepth s + 1) s ->
  Collecting L e (effectTrackDepth s + 1) s [] (emit (EvFn e) (enter e s)).
Proof.
  intros HI Hnot Hle Hclear.
  destruct (enter_marker L e s HI Hle)
    as (Ha & Hst & Hn & Ht & Hl & Hdeps & Hdef & Hmem & Hnn & Hw).
  assert (Hbits : forall d,
            Z.testbit (w (depStore s d)) (effectTrackDepth s + 1) = false
            /\ Z.testbit (n (depStore s d)) (effectTrackDepth s + 1) = false).
  { intros d. specialize (Hclear d). unfold bitsAt in Hclear.
    now apply orb_false_iff in Hclear. }
  constructor; cbn [depStore effects shouldTrack nextDep log emit].
  - apply emit_Inv. now apply enter_Inv.
  - exact Hst.
  - intros d. rewrite Hw. now rewrite (proj1 (Hbits d)).
  - intros t ty key [].
  - intros d. rewrite Hnn, (proj2 (Hbits d)). discriminate.
  - intros d. rewrite Hdeps, Hnn, (proj2 (Hbits d)). intuition discriminate.
  - intros x d _. now rewrite Hmem.
  - now rewrite Hn.
  - apply Hdef.
  - now rewrite Hl.
Qed.

Lemma deferStop_subscribe a d s x :
  deferStop (effects (subscribe a d s) x) = deferStop (effects s x).
Proof.
  simpl. unfold upd. destruct (Nat.eqb_spec x a); subst; reflexivity.
Qed.

Lemma Collecting_step L e k s done cur t ty key :
  Inv L s ->
  k = Z.of_nat (S (length L)) -> (k <= maxMarkerBits)%Z ->
  Collecting L e k s done cur ->
  Collecting L e k s (done ++ [OTrack t ty key]) (track t ty key cur).
Proof.
  intros HIs Hk Hk30 HC.
  destruct HC as [Hinv Htr Hw Hseen Hn Hdeps Hoth Hnext Hdef Hlog].
  assert (Hact : activeEffect cur = Some e)
    by (now rewrite (Chain_head _ _ _ (inv_chain _ _ Hinv))).
  assert (Hdepth : effectTrackDepth cur = k)
    by (rewrite (inv_depth _ _ Hinv), Hk; reflexivity).
  assert (Hle : (effectTrackDepth cur <=? maxMarkerBits)%Z = true)
    by (apply Z.leb_le; lia).
  assert (Hk' : (1 <= k <= 30)%Z) by (unfold maxMarkerBits in Hk30; lia).
  assert (Hbit : trackOpBit cur = (2 ^ k)%Z).
  { rewrite (inv_bit _ _ Hinv), Hdepth. apply js_shl_one. lia. }
  assert (Hg : shouldTrack cur
               && match activeEffect cur with Some _ => true | None => false end
               = true) by now rewrite Htr, Hact.
  assert (Hold : forall d, In d (deps (effects s e)) -> d < nextDep cur).
  { intros d Hd. pose proof (inv_alloc _ _ HIs _ _ Hd). lia. }
  assert (Hfree : forall x d, nextDep cur <= d -> ~ In x (members (depStore s d))).
  { intros x d Hd Hin. apply (inv_I1 _ _ HIs) in Hin.
    pose proof (inv_alloc _ _ HIs _ _ Hin). lia. }
  pose proof (track_Inv _ t ty key _ Hinv) as Hinv'.
  pose proof (track_unfold t ty key cur Hg) as Hu.
  (* the dep the read resolves to, and the state [trackEffects] starts from *)
  assert (Hres : exists dX base,
            track t ty key cur = trackEffects dX base
            /\ activeEffect base = Some e
            /\ effectTrackDepth base = k /\ trackOpBit base = (2 ^ k)%Z
            /\ shouldTrack base = true
            /\ effects base = effects cur
            /\ log base = log cur
            /\ nextDep cur <= nextDep base
            /\ getDepFromReactive t key base = Some dX
            /\ (forall t' k' d', getDepFromReactive t' k' cur = Some d' ->
                  getDepFromReactive t' k' base = Some d')
            /\ (forall t' k' d', getDepFromReactive t' k' base = Some d' ->
                  getDepFromReactive t' k' cur = Some d'
                  \/ (d' = dX /\ t' = t /\ k' = key))
            /\ (forall d, Z.testbit (w (depStore base d)) k
                          = existsb (Nat.eqb d) (deps (effects s e)))
            /\ (forall d, Z.testbit (n (depStore base d)) k = true ->
                          Z.testbit (n (depStore cur d)) k = true)
            /\ (forall d, d <> dX -> depStore base d = depStore cur d)
            /\ (Z.testbit (n (depStore cur dX)) k = true ->
                Z.testbit (n (depStore base dX)) k = true)
            /\ (forall x, x <> e ->
                  (In x (members (depStore base dX))
                   <-> In x (members (depStore s dX))))
            /\ (In e (members (depStore base dX)) -> In dX (deps (effects cur e)))).
  { destruct (getDepFromReactive t key cur) as [d0|] eqn:E.
    - exists d0, cur. conjs; auto.
      intros Hin. now apply (inv_I1 _ _ Hinv).
    - destruct Hu as (s3 & Hs3 & He3 & Hst3 & Hn3 & Hd3 & Hb3 & Ha3 & Hsh3 & _ & Hl3
                      & Hnew & Hother).
      exists (nextDep cur), s3.
      assert (Hz : forall i, Z.testbit (w (createDep [])) i = false
                             /\ Z.testbit (n (createDep [])) i = false)
        by (intros i; split; apply Z.bits_0).
      conjs; try congruence.
      + lia.
      + intros t' k' d' H'. rewrite Hother; [exact H'|]. intros [= -> ->].
        congruence.
      + intros t' k' d' H'.
        destruct (Target_eqb t' t) eqn:Et; destruct (Key_eqb k' key) eqn:Ek.
        * apply Target_eqb_eq in Et. apply Key_eqb_eq in Ek. subst.
          right. split; [congruence | auto].
        * left. rewrite <- Hother; [exact H'|]. intros [= -> ->].
          now rewrite (proj2 (Key_eqb_eq key key)) in Ek.
        * left. rewrite <- Hother; [exact H'|]. intros [= -> ->].
          now rewrite (proj2 (Target_eqb_eq t t)) in Et.
        * left. rewrite <- Hother; [exact H'|]. intros [= -> ->].
          now rewrite (proj2 (Target_eqb_eq t t)) in Et.
      + intros d. rewrite Hst3. unfold upd.
        destruct (Nat.eqb_spec d (nextDep cur)) as [->|Hne]; [|apply Hw].
        rewrite (proj1 (Hz k)). symmetry. apply mem_not_In.
        intros Hin. apply Hold in Hin. lia.
      + intros d. rewrite Hst3. unfold upd.
        destruct (Nat.eqb_spec d (nextDep cur)) as [->|Hne]; [|auto].
        rewrite (proj2 (Hz k)). discriminate.
      + intros d Hne. rewrite Hst3. now rewrite upd_other.
      + intros Hset. apply Hn in Hset. destruct Hset as (t' & ty' & k' & _ & Hget).
        unfold getDepFromReactive in Hget.
        destruct (alist_get Target_eqb t' (targetMap cur)) as [m|] eqn:Em;
          [|discriminate].
        destruct (alist_get_In _ _ _ _ Em) as [t'' Ht''].
        destruct (alist_get_In _ _ _ _ Hget) as [k'' Hk''].
        pose proof (inv_tm _ _ Hinv _ _ _ _ Ht'' Hk''). lia.
      + intros x Hx. rewrite Hst3, upd_same. split; [intros []|].
        intros Hin. exfalso. exact (Hfree x (nextDep cur) (le_n _) Hin).
      + rewrite Hst3, upd_same. intros []. }
  destruct Hres as (dX & base & Htrack & Ha & Hd & Hb & Hsh & Heff & Hlg & Hnx
                    & HgetX & Hkeep & Hback & Hwb & Hnb & Hsame & HnX & HothX & HmemX).
  assert (Hleb : (effectTrackDepth base <=? maxMarkerBits)%Z = true)
    by (rewrite Hd; apply Z.leb_le; lia).
  pose proof (trackEffects_marker_eq e dX k base Ha Hleb ltac:(lia) Hb) as Heq.
  rewrite Htrack in *. clear Htrack.
  destruct (trackEffects_frame dX base) as (Hfn & Hft & _ & _ & _ & Hfs & _ & Hfl).
  assert (HgetT : forall t' k',
            getDepFromReactive t' k' (trackEffects dX base)
            = getDepFromReactive t' k' base)
    by (intros; apply getDep_trackEffects).
  (* the three cases of [trackEffects] *)
  assert (Hcases :
    (forall d, Z.testbit (w (depStore (trackEffects dX base) d)) k
               = Z.testbit (w (depStore base d)) k)
    /\ (forall d, Z.testbit (n (depStore (trackEffects dX base) d)) k
                  = Z.testbit (n (depStore base d)) k || Nat.eqb d dX)
    /\ (forall d, In d (deps (effects (trackEffects dX base) e))
                  <-> In d (deps (effects cur e)) \/ d = dX)
    /\ (forall x d, x <> e ->
          (In x (members (depStore (trackEffects dX base) d))
           <-> In x (members (depStore base d))))
    /\ deferStop (effects (trackEffects dX base) e) = deferStop (effects cur e)).
  { rewrite Heq.
    assert (Hnbit : forall (d : DepId) (st : DepId -> Dep),
              n (st d) = (if Nat.eqb d dX
                          then js_or (n (depStore base dX)) (2 ^ k)
                          else n (depStore base d)) ->
              Z.testbit (n (st d)) k
              = Z.testbit (n (depStore base d)) k || Nat.eqb d dX).
    { intros d st Hst. rewrite Hst.
      destruct (Nat.eqb_spec d dX) as [->|Hne].
      - rewrite js_or_testbit, pow2_testbit by lia.
        now rewrite Z.eqb_refl, !orb_true_r.
      - now rewrite orb_false_r. }
    destruct (Z.testbit (n (depStore base dX)) k) eqn:EnX.
    - conjs.
      + reflexivity.
      + intros d. destruct (Nat.eqb_spec d dX) as [->|Hne];
          [now rewrite EnX | now rewrite orb_false_r].
      + intros d. rewrite Heff. split; [tauto|]. intros [H| ->]; [exact H|].
        apply Hdeps. right. now apply Hnb.
      + reflexivity.
      + now rewrite Heff.
    - cbv zeta.
      destruct (Z.testbit (w (depStore base dX)) k) eqn:EwX.
      + cbn [depStore effects setDepStore]. conjs.
        * intros d. unfold upd. destruct (Nat.eqb_spec d dX); subst; reflexivity.
        * intros d. apply Hnbit. unfold upd.
          destruct (Nat.eqb_spec d dX); subst; reflexivity.
        * intros d. rewrite Heff. split; [tauto|]. intros [H| ->]; [exact H|].
          apply Hdeps. left. apply mem_In. now rewrite <- Hwb.
        * intros x d _. unfold upd.
          destruct (Nat.eqb_spec d dX); subst; reflexivity.
        * now rewrite Heff.
      + cbn [depStore effects subscribe updEffect setEffects setDepStore].
        conjs.
        * intros d. unfold upd.
          destruct (Nat.eqb_spec d dX) as [->|Hne]; [|reflexivity].
          now rewrite Nat.eqb_refl, dep_add_w.
        * intros d. apply Hnbit. unfold upd.
          destruct (Nat.eqb_spec d dX) as [->|Hne]; [|reflexivity].
          now rewrite Nat.eqb_refl, dep_add_n.
        * intros d. rewrite upd_same. cbn [deps withDeps].
          rewrite Heff, in_app_iff. simpl. intuition.
        * intros x d Hx. unfold upd.
          destruct (Nat.eqb_spec d dX) as [->|Hne]; [|reflexivity].
          rewrite Nat.eqb_refl, dep_add_In. simpl. intuition.
        * rewrite upd_same. cbn [deferStop withDeps]. now rewrite Heff. }
  destruct Hcases as (Hcw & Hcn & Hcd & Hco & Hcf).
  constructor.
  - exact Hinv'.
  - now rewrite Hfs.
  - intros d. now rewrite Hcw.
  - intros t' ty' k' Hin. apply in_app_iff in Hin.
    destruct Hin as [Hin|[Heq0|[]]]; [|injection Heq0 as <- <- <-].
    + destruct (Hseen _ _ _ Hin) as (d & Hget & Hset).
      exists d. split; [rewrite HgetT; now apply Hkeep|].
      rewrite Hcn. destruct (Nat.eqb_spec d dX) as [->|Hne].
      * apply orb_true_r.
      * rewrite (Hsame d Hne), Hset. reflexivity.
    + exists dX. split; [now rewrite HgetT|].
      rewrite Hcn, Nat.eqb_refl. apply orb_true_r.
  - intros d Hset. rewrite Hcn in Hset.
    destruct (Nat.eq_dec d dX) as [HdX|Hne]; [subst d|].
    + exists t, ty, key. split; [apply in_app_iff; right; now left|].
      now rewrite HgetT.
    + rewrite (proj2 (Nat.eqb_neq _ _) Hne), orb_false_r in Hset.
      apply Hnb in Hset.
      destruct (Hn _ Hset) as (t' & ty' & k' & Hin & Hget).
      exists t', ty', k'. split; [apply in_app_iff; now left|].
      rewrite HgetT. now apply Hkeep.
  - intros d. rewrite Hcd, Hdeps, Hcn.
    destruct (Nat.eqb_spec d dX) as [->|Hne].
    + rewrite orb_true_r. tauto.
    + rewrite orb_false_r, (Hsame d Hne). intuition congruence.
  - intros x d Hx. rewrite (Hco x d Hx).
    destruct (Nat.eqb_spec d dX) as [->|Hne].
    + now apply HothX.
    + rewrite (Hsame d Hne). now apply Hoth.
  - lia.
  - now rewrite Hcf.
  - now rewrite Hfl, Hlg.
Qed.

Lemma Collecting_exec L e k s :
  Inv L s -> k = Z.of_nat (S (length L)) -> (k <= maxMarkerBits)%Z ->
  forall body fuel done cur,
    Collecting L e k s done cur ->
    Forall (fun op => isTrack op = true) body ->
    length body < fuel ->
    exists cur', exec fuel cur body = Some (Normal, cur')
                 /\ Collecting L e k s (done ++ body) cur'.
Proof.
  intros HIs Hk Hk30. induction body as [|op rest IH];
    intros fuel done cur HC Hall Hfuel.
  - destruct fuel as [|f]; [simpl in Hfuel; lia|].
    exists cur. split; [reflexivity | now rewrite app_nil_r].
  - inversion Hall as [|? ? Hop Hall']; subst.
    destruct op as [t ty key| | | | | | |]; try discriminate Hop.
    destruct fuel as [|f]; [simpl in Hfuel; lia|]. simpl in Hfuel.
    cbn [exec step].
    destruct (IH f (done ++ [OTrack t ty key]) (track t ty key cur))
      as (cur' & Hx & HC'); [now apply Collecting_step | exact Hall' | lia |].
    exists cur'. split; [exact Hx|]. now rewrite <- app_assoc in HC'.
Qed.

Lemma unwind_facts e last cur :
  (effectTrackDepth cur <=? maxMarkerBits)%Z = true ->
  depStore (unwind e last cur) = depStore (finalizeDepMarkers e cur)
  /\ targetMap (unwind e last cur) = targetMap cur
  /\ log (unwind e last cur) = log cur
  /\ (forall x, deferStop (effects (unwind e last cur) x)
                = deferStop (effects cur x))
  /\ (forall x, active (effects (unwind e last cur) x)
                = active (effects cur x)).
Proof.
  intros Hle. unfold unwind. rewrite Hle. cbv zeta.
  cbn [depStore targetMap log effects updEffect setEffects setShouldTrack
       setActiveEffect setTrackOpBit setEffectTrackDepth].
  destruct (finalizeDepMarkers_frame e cur) as (_ & Ht & _ & _ & _ & _ & _ & Hl).
  conjs; auto.
  - intros x. unfold upd. destruct (Nat.eqb_spec x e) as [->|Hne]; simpl;
      apply finalizeDepMarkers_fields.
  - intros x. unfold upd. destruct (Nat.eqb_spec x e) as [->|Hne]; simpl;
      apply finalizeDepMarkers_fields.
Qed.

(** X11: dependency collection.  An active effect whose function only
    reads, run at a marker depth that no dep is using, ends up subscribed
    to exactly the deps of the properties it read in this run: it joins
    the deps it read, leaves those it had but did not read again, and no
    other effect's subscription changes.  The marker bits of that depth
    are clear again afterwards. *)
Theorem run_collects_what_it_reads fuel L e s body :
  Inv L s -> ~ In e L ->
  active (effects s e) = true -> deferStop (effects s e) = false ->
  fn (effects s e) = body -> Forall (fun op => isTrack op = true) body ->
  (effectTrackDepth s + 1 <= maxMarkerBits)%Z ->
  levelClear (effectTrackDepth s + 1) s ->
  length L <= fuel -> length body < fuel ->
  exists s',
    run fuel (exec fuel) e s = Some (Normal, s')
    /\ (forall d, In e (members (depStore s' d))
                  <-> exists t ty key, In (OTrack t ty key) body
                                       /\ getDepFromReactive t key s' = Some d)
    /\ (forall x d, x <> e ->
          (In x (members (depStore s' d)) <-> In x (members (depStore s d))))
    /\ levelClear (effectTrackDepth s + 1) s'
    /\ log s' = log s ++ [EvFn e].
Proof.
  intros HI Hnot Hact Hdef Hfn Hall Hle Hclear Hfuel Hbody.
  pose proof (inv_depth _ _ HI) as Hdepth.
  assert (Hk : (effectTrackDepth s + 1)%Z = Z.of_nat (S (length L)))
    by (rewrite Hdepth; lia).
  pose proof (Collecting_start L e s HI Hnot Hle Hclear) as HC0.
  destruct (Collecting_exec L e _ s HI Hk Hle body fuel [] _ HC0 Hall Hbody)
    as (cur & Hx & HC).
  simpl in HC.
  unfold run, callFn. rewrite Hact. cbn [negb].
  destruct (parentChainHas_total _ _ _ (inv_chain _ _ HI) fuel e Hfuel)
    as [b Hb].
  rewrite Hb.
  assert (b = false).
  { destruct b; [|reflexivity]. exfalso. apply Hnot.
    now apply (parentChainHas_spec _ _ _ (inv_chain _ _ HI) _ _ _ Hb). }
  subst b.
  rewrite (ev_fn _ _ (Evolves_enter e s) e), Hfn, Hx.
  destruct HC as [Hinv Htr Hw Hseen Hn Hdeps Hoth Hnext Hdf Hlog].
  assert (Hcd : effectTrackDepth cur = (effectTrackDepth s + 1)%Z)
    by (rewrite (inv_depth _ _ Hinv), Hk; reflexivity).
  assert (Hcle : (effectTrackDepth cur <=? maxMarkerBits)%Z = true)
    by (apply Z.leb_le; lia).
  assert (Hk' : (1 <= effectTrackDepth s + 1 <= 30)%Z)
    by (unfold maxMarkerBits in Hle; lia).
  assert (Hbit : trackOpBit cur = (2 ^ (effectTrackDepth s + 1))%Z).
  { rewrite (inv_bit _ _ Hinv), Hcd. apply js_shl_one. lia. }
  destruct (unwind_facts e (shouldTrack s) cur Hcle)
    as (Hst & Htm & Hlg & Hud & _).
  rewrite leave_unwind, Hud, Hdf, Hdef.
  exists (unwind e (shouldTrack s) cur). split; [reflexivity|].
  pose proof (inv_ND _ _ Hinv e) as HND.
  assert (Hsw : forall d, swept (trackOpBit cur) (depStore cur) d
                          = existsb (Nat.eqb d) (deps (effects s e))
                            && negb (Z.testbit (n (depStore cur d))
                                               (effectTrackDepth s + 1))).
  { intros d. unfold swept, wasTracked, newTracked.
    rewrite Hbit, !marker_test by lia. now rewrite Hw. }
  assert (Hget : forall t key,
            getDepFromReactive t key (unwind e (shouldTrack s) cur)
            = getDepFromReactive t key cur)
    by (intros; unfold getDepFromReactive; now rewrite Htm).
  conjs.
  - intros d. rewrite Hst, (finalizeDepMarkers_In e cur d e HND), Hsw.
    rewrite <- (inv_I1 _ _ Hinv e d), Hdeps. split.
    + intros [Hin Hq].
      destruct (Z.testbit (n (depStore cur d)) (effectTrackDepth s + 1)) eqn:En.
      * destruct (Hn d En) as (t & ty & key & Hop & Hg).
        exists t, ty, key. split; [exact Hop | now rewrite Hget].
      * exfalso. destruct Hin as [Hin|Hin]; [|discriminate].
        apply Hq; [now left | | reflexivity].
        apply mem_In in Hin. now rewrite Hin.
    + intros (t & ty & key & Hop & Hg). rewrite Hget in Hg.
      destruct (Hseen _ _ _ Hop) as (d0 & Hg0 & Hset).
      assert (d0 = d) by congruence. subst d0. split; [now right|].
      intros _ Hf. rewrite Hset, andb_false_r in Hf. discriminate.
  - intros x d Hx'. rewrite Hst, (finalizeDepMarkers_In e cur d x HND).
    rewrite (Hoth x d Hx'). tauto.
  - intros d. unfold bitsAt. rewrite Hst.
    destruct (finalizeDepMarkers_bits e cur d (effectTrackDepth s + 1)
                ltac:(lia)) as [Hfw Hfnb].
    rewrite Hfw, Hfnb, Hbit, pow2_testbit, Z.eqb_refl, andb_true_r by lia.
    rewrite Hw.
    destruct (existsb (Nat.eqb d) (deps (effects cur e))) eqn:Ein.
    + now rewrite !andb_false_r.
    + apply mem_not_In in Ein. rewrite Hdeps in Ein.
      destruct (existsb (Nat.eqb d) (deps (effects s e))) eqn:Eo.
      * exfalso. apply Ein. left. now apply mem_In.
      * destruct (Z.testbit (n (depStore cur d)) (effectTrackDepth s + 1));
          [exfalso; apply Ein; now right | reflexivity].
  - now rewrite Hlg.
Qed.

Lemma run_collects_what_it_reads_witness :
  exists s',
    run 5 (exec 5) 0 (initialState demoProgram) = Some (Normal, s')
    /\ (forall d, In 0 (members (depStore s' d))
                  <-> exists t ty key,
                        In (OTrack t ty key)
                           [OTrack demoArray GET (KIndex 0);
                            OTrack demoArray GET KLength]
                        /\ getDepFromReactive t key s' = Some d)
    /\ (forall x d, x <> 0 ->
          (In x (members (depStore s' d))
           <-> In x (members (depStore (initialState demoProgram) d))))
    /\ levelClear 1 s'
    /\ log s' = [EvFn 0].
Proof.
  apply (run_collects_what_it_reads 5 [] 0 (initialState demoProgram)).
  - apply initialState_Inv.
  - intros [].
  - reflexivity.
  - reflexivity.
  - reflexivity.
  - repeat constructor.
  - unfold maxMarkerBits. simpl. lia.
  - intros d. reflexivity.
  - simpl. lia.
  - simpl. lia.
Defined.

(** ** stop from inside the effect's own function *)







End Effect.

Module Scheduler.

(** ** Data model of scheduler.ts *)

Definition JobId := nat.

(** What the body of a job may do: the calls into the scheduler's API. *)
Inductive JobOp :=
| JQueueJob (job : JobId)
| JInvalidateJob (job : JobId)
| JQueuePostFlushCb (cb : JobId)
| JQueuePostFlushCbs (cbs : list JobId)
| JFlushPreFlushCbs
| JFlushPostFlushCbs.

(** [SchedulerJob]: a function with optional properties.  [active] is
    [None] when the property is absent; only [active === false] disables
    a job. *)
Record SchedulerJob := mkJob {
  id : option Z;
  pre : bool;
  active : option bool;
  computed : bool;
  allowRecurse : bool;
  body : list JobOp
}.

(** The numbers [getId] and [comparator] compute with. *)
Inductive Num := Fin (z : Z) | PInf | NInf | NaN.

Definition num_sub (a b : Num) : Num :=
  match a, b with
  | Fin x, Fin y => Fin (x - y)
  | NaN, _ | _, NaN => NaN
  | PInf, PInf | NInf, NInf => NaN
  | PInf, _ | _, NInf => PInf
  | NInf, _ | _, PInf => NInf
  end.

(** [a < b] on numbers. *)
Definition num_lt (a b : Num) : bool :=
  match a, b with
  | Fin x, Fin y => (x <? y)%Z
  | NaN, _ | _, NaN => false
  | NInf, NInf | PInf, PInf => false
  | NInf, _ | _, PInf => true
  | PInf, _ | _, NInf => false
  end.

Inductive Event :=
| EvJob (job : JobId)
| EvPre (job : JobId)
| EvPost (job : JobId).

(** [CountMap = Map<SchedulerJob, number>]. *)
Definition CountMap := list (JobId * nat).

(** The module-level variables of scheduler.ts, the job objects and the
    trace of invocations.  [currentFlushPromise] records only whether a
    promise is set. *)
Record State := mkState {
  jobs : JobId -> SchedulerJob;
  isFlushing : bool;
  isFlushPending : bool;
  queue : list JobId;
  flushIndex : nat;
  pendingPostFlushCbs : list JobId;
  activePostFlushCbs : option (list JobId);
  postFlushIndex : nat;
  currentFlushPromise : bool;
  ran : list Event
}.

Definition RECURSION_LIMIT : nat := 100.

Definition setIsFlushing (s : State) (v : bool) : State :=
  mkState (jobs s) v (isFlushPending s) (queue s) (flushIndex s)
          (pendingPostFlushCbs s) (activePostFlushCbs s) (postFlushIndex s)
          (currentFlushPromise s) (ran s).

Definition setIsFlushPending (s : State) (v : bool) : State :=
  mkState (jobs s) (isFlushing s) v (queue s) (flushIndex s)
          (pendingPostFlushCbs s) (activePostFlushCbs s) (postFlushIndex s)
          (currentFlushPromise s) (ran s).

Definition setQueue (s : State) (v : list JobId) : State :=
  mkState (jobs s) (isFlushing s) (isFlushPending s) v (flushIndex s)
          (pendingPostFlushCbs s) (activePostFlushCbs s) (postFlushIndex s)
          (currentFlushPromise s) (ran s).

Definition setFlushIndex (s : State) (v : nat) : State :=
  mkState (jobs s) (isFlushing s) (isFlushPending s) (queue s) v
          (pendingPostFlushCbs s) (activePostFlushCbs s) (postFlushIndex s)
          (currentFlushPromise s) (ran s).

Definition setPendingPostFlushCbs (s : State) (v : list JobId) : State :=
  mkState (jobs s) (isFlushing s) (isFlushPending s) (queue s) (flushIndex s)
          v (activePostFlushCbs s) (postFlushIndex s)
          (currentFlushPromise s) (ran s).

Definition setActivePostFlushCbs (s : State) (v : option (list JobId)) : State :=
  mkState (jobs s) (isFlushing s) (isFlushPending s) (queue s) (flushIndex s)
          (pendingPostFlushCbs s) v (postFlushIndex s)
          (currentFlushPromise s) (ran s).

Definition setPostFlushIndex (s : State) (v : nat) : State :=
  mkState (jobs s) (isFlushing s) (isFlushPending s) (queue s) (flushIndex s)
          (pendingPostFlushCbs s) (activePostFlushCbs s) v
          (currentFlushPromise s) (ran s).

Definition setCurrentFlushPromise (s : State) (v : bool) : State :=
  mkState (jobs s) (isFlushing s) (isFlushPending s) (queue s) (flushIndex s)
          (pendingPostFlushCbs s) (activePostFlushCbs s) (postFlushIndex s)
          v (ran s).

Definition emit (ev : Event) (s : State) : State :=
  mkState (jobs s) (isFlushing s) (isFlushPending s) (queue s) (flushIndex s)
          (pendingPostFlushCbs s) (activePostFlushCbs s) (postFlushIndex s)
          (currentFlushPromise s) (ran s ++ [ev]).

(** ** Arrays *)

(** [arr.includes(x, fromIndex)]. *)
Definition includes (x : JobId) (fromIndex : nat) (arr : list JobId) : bool :=
  existsb (Nat.eqb x) (skipn fromIndex arr).

(** [arr.splice(i, 0, x)]. *)
Definition splice_insert (i : nat) (x : JobId) (arr : list JobId) : list JobId :=
  firstn i arr ++ x :: skipn i arr.

(** [arr.splice(i, 1)]. *)
Definition splice_remove (i : nat) (arr : list JobId) : list JobId :=
  firstn i arr ++ skipn (S i) arr.

(** [arr.indexOf(x)]; [None] for -1. *)
Fixpoint indexOf (x : JobId) (arr : list JobId) : option nat :=
  match arr with
  | [] => None
  | y :: rest =>
      if Nat.eqb y x then Some 0
      else match indexOf x rest with
           | Some i => Some (S i)
           | None => None
           end
  end.

(** [arr.sort(cmp)]: the sort is stable, and an element goes before
    another exactly when the comparator says so with a negative number;
    [negative a b] is [cmp(a, b) < 0]. *)
Fixpoint insertSorted (negative : JobId -> JobId -> bool) (x : JobId)
    (sorted : list JobId) : list JobId :=
  match sorted with
  | [] => [x]
  | y :: rest =>
      if negative x y then x :: y :: rest
      else y :: insertSorted negative x rest
  end.

Definition sortWith (negative : JobId -> JobId -> bool) (arr : list JobId)
  : list JobId :=
  fold_left (fun acc x => insertSorted negative x acc) arr [].

(** ** getId, comparator, findInsertionIndex *)

Definition getId (job : SchedulerJob) : Num :=
  match id job with
  | None => PInf
  | Some i => Fin i
  end.

Definition comparator (a b : SchedulerJob) : Num :=
  let diff := num_sub (getId a) (getId b) in
  match diff with
  | Fin 0 =>
      if pre a && negb (pre b) then Fin (-1)
      else if pre b && negb (pre a) then Fin 1
      else diff
  | _ => diff
  end.

(** [(start + end) >>> 1]. *)
Definition middleOf (start stop : nat) : nat :=
  Z.to_nat (Z.shiftr (Z.of_nat (start + stop) mod 2 ^ 32) 1).

(** The [while (start < end)] loop of [findInsertionIndex]; a position
    outside the queue cannot be read there, [PInf] stands in for it. *)
Fixpoint searchLoop (fuel : nat) (jobsOf : JobId -> SchedulerJob)
    (q : list JobId) (i : Z) (start stop : nat) : nat :=
  match fuel with
  | 0 => start
  | S fuel' =>
      if start <? stop then
        let middle := middleOf start stop in
        let middleJobId :=
          match nth_error q middle with
          | Some job => getId (jobsOf job)
          | None => PInf
          end in
        if num_lt middleJobId (Fin i)
        then searchLoop fuel' jobsOf q i (middle + 1) stop
        else searchLoop fuel' jobsOf q i start middle
      else start
  end.

Definition findInsertionIndex (i : Z) (s : State) : nat :=
  searchLoop (length (queue s)) (jobs s) (queue s) i
             (flushIndex s + 1) (length (queue s)).

(** ** queueFlush, queueJob, invalidateJob, queuePostFlushCb *)

Definition queueFlush (s : State) : State :=
  if negb (isFlushing s) && negb (isFlushPending s)
  then setCurrentFlushPromise (setIsFlushPending s true) true
  else s.

(** Where the dedupe search of [queueJob] starts. *)
Definition dedupStart (job : JobId) (s : State) : nat :=
  if isFlushing s && allowRecurse (jobs s job)
  then flushIndex s + 1 else flushIndex s.

Definition queueJob (job : JobId) (s : State) : State :=
  if (match queue s with [] => true | _ => false end)
     || negb (includes job (dedupStart job s) (queue s))
  then
    let s1 :=
      match id (jobs s job) with
      | None => setQueue s (queue s ++ [job])
      | Some i => setQueue s (splice_insert (findInsertionIndex i s) job (queue s))
      end in
    queueFlush s1
  else s.

Definition invalidateJob (job : JobId) (s : State) : State :=
  match indexOf job (queue s) with
  | Some i => if flushIndex s <? i then setQueue s (splice_remove i (queue s)) else s
  | None => s
  end.

Definition queuePostFlushCb (cb : JobId) (s : State) : State :=
  let fresh :=
    match activePostFlushCbs s with
    | None => true
    | Some act =>
        negb (includes cb (if allowRecurse (jobs s cb)
                           then postFlushIndex s + 1 else postFlushIndex s) act)
    end in
  queueFlush (if fresh
              then setPendingPostFlushCbs s (pendingPostFlushCbs s ++ [cb])
              else s).

Definition queuePostFlushCbs (cbs : list JobId) (s : State) : State :=
  queueFlush (setPendingPostFlushCbs s (pendingPostFlushCbs s ++ cbs)).

(** [checkRecursiveUpdates]: the answer ([true]: over the limit, skip the
    job) and the count map after the call. *)
Definition checkRecursiveUpdates (seen : CountMap) (fn : JobId)
  : bool * CountMap :=
  match alist_get Nat.eqb fn seen with
  | None => (false, alist_set Nat.eqb fn 1 seen)
  | Some count =>
      if RECURSION_LIMIT <? count then (true, seen)
      else (false, alist_set Nat.eqb fn (count + 1) seen)
  end.

Definition isNegative (v : Num) : bool := num_lt v (Fin 0).

(** ** The drain: flushPreFlushCbs, flushPostFlushCbs, flushJobs

    [DEV] is the build flag [__DEV__].  Exceptions are not modelled: a
    job's body is a script of scheduler calls. *)

Section Drain.

Variable DEV : bool.

Definition check (seen : CountMap) (job : JobId) : bool * CountMap :=
  if DEV then checkRecursiveUpdates seen job else (false, seen).

Section Bodies.

(** Runs the body of a job. *)
Variable execF : State -> list JobOp -> option State.

(** The [for] loop of [flushPreFlushCbs], from index [i]. *)
Fixpoint preLoop (fuel : nat) (seen : CountMap) (i : nat) (s : State)
  : option (CountMap * State) :=
  match fuel with
  | 0 => None
  | S fuel' =>
      if i <? length (queue s) then
        match nth_error (queue s) i with
        | Some cb =>
            if pre (jobs s cb) then
              let '(skip, seen') := check seen cb in
              if skip then preLoop fuel' seen' (i + 1) s
              else
                let s1 := setQueue s (splice_remove i (queue s)) in
                match execF (emit (EvPre cb) s1) (body (jobs s1 cb)) with
                | None => None
                | Some s2 => preLoop fuel' seen' i s2
                end
            else preLoop fuel' seen (i + 1) s
        | None => preLoop fuel' seen (i + 1) s
        end
      else Some (seen, s)
  end.

Definition flushPreFlushCbs (fuel : nat) (seen : CountMap) (s : State)
  : option (CountMap * State) :=
  preLoop fuel seen (if isFlushing s then flushIndex s + 1 else 0) s.

(** The [for] loop over [activePostFlushCbs]. *)
Fixpoint postLoop (fuel : nat) (seen : CountMap) (s : State)
  : option (CountMap * State) :=
  match fuel with
  | 0 => None
  | S fuel' =>
      match activePostFlushCbs s with
      | None => Some (seen, s)
      | Some act =>
          if postFlushIndex s <? length act then
            match nth_error act (postFlushIndex s) with
            | Some cb =>
                let '(skip, seen') := check seen cb in
                if skip
                then postLoop fuel' seen'
                       (setPostFlushIndex s (postFlushIndex s + 1))
                else
                  match execF (emit (EvPost cb) s) (body (jobs s cb)) with
                  | None => None
                  | Some s1 =>
                      postLoop fuel' seen'
                        (setPostFlushIndex s1 (postFlushIndex s1 + 1))
                  end
            | None => Some (seen, s)
            end
          else Some (seen, s)
      end
  end.

Definition flushPostFlushCbs (fuel : nat) (seen : CountMap) (s : State)
  : option (CountMap * State) :=
  match pendingPostFlushCbs s with
  | [] => Some (seen, s)
  | pending =>
      let deduped := dedup pending in
      let s1 := setPendingPostFlushCbs s [] in
      match activePostFlushCbs s1 with
      | Some act => Some (seen, setActivePostFlushCbs s1 (Some (act ++ deduped)))
      | None =>
          let sorted :=
            sortWith (fun a b =>
                        isNegative (num_sub (getId (jobs s1 a)) (getId (jobs s1 b))))
                     deduped in
          let s2 := setPostFlushIndex (setActivePostFlushCbs s1 (Some sorted)) 0 in
          match postLoop fuel seen s2 with
          | None => None
          | Some (seen', s3) =>
              Some (seen', setPostFlushIndex (setActivePostFlushCbs s3 None) 0)
          end
      end
  end.

Definition step (fuel : nat) (op : JobOp) (s : State) : option State :=
  match op with
  | JQueueJob job => Some (queueJob job s)
  | JInvalidateJob job => Some (invalidateJob job s)
  | JQueuePostFlushCb cb => Some (queuePostFlushCb cb s)
  | JQueuePostFlushCbs cbs => Some (queuePostFlushCbs cbs s)
  | JFlushPreFlushCbs =>
      match flushPreFlushCbs fuel [] s with
      | Some (_, s') => Some s'
      | None => None
      end
  | JFlushPostFlushCbs =>
      match flushPostFlushCbs fuel [] s with
      | Some (_, s') => Some s'
      | None => None
      end
  end.

End Bodies.

(** Runs the body of a job; [None]: out of fuel. *)
Fixpoint exec (fuel : nat) (s : State) (ops : list JobOp) : option State :=
  match fuel with
  | 0 => None
  | S f =>
      match ops with
      | [] => Some s
      | op :: rest =>
          match step (exec f) f op s with
          | Some s' => exec f s' rest
          | None => None
          end
      end
  end.

(** The [for (flushIndex = 0; flushIndex < queue.length; flushIndex++)]
    loop of [flushJobs]. *)
Fixpoint drainLoop (fuel : nat) (seen : CountMap) (s : State)
  : option (CountMap * State) :=
  match fuel with
  | 0 => None
  | S fuel' =>
      if flushIndex s <? length (queue s) then
        match nth_error (queue s) (flushIndex s) with
        | Some job =>
            match active (jobs s job) with
            | Some false =>
                drainLoop fuel' seen (setFlushIndex s (flushIndex s + 1))
            | _ =>
                let '(skip, seen') := check seen job in
                if skip
                then drainLoop fuel' seen' (setFlushIndex s (flushIndex s + 1))
                else
                  match exec fuel' (emit (EvJob job) s) (body (jobs s job)) with
                  | None => None
                  | Some s1 =>
                      drainLoop fuel' seen'
                        (setFlushIndex s1 (flushIndex s1 + 1))
                  end
            end
        | None => drainLoop fuel' seen (setFlushIndex s (flushIndex s + 1))
        end
      else Some (seen, s)
  end.

Fixpoint flushJobs (fuel : nat) (seen : CountMap) (s : State)
  : option (CountMap * State) :=
  match fuel with
  | 0 => None
  | S fuel' =>
      let s1 := setIsFlushing (setIsFlushPending s false) true in
      let s2 := setQueue s1
                  (sortWith (fun a b =>
                               isNegative (comparator (jobs s1 a) (jobs s1 b)))
                            (queue s1)) in
      match drainLoop fuel' seen (setFlushIndex s2 0) with
      | None => None
      | Some (seen1, s3) =>
          let s4 := setQueue (setFlushIndex s3 0) [] in
          match flushPostFlushCbs (exec fuel') fuel' seen1 s4 with
          | None => None
          | Some (seen2, s5) =>
              let s6 := setCurrentFlushPromise (setIsFlushing s5 false) false in
              match queue s6, pendingPostFlushCbs s6 with
              | [], [] => Some (seen2, s6)
              | _, _ => flushJobs fuel' seen2 s6
              end
          end
      end
  end.

End Drain.

(** The state of the module after loading, for a given set of jobs. *)
Definition initialState (jobsOf : JobId -> SchedulerJob) : State :=
mkState jobsOf false false [] 0 [] None 0 false [].

(** ** What the theorems are stated with *)

(** What an inert pass of the drain loop invokes: the jobs of the queue
    in order, without the disabled ones and without those the recursion
    check skips. *)
Fixpoint inertPass (DEV : bool) (jobsOf : JobId -> SchedulerJob)
    (seen : CountMap) (js : list JobId) : CountMap * list JobId :=
  match js with
  | [] => (seen, [])
  | job :: rest =>
      match active (jobsOf job) with
      | Some false => inertPass DEV jobsOf seen rest
      | _ =>
          let '(skip, seen') := check DEV seen job in
          if skip then inertPass DEV jobsOf seen' rest
          else
            let '(seen'', invoked) := inertPass DEV jobsOf seen' rest in
            (seen'', job :: invoked)
      end
  end.

(** A job may run: [job.active !== false]. *)
Definition runnable (job : SchedulerJob) : bool :=
  match active job with
  | Some false => false
  | _ => true
  end.

(** [a] goes strictly before [b] for [comparator]. *)
Definition strictlyBefore (a b : SchedulerJob) : bool :=
  match id a, id b with
  | Some x, Some y => (x <? y)%Z || ((x =? y)%Z && pre a && negb (pre b))
  | Some _, None => true
  | None, _ => false
  end.


Definition notAfter (jobsOf : JobId -> SchedulerJob) (a b : JobId) : Prop :=
  strictlyBefore (jobsOf b) (jobsOf a) = false.

(** The state after the drain loop has gone through an inert queue. *)
Definition afterPass (s : State) (invoked : list JobId) : State :=
  mkState (jobs s) (isFlushing s) (isFlushPending s) (queue s)
          (length (queue s)) (pendingPostFlushCbs s) (activePostFlushCbs s)
          (postFlushIndex s) (currentFlushPromise s)
          (ran s ++ map EvJob invoked).

(** The state after [flushJobs] has gone through an inert queue with no
    post callback pending. *)
Definition afterFlush (s : State) (invoked : list JobId) : State :=
  mkState (jobs s) false false [] 0 [] (activePostFlushCbs s)
          (postFlushIndex s) false (ran s ++ map EvJob invoked).

(** Three inert jobs, as in scenario S3: J1 with id 2, J2 with id 1 and
    [pre], J3 with id 1. *)
Definition demoJobs (j : JobId) : SchedulerJob :=
  match j with
  | 1 => mkJob (Some 2%Z) false None false false []
  | 2 => mkJob (Some 1%Z) true None false false []
  | 3 => mkJob (Some 1%Z) false None false false []
  | _ => mkJob None false None false false []
  end.


(** The id that [findInsertionIndex] reads at position [j] of the queue. *)
Definition idAt (jobsOf : JobId -> SchedulerJob) (q : list JobId) (j : nat)
  : Num :=
  match nth_error q j with
  | Some job => getId (jobsOf job)
  | None => PInf
  end.

(** [a] does not come after [b] by id alone ([getId(b) < getId(a)] is
    false). *)
Definition idLe (jobsOf : JobId -> SchedulerJob) (a b : JobId) : Prop :=
  num_lt (getId (jobsOf b)) (getId (jobsOf a)) = false.

(** The part of the queue that [findInsertionIndex] searches. *)
Definition searchedTail (s : State) : list JobId :=
  skipn (flushIndex s + 1) (queue s).

(** [checkRecursiveUpdates(seen, fn)] called [k] times in a row: the
    answers, and the count map at the end. *)
Fixpoint checkTimes (k : nat) (seen : CountMap) (fn : JobId)
  : list bool * CountMap :=
  match k with
  | 0 => ([], seen)
  | S k' =>
      let '(r, seen1) := checkRecursiveUpdates seen fn in
      let '(rs, seen2) := checkTimes k' seen1 fn in
      (r :: rs, seen2)
  end.

(** Job 0 may queue itself again ([allowRecurse]) and does so each time
    it runs. *)
Definition recurseJobs (j : JobId) : SchedulerJob :=
  match j with
  | 0 => mkJob (Some 1%Z) false None false true [JQueueJob 0]
  | _ => mkJob None false None false false []
  end.

(** An invocation the drain may make: of a job only when the job is not
    disabled. *)
Definition okEvent (jobsOf : JobId -> SchedulerJob) (ev : Event) : Prop :=
  match ev with
  | EvJob j => runnable (jobsOf j) = true
  | _ => True
  end.

(** Nothing waits, or a flush is running or has been requested. *)
Definition Scheduled (s : State) : Prop :=
  (queue s = [] /\ pendingPostFlushCbs s = [])
  \/ isFlushing s = true \/ isFlushPending s = true.

(** What the calls made from inside jobs and callbacks leave alone.
    [keepIndex] tells whether [flushIndex] is among that (the drain loop
    itself moves it), [keepActive] whether an absent [activePostFlushCbs]
    is (the loop over the post callbacks runs with the list set). *)
Record Frame (keepIndex keepActive : bool) (s s' : State) : Prop := mkFrame {
  f_jobs : jobs s' = jobs s;
  f_flushing : isFlushing s' = isFlushing s;
  f_index : keepIndex = true -> flushIndex s' = flushIndex s;
  f_pending : isFlushing s = true ->
              isFlushPending s' = isFlushPending s
              /\ currentFlushPromise s' = currentFlushPromise s;
  f_active : keepActive = true ->
             activePostFlushCbs s = None -> activePostFlushCbs s' = None;
  f_ran : exists new, ran s' = ran s ++ new /\ Forall (okEvent (jobs s)) new;
  f_scheduled : Scheduled s -> Scheduled s'
}.

(** Job 1 is disabled ([active === false]) and job 2, when it runs,
    queues job 1 again together with job 3. *)
Definition disabledJobs (j : JobId) : SchedulerJob :=
  match j with
  | 1 => mkJob (Some 1%Z) false (Some false) false false []
  | 2 => mkJob (Some 2%Z) false None false false [JQueueJob 1; JQueueJob 3]
  | 3 => mkJob (Some 3%Z) false (Some true) false false
               [JQueuePostFlushCb 4]
  | _ => mkJob None false None false false []
  end.

(** What the loop over the post callbacks invokes when the callbacks call
    nothing: the callbacks in order, without those the recursion check
    skips. *)
Fixpoint postPass (DEV : bool) (seen : CountMap) (cbs : list JobId)
  : CountMap * list JobId :=
  match cbs with
  | [] => (seen, [])
  | cb :: rest =>
      let '(skip, seen') := check DEV seen cb in
      if skip then postPass DEV seen' rest
      else
        let '(seen'', invoked) := postPass DEV seen' rest in
        (seen'', cb :: invoked)
  end.

(** The order in which [flushPostFlushCbs] sorts: by id alone. *)
Definition postOrder (jobsOf : JobId -> SchedulerJob) (cbs : list JobId)
  : list JobId :=
  sortWith (fun a b => isNegative (num_sub (getId (jobsOf a)) (getId (jobsOf b))))
           cbs.

(** A job without an id. *)
Definition noId (jobsOf : JobId -> SchedulerJob) (j : JobId) : bool :=
  match id (jobsOf j) with None => true | Some _ => false end.

(** What [flushPreFlushCbs] does to the part [js] of the queue it walks
    when the pre jobs call nothing: the jobs it invokes and the jobs it
    leaves in the queue. *)
Fixpoint prePass (DEV : bool) (jobsOf : JobId -> SchedulerJob)
    (seen : CountMap) (js : list JobId)
  : CountMap * list JobId * list JobId :=
  match js with
  | [] => (seen, [], [])
  | cb :: rest =>
      if pre (jobsOf cb) then
        let '(skip, seen') := check DEV seen cb in
        let '(seen'', invoked, kept) := prePass DEV jobsOf seen' rest in
        if skip then (seen'', invoked, cb :: kept)
        else (seen'', cb :: invoked, kept)
      else
        let '(seen'', invoked, kept) := prePass DEV jobsOf seen rest in
        (seen'', invoked, cb :: kept)
  end.

(** Where [flushPreFlushCbs] starts when it is called without an index:
    after the running job during a flush, at the start of the queue
    otherwise. *)
Definition preStart (s : State) : nat :=
  if isFlushing s then flushIndex s + 1 else 0.

(** Job 2 is a pre job among jobs that are not. *)
Definition preJobs (j : JobId) : SchedulerJob :=
  match j with
  | 2 => mkJob (Some 2%Z) true None false false []
  | 4 => mkJob (Some 1%Z) true None false false []
  | _ => mkJob (Some 3%Z) false None false false [JQueueJob 7]
  end.

(** ** The comparator is a total preorder, and sorting sorts *)

Lemma comparator_negative (a b : SchedulerJob) :
  isNegative (comparator a b) = strictlyBefore a b.
Proof.
  unfold comparator, strictlyBefore, getId, isNegative.
  destruct (id a) as [x|], (id b) as [y|]; simpl; try reflexivity.
  destruct (Z.eq_dec x y) as [->|Hne].
  - rewrite Z.sub_diag, Z.ltb_irrefl, Z.eqb_refl. simpl.
    destruct (pre a), (pre b); reflexivity.
  - assert (Hq : (x =? y)%Z = false) by now apply Z.eqb_neq.
    rewrite Hq. simpl. rewrite orb_false_r.
    destruct (x - y)%Z eqn:E; simpl.
    + lia.
    + symmetry. apply Z.ltb_ge. lia.
    + symmetry. apply Z.ltb_lt. lia.
Qed.

Lemma strictlyBefore_asym a b :
  strictlyBefore a b = true -> strictlyBefore b a = false.
Proof.
  unfold strictlyBefore.
  destruct (id a) as [x|], (id b) as [y|]; try discriminate; try reflexivity.
  destruct (Z.ltb_spec x y), (Z.ltb_spec y x), (Z.eqb_spec x y), (Z.eqb_spec y x),
    (pre a), (pre b); simpl; try reflexivity; try discriminate; lia.
Qed.

Lemma notAfter_trans jobsOf a b c :
  notAfter jobsOf a b -> notAfter jobsOf b c -> notAfter jobsOf a c.
Proof.
  unfold notAfter, strictlyBefore.
  destruct (id (jobsOf a)) as [x|], (id (jobsOf b)) as [y|],
    (id (jobsOf c)) as [z|]; try discriminate; try reflexivity.
  destruct (Z.ltb_spec y x), (Z.ltb_spec z y), (Z.ltb_spec z x),
    (Z.eqb_spec y x), (Z.eqb_spec z y), (Z.eqb_spec z x),
    (pre (jobsOf a)), (pre (jobsOf b)), (pre (jobsOf c));
    simpl; try reflexivity; try discriminate; lia.
Qed.


Section Sorting.

Variable negative : JobId -> JobId -> bool.
Let le (a b : JobId) : Prop := negative b a = false.

Hypothesis negative_asym : forall a b, negative a b = true -> negative b a = false.
Hypothesis le_trans : forall a b c, le a b -> le b c -> le a c.

Lemma insertSorted_perm x l : Permutation (insertSorted negative x l) (x :: l).
Proof.
  induction l as [|y rest IH]; simpl; [reflexivity|].
  destruct (negative x y); [reflexivity|].
  rewrite IH. apply perm_swap.
Qed.

Lemma insertSorted_sorted x l :
  StronglySorted le l -> StronglySorted le (insertSorted negative x l).
Proof.
  induction l as [|y rest IH]; intros Hs; simpl.
  - constructor; constructor.
  - inversion Hs as [|? ? Hrest Hall]; subst.
    destruct (negative x y) eqn:E.
    + constructor; [exact Hs|]. constructor.
      * now apply negative_asym.
      * eapply Forall_impl; [|exact Hall]. intros z Hz.
        eapply le_trans; [|exact Hz]. now apply negative_asym.
    + constructor; [now apply IH|].
      eapply Permutation_Forall; [symmetry; apply insertSorted_perm|].
      constructor; assumption.
Qed.

Lemma sortInto_perm l : forall acc,
  Permutation (fold_left (fun a x => insertSorted negative x a) l acc) (acc ++ l).
Proof.
  induction l as [|x rest IH]; intros acc; simpl.
  - now rewrite app_nil_r.
  - rewrite IH. rewrite (insertSorted_perm x acc). simpl.
    apply Permutation_middle.
Qed.

Lemma sortInto_sorted l : forall acc,
  StronglySorted le acc ->
  StronglySorted le (fold_left (fun a x => insertSorted negative x a) l acc).
Proof.
  induction l as [|x rest IH]; intros acc Hs; simpl; [exact Hs|].
  apply IH. now apply insertSorted_sorted.
Qed.

Lemma sortWith_perm l : Permutation (sortWith negative l) l.
Proof. unfold sortWith. apply (sortInto_perm l []). Qed.

Lemma sortWith_sorted l : StronglySorted le (sortWith negative l).
Proof. unfold sortWith. apply sortInto_sorted. constructor. Qed.

End Sorting.

Lemma StronglySorted_weaken {A : Type} (R R' : A -> A -> Prop) (l : list A) :
(forall a b, R a b -> R' a b) -> StronglySorted R l -> StronglySorted R' l.
Proof.
intros Hw Hs. induction Hs as [|a l Hs IH Hall]; constructor; [exact IH|].
eapply Forall_impl; [|exact Hall]. intros b. apply Hw.
Qed.

Lemma sort_queue_sorted jobsOf q :
StronglySorted (notAfter jobsOf)
  (sortWith (fun a b => isNegative (comparator (jobsOf a) (jobsOf b))) q).
Proof.
eapply StronglySorted_weaken; [|apply sortWith_sorted].
- intros a b H. cbv beta in H. rewrite comparator_negative in H. exact H.
- intros a b. rewrite !comparator_negative. apply strictlyBefore_asym.
- intros a b c. rewrite !comparator_negative. apply notAfter_trans.
Qed.

Lemma sort_queue_perm jobsOf q :
Permutation
  (sortWith (fun a b => isNegative (comparator (jobsOf a) (jobsOf b))) q) q.
Proof. apply sortWith_perm. Qed.

(** ** An inert pass *)

Lemma inertPass_In DEV jobsOf js : forall seen x,
In x (snd (inertPass DEV jobsOf seen js)) -> In x js.
Proof.
induction js as [|job rest IH]; intros seen x; simpl; [auto|].
destruct (active (jobsOf job)) as [[|]|];
  try (intros H; right; eapply IH; exact H);
  destruct (check DEV seen job) as [[|] seen'];
  try (intros H; right; eapply IH; exact H);
  destruct (inertPass DEV jobsOf seen' rest) as [seen'' invoked] eqn:E;
  simpl; (intros [->|H]; [now left|]; right; apply (IH seen');
          rewrite E; exact H).
Qed.

Lemma inertPass_sorted DEV jobsOf (R : JobId -> JobId -> Prop) js : forall seen,
StronglySorted R js -> StronglySorted R (snd (inertPass DEV jobsOf seen js)).
Proof.
induction js as [|job rest IH]; intros seen Hs; simpl; [constructor|].
inversion Hs as [|? ? Hrest Hall]; subst.
destruct (active (jobsOf job)) as [[|]|];
  try (now apply IH);
  destruct (check DEV seen job) as [[|] seen'];
  try (now apply IH);
  pose proof (IH seen' Hrest) as Hi;
  pose proof (inertPass_In DEV jobsOf rest seen') as Hin;
  destruct (inertPass DEV jobsOf seen' rest) as [seen'' invoked];
  simpl in *; (constructor; [exact Hi|]);
  apply Forall_forall; intros x Hx;
  (eapply Forall_forall; [exact Hall | now apply Hin]).
Qed.

Lemma inertPass_NoDup DEV jobsOf js : forall seen,
NoDup js -> NoDup (snd (inertPass DEV jobsOf seen js)).
Proof.
induction js as [|job rest IH]; intros seen Hs; simpl; [constructor|].
inversion Hs as [|? ? Hnot Hrest]; subst.
destruct (active (jobsOf job)) as [[|]|];
  try (now apply IH);
  destruct (check DEV seen job) as [[|] seen'];
  try (now apply IH);
  pose proof (IH seen' Hrest) as Hi;
  pose proof (inertPass_In DEV jobsOf rest seen') as Hin;
  destruct (inertPass DEV jobsOf seen' rest) as [seen'' invoked];
  simpl in *; (constructor; [|exact Hi]);
  intros Hx; apply Hnot; now apply Hin.
Qed.

(** In a production build nothing is skipped but the disabled jobs. *)
Lemma inertPass_production jobsOf js : forall seen,
inertPass false jobsOf seen js
= (seen, filter (fun j => runnable (jobsOf j)) js).
Proof.
induction js as [|job rest IH]; intros seen; simpl; [reflexivity|].
unfold runnable. destruct (active (jobsOf job)) as [[|]|];
  simpl; rewrite IH; reflexivity.
Qed.


Lemma skipn_nth_error {A : Type} (l : list A) : forall i x,
  nth_error l i = Some x -> skipn i l = x :: skipn (S i) l.
Proof.
  induction l as [|y rest IH]; intros i x H.
  - destruct i; discriminate.
  - destruct i as [|i]; simpl in *.
    + now injection H as ->.
    + now apply IH.
Qed.

Lemma exec_nil DEV fuel s : exec DEV (S fuel) s [] = Some s.
Proof. reflexivity. Qed.

Lemma drainLoop_inert DEV : forall k fuel seen s,
  (forall j, In j (queue s) -> body (jobs s j) = []) ->
  length (queue s) - flushIndex s = k ->
  flushIndex s <= length (queue s) ->
  k + 1 <= fuel ->
  drainLoop DEV fuel seen s
  = Some (fst (inertPass DEV (jobs s) seen (skipn (flushIndex s) (queue s))),
          afterPass s (snd (inertPass DEV (jobs s) seen
                                      (skipn (flushIndex s) (queue s))))).
Proof.
  induction k as [|k IH]; intros fuel seen s Hinert Hk Hle Hfuel.
  - destruct fuel as [|f]; [lia|]. simpl.
    assert (Hi : flushIndex s = length (queue s)) by lia.
    rewrite Hi, Nat.ltb_irrefl, skipn_all. simpl.
    unfold afterPass. destruct s; simpl in *. subst. now rewrite app_nil_r.
  - destruct fuel as [|f]; [lia|]. simpl.
    assert (Hlt : flushIndex s < length (queue s)) by lia.
    apply Nat.ltb_lt in Hlt as Hltb. rewrite Hltb.
    destruct (nth_error (queue s) (flushIndex s)) as [job|] eqn:En;
      [|apply nth_error_None in En; lia].
    rewrite (skipn_nth_error _ _ _ En).
    remember (skipn (S (flushIndex s)) (queue s)) as rest eqn:Hrest.
    cbn [inertPass]. subst rest.
    assert (Hnext : forall s', queue s' = queue s -> jobs s' = jobs s ->
              flushIndex s' = flushIndex s + 1 ->
              drainLoop DEV f seen s'
              = Some (fst (inertPass DEV (jobs s) seen (skipn (S (flushIndex s)) (queue s))),
                      afterPass s' (snd (inertPass DEV (jobs s) seen
                                           (skipn (S (flushIndex s)) (queue s)))))
              /\ forall seen',
                drainLoop DEV f seen' s'
                = Some (fst (inertPass DEV (jobs s) seen' (skipn (S (flushIndex s)) (queue s))),
                        afterPass s' (snd (inertPass DEV (jobs s) seen'
                                             (skipn (S (flushIndex s)) (queue s)))))).
    { intros s' Hq Hj Hf.
      assert (Hgen : forall sn,
                drainLoop DEV f sn s'
                = Some (fst (inertPass DEV (jobs s) sn (skipn (S (flushIndex s)) (queue s))),
                        afterPass s' (snd (inertPass DEV (jobs s) sn
                                             (skipn (S (flushIndex s)) (queue s)))))).
      { intros sn. rewrite <- Hj, <- Hq.
        replace (S (flushIndex s)) with (flushIndex s') by lia.
        apply IH; rewrite ?Hq, ?Hj; auto; lia. }
      split; apply Hgen. }
    assert (Hbody : body (jobs s job) = []).
    { apply Hinert. eapply nth_error_In. exact En. }
    assert (Hrun : forall seen',
              match exec DEV f (emit (EvJob job) s) (body (jobs s job)) with
              | Some s1 => drainLoop DEV f seen' (setFlushIndex s1 (flushIndex s1 + 1))
              | None => None
              end
              = Some (fst (inertPass DEV (jobs s) seen' (skipn (S (flushIndex s)) (queue s))),
                      afterPass s (job :: snd (inertPass DEV (jobs s) seen'
                                                 (skipn (S (flushIndex s)) (queue s)))))).
    { intros seen'. rewrite Hbody.
      destruct f as [|f']; [lia|]. rewrite exec_nil.
      destruct (Hnext (setFlushIndex (emit (EvJob job) s) (flushIndex (emit (EvJob job) s) + 1)))
        as [_ Hn]; try reflexivity.
      rewrite Hn. unfold afterPass. simpl. now rewrite <- app_assoc. }
    assert (Hskip : forall seen',
              drainLoop DEV f seen' (setFlushIndex s (flushIndex s + 1))
              = Some (fst (inertPass DEV (jobs s) seen' (skipn (S (flushIndex s)) (queue s))),
                      afterPass s (snd (inertPass DEV (jobs s) seen'
                                          (skipn (S (flushIndex s)) (queue s)))))).
    { intros seen'.
      destruct (Hnext (setFlushIndex s (flushIndex s + 1))) as [_ Hn];
        try reflexivity.
      rewrite Hn. reflexivity. }
    destruct (active (jobs s job)) as [[|]|].
    + destruct (check DEV seen job) as [[|] seen'].
      * apply Hskip.
      * rewrite Hrun.
        destruct (inertPass DEV (jobs s) seen' (skipn (S (flushIndex s)) (queue s)));
          reflexivity.
    + apply Hskip.
    + destruct (check DEV seen job) as [[|] seen'].
      * apply Hskip.
      * rewrite Hrun.
        destruct (inertPass DEV (jobs s) seen' (skipn (S (flushIndex s)) (queue s)));
          reflexivity.
Qed.

Lemma flushJobs_inert DEV fuel seen s :
  (forall j, In j (queue s) -> body (jobs s j) = []) ->
  pendingPostFlushCbs s = [] ->
  length (queue s) + 2 <= fuel ->
  let sorted := sortWith (fun a b => isNegative (comparator (jobs s a) (jobs s b)))
                         (queue s) in
  flushJobs DEV fuel seen s
  = Some (fst (inertPass DEV (jobs s) seen sorted),
          afterFlush s (snd (inertPass DEV (jobs s) seen sorted))).
Proof.
  intros Hinert Hpending Hfuel sorted.
  destruct fuel as [|f]; [lia|]. simpl.
  fold sorted.
  assert (Hlen : length sorted = length (queue s))
    by (apply Permutation_length, sort_queue_perm).
  rewrite (drainLoop_inert DEV (length sorted)); simpl; try lia.
  - unfold flushPostFlushCbs. cbn [pendingPostFlushCbs setQueue setFlushIndex afterPass
                                      setIsFlushing setIsFlushPending].
    rewrite Hpending. cbn -[inertPass sortWith]. rewrite Hpending.
    unfold afterFlush, setCurrentFlushPromise, setIsFlushing.
    cbn -[inertPass sortWith]. rewrite Hpending. reflexivity.
  - intros j Hj. apply Hinert.
    eapply Permutation_in; [apply sort_queue_perm | exact Hj].
Qed.

(** ** Order of invocation within a pass *)





(** ** queueJob is idempotent *)

Lemma includes_In x i arr : includes x i arr = true -> In x arr.
Proof.
  unfold includes. intros H. apply existsb_exists in H.
  destruct H as [y [Hy Heq]]. apply Nat.eqb_eq in Heq. subst y.
  rewrite <- (firstn_skipn i arr). apply in_or_app. now right.
Qed.

Lemma queueJob_present job s :
  includes job (dedupStart job s) (queue s) = true -> queueJob job s = s.
Proof.
  intros Hin. unfold queueJob. rewrite Hin.
  destruct (queue s) eqn:E; [|reflexivity].
  apply includes_In in Hin. destruct Hin.
Qed.

Lemma NoDup_insert (x : JobId) (i : nat) (l : list JobId) :
  NoDup l -> ~ In x l -> NoDup (splice_insert i x l).
Proof.
  intros Hnd Hx. unfold splice_insert.
  apply NoDup_Add with (a := x) (l := firstn i l ++ skipn i l).
  - apply Add_app.
  - rewrite firstn_skipn. now split.
Qed.

(** Outside a flush the dedupe search covers the whole queue, so the queue
    never holds a job twice. *)
Lemma queueJob_NoDup job s :
  isFlushing s = false -> flushIndex s = 0 ->
  NoDup (queue s) -> NoDup (queue (queueJob job s)).
Proof.
  intros Hf Hi Hnd. unfold queueJob, dedupStart. rewrite Hf, Hi. simpl.
  unfold includes. simpl.
  destruct (existsb (Nat.eqb job) (queue s)) eqn:E.
  - destruct (queue s) eqn:Q; [discriminate E|]. simpl. rewrite Q. exact Hnd.
  - assert (Hnot : ~ In job (queue s)).
    { intros Hin. assert (existsb (Nat.eqb job) (queue s) = true).
      { apply existsb_exists. exists job. split; [exact Hin | apply Nat.eqb_refl]. }
      congruence. }
    assert (Hq : forall s1, NoDup (queue s1) -> NoDup (queue (queueFlush s1))).
    { intros s1 H1. unfold queueFlush.
      destruct (negb (isFlushing s1) && negb (isFlushPending s1)); exact H1. }
    rewrite orb_true_r. apply Hq.
    destruct (id (jobs s job)); simpl.
    + now apply NoDup_insert.
    + apply NoDup_Add with (a := job) (l := queue s);
        [|now split].
      rewrite <- (app_nil_r (queue s)) at 1.
      change (queue s ++ [job]) with (queue s ++ job :: []). apply Add_app.
Qed.

(** C8: a [queueJob(j)] while [j] is in the queue at or after the index
    where the dedupe search starts changes nothing, neither the queue nor
    any other variable, so whatever the drain does afterwards is what it
    would have done without the call.  Where the queue holds no job twice
    and the jobs are inert, the drain that follows invokes [j] at most
    once, and exactly once in a production build if [j] is not disabled. *)
Theorem queueJob_idempotent job s :
  includes job (dedupStart job s) (queue s) = true ->
  queueJob job s = s
  /\ queue (queueJob job s) = queue s
  /\ (forall DEV fuel seen,
        flushJobs DEV fuel seen (queueJob job s) = flushJobs DEV fuel seen s)
  /\ (NoDup (queue s) ->
      (forall j, In j (queue s) -> body (jobs s j) = []) ->
      pendingPostFlushCbs s = [] ->
      forall DEV fuel seen, length (queue s) + 2 <= fuel ->
        exists seen' s' invoked,
          flushJobs DEV fuel seen (queueJob job s) = Some (seen', s')
          /\ ran s' = ran s ++ map EvJob invoked
          /\ count_occ Nat.eq_dec invoked job <= 1
          /\ (DEV = false -> runnable (jobs s job) = true ->
              count_occ Nat.eq_dec invoked job = 1)).
Proof.
  intros Hin. pose proof (queueJob_present job s Hin) as Hq.
  rewrite Hq. repeat split.
  intros Hnd Hinert Hpending DEV fuel seen Hfuel.
  pose proof (flushJobs_inert DEV fuel seen s Hinert Hpending Hfuel) as Hf.
  cbv zeta in Hf.
  set (sorted := sortWith (fun a b => isNegative (comparator (jobs s a) (jobs s b)))
                          (queue s)) in *.
  assert (Hsnd : NoDup sorted).
  { eapply Permutation_NoDup; [symmetry; apply sort_queue_perm | exact Hnd]. }
  exists (fst (inertPass DEV (jobs s) seen sorted)),
         (afterFlush s (snd (inertPass DEV (jobs s) seen sorted))),
         (snd (inertPass DEV (jobs s) seen sorted)).
  split; [exact Hf|]. split; [reflexivity|]. split.
  - apply NoDup_count_occ. now apply inertPass_NoDup.
  - intros -> Hrun.
    apply NoDup_count_occ'; [now apply inertPass_NoDup|].
    rewrite inertPass_production. simpl. apply filter_In. split; [|exact Hrun].
    eapply Permutation_in; [symmetry; apply sort_queue_perm|].
    now apply includes_In in Hin.
Qed.

Lemma queueJob_idempotent_witness :
  exists seen' s',
    queueJob 3 (queueJob 3 (queueJob 1 (initialState demoJobs)))
    = queueJob 3 (queueJob 1 (initialState demoJobs))
    /\ queue (queueJob 3 (queueJob 3 (queueJob 1 (initialState demoJobs)))) = [1; 3]
    /\ flushJobs false 5 []
         (queueJob 3 (queueJob 3 (queueJob 1 (initialState demoJobs))))
       = Some (seen', s')
    /\ ran s' = [EvJob 3; EvJob 1].
Proof.
  pose proof (queueJob_idempotent 3
                (queueJob 3 (queueJob 1 (initialState demoJobs))) eq_refl)
    as [H1 [H2 _]].
  eexists. eexists. split; [exact H1|]. split; [exact H2|].
  split; [vm_compute; reflexivity | reflexivity].
Defined.

(** ** findInsertionIndex has fuel to spare

    The search loop is given as many iterations as the queue is long;
    each iteration shrinks the range, so more fuel changes nothing. *)

Lemma middleOf_bounds start stop :
  start < stop -> (Z.of_nat (start + stop) < 2 ^ 32)%Z ->
  start <= middleOf start stop < stop.
Proof.
  intros Hlt Hsmall. unfold middleOf.
  rewrite Z.mod_small by lia.
  rewrite Z.shiftr_div_pow2 by lia. change (2 ^ 1)%Z with 2%Z.
  assert (H1 : (Z.of_nat start <= Z.of_nat (start + stop) / 2)%Z)
    by (apply Z.div_le_lower_bound; lia).
  assert (H2 : (Z.of_nat (start + stop) / 2 < Z.of_nat stop)%Z)
    by (apply Z.div_lt_upper_bound; lia).
  lia.
Qed.

Lemma searchLoop_fuel jobsOf q i : forall fuel extra start stop,
  stop - start <= fuel -> (Z.of_nat (2 * stop) < 2 ^ 32)%Z ->
  searchLoop (fuel + extra) jobsOf q i start stop
  = searchLoop fuel jobsOf q i start stop.
Proof.
  induction fuel as [|fuel IH]; intros extra start stop Hfuel Hsmall.
  - simpl. destruct extra as [|extra]; [reflexivity|]. simpl.
    assert (Hge : (start <? stop) = false) by (apply Nat.ltb_ge; lia).
    now rewrite Hge.
  - simpl. destruct (Nat.ltb_spec start stop) as [Hlt|Hge]; [|reflexivity].
    assert (Hm : start <= middleOf start stop < stop)
      by (apply middleOf_bounds; lia).
    destruct (num_lt match nth_error q (middleOf start stop) with
                     | Some job => getId (jobsOf job)
                     | None => PInf
                     end (Fin i)); apply IH; lia.
Qed.

(** ** findInsertionIndex is a lower-bound search *)

Lemma StronglySorted_nth {A : Type} (R : A -> A -> Prop) (l : list A) :
  StronglySorted R l ->
  forall a b x y, a < b -> nth_error l a = Some x -> nth_error l b = Some y ->
                  R x y.
Proof.
  induction 1 as [|h t Hs IH Hall]; intros a b x y Hab Ha Hb.
  - destruct a; discriminate.
  - destruct b as [|b]; [lia|]. simpl in Hb.
    destruct a as [|a]; simpl in Ha.
    + injection Ha as <-.
      eapply Forall_forall; [exact Hall|]. eapply nth_error_In. exact Hb.
    + apply (IH a b); [lia | exact Ha | exact Hb].
Qed.

Lemma getId_below (jobsOf : JobId -> SchedulerJob) (a b : JobId) i :
  num_lt (getId (jobsOf b)) (getId (jobsOf a)) = false ->
  num_lt (getId (jobsOf b)) (Fin i) = true ->
  num_lt (getId (jobsOf a)) (Fin i) = true.
Proof.
  unfold getId. destruct (id (jobsOf a)) as [x|], (id (jobsOf b)) as [y|];
    simpl; try discriminate.
  intros H1 H2. apply Z.ltb_ge in H1. apply Z.ltb_lt in H2.
  apply Z.ltb_lt. lia.
Qed.

Lemma idAt_skipn jobsOf q lo j :
  idAt jobsOf (skipn lo q) j = idAt jobsOf q (lo + j).
Proof. unfold idAt. now rewrite nth_error_skipn. Qed.

(** On a tail sorted by id, "the id is smaller than [i]" holds on a
    prefix of the positions. *)
Lemma sorted_tail_prefix jobsOf q lo i :
  StronglySorted (idLe jobsOf) (skipn lo q) ->
  forall j1 j2, lo <= j1 <= j2 -> j2 < length q ->
    num_lt (idAt jobsOf q j2) (Fin i) = true ->
    num_lt (idAt jobsOf q j1) (Fin i) = true.
Proof.
  intros Hs j1 j2 Hj Hlen H2.
  destruct (Nat.eq_dec j1 j2) as [->|Hne]; [exact H2|].
  unfold idAt in *.
  destruct (nth_error q j2) as [b|] eqn:E2;
    [|apply nth_error_None in E2; lia].
  destruct (nth_error q j1) as [a|] eqn:E1;
    [|apply nth_error_None in E1; lia].
  apply (getId_below jobsOf a b i); [|exact H2].
  apply (StronglySorted_nth _ _ Hs (j1 - lo) (j2 - lo)); [lia | |];
    rewrite nth_error_skipn.
  - now replace (lo + (j1 - lo)) with j1 by lia.
  - now replace (lo + (j2 - lo)) with j2 by lia.
Qed.

Lemma searchLoop_spec jobsOf q i lo :
  (forall j1 j2, lo <= j1 <= j2 -> j2 < length q ->
     num_lt (idAt jobsOf q j2) (Fin i) = true ->
     num_lt (idAt jobsOf q j1) (Fin i) = true) ->
  forall fuel start stop,
    lo <= start <= stop -> stop <= length q -> stop - start <= fuel ->
    (Z.of_nat (2 * stop) < 2 ^ 32)%Z ->
    (forall j, lo <= j < start -> num_lt (idAt jobsOf q j) (Fin i) = true) ->
    (forall j, stop <= j < length q ->
               num_lt (idAt jobsOf q j) (Fin i) = false) ->
    start <= searchLoop fuel jobsOf q i start stop <= stop
    /\ (forall j, lo <= j < searchLoop fuel jobsOf q i start stop ->
                  num_lt (idAt jobsOf q j) (Fin i) = true)
    /\ (forall j, searchLoop fuel jobsOf q i start stop <= j < length q ->
                  num_lt (idAt jobsOf q j) (Fin i) = false).
Proof.
  intros Hmono. induction fuel as [|fuel IH];
    intros start stop Hss Hstop Hfuel Hsmall Hlow Hhigh.
  - simpl. assert (start = stop) by lia. subst.
    split; [lia|]. split; assumption.
  - simpl. destruct (Nat.ltb_spec start stop) as [Hlt|Hge].
    + pose proof (middleOf_bounds start stop Hlt ltac:(lia)) as Hm.
      fold (idAt jobsOf q (middleOf start stop)).
      destruct (num_lt (idAt jobsOf q (middleOf start stop)) (Fin i)) eqn:E.
      * destruct (IH (middleOf start stop + 1) stop) as (H1 & H2 & H3);
          try lia; try assumption.
        -- intros j Hj. apply (Hmono j (middleOf start stop)); [lia | lia | exact E].
        -- split; [lia|]. split; assumption.
      * destruct (IH start (middleOf start stop)) as (H1 & H2 & H3);
          try lia; try assumption.
        -- intros j Hj.
           destruct (num_lt (idAt jobsOf q j) (Fin i)) eqn:Ej; [|reflexivity].
           rewrite (Hmono (middleOf start stop) j) in E;
             [discriminate | lia | lia | exact Ej].
        -- split; [lia|]. split; assumption.
    + assert (start = stop) by lia. subst. split; [lia|]. split; assumption.
Qed.

(** X13: on a queue whose part beyond the running job is sorted by id,
    [findInsertionIndex(i)] returns the first position beyond
    [flushIndex] whose job has an id that is not smaller than [i]: every
    job between [flushIndex] and that position has a smaller id, every job
    from that position on has an id of at least [i] or none. *)
Theorem findInsertionIndex_lower_bound i s :
  flushIndex s + 1 <= length (queue s) ->
  (Z.of_nat (2 * length (queue s)) < 2 ^ 32)%Z ->
  StronglySorted (idLe (jobs s)) (searchedTail s) ->
  flushIndex s + 1 <= findInsertionIndex i s <= length (queue s)
  /\ (forall j job, flushIndex s + 1 <= j < findInsertionIndex i s ->
        nth_error (queue s) j = Some job ->
        exists x, id (jobs s job) = Some x /\ (x < i)%Z)
  /\ (forall j job, findInsertionIndex i s <= j ->
        nth_error (queue s) j = Some job ->
        match id (jobs s job) with
        | Some x => (i <= x)%Z
        | None => True
        end).
Proof.
  intros Hlen Hsmall Hsorted. unfold findInsertionIndex.
  destruct (searchLoop_spec (jobs s) (queue s) i (flushIndex s + 1)
              (sorted_tail_prefix (jobs s) (queue s) (flushIndex s + 1) i Hsorted)
              (length (queue s)) (flushIndex s + 1) (length (queue s)))
    as (H1 & H2 & H3); try lia.
  split; [exact H1|]. split.
  - intros j job Hj Hn. specialize (H2 j Hj). unfold idAt in H2.
    rewrite Hn in H2. unfold getId in H2.
    destruct (id (jobs s job)) as [x|]; [|discriminate].
    exists x. split; [reflexivity|]. simpl in H2. now apply Z.ltb_lt.
  - intros j job Hj Hn.
    assert (Hjl : j < length (queue s))
      by (apply nth_error_Some; congruence).
    specialize (H3 j (conj Hj Hjl)). unfold idAt in H3.
    rewrite Hn in H3. unfold getId in H3.
    destruct (id (jobs s job)) as [x|]; [|exact I].
    simpl in H3. now apply Z.ltb_ge.
Qed.

Lemma findInsertionIndex_lower_bound_witness :
  let s := queueJob 1 (queueJob 3 (queueJob 2 (initialState demoJobs))) in
  queue s = [2; 3; 1]
  /\ findInsertionIndex 2 s = 2
  /\ 1 <= findInsertionIndex 2 s <= 3
  /\ (forall j job, 1 <= j < findInsertionIndex 2 s ->
        nth_error (queue s) j = Some job ->
        exists x, id (demoJobs job) = Some x /\ (x < 2)%Z)
  /\ (forall j job, findInsertionIndex 2 s <= j ->
        nth_error (queue s) j = Some job ->
        match id (demoJobs job) with
        | Some x => (2 <= x)%Z
        | None => True
        end).
Proof.
  cbv zeta. split; [reflexivity|]. split; [reflexivity|].
  apply (findInsertionIndex_lower_bound 2
           (queueJob 1 (queueJob 3 (queueJob 2 (initialState demoJobs))))).
  - simpl. lia.
  - simpl. lia.
  - repeat constructor.
Defined.

(** ** queueJob keeps the searched part of the queue sorted *)

Lemma searchLoop_bounds jobsOf q i : forall fuel start stop,
  start <= stop -> (Z.of_nat (2 * stop) < 2 ^ 32)%Z ->
  start <= searchLoop fuel jobsOf q i start stop <= stop.
Proof.
  induction fuel as [|fuel IH]; intros start stop Hss Hsmall; simpl; [lia|].
  destruct (Nat.ltb_spec start stop) as [Hlt|Hge]; [|lia].
  pose proof (middleOf_bounds start stop Hlt ltac:(lia)) as Hm.
  match goal with |- context [if ?c then _ else _] => destruct c end.
  - specialize (IH (middleOf start stop + 1) stop ltac:(lia) Hsmall). lia.
  - specialize (IH start (middleOf start stop) ltac:(lia) ltac:(lia)). lia.
Qed.

Lemma searchLoop_empty_range jobsOf q i fuel start stop :
  stop <= start -> searchLoop fuel jobsOf q i start stop = start.
Proof.
  intros H. destruct fuel as [|fuel]; [reflexivity|]. simpl.
  destruct (Nat.ltb_spec start stop); [lia | reflexivity].
Qed.

Lemma queue_queueFlush s : queue (queueFlush s) = queue s.
Proof. unfold queueFlush. destruct (negb (isFlushing s) && negb (isFlushPending s)); reflexivity. Qed.

Lemma flushIndex_queueFlush s : flushIndex (queueFlush s) = flushIndex s.
Proof. unfold queueFlush. destruct (negb (isFlushing s) && negb (isFlushPending s)); reflexivity. Qed.

Lemma jobs_queueFlush s : jobs (queueFlush s) = jobs s.
Proof. unfold queueFlush. destruct (negb (isFlushing s) && negb (isFlushPending s)); reflexivity. Qed.

(** Where [queueJob] puts a job that passes the dedupe check: position
    [p] of the new queue, the rest in its order. *)
Lemma queueJob_inserts job s :
  (Z.of_nat (2 * length (queue s)) < 2 ^ 32)%Z ->
  includes job (dedupStart job s) (queue s) = false ->
  exists p,
    queue (queueJob job s) = firstn p (queue s) ++ job :: skipn p (queue s)
    /\ p <= length (queue s)
    /\ (flushIndex s < length (queue s) -> flushIndex s < p)
    /\ (length (queue s) <= flushIndex s -> p = length (queue s))
    /\ (forall j x, flushIndex s + 1 <= j < p ->
          nth_error (queue s) j = Some x ->
          StronglySorted (idLe (jobs s)) (searchedTail s) ->
          idLe (jobs s) x job)
    /\ (forall j x, p <= j -> nth_error (queue s) j = Some x ->
          StronglySorted (idLe (jobs s)) (searchedTail s) ->
          idLe (jobs s) job x).
Proof.
  intros Hsmall Hinc. unfold queueJob. rewrite Hinc, orb_true_r.
  rewrite queue_queueFlush.
  destruct (id (jobs s job)) as [i|] eqn:Eid; cbn [queue setQueue].
  - unfold splice_insert.
    destruct (Nat.le_gt_cases (flushIndex s + 1) (length (queue s))) as [Hle|Hgt].
    + pose proof (searchLoop_bounds (jobs s) (queue s) i (length (queue s))
                    (flushIndex s + 1) (length (queue s)) Hle Hsmall) as Hb.
      fold (findInsertionIndex i s) in Hb.
      exists (findInsertionIndex i s).
      split; [reflexivity|]. split; [lia|]. split; [lia|]. split; [lia|].
      split.
      * intros j x Hj Hn Hsorted.
        destruct (searchLoop_spec (jobs s) (queue s) i (flushIndex s + 1)
                    (sorted_tail_prefix (jobs s) (queue s) (flushIndex s + 1) i
                       Hsorted)
                    (length (queue s)) (flushIndex s + 1) (length (queue s)))
          as (_ & H2 & _); try lia.
        fold (findInsertionIndex i s) in H2.
        specialize (H2 j Hj). unfold idAt in H2. rewrite Hn in H2.
        unfold idLe, getId in *. rewrite Eid.
        destruct (id (jobs s x)) as [y|]; [|discriminate]. simpl in *.
        apply Z.ltb_lt in H2. apply Z.ltb_ge. lia.
      * intros j x Hj Hn Hsorted.
        assert (Hjl : j < length (queue s))
          by (apply nth_error_Some; congruence).
        destruct (searchLoop_spec (jobs s) (queue s) i (flushIndex s + 1)
                    (sorted_tail_prefix (jobs s) (queue s) (flushIndex s + 1) i
                       Hsorted)
                    (length (queue s)) (flushIndex s + 1) (length (queue s)))
          as (_ & _ & H3); try lia.
        fold (findInsertionIndex i s) in H3.
        specialize (H3 j (conj Hj Hjl)). unfold idAt in H3. rewrite Hn in H3.
        unfold idLe. unfold getId at 2. now rewrite Eid.
    + exists (length (queue s)).
      assert (Hr : findInsertionIndex i s = flushIndex s + 1).
      { unfold findInsertionIndex. apply searchLoop_empty_range. lia. }
      rewrite Hr.
      rewrite !firstn_all2, !skipn_all2 by lia.
      split; [reflexivity|]. split; [lia|]. split; [lia|]. split; [lia|].
      split.
      * intros j x Hj. lia.
      * intros j x Hj Hn.
        assert (j < length (queue s)) by (apply nth_error_Some; congruence).
        lia.
  - exists (length (queue s)).
    rewrite firstn_all, skipn_all.
    split; [reflexivity|]. split; [lia|]. split; [lia|]. split; [lia|].
    split.
    + intros j x _ _ _. unfold idLe, getId. rewrite Eid.
      destruct (id (jobs s x)); reflexivity.
    + intros j x Hj Hn.
      assert (j < length (queue s)) by (apply nth_error_Some; congruence).
      lia.
Qed.

Lemma StronglySorted_insert_at {A : Type} (R : A -> A -> Prop) (x : A) :
  forall (l : list A) (m : nat),
    StronglySorted R l ->
    (forall j y, j < m -> nth_error l j = Some y -> R y x) ->
    (forall j y, m <= j -> nth_error l j = Some y -> R x y) ->
    StronglySorted R (firstn m l ++ x :: skipn m l).
Proof.
  induction l as [|h t IH]; intros m Hs Hbefore Hafter.
  - rewrite firstn_nil, skipn_nil. simpl. repeat constructor.
  - inversion Hs as [|? ? Ht Hall]; subst.
    destruct m as [|m]; simpl.
    + constructor; [exact Hs|].
      apply Forall_forall. intros y Hy.
      destruct (In_nth_error _ _ Hy) as [j Hj].
      apply (Hafter j y); [lia | exact Hj].
    + constructor.
      * apply IH; [exact Ht | |].
        -- intros j y Hj Hn. apply (Hbefore (S j) y); [lia | exact Hn].
        -- intros j y Hj Hn. apply (Hafter (S j) y); [lia | exact Hn].
      * apply Forall_forall. intros y Hy. apply in_app_iff in Hy.
        destruct Hy as [Hy|[<-|Hy]].
        -- eapply Forall_forall; [exact Hall|].
           rewrite <- (firstn_skipn m t). apply in_or_app. now left.
        -- apply (Hbefore 0 h); [lia | reflexivity].
        -- eapply Forall_forall; [exact Hall|].
           rewrite <- (firstn_skipn m t). apply in_or_app. now right.
Qed.

Lemma flushIndex_queueJob job s : flushIndex (queueJob job s) = flushIndex s.
Proof.
  unfold queueJob.
  destruct ((match queue s with [] => true | _ => false end)
            || negb (includes job (dedupStart job s) (queue s)));
    [|reflexivity].
  rewrite flushIndex_queueFlush. destruct (id (jobs s job)); reflexivity.
Qed.

Lemma queueJob_same_or_includes job s :
  includes job (dedupStart job s) (queue s) = true -> queueJob job s = s.
Proof.
  intros Hin. unfold queueJob. rewrite Hin.
  destruct (queue s) eqn:E; [|reflexivity].
  unfold includes in Hin. rewrite skipn_nil in Hin. discriminate Hin.
Qed.

(** X14: [queueJob] keeps the part of the queue beyond the running job
    sorted by id (a job without an id counts as the largest): if that part
    is sorted before the call, it is sorted after it, whether the job was
    inserted by the binary search, pushed at the end, or already there. *)
Theorem queueJob_keeps_tail_sorted job s :
  (Z.of_nat (2 * length (queue s)) < 2 ^ 32)%Z ->
  StronglySorted (idLe (jobs s)) (searchedTail s) ->
  StronglySorted (idLe (jobs s)) (searchedTail (queueJob job s)).
Proof.
  intros Hsmall Hsorted.
  destruct (includes job (dedupStart job s) (queue s)) eqn:Hinc.
  - now rewrite (queueJob_same_or_includes job s Hinc).
  - destruct (queueJob_inserts job s Hsmall Hinc)
      as (p & Hq & Hp & Hlt & Hge & Hbefore & Hafter).
    unfold searchedTail in *. rewrite flushIndex_queueJob, Hq.
    destruct (Nat.lt_ge_cases (flushIndex s) (length (queue s))) as [Hfi|Hfi].
    + specialize (Hlt Hfi).
      rewrite skipn_app, firstn_length_le by lia.
      replace (flushIndex s + 1 - p) with 0 by lia. cbn [skipn].
      rewrite skipn_firstn_comm.
      replace (skipn p (queue s))
        with (skipn (p - (flushIndex s + 1)) (skipn (flushIndex s + 1) (queue s)))
        by (rewrite skipn_skipn; f_equal; lia).
      apply StronglySorted_insert_at; [exact Hsorted | |].
      * intros j y Hj Hn. rewrite nth_error_skipn in Hn.
        apply (Hbefore (flushIndex s + 1 + j) y); [lia | exact Hn | exact Hsorted].
      * intros j y Hj Hn. rewrite nth_error_skipn in Hn.
        apply (Hafter (flushIndex s + 1 + j) y); [lia | exact Hn | exact Hsorted].
    + rewrite (Hge Hfi), firstn_all, skipn_all.
      rewrite skipn_all2; [constructor|].
      rewrite length_app. simpl. lia.
Qed.

Lemma queueJob_keeps_tail_sorted_witness :
  let s := queueJob 3 (queueJob 1 (queueJob 2 (initialState demoJobs))) in
  queue s = [2; 3; 1]
  /\ StronglySorted (idLe demoJobs) (searchedTail (queueJob 0 s)).
Proof.
  cbv zeta. split; [reflexivity|].
  apply (queueJob_keeps_tail_sorted 0
           (queueJob 3 (queueJob 1 (queueJob 2 (initialState demoJobs))))).
  - simpl. lia.
  - repeat constructor.
Defined.

(** ** invalidateJob *)

Lemma indexOf_insert (x : JobId) (l rest : list JobId) :
  ~ In x l -> indexOf x (l ++ x :: rest) = Some (length l).
Proof.
  induction l as [|y l IH]; intros Hnot; simpl.
  - now rewrite Nat.eqb_refl.
  - destruct (Nat.eqb_spec y x) as [->|Hne]; [exfalso; apply Hnot; now left|].
    rewrite IH; [reflexivity|]. intros H. apply Hnot. now right.
Qed.

Lemma includes_absent x i l : ~ In x l -> includes x i l = false.
Proof.
  intros Hnot. destruct (includes x i l) eqn:E; [|reflexivity].
  apply includes_In in E. contradiction.
Qed.

(** X15: [invalidateJob] right after [queueJob] of a job that was not in
    the queue takes the job out again and leaves the queue as it was,
    provided the queue held a job beyond [flushIndex]; when it did not (the
    queue was empty before the flush started, or nothing was left beyond
    the running job), the new job sits at an index that is not greater
    than [flushIndex] and [invalidateJob] leaves it in the queue. *)
Theorem invalidateJob_after_queueJob job s :
  (Z.of_nat (2 * length (queue s)) < 2 ^ 32)%Z ->
  ~ In job (queue s) ->
  (flushIndex s < length (queue s) ->
   queue (invalidateJob job (queueJob job s)) = queue s)
  /\ (length (queue s) <= flushIndex s ->
      queue (invalidateJob job (queueJob job s)) = queue s ++ [job]).
Proof.
  intros Hsmall Hnot.
  destruct (queueJob_inserts job s Hsmall (includes_absent _ _ _ Hnot))
    as (p & Hq & Hp & Hlt & Hge & _).
  assert (Hidx : indexOf job (queue (queueJob job s)) = Some p).
  { rewrite Hq.
    replace (Some p) with (Some (length (firstn p (queue s))))
      by (now rewrite firstn_length_le).
    apply indexOf_insert. intros Hin. apply Hnot.
    rewrite <- (firstn_skipn p (queue s)). apply in_or_app. now left. }
  unfold invalidateJob. rewrite Hidx, flushIndex_queueJob. split.
  - intros Hfi. specialize (Hlt Hfi).
    assert (Hltb : (flushIndex s <? p) = true) by now apply Nat.ltb_lt.
    rewrite Hltb. cbn [queue setQueue]. rewrite Hq. unfold splice_remove.
    rewrite firstn_app, firstn_firstn, Nat.min_id, firstn_length_le by lia.
    replace (p - p) with 0 by lia. cbn [firstn]. rewrite app_nil_r.
    rewrite skipn_app, firstn_length_le by lia.
    rewrite (skipn_all2 (firstn p (queue s)))
      by (rewrite firstn_length_le; lia).
    replace (S p - p) with 1 by lia. cbn [skipn app].
    apply firstn_skipn.
  - intros Hfi. rewrite (Hge Hfi) in *.
    assert (Hltb : (flushIndex s <? length (queue s)) = false)
      by now apply Nat.ltb_ge.
    rewrite Hltb, Hq. now rewrite firstn_all, skipn_all.
Qed.

Lemma invalidateJob_after_queueJob_witness :
  (queue (invalidateJob 3 (queueJob 3 (queueJob 1 (queueJob 2 (initialState demoJobs)))))
   = [2; 1])
  /\ queue (invalidateJob 2 (queueJob 2 (initialState demoJobs))) = [2].
Proof.
  split.
  - apply (invalidateJob_after_queueJob 3
             (queueJob 1 (queueJob 2 (initialState demoJobs)))).
    + simpl. lia.
    + simpl. intros [H|[H|[]]]; discriminate.
    + simpl. lia.
  - apply (invalidateJob_after_queueJob 2 (initialState demoJobs)).
    + simpl. lia.
    + intros [].
    + simpl. lia.
Defined.

(** ** A job that queues itself while it runs *)

(** X16: during a flush, [queueJob] on the job that is running does
    nothing unless the job has [allowRecurse]; with [allowRecurse], and the
    job not already queued further on, it is put into the queue again
    beyond [flushIndex], so the same flush will run it once more, and
    the part of the queue up to the running job is untouched. *)
Theorem queueJob_of_running_job job s :
  (Z.of_nat (2 * length (queue s)) < 2 ^ 32)%Z ->
  isFlushing s = true ->
  nth_error (queue s) (flushIndex s) = Some job ->
  (allowRecurse (jobs s job) = false -> queueJob job s = s)
  /\ (allowRecurse (jobs s job) = true -> ~ In job (searchedTail s) ->
      exists p,
        flushIndex s < p
        /\ nth_error (queue (queueJob job s)) p = Some job
        /\ length (queue (queueJob job s)) = S (length (queue s))
        /\ firstn (S (flushIndex s)) (queue (queueJob job s))
           = firstn (S (flushIndex s)) (queue s)).
Proof.
  intros Hsmall Hfl Hn.
  assert (Hfi : flushIndex s < length (queue s))
    by (apply nth_error_Some; congruence).
  split.
  - intros Har. apply queueJob_same_or_includes.
    unfold dedupStart, includes. rewrite Hfl, Har. cbn [andb].
    rewrite (skipn_nth_error _ _ _ Hn). simpl. now rewrite Nat.eqb_refl.
  - intros Har Hnot.
    assert (Hinc : includes job (dedupStart job s) (queue s) = false).
    { unfold dedupStart, includes. rewrite Hfl, Har. cbn [andb].
      apply Effect.mem_not_In. exact Hnot. }
    destruct (queueJob_inserts job s Hsmall Hinc)
      as (p & Hq & Hp & Hlt & _).
    specialize (Hlt Hfi). exists p. rewrite Hq.
    split; [exact Hlt|]. split; [|split].
    + rewrite nth_error_app2 by (rewrite firstn_length_le; lia).
      rewrite firstn_length_le by lia. now rewrite Nat.sub_diag.
    + rewrite length_app. simpl. rewrite firstn_length_le, length_skipn by lia.
      lia.
    + rewrite firstn_app, firstn_firstn, firstn_length_le by lia.
      replace (S (flushIndex s) - p) with 0 by lia.
      rewrite firstn_O, app_nil_r. f_equal. lia.
Qed.

Lemma queueJob_of_running_job_witness :
  let s := setIsFlushing (queueJob 0 (initialState recurseJobs)) true in
  queue s = [0]
  /\ exists p,
       0 < p
       /\ nth_error (queue (queueJob 0 s)) p = Some 0
       /\ length (queue (queueJob 0 s)) = 2
       /\ firstn 1 (queue (queueJob 0 s)) = firstn 1 (queue s).
Proof.
  cbv zeta. split; [reflexivity|].
  destruct (queueJob_of_running_job 0
              (setIsFlushing (queueJob 0 (initialState recurseJobs)) true))
    as [_ H].
  - simpl. lia.
  - reflexivity.
  - reflexivity.
  - apply H; [reflexivity | intros []].
Defined.

(** ** The recursion limit *)

Lemma checkTimes_counting fn : forall k seen c,
  alist_get Nat.eqb fn seen = Some c -> 1 <= c <= 101 ->
  fst (checkTimes k seen fn)
  = repeat false (Nat.min k (101 - c)) ++ repeat true (k - (101 - c)).
Proof.
  induction k as [|k IH]; intros seen c Hget Hc; [reflexivity|].
  cbn [checkTimes]. unfold checkRecursiveUpdates. rewrite Hget.
  unfold RECURSION_LIMIT.
  destruct (Nat.ltb_spec 100 c) as [Hover|Hunder].
  - assert (c = 101) by lia. subst c.
    specialize (IH seen 101 Hget ltac:(lia)).
    destruct (checkTimes k seen fn) as [rs seen2]. cbn [fst snd] in *. rewrite IH.
    replace (101 - 101) with 0 by lia.
    rewrite Nat.min_0_r, !Nat.sub_0_r. reflexivity.
  - specialize (IH (alist_set Nat.eqb fn (c + 1) seen) (c + 1)
                  (Effect.alist_get_set_same Nat.eqb Nat.eqb_eq fn (c + 1) seen)
                  ltac:(lia)).
    destruct (checkTimes k (alist_set Nat.eqb fn (c + 1) seen) fn)
      as [rs seen2]. cbn [fst snd] in *. rewrite IH.
    replace (101 - c) with (S (101 - (c + 1))) by lia.
    reflexivity.
Qed.

Lemma checkTimes_others fn fn' : forall k seen,
  fn' <> fn ->
  alist_get Nat.eqb fn' (snd (checkTimes k seen fn)) = alist_get Nat.eqb fn' seen.
Proof.
  induction k as [|k IH]; intros seen Hne; [reflexivity|].
  cbn [checkTimes]. unfold checkRecursiveUpdates.
  destruct (alist_get Nat.eqb fn seen) as [c|].
  - destruct (RECURSION_LIMIT <? c).
    + specialize (IH seen Hne).
      destruct (checkTimes k seen fn) as [rs seen2]. exact IH.
    + specialize (IH (alist_set Nat.eqb fn (c + 1) seen) Hne).
      destruct (checkTimes k (alist_set Nat.eqb fn (c + 1) seen) fn)
        as [rs seen2]. cbn [fst snd] in *. rewrite IH.
      now apply (Effect.alist_get_set_other Nat.eqb Nat.eqb_eq).
  - specialize (IH (alist_set Nat.eqb fn 1 seen) Hne).
    destruct (checkTimes k (alist_set Nat.eqb fn 1 seen) fn) as [rs seen2].
    cbn [fst snd] in *. rewrite IH.
    now apply (Effect.alist_get_set_other Nat.eqb Nat.eqb_eq).
Qed.

(** X17: within one flush, [checkRecursiveUpdates] lets a job through
    101 times and refuses it from the 102nd call on ([count > 100] is
    tested before the count is raised, and the first call stores 1): of
    [k] calls in a row for a job the map has not seen, the first
    [min k 101] answer false and all the others true.  The counts of the
    other jobs are not touched. *)
Theorem checkRecursiveUpdates_limit k seen fn :
  alist_get Nat.eqb fn seen = None ->
  fst (checkTimes k seen fn)
  = repeat false (Nat.min k 101) ++ repeat true (k - 101)
  /\ forall fn', fn' <> fn ->
       alist_get Nat.eqb fn' (snd (checkTimes k seen fn))
       = alist_get Nat.eqb fn' seen.
Proof.
  intros Hnone. split; [|intros fn' Hne; now apply checkTimes_others].
  destruct k as [|k]; [reflexivity|].
  cbn [checkTimes]. unfold checkRecursiveUpdates. rewrite Hnone.
  pose proof (checkTimes_counting fn k (alist_set Nat.eqb fn 1 seen) 1
                (Effect.alist_get_set_same Nat.eqb Nat.eqb_eq fn 1 seen)
                ltac:(lia)) as H.
  destruct (checkTimes k (alist_set Nat.eqb fn 1 seen) fn) as [rs seen2].
  cbn [fst snd] in *. rewrite H. reflexivity.
Qed.

Lemma checkRecursiveUpdates_limit_witness :
  fst (checkTimes 103 [] 7) = repeat false 101 ++ [true; true]
  /\ forall fn', fn' <> 7 ->
       alist_get Nat.eqb fn' (snd (checkTimes 103 [] 7)) = None.
Proof.
  exact (checkRecursiveUpdates_limit 103 [] 7 eq_refl).
Defined.

(** ** What jobs and callbacks cannot change *)

Lemma Frame_refl ki ka s : Frame ki ka s s.
Proof.
  constructor; auto. exists []. split; [now rewrite app_nil_r | constructor].
Qed.

Lemma Frame_trans ki ka s1 s2 s3 :
  Frame ki ka s1 s2 -> Frame ki ka s2 s3 -> Frame ki ka s1 s3.
Proof.
  intros [Hj Hf Hi Hp Ha [n1 [Hr1 Ho1]] Hs] [Hj' Hf' Hi' Hp' Ha' [n2 [Hr2 Ho2]] Hs'].
  constructor.
  - congruence.
  - congruence.
  - intros Hk. rewrite (Hi' Hk). auto.
  - intros Hfl. destruct (Hp Hfl) as [<- <-]. apply Hp'. congruence.
  - auto.
  - exists (n1 ++ n2). split; [rewrite Hr2, Hr1; now rewrite app_assoc|].
    apply Forall_app. split; [exact Ho1|]. now rewrite <- Hj.
  - auto.
Qed.

Lemma Frame_weaken ki ka ki' ka' s s' :
  (ki' = true -> ki = true) -> (ka' = true -> ka = true) ->
  Frame ki ka s s' -> Frame ki' ka' s s'.
Proof. intros Hi Ha [? ? ? ? ? ? ?]. constructor; auto. Qed.

Lemma Scheduled_queueFlush s : Scheduled (queueFlush s).
Proof.
  unfold queueFlush, Scheduled.
  destruct (isFlushing s) eqn:Ef; simpl; [rewrite Ef; auto|].
  destruct (isFlushPending s) eqn:Ep; simpl; auto.
Qed.

(** A change of the two queues followed by [queueFlush]. *)
Lemma Frame_then_queueFlush ki ka s s1 :
  jobs s1 = jobs s -> isFlushing s1 = isFlushing s ->
  flushIndex s1 = flushIndex s -> isFlushPending s1 = isFlushPending s ->
  currentFlushPromise s1 = currentFlushPromise s ->
  activePostFlushCbs s1 = activePostFlushCbs s -> ran s1 = ran s ->
  Frame ki ka s (queueFlush s1).
Proof.
  intros Hj Hf Hi Hp Hc Ha Hr.
  constructor.
  - now rewrite jobs_queueFlush.
  - unfold queueFlush.
    destruct (negb (isFlushing s1) && negb (isFlushPending s1)); exact Hf.
  - intros _. now rewrite flushIndex_queueFlush.
  - intros Hfl. unfold queueFlush. rewrite Hf, Hfl. simpl. auto.
  - intros _ Hn. unfold queueFlush.
    destruct (negb (isFlushing s1) && negb (isFlushPending s1)); simpl;
      congruence.
  - exists []. split; [|constructor]. rewrite app_nil_r. unfold queueFlush.
    destruct (negb (isFlushing s1) && negb (isFlushPending s1)); exact Hr.
  - intros _. apply Scheduled_queueFlush.
Qed.

Lemma Frame_queueJob ki ka job s : Frame ki ka s (queueJob job s).
Proof.
  unfold queueJob.
  destruct ((match queue s with [] => true | _ => false end)
            || negb (includes job (dedupStart job s) (queue s)));
    [|apply Frame_refl].
  destruct (id (jobs s job)); apply Frame_then_queueFlush; reflexivity.
Qed.

Lemma Frame_invalidateJob ki ka job s : Frame ki ka s (invalidateJob job s).
Proof.
  unfold invalidateJob. destruct (indexOf job (queue s)) as [i|] eqn:E;
    [|apply Frame_refl].
  destruct (flushIndex s <? i); [|apply Frame_refl].
  constructor; simpl; auto.
  - exists []. split; [now rewrite app_nil_r | constructor].
  - unfold Scheduled. simpl. intros [[Hq _]|H]; [|auto].
    rewrite Hq in E. discriminate E.
Qed.

Lemma Frame_queuePostFlushCb ki ka cb s : Frame ki ka s (queuePostFlushCb cb s).
Proof.
  unfold queuePostFlushCb.
  match goal with |- context [if ?c then _ else _] => destruct c end;
    apply Frame_then_queueFlush; reflexivity.
Qed.

Lemma Frame_queuePostFlushCbs ki ka cbs s :
  Frame ki ka s (queuePostFlushCbs cbs s).
Proof. apply Frame_then_queueFlush; reflexivity. Qed.

(** A step of a loop: the event [ev] is recorded and one of the two
    queues, which was not empty, is replaced. *)
Lemma Frame_loop_step ki ka ev s s1 :
  okEvent (jobs s) ev ->
  (queue s <> [] \/ pendingPostFlushCbs s <> []
   \/ (queue s1 = queue s /\ pendingPostFlushCbs s1 = pendingPostFlushCbs s)) ->
  jobs s1 = jobs s -> isFlushing s1 = isFlushing s ->
  (ki = true -> flushIndex s1 = flushIndex s) ->
  isFlushPending s1 = isFlushPending s ->
  currentFlushPromise s1 = currentFlushPromise s ->
  (ka = true -> activePostFlushCbs s = None -> activePostFlushCbs s1 = None) ->
  ran s1 = ran s ->
  Frame ki ka s (emit ev s1).
Proof.
  intros Hok Hne Hj Hf Hi Hp Hc Ha Hr.
  constructor; cbn [jobs isFlushing flushIndex isFlushPending
                    currentFlushPromise activePostFlushCbs ran emit]; auto.
  - exists [ev]. split; [now rewrite Hr | now constructor].
  - unfold Scheduled.
    cbn [queue pendingPostFlushCbs isFlushing isFlushPending emit].
    rewrite Hf, Hp. intros [[Hq Hpd]|H]; [|auto].
    destruct Hne as [H|[H|[-> ->]]]; [contradiction | contradiction | auto].
Qed.

Lemma Frame_quiet ki ka s s1 :
  (queue s <> [] \/ pendingPostFlushCbs s <> []
   \/ (queue s1 = queue s /\ pendingPostFlushCbs s1 = pendingPostFlushCbs s)
   \/ (queue s1 = [] /\ pendingPostFlushCbs s1 = [])) ->
  jobs s1 = jobs s -> isFlushing s1 = isFlushing s ->
  (ki = true -> flushIndex s1 = flushIndex s) ->
  isFlushPending s1 = isFlushPending s ->
  currentFlushPromise s1 = currentFlushPromise s ->
  (ka = true -> activePostFlushCbs s = None -> activePostFlushCbs s1 = None) ->
  ran s1 = ran s ->
  Frame ki ka s s1.
Proof.
  intros Hne Hj Hf Hi Hp Hc Ha Hr.
  constructor; auto.
  - exists []. split; [now rewrite app_nil_r | constructor].
  - unfold Scheduled. rewrite Hf, Hp. intros [[Hq Hpd]|H]; [|auto].
    destruct Hne as [H|[H|[[-> ->]|[-> ->]]]];
      [contradiction | contradiction | auto | auto].
Qed.

Section FrameOfBodies.

Variable DEV : bool.
Variable execF : State -> list JobOp -> option State.
Hypothesis execF_Frame : forall s ops s',
    execF s ops = Some s' -> Frame true true s s'.

Lemma preLoop_Frame : forall fuel seen i s seen' s',
  preLoop DEV execF fuel seen i s = Some (seen', s') -> Frame true true s s'.
Proof.
  induction fuel as [|fuel IH]; intros seen i s seen' s'; simpl; [discriminate|].
  destruct (Nat.ltb_spec i (length (queue s))) as [Hlt|Hge];
    [|intros [= _ <-]; apply Frame_refl].
  destruct (nth_error (queue s) i) as [cb|] eqn:En; [|apply IH].
  destruct (pre (jobs s cb)); [|apply IH].
  destruct (check DEV seen cb) as [[|] seen1]; [apply IH|].
  match goal with
  | |- match execF ?x ?b with _ => _ end = _ -> _ =>
      destruct (execF x b) as [s2|] eqn:Ex; [|discriminate];
      assert (H1 : Frame true true s x)
  end.
  { apply Frame_loop_step; try reflexivity; auto.
    left. intros Hq. rewrite Hq in Hlt. simpl in Hlt. lia. }
  intros Hx. eapply Frame_trans; [exact H1|].
  eapply Frame_trans; [eapply execF_Frame; exact Ex|].
  eapply IH. exact Hx.
Qed.

Lemma postLoop_Frame : forall fuel seen s seen' s',
  postLoop DEV execF fuel seen s = Some (seen', s') -> Frame true false s s'.
Proof.
  induction fuel as [|fuel IH]; intros seen s seen' s'; simpl; [discriminate|].
  destruct (activePostFlushCbs s) as [act|] eqn:Ea;
    [|intros [= _ <-]; apply Frame_refl].
  destruct (postFlushIndex s <? length act);
    [|intros [= _ <-]; apply Frame_refl].
  destruct (nth_error act (postFlushIndex s)) as [cb|];
    [|intros [= _ <-]; apply Frame_refl].
  destruct (check DEV seen cb) as [[|] seen1].
  - intros Hx. eapply Frame_trans; [|eapply IH; exact Hx].
    apply Frame_quiet; try reflexivity; try discriminate. auto.
  - destruct (execF (emit (EvPost cb) s) (body (jobs s cb))) as [s1|] eqn:Ex;
      [|discriminate].
    intros Hx.
    eapply Frame_trans;
      [apply (Frame_loop_step true false (EvPost cb) s s);
       try reflexivity; try discriminate; simpl; auto|].
    eapply Frame_trans;
      [eapply Frame_weaken; [| |eapply execF_Frame; exact Ex]; auto|].
    eapply Frame_trans; [|eapply IH; exact Hx].
    apply Frame_quiet; try reflexivity; try discriminate. auto.
Qed.

Lemma flushPreFlushCbs_Frame fuel seen s seen' s' :
  flushPreFlushCbs DEV execF fuel seen s = Some (seen', s') ->
  Frame true true s s'.
Proof. unfold flushPreFlushCbs. apply preLoop_Frame. Qed.

Lemma flushPostFlushCbs_Frame fuel seen s seen' s' :
  flushPostFlushCbs DEV execF fuel seen s = Some (seen', s') ->
  Frame true true s s'.
Proof.
  unfold flushPostFlushCbs.
  destruct (pendingPostFlushCbs s) as [|cb0 rest] eqn:Ep;
    [intros [= _ <-]; apply Frame_refl|].
  cbn [activePostFlushCbs setPendingPostFlushCbs].
  destruct (activePostFlushCbs s) as [act|] eqn:Ea.
  - intros [= _ <-].
    apply Frame_quiet; try reflexivity; cbn; try congruence.
    right. left. rewrite Ep. discriminate.
  - match goal with
    | |- match postLoop DEV execF fuel seen ?x with _ => _ end = _ -> _ =>
        destruct (postLoop DEV execF fuel seen x) as [[seen1 s3]|] eqn:El;
          [|discriminate];
        assert (H1 : Frame true false s x)
    end.
    { apply Frame_quiet; try reflexivity; try discriminate.
      right. left. rewrite Ep. discriminate. }
    intros [= _ <-].
    pose proof (Frame_trans _ _ _ _ _ H1 (postLoop_Frame _ _ _ _ _ El)) as H3.
    destruct H3 as [Hj Hf Hi Hp _ Hr Hs].
    constructor; cbn [jobs isFlushing flushIndex isFlushPending
                      currentFlushPromise activePostFlushCbs ran
                      setPostFlushIndex setActivePostFlushCbs]; auto.
Qed.

Lemma step_Frame fuel op s s' :
  step DEV execF fuel op s = Some s' -> Frame true true s s'.
Proof.
  destruct op; simpl.
  - intros [= <-]. apply Frame_queueJob.
  - intros [= <-]. apply Frame_invalidateJob.
  - intros [= <-]. apply Frame_queuePostFlushCb.
  - intros [= <-]. apply Frame_queuePostFlushCbs.
  - destruct (flushPreFlushCbs DEV execF fuel [] s) as [[seen1 s1]|] eqn:E;
      [|discriminate].
    intros [= <-]. eapply flushPreFlushCbs_Frame. exact E.
  - destruct (flushPostFlushCbs DEV execF fuel [] s) as [[seen1 s1]|] eqn:E;
      [|discriminate].
    intros [= <-]. eapply flushPostFlushCbs_Frame. exact E.
Qed.

End FrameOfBodies.

Lemma exec_Frame DEV : forall fuel s ops s',
  exec DEV fuel s ops = Some s' -> Frame true true s s'.
Proof.
  induction fuel as [|f IH]; intros s ops s'; simpl; [discriminate|].
  destruct ops as [|op rest]; [intros [= <-]; apply Frame_refl|].
  destruct (step DEV (exec DEV f) f op s) as [s1|] eqn:Es; [|discriminate].
  intros Hx. eapply Frame_trans; [|eapply IH; exact Hx].
  eapply step_Frame; [exact IH | exact Es].
Qed.

Lemma drainLoop_Frame DEV : forall fuel seen s seen' s',
  drainLoop DEV fuel seen s = Some (seen', s') -> Frame false true s s'.
Proof.
  induction fuel as [|fuel IH]; intros seen s seen' s'; simpl; [discriminate|].
  destruct (flushIndex s <? length (queue s));
    [|intros [= _ <-]; apply Frame_refl].
  assert (Hskip : Frame false true s (setFlushIndex s (flushIndex s + 1))).
  { apply Frame_quiet; try reflexivity; try (intros; discriminate); auto. }
  assert (Hrun : forall job seen1,
            runnable (jobs s job) = true ->
            match exec DEV fuel (emit (EvJob job) s) (body (jobs s job)) with
            | Some s1 => drainLoop DEV fuel seen1 (setFlushIndex s1 (flushIndex s1 + 1))
            | None => None
            end = Some (seen', s') -> Frame false true s s').
  { intros job seen1 Hrun.
    destruct (exec DEV fuel (emit (EvJob job) s) (body (jobs s job)))
      as [s1|] eqn:Ex; [|discriminate].
    intros Hx.
    eapply Frame_trans;
      [apply (Frame_loop_step false true (EvJob job) s s);
       try reflexivity; try (intros; discriminate); simpl; auto|].
    eapply Frame_trans;
      [eapply Frame_weaken; [| |eapply exec_Frame; exact Ex];
       try (intros; discriminate); auto|].
    eapply Frame_trans; [|eapply IH; exact Hx].
    apply Frame_quiet; try reflexivity; try (intros; discriminate); auto. }
  destruct (nth_error (queue s) (flushIndex s)) as [job|];
    [|intros Hx; eapply Frame_trans; [exact Hskip | eapply IH; exact Hx]].
  destruct (active (jobs s job)) as [[|]|] eqn:Eact.
  - destruct (check DEV seen job) as [[|] seen1].
    + intros Hx. eapply Frame_trans; [exact Hskip | eapply IH; exact Hx].
    + apply Hrun. unfold runnable. now rewrite Eact.
  - intros Hx. eapply Frame_trans; [exact Hskip | eapply IH; exact Hx].
  - destruct (check DEV seen job) as [[|] seen1].
    + intros Hx. eapply Frame_trans; [exact Hskip | eapply IH; exact Hx].
    + apply Hrun. unfold runnable. now rewrite Eact.
Qed.

(** ** flushJobs, whatever the jobs do *)

Lemma flushJobs_facts DEV : forall fuel seen s seen' s',
  flushJobs DEV fuel seen s = Some (seen', s') ->
  jobs s' = jobs s
  /\ (exists new, ran s' = ran s ++ new /\ Forall (okEvent (jobs s)) new)
  /\ queue s' = [] /\ pendingPostFlushCbs s' = []
  /\ isFlushing s' = false /\ currentFlushPromise s' = false
  /\ isFlushPending s' = false /\ flushIndex s' = 0
  /\ (activePostFlushCbs s = None -> activePostFlushCbs s' = None).
Proof.
  induction fuel as [|fuel IH]; intros seen s seen' s'; [discriminate|].
  cbn [flushJobs]. cbv zeta.
  match goal with
  | |- match drainLoop DEV fuel seen ?x with _ => _ end = _ -> _ =>
      set (d0 := x);
      destruct (drainLoop DEV fuel seen d0) as [[seen1 s3]|] eqn:Ed;
        [|discriminate]
  end.
  pose proof (drainLoop_Frame DEV _ _ _ _ _ Ed) as F1.
  match goal with
  | |- match flushPostFlushCbs DEV (exec DEV fuel) fuel seen1 ?x with _ => _ end
       = _ -> _ =>
      set (s4 := x);
      destruct (flushPostFlushCbs DEV (exec DEV fuel) fuel seen1 s4)
        as [[seen2 s5]|] eqn:Ep; [|discriminate]
  end.
  pose proof (flushPostFlushCbs_Frame DEV (exec DEV fuel) (exec_Frame DEV fuel)
                _ _ _ _ _ Ep) as F2.
  set (s6 := setCurrentFlushPromise (setIsFlushing s5 false) false).
  destruct F1 as [Hj1 Hf1 _ Hp1 Ha1 [n1 [Hr1 Ho1]] _].
  destruct F2 as [Hj2 Hf2 Hi2 Hp2 Ha2 [n2 [Hr2 Ho2]] _].
  assert (E4 : jobs s4 = jobs s3 /\ ran s4 = ran s3
               /\ isFlushing s4 = isFlushing s3
               /\ isFlushPending s4 = isFlushPending s3
               /\ activePostFlushCbs s4 = activePostFlushCbs s3
               /\ flushIndex s4 = 0) by (repeat split; reflexivity).
  destruct E4 as (Ej4 & Er4 & Ef4 & Ep4 & Ea4 & Ei4).
  assert (E0 : jobs d0 = jobs s /\ ran d0 = ran s /\ isFlushing d0 = true
               /\ isFlushPending d0 = false
               /\ activePostFlushCbs d0 = activePostFlushCbs s)
    by (repeat split; reflexivity).
  destruct E0 as (Ej0 & Er0 & Ef0 & Ep0 & Ea0).
  assert (E6 : jobs s6 = jobs s5 /\ ran s6 = ran s5
               /\ isFlushPending s6 = isFlushPending s5
               /\ activePostFlushCbs s6 = activePostFlushCbs s5
               /\ flushIndex s6 = flushIndex s5
               /\ isFlushing s6 = false /\ currentFlushPromise s6 = false)
    by (repeat split; reflexivity).
  destruct E6 as (Ej6 & Er6 & Ep6 & Ea6 & Ei6 & Ef6 & Ec6).
  clearbody s6 s4 d0.
  assert (Hjobs : jobs s6 = jobs s) by congruence.
  assert (Hran : exists new, ran s6 = ran s ++ new
                             /\ Forall (okEvent (jobs s)) new).
  { exists (n1 ++ n2). split.
    - rewrite Er6, Hr2, Er4, Hr1, Er0. now rewrite app_assoc.
    - apply Forall_app. split; [now rewrite <- Ej0|].
      now rewrite <- Ej0, <- Hj1, <- Ej4. }
  assert (Hfl3 : isFlushing s3 = true) by congruence.
  assert (Hpend : isFlushPending s6 = false).
  { rewrite Ep6. destruct (Hp2 ltac:(congruence)) as [-> _].
    rewrite Ep4. destruct (Hp1 Ef0) as [-> _]. exact Ep0. }
  assert (Hidx : flushIndex s6 = 0) by (rewrite Ei6, (Hi2 eq_refl); exact Ei4).
  assert (Hact : activePostFlushCbs s = None -> activePostFlushCbs s6 = None).
  { intros Hn. rewrite Ea6. apply (Ha2 eq_refl). rewrite Ea4.
    apply (Ha1 eq_refl). now rewrite Ea0. }
  destruct (queue s6) as [|j0 q0] eqn:Eq.
  - destruct (pendingPostFlushCbs s6) as [|c0 p0] eqn:Epd.
    + intros [= _ <-]. repeat (split; [assumption || reflexivity|]). exact Hact.
    + intros Hx. apply IH in Hx.
      destruct Hx as (Hj & [n3 [Hr3 Ho3]] & Hq & Hpp & Hf & Hc & Hp & Hi & Ha).
      split; [congruence|]. split.
      * destruct Hran as [n0 [Hr0 Ho0]]. exists (n0 ++ n3).
        split; [rewrite Hr3, Hr0; now rewrite app_assoc|].
        apply Forall_app. split; [exact Ho0 | now rewrite <- Hjobs].
      * repeat (split; [assumption|]). auto.
  - intros Hx. apply IH in Hx.
    destruct Hx as (Hj & [n3 [Hr3 Ho3]] & Hq & Hpp & Hf & Hc & Hp & Hi & Ha).
    split; [congruence|]. split.
    + destruct Hran as [n0 [Hr0 Ho0]]. exists (n0 ++ n3).
      split; [rewrite Hr3, Hr0; now rewrite app_assoc|].
      apply Forall_app. split; [exact Ho0 | now rewrite <- Hjobs].
    + repeat (split; [assumption|]). auto.
Qed.

(** X18: when [flushJobs] returns, whatever the jobs and callbacks did
    (queueing, invalidating, flushing from inside), nothing is left to
    run and the scheduler is idle again: both queues are empty,
    [isFlushing] and [isFlushPending] are false, [flushIndex] is 0,
    [currentFlushPromise] is cleared and no post-flush list is active. *)
Theorem flushJobs_leaves_idle DEV fuel seen s seen' s' :
  activePostFlushCbs s = None ->
  flushJobs DEV fuel seen s = Some (seen', s') ->
  queue s' = [] /\ pendingPostFlushCbs s' = []
  /\ isFlushing s' = false /\ isFlushPending s' = false
  /\ flushIndex s' = 0 /\ currentFlushPromise s' = false
  /\ activePostFlushCbs s' = None.
Proof.
  intros Hact Hx. apply flushJobs_facts in Hx.
  destruct Hx as (_ & _ & Hq & Hpp & Hf & Hc & Hp & Hi & Ha).
  repeat (split; [assumption|]). auto.
Qed.

Lemma flushJobs_leaves_idle_witness :
  exists seen' s',
    flushJobs true 20 [] (queueJob 2 (queueJob 1 (initialState disabledJobs)))
    = Some (seen', s')
    /\ queue s' = [] /\ pendingPostFlushCbs s' = []
    /\ isFlushing s' = false /\ isFlushPending s' = false
    /\ flushIndex s' = 0 /\ currentFlushPromise s' = false
    /\ activePostFlushCbs s' = None.
Proof.
  destruct (flushJobs true 20 []
              (queueJob 2 (queueJob 1 (initialState disabledJobs))))
    as [[seen' s']|] eqn:E; [|vm_compute in E; discriminate E].
  exists seen', s'. split; [reflexivity|].
  exact (flushJobs_leaves_idle true 20 []
           (queueJob 2 (queueJob 1 (initialState disabledJobs)))
           seen' s' eq_refl E).
Defined.



(** X20: queued work is never left without a flush.  From a state in
    which no flush is running and nothing waits unscheduled, after any
    sequence of [queueJob], [invalidateJob], [queuePostFlushCb],
    [flushPreFlushCbs] and [flushPostFlushCbs] calls (with all that the
    callbacks they run do), either both queues are empty or a flush has
    been requested ([isFlushPending]). *)
Theorem queued_work_is_scheduled DEV fuel s ops s' :
  isFlushing s = false -> Scheduled s ->
  exec DEV fuel s ops = Some s' ->
  (queue s' = [] /\ pendingPostFlushCbs s' = []) \/ isFlushPending s' = true.
Proof.
  intros Hf Hs Hx. apply exec_Frame in Hx.
  destruct (f_scheduled _ _ _ _ Hx Hs) as [H|[H|H]]; auto.
  rewrite (f_flushing _ _ _ _ Hx), Hf in H. discriminate.
Qed.

Lemma queued_work_is_scheduled_witness :
  exists s',
    exec true 20 (initialState disabledJobs)
         [JQueueJob 1; JInvalidateJob 1; JQueuePostFlushCb 4; JFlushPostFlushCbs;
          JQueueJob 2; JFlushPreFlushCbs]
    = Some s'
    /\ ((queue s' = [] /\ pendingPostFlushCbs s' = [])
        \/ isFlushPending s' = true).
Proof.
  destruct (exec true 20 (initialState disabledJobs)
              [JQueueJob 1; JInvalidateJob 1; JQueuePostFlushCb 4;
               JFlushPostFlushCbs; JQueueJob 2; JFlushPreFlushCbs])
    as [s'|] eqn:E; [|vm_compute in E; discriminate E].
  exists s'. split; [reflexivity|].
  apply (queued_work_is_scheduled true 20 (initialState disabledJobs)
           [JQueueJob 1; JInvalidateJob 1; JQueuePostFlushCb 4;
            JFlushPostFlushCbs; JQueueJob 2; JFlushPreFlushCbs] s');
    [reflexivity | left; split; reflexivity | exact E].
Defined.

(** ** The post-flush callbacks *)

Lemma postPass_inertPass DEV cbs : forall seen,
  postPass DEV seen cbs
  = inertPass DEV (fun _ => mkJob None false None false false []) seen cbs.
Proof.
  induction cbs as [|cb rest IH]; intros seen; simpl; [reflexivity|].
  destruct (check DEV seen cb) as [[|] seen']; rewrite IH; reflexivity.
Qed.

Lemma postLoop_inert DEV execF :
  (forall s, execF s [] = Some s) ->
  forall k fuel seen s act,
  activePostFlushCbs s = Some act ->
  (forall cb, In cb act -> body (jobs s cb) = []) ->
  length act - postFlushIndex s = k ->
  postFlushIndex s <= length act ->
  k + 1 <= fuel ->
  postLoop DEV execF fuel seen s
  = Some (fst (postPass DEV seen (skipn (postFlushIndex s) act)),
          mkState (jobs s) (isFlushing s) (isFlushPending s) (queue s)
                  (flushIndex s) (pendingPostFlushCbs s) (Some act)
                  (length act) (currentFlushPromise s)
                  (ran s ++ map EvPost
                     (snd (postPass DEV seen (skipn (postFlushIndex s) act))))).
Proof.
  intros Hnil.
  induction k as [|k IH]; intros fuel seen s act Hact Hinert Hk Hle Hfuel.
  - destruct fuel as [|f]; [lia|]. simpl. rewrite Hact.
    assert (Hi : postFlushIndex s = length act) by lia.
    rewrite Hi, Nat.ltb_irrefl, skipn_all. simpl.
    destruct s; simpl in *. subst. now rewrite app_nil_r.
  - destruct fuel as [|f]; [lia|]. simpl. rewrite Hact.
    assert (Hlt : postFlushIndex s < length act) by lia.
    apply Nat.ltb_lt in Hlt as Hltb. rewrite Hltb.
    destruct (nth_error act (postFlushIndex s)) as [cb|] eqn:En;
      [|apply nth_error_None in En; lia].
    rewrite (skipn_nth_error _ _ _ En).
    remember (skipn (S (postFlushIndex s)) act) as rest eqn:Hrest.
    cbn [postPass].
    assert (Hbody : body (jobs s cb) = []).
    { apply Hinert. eapply nth_error_In. exact En. }
    destruct (check DEV seen cb) as [[|] seen'].
    + rewrite (IH f seen' (setPostFlushIndex s (postFlushIndex s + 1)) act);
        simpl; auto; try lia.
      replace (postFlushIndex s + 1) with (S (postFlushIndex s)) by lia.
      rewrite <- Hrest. reflexivity.
    + rewrite Hbody, Hnil.
      rewrite (IH f seen' (setPostFlushIndex (emit (EvPost cb) s)
                             (postFlushIndex (emit (EvPost cb) s) + 1)) act);
        simpl; auto; try lia.
      replace (postFlushIndex s + 1) with (S (postFlushIndex s)) by lia.
      rewrite <- Hrest.
      destruct (postPass DEV seen' rest) as [seen'' invoked]. simpl.
      now rewrite <- app_assoc.
Qed.

Lemma idLe_of_difference jobsOf a b :
  isNegative (num_sub (getId (jobsOf b)) (getId (jobsOf a))) = false ->
  idLe jobsOf a b.
Proof.
  unfold idLe, getId, isNegative.
  destruct (id (jobsOf a)) as [x|], (id (jobsOf b)) as [y|]; simpl; auto.
  intros H. apply Z.ltb_ge. apply Z.ltb_ge in H. lia.
Qed.

Lemma postOrder_perm jobsOf cbs : Permutation (postOrder jobsOf cbs) cbs.
Proof. apply sortWith_perm. Qed.

Lemma postOrder_sorted jobsOf cbs :
  StronglySorted (idLe jobsOf) (postOrder jobsOf cbs).
Proof.
  eapply StronglySorted_weaken; [|apply sortWith_sorted].
  - intros a b H. apply idLe_of_difference. exact H.
  - intros a b. unfold getId, isNegative.
    destruct (id (jobsOf a)) as [x|], (id (jobsOf b)) as [y|]; simpl; auto.
    rewrite !Z.ltb_lt, Z.ltb_ge. lia.
  - intros a b c. unfold getId, isNegative.
    destruct (id (jobsOf a)) as [x|], (id (jobsOf b)) as [y|],
      (id (jobsOf c)) as [z|]; simpl; auto; try discriminate.
    rewrite !Z.ltb_ge. lia.
Qed.

(** X21: [flushPostFlushCbs] with no post flush in progress and pending
    callbacks that call nothing returns; the callbacks it invokes are
    pending ones, each invoked once however often it was queued, in the
    order of their ids (those without an id last); in a production build
    every pending callback is invoked.  Afterwards nothing is pending and
    no list of callbacks is active. *)
Theorem flushPostFlushCbs_runs_each_once DEV f fuel seen s :
  activePostFlushCbs s = None ->
  (forall cb, In cb (pendingPostFlushCbs s) -> body (jobs s cb) = []) ->
  length (dedup (pendingPostFlushCbs s)) < fuel ->
  exists seen' s' invoked,
    flushPostFlushCbs DEV (exec DEV (S f)) fuel seen s = Some (seen', s')
    /\ ran s' = ran s ++ map EvPost invoked
    /\ NoDup invoked
    /\ StronglySorted (idLe (jobs s)) invoked
    /\ (forall cb, In cb invoked -> In cb (pendingPostFlushCbs s))
    /\ (DEV = false ->
        forall cb, In cb (pendingPostFlushCbs s) -> In cb invoked)
    /\ pendingPostFlushCbs s' = [] /\ activePostFlushCbs s' = None
    /\ queue s' = queue s /\ flushIndex s' = flushIndex s.
Proof.
  intros Hact Hinert Hfuel. unfold flushPostFlushCbs.
  destruct (pendingPostFlushCbs s) as [|cb0 rest0] eqn:Ep.
  - exists seen, s, []. simpl. rewrite app_nil_r.
    repeat split; auto; try constructor; try tauto.
  - set (pending := cb0 :: rest0) in *.
    cbn [setPendingPostFlushCbs activePostFlushCbs jobs]. rewrite Hact.
    fold (postOrder (jobs s) (dedup pending)).
    set (sorted := postOrder (jobs s) (dedup pending)).
    assert (Hperm : Permutation sorted (dedup pending))
      by apply postOrder_perm.
    assert (Hin : forall cb, In cb sorted <-> In cb pending).
    { intros cb. split; intros H.
      - apply Effect.dedup_In. eapply Permutation_in; [exact Hperm | exact H].
      - eapply Permutation_in; [symmetry; exact Hperm|].
        apply Effect.dedup_In. exact H. }
    rewrite (postLoop_inert DEV (exec DEV (S f)) (exec_nil DEV f)
               (length sorted) fuel seen _ sorted); simpl;
      try reflexivity; try lia.
    + exists (fst (postPass DEV seen sorted)). eexists.
      exists (snd (postPass DEV seen sorted)).
      split; [reflexivity|]. simpl. rewrite postPass_inertPass.
      split; [reflexivity|]. split; [|split; [|split; [|split]]].
      * apply inertPass_NoDup.
        eapply Permutation_NoDup; [symmetry; exact Hperm|].
        apply Effect.dedupInto_NoDup. constructor.
      * apply inertPass_sorted. apply postOrder_sorted.
      * intros cb Hcb. apply (proj1 (Hin cb)). eapply inertPass_In. exact Hcb.
      * intros -> cb Hcb. rewrite inertPass_production. simpl.
        apply filter_In. split; [exact (proj2 (Hin cb) Hcb) | reflexivity].
      * repeat split.
    + intros cb Hcb. apply Hinert. exact (proj1 (Hin cb) Hcb).
    + rewrite (Permutation_length Hperm), Nat.add_1_r. exact Hfuel.
Qed.

Lemma flushPostFlushCbs_runs_each_once_witness :
  exists seen' s',
    flushPostFlushCbs true (exec true 1) 5 []
      (queuePostFlushCbs [1; 3; 1; 2] (initialState demoJobs))
    = Some (seen', s')
    /\ ran s' = [EvPost 3; EvPost 2; EvPost 1].
Proof.
  destruct (flushPostFlushCbs_runs_each_once true 0 5 []
              (queuePostFlushCbs [1; 3; 1; 2] (initialState demoJobs)))
    as (seen' & s' & invoked & Hf & _).
  - reflexivity.
  - intros cb _. destruct cb as [|[|[|[|cb]]]]; reflexivity.
  - vm_compute. lia.
  - exists seen', s'. split; [exact Hf|].
    vm_compute in Hf. injection Hf as _ <-. reflexivity.
Defined.

(** ** The pre-flush jobs *)

Lemma splice_remove_middle (front : list JobId) cb rest :
  splice_remove (length front) (front ++ cb :: rest) = front ++ rest.
Proof.
  unfold splice_remove. induction front as [|x front IH]; simpl.
  - reflexivity.
  - f_equal. exact IH.
Qed.

Lemma nth_error_middle (front : list JobId) cb rest :
  nth_error (front ++ cb :: rest) (length front) = Some cb.
Proof. induction front as [|x front IH]; simpl; [reflexivity | exact IH]. Qed.

Lemma preLoop_inert DEV execF :
  (forall s, execF s [] = Some s) ->
  forall tail fuel seen s front,
  queue s = front ++ tail ->
  (forall cb, In cb tail -> pre (jobs s cb) = true -> body (jobs s cb) = []) ->
  length tail < fuel ->
  preLoop DEV execF fuel seen (length front) s
  = Some (fst (fst (prePass DEV (jobs s) seen tail)),
          mkState (jobs s) (isFlushing s) (isFlushPending s)
                  (front ++ snd (prePass DEV (jobs s) seen tail))
                  (flushIndex s) (pendingPostFlushCbs s) (activePostFlushCbs s)
                  (postFlushIndex s) (currentFlushPromise s)
                  (ran s ++ map EvPre
                     (snd (fst (prePass DEV (jobs s) seen tail))))).
Proof.
  intros Hnil.
  induction tail as [|cb rest IH]; intros fuel seen s front Hq Hinert Hfuel.
  - destruct fuel as [|f]; [simpl in Hfuel; lia|]. simpl.
    rewrite Hq, app_nil_r, Nat.ltb_irrefl.
    destruct s; simpl in *. subst. now rewrite !app_nil_r.
  - destruct fuel as [|f]; [simpl in Hfuel; lia|]. cbn [preLoop].
    assert (Hlt : (length front <? length (queue s)) = true).
    { apply Nat.ltb_lt. rewrite Hq, length_app. simpl. lia. }
    rewrite Hlt, Hq, nth_error_middle. cbn [prePass].
    assert (Hskip : forall sn,
              preLoop DEV execF f sn (length front + 1) s
              = Some (fst (fst (prePass DEV (jobs s) sn rest)),
                      mkState (jobs s) (isFlushing s) (isFlushPending s)
                        (front ++ cb :: snd (prePass DEV (jobs s) sn rest))
                        (flushIndex s) (pendingPostFlushCbs s)
                        (activePostFlushCbs s) (postFlushIndex s)
                        (currentFlushPromise s)
                        (ran s ++ map EvPre
                           (snd (fst (prePass DEV (jobs s) sn rest)))))).
    { intros sn.
      replace (length front + 1) with (length (front ++ [cb]))
        by (rewrite length_app; reflexivity).
      rewrite (IH f sn s (front ++ [cb])).
      - rewrite <- app_assoc. reflexivity.
      - rewrite Hq, <- app_assoc. reflexivity.
      - intros x Hx. apply Hinert. now right.
      - simpl in Hfuel. lia. }
    destruct (pre (jobs s cb)) eqn:Epre.
    + destruct (check DEV seen cb) as [[|] seen'].
      * rewrite Hskip.
        destruct (prePass DEV (jobs s) seen' rest) as [[sn inv] kept].
        reflexivity.
      * rewrite splice_remove_middle.
        cbn [jobs setQueue]. rewrite (Hinert cb (or_introl eq_refl) Epre), Hnil.
        rewrite (IH f seen' _ front); cbn [jobs setQueue emit queue];
          [| reflexivity | intros x Hx; apply Hinert; now right
           | simpl in Hfuel; lia].
        destruct (prePass DEV (jobs s) seen' rest) as [[sn inv] kept].
        simpl. now rewrite <- app_assoc.
    + rewrite Hskip.
      destruct (prePass DEV (jobs s) seen rest) as [[sn inv] kept].
      reflexivity.
Qed.

Lemma prePass_production jobsOf js : forall seen,
  prePass false jobsOf seen js
  = (seen, filter (fun j => pre (jobsOf j)) js,
     filter (fun j => negb (pre (jobsOf j))) js).
Proof.
  induction js as [|cb rest IH]; intros seen; simpl; [reflexivity|].
  destruct (pre (jobsOf cb)); simpl; rewrite IH; reflexivity.
Qed.

Lemma prePass_split DEV jobsOf js : forall seen,
  Permutation (snd (fst (prePass DEV jobsOf seen js))
               ++ snd (prePass DEV jobsOf seen js)) js
  /\ Forall (fun cb => pre (jobsOf cb) = true)
            (snd (fst (prePass DEV jobsOf seen js)))
  /\ filter (fun j => negb (pre (jobsOf j))) (snd (prePass DEV jobsOf seen js))
     = filter (fun j => negb (pre (jobsOf j))) js.
Proof.
  induction js as [|cb rest IH]; intros seen; simpl.
  - repeat split; constructor.
  - destruct (pre (jobsOf cb)) eqn:Epre.
    + destruct (check DEV seen cb) as [[|] seen'];
        destruct (IH seen') as [Hp [Hf Hk]];
        destruct (prePass DEV jobsOf seen' rest) as [[sn inv] kept];
        simpl in *; rewrite ?Epre; simpl.
      * split; [|split; assumption].
        apply Permutation_sym, Permutation_cons_app. now symmetry.
      * split; [now constructor|]. split; [now constructor | assumption].
    + destruct (IH seen) as [Hp [Hf Hk]].
      destruct (prePass DEV jobsOf seen rest) as [[sn inv] kept].
      simpl in *. rewrite Epre. simpl. split; [|split].
      * apply Permutation_sym, Permutation_cons_app. now symmetry.
      * assumption.
      * now f_equal.
Qed.

(** X22: [flushPreFlushCbs], called without an index and with pre jobs
    that call nothing, returns.  It walks the queue from the job after the
    running one (from the start of the queue outside a flush): the pre jobs
    it invokes are invoked in queue order and removed from the queue, every
    other job stays where it is, and the queue before the starting point is
    untouched.  In a production build it invokes every pre job of the part
    it walks and leaves exactly the jobs that are not pre jobs. *)
Theorem flushPreFlushCbs_runs_pre_jobs DEV f fuel seen s :
  (forall cb, In cb (skipn (preStart s) (queue s)) ->
              pre (jobs s cb) = true -> body (jobs s cb) = []) ->
  length (queue s) < fuel ->
  exists seen' s' invoked kept,
    flushPreFlushCbs DEV (exec DEV (S f)) fuel seen s = Some (seen', s')
    /\ ran s' = ran s ++ map EvPre invoked
    /\ queue s' = firstn (preStart s) (queue s) ++ kept
    /\ Forall (fun cb => pre (jobs s cb) = true) invoked
    /\ Permutation (invoked ++ kept) (skipn (preStart s) (queue s))
    /\ filter (fun j => negb (pre (jobs s j))) kept
       = filter (fun j => negb (pre (jobs s j))) (skipn (preStart s) (queue s))
    /\ (DEV = false ->
        invoked = filter (fun j => pre (jobs s j)) (skipn (preStart s) (queue s))
        /\ kept = filter (fun j => negb (pre (jobs s j)))
                         (skipn (preStart s) (queue s)))
    /\ flushIndex s' = flushIndex s /\ isFlushing s' = isFlushing s
    /\ pendingPostFlushCbs s' = pendingPostFlushCbs s.
Proof.
  intros Hinert Hfuel.
  change (flushPreFlushCbs DEV (exec DEV (S f)) fuel seen s)
    with (preLoop DEV (exec DEV (S f)) fuel seen (preStart s) s).
  set (start := preStart s) in *.
  destruct (Nat.le_gt_cases start (length (queue s))) as [Hle|Hgt].
  - set (tail := skipn start (queue s)) in *.
    pose proof (prePass_split DEV (jobs s) tail seen) as [Hp [Hf Hk]].
    exists (fst (fst (prePass DEV (jobs s) seen tail))). eexists.
    exists (snd (fst (prePass DEV (jobs s) seen tail))),
           (snd (prePass DEV (jobs s) seen tail)).
    split.
    { rewrite <- (firstn_length_le (queue s) Hle) at 1.
      apply (preLoop_inert DEV (exec DEV (S f)) (exec_nil DEV f) tail).
      - symmetry. apply firstn_skipn.
      - exact Hinert.
      - unfold tail. rewrite length_skipn. lia. }
    simpl. repeat (split; [first [reflexivity | assumption]|]).
    split; [|repeat split].
    intros ->. rewrite prePass_production. split; reflexivity.
  - exists seen, s, [], [].
    destruct fuel as [|fuel']; [lia|]. cbn [preLoop].
    assert (Hnlt : (start <? length (queue s)) = false)
      by (apply Nat.ltb_ge; lia).
    rewrite Hnlt, firstn_all2, skipn_all2 by lia. simpl.
    rewrite !app_nil_r. repeat split; constructor.
Qed.

Lemma flushPreFlushCbs_runs_pre_jobs_witness :
  exists seen' s',
    flushPreFlushCbs true (exec true 1) 5 []
      (queueJob 4 (queueJob 2 (queueJob 1 (initialState preJobs))))
    = Some (seen', s')
    /\ ran s' = [EvPre 4; EvPre 2] /\ queue s' = [1].
Proof.
  destruct (flushPreFlushCbs_runs_pre_jobs true 0 5 []
              (queueJob 4 (queueJob 2 (queueJob 1 (initialState preJobs)))))
    as (seen' & s' & invoked & kept & Hf & _).
  - intros cb Hcb. destruct Hcb as [<-|[<-|[<-|[]]]]; intros H;
      first [reflexivity | discriminate H].
  - vm_compute. lia.
  - exists seen', s'. split; [exact Hf|].
    vm_compute in Hf. injection Hf as _ <-. split; reflexivity.
Defined.

(** ** Jobs without an id *)

Lemma insertSorted_last (negative : JobId -> JobId -> bool) x l :
  (forall y, negative x y = false) -> insertSorted negative x l = l ++ [x].
Proof.
  intros Hx. induction l as [|y rest IH]; simpl; [reflexivity|].
  rewrite Hx. now f_equal.
Qed.

Lemma insertSorted_filter_out (negative : JobId -> JobId -> bool) p x l :
  p x = false -> filter p (insertSorted negative x l) = filter p l.
Proof.
  intros Hx. induction l as [|y rest IH]; simpl.
  - now rewrite Hx.
  - destruct (negative x y); simpl.
    + now rewrite Hx.
    + now rewrite IH.
Qed.

(** Sorting does not reorder the elements that are never strictly before
    another one. *)
Lemma sortWith_stable (negative : JobId -> JobId -> bool) (p : JobId -> bool) :
  (forall x y, p x = true -> negative x y = false) ->
  forall l, filter p (sortWith negative l) = filter p l.
Proof.
  intros Hp.
  assert (Hgen : forall l acc,
            filter p (fold_left (fun a x => insertSorted negative x a) l acc)
            = filter p acc ++ filter p l).
  { induction l as [|x rest IH]; intros acc; simpl.
    - now rewrite app_nil_r.
    - rewrite IH. destruct (p x) eqn:Ex.
      + rewrite insertSorted_last by (intros y; now apply Hp).
        rewrite filter_app. simpl. rewrite Ex. now rewrite <- app_assoc.
      + now rewrite insertSorted_filter_out. }
  intros l. unfold sortWith. now rewrite Hgen.
Qed.

Lemma sorted_ids_first jobsOf l :
  StronglySorted (notAfter jobsOf) l ->
  l = filter (fun j => negb (noId jobsOf j)) l ++ filter (noId jobsOf) l.
Proof.
  induction 1 as [|a rest Hs IH Hall]; simpl; [reflexivity|].
  destruct (noId jobsOf a) eqn:Ea; simpl.
  - assert (Hrest : Forall (fun b => noId jobsOf b = true) rest).
    { eapply Forall_impl; [|exact Hall]. intros b Hb.
      unfold notAfter, strictlyBefore, noId in *.
      destruct (id (jobsOf a)); [discriminate Ea|].
      destruct (id (jobsOf b)); [discriminate Hb | reflexivity]. }
    assert (Hnone : filter (fun j => negb (noId jobsOf j)) rest = []).
    { clear -Hrest. induction Hrest as [|b rest Hb _ IH]; simpl; [reflexivity|].
      now rewrite Hb. }
    assert (Hall' : filter (noId jobsOf) rest = rest).
    { clear -Hrest. induction Hrest as [|b rest Hb _ IH]; simpl; [reflexivity|].
      rewrite Hb. now f_equal. }
    now rewrite Hnone, Hall'.
  - now f_equal.
Qed.

Lemma filter_comm {A : Type} (p q : A -> bool) (l : list A) :
  filter p (filter q l) = filter q (filter p l).
Proof.
  induction l as [|x rest IH]; simpl; [reflexivity|].
  destruct (p x) eqn:Ep, (q x) eqn:Eq; simpl; rewrite ?Ep, ?Eq, IH; reflexivity.
Qed.

(** X23: in a [flushJobs] pass over jobs that call nothing, with no post
    callback pending, the jobs without an id are invoked after all the jobs
    that have one, and in a production build the jobs without an id that
    are not disabled are invoked in the order in which they stand in the
    queue. *)
Theorem jobs_without_id_run_last DEV fuel seen s :
  (forall j, In j (queue s) -> body (jobs s j) = []) ->
  pendingPostFlushCbs s = [] ->
  length (queue s) + 2 <= fuel ->
  exists seen' s' invoked,
    flushJobs DEV fuel seen s = Some (seen', s')
    /\ ran s' = ran s ++ map EvJob invoked
    /\ invoked = filter (fun j => negb (noId (jobs s) j)) invoked
                 ++ filter (noId (jobs s)) invoked
    /\ (DEV = false ->
        filter (noId (jobs s)) invoked
        = filter (fun j => runnable (jobs s j))
                 (filter (noId (jobs s)) (queue s))).
Proof.
  intros Hinert Hpending Hfuel.
  pose proof (flushJobs_inert DEV fuel seen s Hinert Hpending Hfuel) as Hf.
  cbv zeta in Hf.
  set (sorted := sortWith (fun a b => isNegative (comparator (jobs s a) (jobs s b)))
                          (queue s)) in *.
  exists (fst (inertPass DEV (jobs s) seen sorted)),
         (afterFlush s (snd (inertPass DEV (jobs s) seen sorted))),
         (snd (inertPass DEV (jobs s) seen sorted)).
  split; [exact Hf|]. split; [reflexivity|]. split.
  - apply sorted_ids_first. apply inertPass_sorted. apply sort_queue_sorted.
  - intros ->. rewrite inertPass_production. simpl.
    rewrite filter_comm. f_equal. subst sorted. apply sortWith_stable.
    intros x y Hx. rewrite comparator_negative.
    unfold noId in Hx. unfold strictlyBefore.
    destruct (id (jobs s x)); [discriminate Hx | reflexivity].
Qed.

Lemma jobs_without_id_run_last_witness :
  exists seen' s',
    flushJobs false 6 []
      (queueJob 3 (queueJob 0 (queueJob 1 (queueJob 4 (initialState demoJobs)))))
    = Some (seen', s')
    /\ ran s' = [EvJob 3; EvJob 1; EvJob 4; EvJob 0].
Proof.
  destruct (jobs_without_id_run_last false 6 []
              (queueJob 3 (queueJob 0 (queueJob 1 (queueJob 4
                 (initialState demoJobs))))))
    as (seen' & s' & invoked & Hf & _).
  - intros j Hj. destruct j as [|[|[|[|j]]]]; reflexivity.
  - reflexivity.
  - vm_compute. lia.
  - exists seen', s'. split; [exact Hf|].
    vm_compute in Hf. injection Hf as _ <-. reflexivity.
Defined.

(** ** A job that queues itself again each time it runs *)

Lemma queueJob_during_own_run J j P k pend A PI C R :
  allowRecurse (J j) = true ->
  queueJob j (mkState J true P (repeat j (k + 1)) k pend A PI C R)
  = mkState J true P (repeat j (k + 2)) k pend A PI C R.
Proof.
  intros Hrec.
  assert (Hq : repeat j (k + 2) = repeat j (k + 1) ++ [j]).
  { replace (k + 2) with (S (k + 1)) by lia. simpl. apply repeat_cons. }
  unfold queueJob, dedupStart, includes.
  cbn [queue isFlushing jobs flushIndex]. rewrite Hrec.
  cbn [andb]. rewrite skipn_all2 by (rewrite repeat_length; lia).
  cbn [existsb negb]. rewrite orb_true_r.
  unfold queueFlush.
  destruct (id (J j)) as [i|]; cbn [setQueue isFlushing negb andb queue].
  - unfold findInsertionIndex, splice_insert. cbn [queue flushIndex jobs].
    rewrite searchLoop_empty_range by (rewrite repeat_length; lia).
    rewrite firstn_all2, skipn_all2 by (rewrite repeat_length; lia).
    now rewrite Hq.
  - now rewrite Hq.
Qed.

(** In a production build the drain never gets past such a job. *)
Lemma drainLoop_recursive_production J j P pend A PI C :
  allowRecurse (J j) = true -> body (J j) = [JQueueJob j] ->
  runnable (J j) = true ->
  forall fuel seen k R,
    drainLoop false fuel seen
      (mkState J true P (repeat j (k + 1)) k pend A PI C R) = None.
Proof.
  intros Hrec Hbody Hrun.
  induction fuel as [|f IH]; intros seen k R; [reflexivity|].
  cbn [drainLoop queue flushIndex jobs].
  assert (Hlt : (k <? length (repeat j (k + 1))) = true)
    by (apply Nat.ltb_lt; rewrite repeat_length; lia).
  assert (Hnth : nth_error (repeat j (k + 1)) k = Some j)
    by (apply nth_error_repeat; lia).
  rewrite Hlt, Hnth, Hbody.
  assert (Hgo : match exec false f
                        (emit (EvJob j)
                              (mkState J true P (repeat j (k + 1)) k pend A PI C R))
                        [JQueueJob j] with
                | Some s1 => drainLoop false f seen
                               (setFlushIndex s1 (flushIndex s1 + 1))
                | None => None
                end = None).
  { destruct f as [|[|f']]; [reflexivity | reflexivity |].
    unfold emit.
    cbn [exec step jobs isFlushing isFlushPending queue flushIndex
         pendingPostFlushCbs activePostFlushCbs postFlushIndex
         currentFlushPromise ran].
    rewrite (queueJob_during_own_run _ _ _ _ _ _ _ _ _ Hrec).
    unfold setFlushIndex.
    cbn [flushIndex jobs isFlushing isFlushPending queue
         pendingPostFlushCbs activePostFlushCbs postFlushIndex
         currentFlushPromise ran].
    replace (k + 2) with (k + 1 + 1) by lia.
    apply (IH seen (k + 1)). }
  unfold runnable in Hrun. unfold check.
  destruct (active (J j)) as [[|]|]; first [exact Hgo | discriminate Hrun].
Qed.

(** In a development build the recursion check stops it after
    [RECURSION_LIMIT + 1] runs. *)
Lemma drainLoop_recursive_dev J j P pend A PI C :
  allowRecurse (J j) = true -> body (J j) = [JQueueJob j] ->
  runnable (J j) = true ->
  forall m k fuel seen R,
    k + m = 101 ->
    alist_get Nat.eqb j seen = match k with 0 => None | _ => Some k end ->
    m + 2 <= fuel ->
    exists seen',
      drainLoop true fuel seen
        (mkState J true P (repeat j (k + 1)) k pend A PI C R)
      = Some (seen', mkState J true P (repeat j 102) 102 pend A PI C
                       (R ++ repeat (EvJob j) m)).
Proof.
  intros Hrec Hbody Hrun.
  induction m as [|m IH]; intros k fuel seen R Hk Hseen Hfuel.
  - assert (k = 101) by lia. subst k.
    destruct fuel as [|fuel']; [lia|].
    exists seen. cbn [drainLoop queue flushIndex jobs].
    assert (Hlt : (101 <? length (repeat j (101 + 1))) = true)
      by (apply Nat.ltb_lt; rewrite repeat_length; lia).
    assert (Hnth : nth_error (repeat j (101 + 1)) 101 = Some j)
      by (apply nth_error_repeat; lia).
    rewrite Hlt, Hnth. unfold check, checkRecursiveUpdates. rewrite Hseen.
    change (RECURSION_LIMIT <? 101) with true. cbv iota.
    assert (Hend : (101 + 1 <? length (repeat j (101 + 1))) = false)
      by (apply Nat.ltb_ge; rewrite repeat_length; lia).
    unfold setFlushIndex.
    cbn [flushIndex queue jobs isFlushing isFlushPending
         pendingPostFlushCbs activePostFlushCbs postFlushIndex
         currentFlushPromise ran].
    destruct fuel' as [|f]; [lia|]. cbn [drainLoop queue flushIndex].
    rewrite Hend. rewrite app_nil_r.
    unfold runnable in Hrun.
    destruct (active (J j)) as [[|]|]; first [reflexivity | discriminate Hrun].
  - destruct fuel as [|fuel']; [lia|].
    cbn [drainLoop queue flushIndex jobs].
    assert (Hlt : (k <? length (repeat j (k + 1))) = true)
      by (apply Nat.ltb_lt; rewrite repeat_length; lia).
    assert (Hnth : nth_error (repeat j (k + 1)) k = Some j)
      by (apply nth_error_repeat; lia).
    rewrite Hlt, Hnth, Hbody.
    assert (Hcheck : exists seen1,
               check true seen j = (false, seen1)
               /\ alist_get Nat.eqb j seen1 = Some (k + 1)).
    { unfold check, checkRecursiveUpdates. rewrite Hseen.
      destruct k as [|k'].
      - eexists. split; [reflexivity|].
        apply (Effect.alist_get_set_same Nat.eqb Nat.eqb_eq).
      - assert (Hle : (RECURSION_LIMIT <? S k') = false)
          by (apply Nat.ltb_ge; unfold RECURSION_LIMIT; lia).
        rewrite Hle. eexists. split; [reflexivity|].
        apply (Effect.alist_get_set_same Nat.eqb Nat.eqb_eq). }
    destruct Hcheck as [seen1 [Hc Hget]].
    destruct (IH (k + 1) fuel' seen1 (R ++ [EvJob j])) as [seen' Hd];
      [lia | | lia |].
    { rewrite Hget. destruct (k + 1) eqn:E; [lia | reflexivity]. }
    exists seen'. rewrite Hc.
    assert (Hex : exec true fuel'
                    (emit (EvJob j)
                       (mkState J true P (repeat j (k + 1)) k pend A PI C R))
                    [JQueueJob j]
                  = Some (mkState J true P (repeat j (k + 1 + 1)) k pend A PI C
                                  (R ++ [EvJob j]))).
    { destruct fuel' as [|[|f]]; [lia | lia |]. unfold emit.
      cbn [exec step jobs isFlushing isFlushPending queue flushIndex
           pendingPostFlushCbs activePostFlushCbs postFlushIndex
           currentFlushPromise ran].
      rewrite (queueJob_during_own_run _ _ _ _ _ _ _ _ _ Hrec).
      replace (k + 2) with (k + 1 + 1) by lia. reflexivity. }
    rewrite Hex.
    unfold setFlushIndex.
    cbn [flushIndex jobs isFlushing isFlushPending queue
         pendingPostFlushCbs activePostFlushCbs postFlushIndex
         currentFlushPromise ran].
    rewrite Hd. rewrite <- app_assoc.
    unfold runnable in Hrun.
    destruct (active (J j)) as [[|]|]; first [reflexivity | discriminate Hrun].
Qed.

(** X24: a flush of a queue that holds one job which may queue itself
    ([allowRecurse]) and does so each time it runs.  In a production build
    the flush does not return, whatever the fuel.  In a development build
    the recursion check stops the job after 101 runs, and the flush returns
    with an empty queue. *)
Theorem self_queueing_job_flush j s :
  allowRecurse (jobs s j) = true ->
  body (jobs s j) = [JQueueJob j] ->
  runnable (jobs s j) = true ->
  queue s = [j] ->
  pendingPostFlushCbs s = [] ->
  (forall fuel seen, flushJobs false fuel seen s = None)
  /\ (forall fuel, 104 <= fuel ->
      exists seen' s',
        flushJobs true fuel [] s = Some (seen', s')
        /\ ran s' = ran s ++ repeat (EvJob j) 101
        /\ queue s' = [] /\ isFlushing s' = false
        /\ isFlushPending s' = false).
Proof.
  intros Hrec Hbody Hrun Hq Hpend.
  destruct s as [J F P q fi pend A PI C R]. cbn in Hrec, Hbody, Hrun, Hq, Hpend.
  subst q pend. split.
  - intros fuel seen. destruct fuel as [|f]; [reflexivity|].
    cbn [flushJobs].
    unfold setIsFlushing, setIsFlushPending, setQueue, setFlushIndex.
    cbn [jobs isFlushing isFlushPending queue flushIndex pendingPostFlushCbs
         activePostFlushCbs postFlushIndex currentFlushPromise ran
         sortWith fold_left insertSorted].
    pose proof (drainLoop_recursive_production J j false [] A PI C
                  Hrec Hbody Hrun f seen 0 R) as Hd.
    cbn [repeat Nat.add] in Hd. rewrite Hd. reflexivity.
  - intros fuel Hfuel. destruct fuel as [|f]; [lia|].
    destruct (drainLoop_recursive_dev J j false [] A PI C Hrec Hbody Hrun
                101 0 f [] R) as [seen' Hd]; [reflexivity | reflexivity | lia |].
    exists seen'. eexists.
    cbn [flushJobs].
    unfold setIsFlushing, setIsFlushPending, setQueue, setFlushIndex.
    cbn [jobs isFlushing isFlushPending queue flushIndex pendingPostFlushCbs
         activePostFlushCbs postFlushIndex currentFlushPromise ran
         sortWith fold_left insertSorted].
    match goal with
    | |- context [drainLoop true f ?sn ?st] =>
        assert (Hd' : drainLoop true f sn st
                      = Some (seen', mkState J true false (repeat j 102) 102 []
                                       A PI C (R ++ repeat (EvJob j) 101)))
          by exact Hd;
        rewrite Hd'
    end.
    unfold flushPostFlushCbs, setCurrentFlushPromise.
    cbn [jobs isFlushing isFlushPending queue flushIndex pendingPostFlushCbs
         activePostFlushCbs postFlushIndex currentFlushPromise ran].
    split; [reflexivity|]. repeat split.
Qed.

Lemma self_queueing_job_flush_witness :
  (forall fuel seen,
      flushJobs false fuel seen (queueJob 0 (initialState recurseJobs)) = None)
  /\ exists seen' s',
       flushJobs true 104 [] (queueJob 0 (initialState recurseJobs))
       = Some (seen', s')
       /\ ran s' = repeat (EvJob 0) 101.
Proof.
  destruct (self_queueing_job_flush 0 (queueJob 0 (initialState recurseJobs)))
    as [Hprod Hdev]; try reflexivity.
  split; [exact Hprod|].
  destruct (Hdev 104 (le_n 104)) as (seen' & s' & Hf & Hran & _).
  exists seen', s'. split; [exact Hf | exact Hran].
Defined.

End Scheduler.

Module DeferredComputed.

(** ** Data model of deferredComputed.ts *)

Definition ComputedId := nat.

(** JavaScript values, as far as [!==] tells them apart. *)
Inductive Value :=
| VUndefined
| VNumber (z : Z)
| VNaN
| VString (text : string)
| VObject (ref : nat).

(** [a === b]; NaN is not equal to itself. *)
Definition strictEquals (a b : Value) : bool :=
  match a, b with
  | VUndefined, VUndefined => true
  | VNumber x, VNumber y => Z.eqb x y
  | VString x, VString y => String.eqb x y
  | VObject x, VObject y => Nat.eqb x y
  | _, _ => false
  end.

(** An effect subscribed to the dep of a computed: the effect of another
    deferred computed ([e.computed instanceof DeferredComputedRefImpl]) or
    any other effect. *)
Inductive Subscriber :=
| SubDeferred (c : ComputedId)
| SubOther (e : nat).

(** A [DeferredComputedRefImpl] with the variables its constructor closes
    over ([compareTarget], [hasCompareTarget], [scheduled]);
    [effect_active] is [this.effect.active]. *)
Record DeferredComputedRefImpl := mkComputed {
  dep : option (list Subscriber);
  _value : Value;
  _dirty : bool;
  effect_active : bool;
  compareTarget : Value;
  hasCompareTarget : bool;
  scheduled : bool
}.

(** The arrow function that the effect's scheduler hands to [scheduler]:
    it closes over [this] and [valueToCompare]. *)
Inductive Callback :=
| FlushCheck (c : ComputedId) (valueToCompare : Value).

Inductive Event :=
| TriggerRefValue (c : ComputedId)
| TickThenFlush.

(** The module-level [queue] and [queued], the computed objects, and the
    trace.  [getter c] is what [this.effect.run()] returns for [c] now: the
    getter is modelled by the value it computes from the upstream state. *)
Record State := mkState {
  computeds : ComputedId -> DeferredComputedRefImpl;
  getter : ComputedId -> Value;
  queue : list Callback;
  queued : bool;
  log : list Event
}.

Definition setComputed (s : State) (c : ComputedId) (r : DeferredComputedRefImpl)
  : State :=
  mkState (upd (computeds s) c r) (getter s) (queue s) (queued s) (log s).

Definition emit (ev : Event) (s : State) : State :=
  mkState (computeds s) (getter s) (queue s) (queued s) (log s ++ [ev]).

(** Modelled from the spec: [triggerRefValue] is in ref.ts, which is not
    among the sources; it notifies the effects in the computed's own dep.
    Here the call itself is what is recorded. *)
Definition triggerRefValue (c : ComputedId) (s : State) : State :=
  emit (TriggerRefValue c) s.

(** The module-level [scheduler(fn)]. *)
Definition scheduler (fn : Callback) (s : State) : State :=
  let s1 := mkState (computeds s) (getter s) (queue s ++ [fn]) (queued s) (log s) in
  if negb (queued s1)
  then emit TickThenFlush
         (mkState (computeds s1) (getter s1) (queue s1) true (log s1))
  else s1.

(** [_get()]: the value returned and the state after the call. *)
Definition _get (c : ComputedId) (s : State) : Value * State :=
  let r := computeds s c in
  if _dirty r then
    let v := getter s c in
    (v, setComputed s c
          (mkComputed (dep r) v false (effect_active r) (compareTarget r)
                      (hasCompareTarget r) (scheduled r)))
  else (_value r, s).

(** The callback at flush time. *)
Definition runCallback (cb : Callback) (s : State) : State :=
  match cb with
  | FlushCheck c valueToCompare =>
      let s1 :=
        if effect_active (computeds s c) then
          let '(v, s') := _get c s in
          if negb (strictEquals v valueToCompare) then triggerRefValue c s'
          else s'
        else s in
      let r := computeds s1 c in
      setComputed s1 c
        (mkComputed (dep r) (_value r) (_dirty r) (effect_active r)
                    (compareTarget r) (hasCompareTarget r) false)
  end.

(** [flush]: the loop re-reads [queue.length] at every step. *)
Fixpoint flushLoop (fuel : nat) (i : nat) (s : State) : option State :=
  match fuel with
  | 0 => None
  | S fuel' =>
      if i <? length (queue s) then
        match nth_error (queue s) i with
        | Some cb => flushLoop fuel' (i + 1) (runCallback cb s)
        | None => None
        end
      else Some s
  end.

Definition flush (fuel : nat) (s : State) : option State :=
  match flushLoop fuel 0 s with
  | Some s1 => Some (mkState (computeds s1) (getter s1) [] false (log s1))
  | None => None
  end.

Section Notify.

(** [e.scheduler!(true)] on a downstream deferred computed. *)
Variable notify : ComputedId -> State -> option State.

(** [for (const e of this.dep)]. *)
Fixpoint notifyDeferred (subs : list Subscriber) (s : State) : option State :=
  match subs with
  | [] => Some s
  | SubDeferred c' :: rest =>
      match notify c' s with
      | Some s' => notifyDeferred rest s'
      | None => None
      end
  | SubOther _ :: rest => notifyDeferred rest s
  end.

End Notify.

(** The scheduler of the backing effect, built in the constructor; it is
  called with [computedTrigger] (absent counts as false).  [None]: out
  of fuel along a chain of computeds. *)
Fixpoint effectScheduler (fuel : nat) (c : ComputedId) (computedTrigger : bool)
  (s : State) : option State :=
match fuel with
| 0 => None
| S fuel' =>
    let r := computeds s c in
    let after :=
      match dep r with
      | Some subs =>
          let s1 :=
            if computedTrigger then
              setComputed s c
                (mkComputed (dep r) (_value r) (_dirty r) (effect_active r)
                            (_value r) true (scheduled r))
            else if negb (scheduled r) then
              let valueToCompare :=
                if hasCompareTarget r then compareTarget r else _value r in
              scheduler (FlushCheck c valueToCompare)
                (setComputed s c
                   (mkComputed (dep r) (_value r) (_dirty r) (effect_active r)
                               (compareTarget r) false true))
            else s in
          notifyDeferred (fun c' => effectScheduler fuel' c' true) subs s1
      | None => Some s
      end in
    match after with
    | Some s2 =>
        let r2 := computeds s2 c in
        Some (setComputed s2 c
                (mkComputed (dep r2) (_value r2) true (effect_active r2)
                            (compareTarget r2) (hasCompareTarget r2)
                            (scheduled r2)))
    | None => None
    end
end.

(** A computed just built by [deferredComputed(getter)]. *)
Definition newComputed : DeferredComputedRefImpl :=
mkComputed None VUndefined true true VUndefined false false.

(** A computed read by one effect, holding 1, whose getter now gives 2. *)
Definition demoState : State :=
mkState
  (fun c => match c with
            | 0 => mkComputed (Some [SubOther 7]) (VNumber 1) false true
                              VUndefined false false
            | _ => newComputed
            end)
  (fun _ => VNumber 2) [] false [].

(** The scheduler of the effect of [c] called once for every entry of
    [cts], in order, with that entry as [computedTrigger]. *)
Fixpoint triggerTimes (fuel : nat) (c : ComputedId) (cts : list bool)
    (s : State) : option State :=
  match cts with
  | [] => Some s
  | ct :: rest =>
      match effectScheduler fuel c ct s with
      | Some s1 => triggerTimes fuel c rest s1
      | None => None
      end
  end.

(** What the schedulers of the effects never undo: the getters, the deps,
    the cached values and the effects' [active] flags stay as they are, a
    dirty computed stays dirty and a scheduled one stays scheduled. *)
Record Invalidates (s s' : State) : Prop := mkInvalidates {
  i_getter : getter s' = getter s;
  i_dep : forall c, dep (computeds s' c) = dep (computeds s c);
  i_value : forall c, _value (computeds s' c) = _value (computeds s c);
  i_active : forall c, effect_active (computeds s' c) = effect_active (computeds s c);
  i_dirty : forall c, _dirty (computeds s c) = true -> _dirty (computeds s' c) = true;
  i_scheduled : forall c, scheduled (computeds s c) = true ->
                          scheduled (computeds s' c) = true
}.

(** Nothing is enqueued, requested or notified, and no computed changes
    its [scheduled] flag. *)
Record Silent (s s' : State) : Prop := mkSilent {
  q_queue : queue s' = queue s;
  q_queued : queued s' = queued s;
  q_log : log s' = log s;
  q_scheduled : forall c, scheduled (computeds s' c) = scheduled (computeds s c)
}.

(** The computeds read one another without a cycle: a computed that reads
    another one has the smaller rank. *)
Definition Acyclic (rank : ComputedId -> nat) (s : State) : Prop :=
  forall c1 subs c2, dep (computeds s c1) = Some subs ->
                     In (SubDeferred c2) subs -> rank c2 < rank c1.

(** Computed 0 is read by computed 1, which is read by computed 2 and by an
    effect; all hold 1 and their getters now give 2. *)
Definition chainState : State :=
mkState
  (fun c => match c with
            | 0 => mkComputed (Some [SubDeferred 1]) (VNumber 1) false true
                              VUndefined false false
            | 1 => mkComputed (Some [SubOther 7; SubDeferred 2]) (VNumber 1)
                              false true VUndefined false false
            | 2 => mkComputed (Some [SubOther 8]) (VNumber 1) false true
                              VUndefined false false
            | _ => newComputed
            end)
  (fun _ => VNumber 2) [] false [].

(** ** The flush callback *)

Lemma notifyDeferred_queue (notify : ComputedId -> State -> option State) :
(forall c s s', notify c s = Some s' -> queue s' = queue s) ->
forall subs s s', notifyDeferred notify subs s = Some s' -> queue s' = queue s.
Proof.
intros Hn. induction subs as [|[c'|e] rest IH]; intros s s'; simpl.
- now intros [= <-].
- destruct (notify c' s) as [s1|] eqn:E; [|discriminate].
  intros H. rewrite (IH _ _ H). eapply Hn; exact E.
- apply IH.
Qed.

(** A notification from upstream ([computedTrigger] true) enqueues nothing. *)
Lemma effectScheduler_upstream_queue : forall fuel c s s',
effectScheduler fuel c true s = Some s' -> queue s' = queue s.
Proof.
induction fuel as [|f IH]; intros c s s'; simpl; [discriminate|].
destruct (dep (computeds s c)) as [subs|].
- match goal with
  | |- match notifyDeferred ?n subs ?s1 with _ => _ end = _ -> _ =>
      destruct (notifyDeferred n subs s1) as [s2|] eqn:E; [|discriminate]
  end.
  intros [= <-]. simpl.
  apply (notifyDeferred_queue _ (fun c0 => IH c0)) in E. exact E.
- now intros [= <-].
Qed.

(** C9: when the scheduler of a deferred computed is called with
  [computedTrigger] false and nothing is scheduled for it yet, the only
  callback it enqueues (it enqueues one when [this.dep] is set, none
  otherwise) carries the snapshot [valueToCompare] taken at that moment.
  At flush time, in whatever state [s2] the callback runs, it calls
  [triggerRefValue(this)] exactly when the effect is still active and
  [_get()] returns a value [!==] to the snapshot; otherwise nothing is
  notified. *)
Theorem flush_callback_notifies fuel c s s1 :
scheduled (computeds s c) = false ->
effectScheduler fuel c false s = Some s1 ->
let valueToCompare :=
  if hasCompareTarget (computeds s c)
  then compareTarget (computeds s c) else _value (computeds s c) in
queue s1 = queue s ++ (match dep (computeds s c) with
                       | Some _ => [FlushCheck c valueToCompare]
                       | None => []
                       end)
/\ forall s2,
     log (runCallback (FlushCheck c valueToCompare) s2)
     = log s2 ++
         (if effect_active (computeds s2 c)
             && negb (strictEquals (fst (_get c s2)) valueToCompare)
          then [TriggerRefValue c] else []).
Proof.
intros Hsch Hrun valueToCompare. split.
- destruct fuel as [|f]; [discriminate|]. simpl in Hrun.
  destruct (dep (computeds s c)) as [subs|] eqn:Hdep.
  + rewrite Hsch in Hrun. cbn [negb] in Hrun.
    match type of Hrun with
    | match notifyDeferred ?n subs ?sx with _ => _ end = _ =>
        destruct (notifyDeferred n subs sx) as [s2|] eqn:E; [|discriminate]
    end.
    injection Hrun as <-. simpl.
    apply (notifyDeferred_queue _ (fun c0 => effectScheduler_upstream_queue f c0)) in E.
    rewrite E. unfold scheduler. simpl.
    destruct (queued s); reflexivity.
  + injection Hrun as <-. simpl. now rewrite app_nil_r.
- intros s2. unfold runCallback.
  destruct (effect_active (computeds s2 c)); simpl.
  + destruct (_get c s2) as [v s'] eqn:Eg. simpl.
    assert (Hl : log s' = log s2).
    { unfold _get in Eg. destruct (_dirty (computeds s2 c));
        injection Eg as _ <-; reflexivity. }
    destruct (strictEquals v valueToCompare); simpl.
    * now rewrite Hl, app_nil_r.
    * now rewrite Hl.
  + now rewrite app_nil_r.
Qed.

Lemma flush_callback_notifies_witness :
exists s1,
  effectScheduler 1 0 false demoState = Some s1
  /\ queue s1 = [FlushCheck 0 (VNumber 1)]
  /\ (forall s2,
        log (runCallback (FlushCheck 0 (VNumber 1)) s2)
        = log s2 ++
            (if effect_active (computeds s2 0)
                && negb (strictEquals (fst (_get 0 s2)) (VNumber 1))
             then [TriggerRefValue 0] else []))
  /\ (exists s3, flush 2 s1 = Some s3
                 /\ log s3 = [TickThenFlush; TriggerRefValue 0]).
Proof.
destruct (effectScheduler 1 0 false demoState) as [s1|] eqn:E;
  [|vm_compute in E; discriminate E].
exists s1. split; [reflexivity|].
pose proof (flush_callback_notifies 1 0 demoState s1 eq_refl E) as [Hq Hcb].
split; [exact Hq|]. split; [exact Hcb|].
vm_compute in E. injection E as <-.
eexists. split; [vm_compute; reflexivity | reflexivity].
Defined.

(** Without a dep (nobody has read the value) the scheduler only marks
  the computed dirty: nothing is enqueued. *)
Lemma effectScheduler_without_dep fuel c computedTrigger s s1 :
dep (computeds s c) = None ->
effectScheduler fuel c computedTrigger s = Some s1 ->
queue s1 = queue s /\ log s1 = log s /\ _dirty (computeds s1 c) = true.
Proof.
intros Hdep. destruct fuel as [|f]; [discriminate|]. simpl. rewrite Hdep.
intros [= <-]. simpl. now rewrite Effect.upd_same.
Qed.


(** ** What the schedulers of the effects keep *)

Lemma Invalidates_refl s : Invalidates s s.
Proof. constructor; auto. Qed.

Lemma Invalidates_trans s1 s2 s3 :
  Invalidates s1 s2 -> Invalidates s2 s3 -> Invalidates s1 s3.
Proof.
  intros [g1 d1 v1 a1 y1 c1] [g2 d2 v2 a2 y2 c2].
  constructor; intros; rewrite ?g2, ?d2, ?v2, ?a2; auto.
Qed.

Lemma Silent_refl s : Silent s s.
Proof. constructor; auto. Qed.

Lemma Silent_trans s1 s2 s3 : Silent s1 s2 -> Silent s2 s3 -> Silent s1 s3.
Proof.
  intros [a1 b1 c1 d1] [a2 b2 c2 d2].
  constructor; intros; rewrite ?a2, ?b2, ?c2, ?d2; auto.
Qed.

Lemma setComputed_Invalidates s c r :
  dep r = dep (computeds s c) ->
  _value r = _value (computeds s c) ->
  effect_active r = effect_active (computeds s c) ->
  (_dirty (computeds s c) = true -> _dirty r = true) ->
  (scheduled (computeds s c) = true -> scheduled r = true) ->
  Invalidates s (setComputed s c r).
Proof.
  intros Hd Hv Ha Hy Hs.
  constructor; simpl; try reflexivity; intros c'; unfold upd;
    destruct (Nat.eqb_spec c' c) as [->|Hne]; auto.
Qed.

Lemma setComputed_Silent s c r :
  scheduled r = scheduled (computeds s c) -> Silent s (setComputed s c r).
Proof.
  intros Hs. constructor; simpl; try reflexivity. intros c'. unfold upd.
  destruct (Nat.eqb_spec c' c) as [->|Hne]; auto.
Qed.

Lemma scheduler_Invalidates fn s : Invalidates s (scheduler fn s).
Proof. unfold scheduler. simpl. destruct (queued s); constructor; auto. Qed.

Lemma notifyDeferred_rel (R : State -> State -> Prop)
    (notify : ComputedId -> State -> option State) :
  (forall s, R s s) ->
  (forall s1 s2 s3, R s1 s2 -> R s2 s3 -> R s1 s3) ->
  (forall c s s', notify c s = Some s' -> R s s') ->
  forall subs s s', notifyDeferred notify subs s = Some s' -> R s s'.
Proof.
  intros Hrefl Htrans Hn.
  induction subs as [|[c'|e] rest IH]; intros s s'; simpl.
  - intros [= <-]. apply Hrefl.
  - destruct (notify c' s) as [s1|] eqn:E; [|discriminate].
    intros H. eapply Htrans; [eapply Hn; exact E | now apply IH].
  - apply IH.
Qed.

Lemma effectScheduler_Invalidates : forall fuel c ct s s',
  effectScheduler fuel c ct s = Some s' -> Invalidates s s'.
Proof.
  induction fuel as [|f IH]; intros c ct s s'; simpl; [discriminate|].
  destruct (dep (computeds s c)) as [subs|] eqn:Hdep.
  - match goal with
    | |- match notifyDeferred ?n subs ?s1 with _ => _ end = _ -> _ =>
        destruct (notifyDeferred n subs s1) as [s2|] eqn:E; [|discriminate];
        assert (H1 : Invalidates s s1)
    end.
    { destruct ct; [|destruct (scheduled (computeds s c)); cbn [negb]].
      - apply setComputed_Invalidates; auto.
      - apply Invalidates_refl.
      - eapply Invalidates_trans; [|apply scheduler_Invalidates].
        apply setComputed_Invalidates; auto. }
    intros [= <-].
    apply (notifyDeferred_rel Invalidates _ Invalidates_refl Invalidates_trans
             (fun c0 => IH c0 true)) in E.
    eapply Invalidates_trans; [exact H1|].
    eapply Invalidates_trans; [exact E|].
    apply setComputed_Invalidates; auto.
  - intros [= <-]. apply setComputed_Invalidates; auto.
Qed.

Lemma effectScheduler_dirty fuel c ct s s' :
  effectScheduler fuel c ct s = Some s' -> _dirty (computeds s' c) = true.
Proof.
  destruct fuel as [|f]; simpl; [discriminate|].
  match goal with
  | |- match ?a with _ => _ end = _ -> _ => destruct a as [s2|]; [|discriminate]
  end.
  intros [= <-]. simpl. now rewrite Effect.upd_same.
Qed.

(** A call from upstream, a call for a computed that is already scheduled,
    and a call for a computed nobody has read enqueue and request nothing. *)
Lemma effectScheduler_Silent : forall fuel c ct s s',
  ct = true \/ scheduled (computeds s c) = true \/ dep (computeds s c) = None ->
  effectScheduler fuel c ct s = Some s' -> Silent s s'.
Proof.
  induction fuel as [|f IH]; intros c ct s s' Hcase; simpl; [discriminate|].
  destruct (dep (computeds s c)) as [subs|] eqn:Hdep.
  - match goal with
    | |- match notifyDeferred ?n subs ?s1 with _ => _ end = _ -> _ =>
        destruct (notifyDeferred n subs s1) as [s2|] eqn:E; [|discriminate];
        assert (H1 : Silent s s1)
    end.
    { destruct ct.
      - apply setComputed_Silent. reflexivity.
      - destruct Hcase as [Hc|[Hc|Hc]]; [discriminate Hc | | discriminate Hc].
        rewrite Hc. apply Silent_refl. }
    intros [= <-].
    apply (notifyDeferred_rel Silent _ Silent_refl Silent_trans
             (fun c0 s0 s0' => IH c0 true s0 s0' (or_introl eq_refl))) in E.
    eapply Silent_trans; [exact H1|].
    eapply Silent_trans; [exact E|].
    apply setComputed_Silent. reflexivity.
  - intros [= <-]. apply setComputed_Silent. reflexivity.
Qed.

(** The first call for a computed that has been read and is not scheduled
    enqueues one callback and marks the computed as scheduled. *)
Lemma effectScheduler_enqueues fuel c s s' :
  dep (computeds s c) <> None ->
  scheduled (computeds s c) = false ->
  effectScheduler fuel c false s = Some s' ->
  exists v,
    queue s' = queue s ++ [FlushCheck c v]
    /\ scheduled (computeds s' c) = true
    /\ queued s' = true
    /\ log s' = log s ++ (if queued s then [] else [TickThenFlush]).
Proof.
  intros Hdep Hsch. destruct fuel as [|f]; simpl; [discriminate|].
  destruct (dep (computeds s c)) as [subs|] eqn:Ed; [|congruence].
  rewrite Hsch. cbn [negb].
  match goal with
  | |- match notifyDeferred ?n subs ?s1 with _ => _ end = _ -> _ =>
      destruct (notifyDeferred n subs s1) as [s2|] eqn:E; [|discriminate];
      set (s1' := s1) in *
  end.
  intros [= <-].
  apply (notifyDeferred_rel Silent _ Silent_refl Silent_trans
           (fun c0 s0 s0' => effectScheduler_Silent f c0 true s0 s0'
                               (or_introl eq_refl))) in E.
  destruct E as [Eq Equeued Elog Esch].
  eexists. cbn [queue queued log setComputed computeds].
  rewrite Effect.upd_same. cbn [scheduled].
  rewrite Eq, Equeued, Elog, Esch. subst s1'. unfold scheduler, emit.
  cbn [queued computeds getter queue log setComputed].
  destruct (queued s); cbn [negb queue queued log computeds];
    rewrite Effect.upd_same; cbn [scheduled];
    repeat split; now rewrite ?app_nil_r.
Qed.

(** ** Invalidation along a chain of computeds *)

Lemma notifyDeferred_dirty f c2 : forall subs s1 s2,
  notifyDeferred (fun c' => effectScheduler f c' true) subs s1 = Some s2 ->
  In (SubDeferred c2) subs -> _dirty (computeds s2 c2) = true.
Proof.
  induction subs as [|[c'|e] rest IH]; intros s1 s2; simpl.
  - intros _ [].
  - destruct (effectScheduler f c' true s1) as [s'|] eqn:E; [|discriminate].
    intros Hn [Heq|Hin].
    + injection Heq as ->.
      apply (notifyDeferred_rel Invalidates _ Invalidates_refl Invalidates_trans
               (fun c0 => effectScheduler_Invalidates f c0 true)) in Hn.
      apply (i_dirty _ _ Hn). eapply effectScheduler_dirty. exact E.
    + now apply (IH s').
  - intros Hn [Heq|Hin]; [discriminate Heq|]. now apply (IH s1).
Qed.

Lemma effectScheduler_downstream_dirty fuel c ct s s' subs c2 :
  effectScheduler fuel c ct s = Some s' ->
  dep (computeds s c) = Some subs -> In (SubDeferred c2) subs ->
  _dirty (computeds s' c2) = true.
Proof.
  destruct fuel as [|f]; simpl; [discriminate|]. intros H Hdep Hin.
  rewrite Hdep in H.
  match type of H with
  | match notifyDeferred ?n subs ?s1 with _ => _ end = _ =>
      destruct (notifyDeferred n subs s1) as [s2|] eqn:E; [|discriminate]
  end.
  injection H as <-.
  pose proof (notifyDeferred_dirty f c2 subs _ s2 E Hin) as Hd.
  simpl. unfold upd. destruct (Nat.eqb_spec c2 c) as [->|Hne]; auto.
Qed.

Section Ranked.

Variable rank : ComputedId -> nat.

Lemma Acyclic_Invalidates s s' :
  Acyclic rank s -> Invalidates s s' -> Acyclic rank s'.
Proof.
  intros Ha Hi c1 subs c2 Hdep. rewrite (i_dep _ _ Hi) in Hdep.
  now apply Ha.
Qed.

Lemma effectScheduler_returns : forall fuel c ct s,
  Acyclic rank s -> rank c < fuel ->
  exists s', effectScheduler fuel c ct s = Some s'.
Proof.
  induction fuel as [|f IH]; intros c ct s Ha Hfuel; [lia|]. simpl.
  destruct (dep (computeds s c)) as [subs|] eqn:Hdep; [|eexists; reflexivity].
  assert (Hsubs : forall c2, In (SubDeferred c2) subs -> rank c2 < f).
  { intros c2 Hin. specialize (Ha c _ c2 Hdep Hin). lia. }
  assert (Hloop : forall subs' s1,
             Acyclic rank s1 ->
             (forall c2, In (SubDeferred c2) subs' -> rank c2 < f) ->
             exists s2, notifyDeferred (fun c' => effectScheduler f c' true)
                                       subs' s1 = Some s2).
  { induction subs' as [|[c'|e] rest IHr]; intros s1 Ha1 Hr; simpl.
    - eexists; reflexivity.
    - destruct (IH c' true s1 Ha1 (Hr c' (or_introl eq_refl))) as [s1' E].
      rewrite E. apply IHr.
      + eapply Acyclic_Invalidates; [exact Ha1|].
        eapply effectScheduler_Invalidates; exact E.
      + intros c2 Hin. apply Hr. now right.
    - apply IHr; [exact Ha1|]. intros c2 Hin. apply Hr. now right. }
  match goal with
  | |- exists s', match notifyDeferred ?n subs ?s1 with _ => _ end = _ =>
      destruct (Hloop subs s1) as [s2 E]
  end.
  - destruct ct; [|destruct (scheduled (computeds s c)); cbn [negb]].
    + eapply Acyclic_Invalidates; [exact Ha|].
      apply setComputed_Invalidates; auto.
    + exact Ha.
    + eapply Acyclic_Invalidates; [exact Ha|].
      eapply Invalidates_trans; [|apply scheduler_Invalidates].
      apply setComputed_Invalidates; auto.
  - exact Hsubs.
  - rewrite E. eexists; reflexivity.
Qed.

End Ranked.

Lemma _get_of_dirty c s :
  _dirty (computeds s c) = true -> fst (_get c s) = getter s c.
Proof. intros H. unfold _get. now rewrite H. Qed.

(** X25: where the computeds read one another without a cycle, the
    scheduler of the effect of a computed returns, whatever its argument.
    Afterwards the computed and every deferred computed that reads it are
    dirty, so that a read of any of them right away gives what its getter
    computes and not the cached value; no getter and no cached value has
    changed, and a computed that was dirty is still dirty. *)
Theorem effectScheduler_invalidates_chain rank fuel c ct s :
  Acyclic rank s -> rank c < fuel ->
  exists s',
    effectScheduler fuel c ct s = Some s'
    /\ fst (_get c s') = getter s c
    /\ (forall subs c2, dep (computeds s c) = Some subs ->
                        In (SubDeferred c2) subs ->
                        fst (_get c2 s') = getter s c2)
    /\ (forall c3, _dirty (computeds s c3) = true ->
                   _dirty (computeds s' c3) = true)
    /\ (forall c3, _value (computeds s' c3) = _value (computeds s c3))
    /\ getter s' = getter s.
Proof.
  intros Ha Hfuel.
  destruct (effectScheduler_returns rank fuel c ct s Ha Hfuel) as [s' E].
  pose proof (effectScheduler_Invalidates fuel c ct s s' E) as Hi.
  exists s'. split; [exact E|]. split; [|split; [|split; [|split]]].
  - rewrite _get_of_dirty by (eapply effectScheduler_dirty; exact E).
    now rewrite (i_getter _ _ Hi).
  - intros subs c2 Hdep Hin.
    rewrite _get_of_dirty
      by (eapply effectScheduler_downstream_dirty; [exact E | exact Hdep | exact Hin]).
    now rewrite (i_getter _ _ Hi).
  - apply (i_dirty _ _ Hi).
  - apply (i_value _ _ Hi).
  - apply (i_getter _ _ Hi).
Qed.

Lemma effectScheduler_invalidates_chain_witness :
  exists s',
    effectScheduler 4 0 false chainState = Some s'
    /\ fst (_get 0 s') = VNumber 2
    /\ fst (_get 1 s') = VNumber 2
    /\ fst (_get 1 chainState) = VNumber 1.
Proof.
  destruct (effectScheduler_invalidates_chain (fun c => 3 - c) 4 0 false chainState)
    as (s' & E & H0 & H1 & _).
  - intros c1 subs c2. destruct c1 as [|[|[|c1]]]; simpl; intros [= <-];
      simpl; intros H; repeat (destruct H as [H|H]; try discriminate H);
      try contradiction; injection H as <-; simpl; lia.
  - simpl. lia.
  - exists s'. split; [exact E|]. split; [exact H0|]. split; [|reflexivity].
    apply (H1 [SubDeferred 1] 1 eq_refl). now left.
Defined.

(** ** One flush for many callbacks *)

(** X26: however many callbacks are handed to [scheduler] in a row, they
    are appended to the queue in order and a flush is requested once, and
    only if none was requested already. *)
Theorem scheduler_requests_one_flush (fns : list Callback) (s : State) :
  let s' := fold_left (fun st fn => scheduler fn st) fns s in
  queue s' = queue s ++ fns
  /\ queued s' = (queued s || negb (length fns =? 0))
  /\ log s' = log s ++ (if queued s || (length fns =? 0) then []
                        else [TickThenFlush])
  /\ computeds s' = computeds s.
Proof.
  cbv zeta. revert s. induction fns as [|fn rest IH]; intros s.
  - simpl. rewrite orb_false_r, orb_true_r, !app_nil_r. repeat split.
  - cbn [fold_left length Nat.eqb negb]. rewrite orb_true_r, orb_false_r.
    destruct (IH (scheduler fn s)) as (Hq & Hd & Hl & Hc).
    rewrite Hq, Hd, Hl, Hc. unfold scheduler, emit.
    cbn [queued queue log computeds getter].
    destruct (queued s); cbn [negb queue queued log computeds orb];
      rewrite <- ?app_assoc; repeat split; now rewrite ?app_nil_r.
Qed.

(** ** One callback for many triggers *)

Lemma triggerTimes_scheduled fuel c : forall cts s s',
  scheduled (computeds s c) = true ->
  triggerTimes fuel c cts s = Some s' -> Silent s s'.
Proof.
  induction cts as [|ct rest IH]; intros s s' Hsch; simpl.
  - intros [= <-]. apply Silent_refl.
  - destruct (effectScheduler fuel c ct s) as [s1|] eqn:E; [|discriminate].
    intros H.
    pose proof (effectScheduler_Silent fuel c ct s s1
                  (or_intror (or_introl Hsch)) E) as H1.
    eapply Silent_trans; [exact H1|]. apply IH; [|exact H].
    now rewrite (q_scheduled _ _ H1).
Qed.

(** X27: the scheduler of the effect of a computed that has been read and
    for which nothing is scheduled, called any number of times before the
    next flush: the calls enqueue one callback for the computed if one of
    them at least comes from a change of what the computed reads
    ([computedTrigger] false), none otherwise; at most one flush is
    requested. *)
Theorem triggers_enqueue_one_callback fuel c cts s s' :
  dep (computeds s c) <> None ->
  scheduled (computeds s c) = false ->
  triggerTimes fuel c cts s = Some s' ->
  exists v,
    queue s' = queue s ++ (if existsb negb cts then [FlushCheck c v] else [])
    /\ scheduled (computeds s' c) = existsb negb cts
    /\ log s' = log s ++ (if existsb negb cts && negb (queued s)
                          then [TickThenFlush] else []).
Proof.
  revert s. induction cts as [|ct rest IH]; intros s Hdep Hsch; simpl.
  - intros [= <-]. exists VUndefined. now rewrite !app_nil_r.
  - destruct (effectScheduler fuel c ct s) as [s1|] eqn:E; [|discriminate].
    intros H. destruct ct; cbn [negb orb].
    + pose proof (effectScheduler_Silent fuel c true s s1 (or_introl eq_refl) E)
        as [Hq Hqd Hl Hs].
      pose proof (effectScheduler_Invalidates fuel c true s s1 E) as Hi.
      destruct (IH s1) as (v & Hq' & Hs' & Hl'); [| |exact H|].
      * now rewrite (i_dep _ _ Hi).
      * now rewrite Hs.
      * exists v. now rewrite Hq', Hs', Hl', Hq, Hqd, Hl.
    + destruct (effectScheduler_enqueues fuel c s s1 Hdep Hsch E)
        as (v & Hq & Hs & Hqd & Hl).
      pose proof (triggerTimes_scheduled fuel c rest s1 s' Hs H)
        as [Hq' Hqd' Hl' Hs'].
      exists v. rewrite Hq', Hl', Hs', Hq, Hl, Hs.
      destruct (queued s); simpl; repeat split; reflexivity.
Qed.

Lemma triggers_enqueue_one_callback_witness :
  exists s',
    triggerTimes 4 1 [true; false; false; true] chainState = Some s'
    /\ queue s' = [FlushCheck 1 (VNumber 1)]
    /\ log s' = [TickThenFlush].
Proof.
  destruct (triggerTimes 4 1 [true; false; false; true] chainState)
    as [s'|] eqn:E; [|vm_compute in E; discriminate E].
  destruct (triggers_enqueue_one_callback 4 1 [true; false; false; true]
              chainState s') as (v & Hq & _ & Hl).
  - discriminate.
  - reflexivity.
  - exact E.
  - exists s'. split; [reflexivity|]. split; [|exact Hl].
    vm_compute in E. injection E as <-. reflexivity.
Defined.

(** ** The flush *)

Lemma runCallback_frame cb s :
  queue (runCallback cb s) = queue s
  /\ getter (runCallback cb s) = getter s
  /\ queued (runCallback cb s) = queued s
  /\ (forall c, scheduled (computeds s c) = false ->
                scheduled (computeds (runCallback cb s) c) = false)
  /\ (forall c v, cb = FlushCheck c v ->
                  scheduled (computeds (runCallback cb s) c) = false).
Proof.
  destruct cb as [c0 v0]. unfold runCallback.
  set (s1 := if effect_active (computeds s c0)
             then let '(v, s') := _get c0 s in
                  if negb (strictEquals v v0) then triggerRefValue c0 s' else s'
             else s).
  assert (H1 : queue s1 = queue s /\ getter s1 = getter s /\ queued s1 = queued s
               /\ forall c, scheduled (computeds s1 c) = scheduled (computeds s c)).
  { subst s1. destruct (effect_active (computeds s c0)); [|repeat split].
    unfold _get. destruct (_dirty (computeds s c0)).
    - destruct (negb (strictEquals (getter s c0) v0)); simpl;
        (repeat split; intros c; unfold upd;
         destruct (Nat.eqb_spec c c0) as [->|Hne]; reflexivity).
    - destruct (negb (strictEquals (_value (computeds s c0)) v0)); simpl;
        repeat split. }
  destruct H1 as (Hq & Hg & Hqd & Hs). simpl. repeat split; try assumption.
  - intros c Hc. unfold upd. destruct (Nat.eqb_spec c c0) as [->|Hne];
      [reflexivity|]. now rewrite Hs.
  - intros c v [= -> _]. now rewrite Effect.upd_same.
Qed.

Lemma flushLoop_releases : forall k fuel i s,
  length (queue s) - i = k -> k < fuel ->
  exists s',
    flushLoop fuel i s = Some s'
    /\ queue s' = queue s /\ getter s' = getter s
    /\ (forall c, scheduled (computeds s c) = false ->
                  scheduled (computeds s' c) = false)
    /\ (forall c v, In (FlushCheck c v) (skipn i (queue s)) ->
                    scheduled (computeds s' c) = false).
Proof.
  induction k as [|k IH]; intros fuel i s Hk Hfuel;
    (destruct fuel as [|f]; [lia|]); simpl.
  - assert (Hge : (i <? length (queue s)) = false) by (apply Nat.ltb_ge; lia).
    rewrite Hge. exists s. repeat split; auto.
    intros c v Hin. rewrite skipn_all2 in Hin by lia. destruct Hin.
  - assert (Hlt : (i <? length (queue s)) = true) by (apply Nat.ltb_lt; lia).
    rewrite Hlt.
    destruct (nth_error (queue s) i) as [cb|] eqn:En;
      [|apply nth_error_None in En; lia].
    destruct (runCallback_frame cb s) as (Hq & Hg & _ & Hmono & Hown).
    destruct (IH f (i + 1) (runCallback cb s)) as (s' & E & Hq' & Hg' & Hm' & Hin');
      [rewrite Hq; lia | lia |].
    exists s'. split; [exact E|]. split; [congruence|]. split; [congruence|].
    split.
    + intros c Hc. apply Hm'. now apply Hmono.
    + intros c v Hin.
      assert (Hsk : skipn i (queue s) = cb :: skipn (i + 1) (queue s)).
      { clear -En. revert i En. induction (queue s) as [|x l IHl]; intros i En.
        - destruct i; discriminate En.
        - destruct i as [|i]; simpl in *.
          + now injection En as ->.
          + now apply IHl. }
      rewrite Hsk in Hin. destruct Hin as [->|Hin].
      * apply Hm'. eapply Hown. reflexivity.
      * apply (Hin' c v). now rewrite Hq.
Qed.

(** X28: [flush] returns once it has gone through the queue
    ([triggerRefValue] being the recorded notification, without what the
    notified effects go on to do).  Afterwards the queue is empty, the lock
    [queued] is released, and no computed that had a callback in the queue
    is scheduled any more, so that the next trigger of each of them
    enqueues a callback again; the getters are as before. *)
Theorem flush_releases fuel s :
  length (queue s) < fuel ->
  exists s',
    flush fuel s = Some s'
    /\ queue s' = [] /\ queued s' = false
    /\ (forall c v, In (FlushCheck c v) (queue s) ->
                    scheduled (computeds s' c) = false)
    /\ (forall c, scheduled (computeds s c) = false ->
                  scheduled (computeds s' c) = false)
    /\ getter s' = getter s.
Proof.
  intros Hfuel.
  destruct (flushLoop_releases (length (queue s)) fuel 0 s)
    as (s1 & E & _ & Hg & Hmono & Hin); [lia | exact Hfuel |].
  unfold flush. rewrite E. eexists. split; [reflexivity|].
  simpl. repeat split; auto.
Qed.

Lemma flush_releases_witness :
  exists s1 s2 s3,
    effectScheduler 4 1 false chainState = Some s1
    /\ flush 2 s1 = Some s2
    /\ queue s2 = [] /\ queued s2 = false
    /\ scheduled (computeds s1 1) = true
    /\ scheduled (computeds s2 1) = false
    /\ effectScheduler 4 1 false s2 = Some s3
    /\ length (queue s3) = 1.
Proof.
  destruct (effectScheduler 4 1 false chainState) as [s1|] eqn:E1;
    [|vm_compute in E1; discriminate E1].
  assert (Hs1 : queue s1 = [FlushCheck 1 (VNumber 1)]
                /\ scheduled (computeds s1 1) = true).
  { vm_compute in E1. injection E1 as <-. split; reflexivity. }
  destruct Hs1 as [Hq1 Hsch1].
  destruct (flush_releases 2 s1) as (s2 & E2 & Hq & Hqd & Hin & _ & _).
  - rewrite Hq1. simpl. lia.
  - destruct (effectScheduler 4 1 false s2) as [s3|] eqn:E3.
    + exists s1, s2, s3. repeat split; try assumption; try reflexivity.
      * apply (Hin 1 (VNumber 1)). rewrite Hq1. now left.
      * vm_compute in E1. injection E1 as <-.
        vm_compute in E2. injection E2 as <-.
        vm_compute in E3. injection E3 as <-. reflexivity.
    + exfalso. vm_compute in E1. injection E1 as <-.
      vm_compute in E2. injection E2 as <-.
      vm_compute in E3. discriminate E3.
Defined.

End DeferredComputed.
